(** * SectionFlow core: a shallow embedding and its verified properties

    The development follows the TypeScript sources of the windowing and
    recycling core:

    - [src/types.ts]                         records and enumerations
    - [src/constants.ts]                     default configuration values
    - [src/core/LayoutCache.ts]              module [LayoutCache]
    - [src/utils/flattenSections.ts]         module [Flatten]
    - [src/core/LinearLayoutPositioner.ts]   module [Positioner]
    - [src/core/SectionLayoutManager.ts]     module [Manager]
    - [src/core/CellRecycler.ts]             module [Recycler]
    - [src/core/ViewabilityTracker.ts]       module [Viewability]
    - [src/utils/binarySearch.ts]            module [BinarySearch]
    - [src/utils/keyExtractor.ts]            module [KeyExtractor]
    - [src/hooks/useStickyHeader.ts]         module [StickyHeader]
    - [src/hooks/useLayoutMeasurement.ts]    module [ProgressiveRender]
    - [src/hooks/useScrollHandler.ts]        module [ScrollHandler]

    Conventions of the embedding.

    - A JavaScript [number] that holds a size, an offset or a percentage is
      an exact rational ([Qc]); rounding, NaN and the infinities of IEEE
      doubles are outside the model.  Numbers that the code only uses as
      array indices, counters or millisecond timestamps are integers ([Z]).
    - A JavaScript array is a [list]; reading [a[i]] is [lookupZ], which is
      [None] (the code's [undefined]) for a negative or too large index.
    - A [Map] keyed by strings or numbers is a [gmap]; a [Set] of strings
      is a [gset].
    - Objects are mutated in place in the source; the embedding threads the
      state explicitly and every method returns the new state. *)

From Stdlib Require Import QArith Qcanon Ascii Lqa.
From stdpp Require Import base numbers list strings gmap pretty sorting.

Set Warnings "-clear-no-such-hyp".

(* ================================================================== *)
(** * Definitions *)
(* ================================================================== *)

(** ** JavaScript array access *)

Definition lookupZ {A} (l : list A) (i : Z) : option A :=
  if bool_decide (0 ≤ i)%Z then l !! Z.to_nat i else None.

Definition lengthZ {A} (l : list A) : Z := Z.of_nat (length l).

(** ** src/types.ts

    [FlattenedItem] has a field [key] like [Section]; it is [fkey] here. *)

Module Types.

Record LayoutRect := mkRect {
  x : Qc;
  y : Qc;
  width : Qc;
  height : Qc;
}.

Global Instance LayoutRect_eq_dec : EqDecision LayoutRect.
Proof. solve_decision. Defined.

Record Section (T : Type) := mkSection {
  key : string;
  data : list T;
}.
Global Arguments mkSection {T} _ _.
Global Arguments key {T} _.
Global Arguments data {T} _.

Inductive FlattenedItemType := SectionHeader | Item | SectionFooter.

Global Instance FlattenedItemType_eq_dec : EqDecision FlattenedItemType.
Proof. solve_decision. Defined.

(** [itemIndex] is [-1] for headers and footers and [item] is [None]
    (the source's [null]) for them. *)
Record FlattenedItem (T : Type) := mkFlat {
  type : FlattenedItemType;
  fkey : string;
  sectionKey : string;
  sectionIndex : Z;
  itemIndex : Z;
  item : option T;
  section : Section T;
}.
Global Arguments mkFlat {T} _ _ _ _ _ _ _.
Global Arguments type {T} _.
Global Arguments fkey {T} _.
Global Arguments sectionKey {T} _.
Global Arguments sectionIndex {T} _.
Global Arguments itemIndex {T} _.
Global Arguments item {T} _.
Global Arguments section {T} _.

Record RecycledCell := mkCell {
  cellKey : string;
  itemType : string;
  flatIndex : Z;
}.

Global Instance RecycledCell_eq_dec : EqDecision RecycledCell.
Proof. solve_decision. Defined.

Record RecyclePool := mkPool {
  poolType : string;
  cells : list RecycledCell;
  maxSize : Z;
}.

Record ViewToken (T : Type) := mkToken {
  tokenItem : option T;
  tokenKey : string;
  index : Z;
  isViewable : bool;
  tokenSection : option (Section T);
}.
Global Arguments mkToken {T} _ _ _ _ _.
Global Arguments tokenItem {T} _.
Global Arguments tokenKey {T} _.
Global Arguments index {T} _.
Global Arguments isViewable {T} _.
Global Arguments tokenSection {T} _.


(** [SectionLayoutInfo] of [src/types.ts]. *)
Module SectionLayoutInfo.
Record t := mk {
  sectionKey : string;
  sectionIndex : Z;
  headerLayout : LayoutRect;
  footerLayout : option LayoutRect;
  itemsStartOffset : Qc;
  itemsEndOffset : Qc;
  itemCount : Z;
  isCollapsed : bool;
}.
End SectionLayoutInfo.

End Types.
Export Types.

(** ** src/constants.ts *)

Definition DEFAULT_ESTIMATED_ITEM_SIZE : Qc := Qc_of_Z 50.
Definition DEFAULT_ESTIMATED_HEADER_SIZE : Qc := Qc_of_Z 40.
Definition DEFAULT_ESTIMATED_FOOTER_SIZE : Qc := Qc_of_Z 0.
Definition DEFAULT_MAX_POOL_SIZE : Z := 10.
Definition DEFAULT_ITEM_TYPE : string := "default".
Definition SECTION_HEADER_TYPE : string := "__section_header__".
Definition SECTION_FOOTER_TYPE : string := "__section_footer__".

(** ** src/core/LayoutCache.ts *)

Module LayoutCache.

Record TypeStats := mkStats {
  totalSize : Qc;
  count : Z;
}.

Record t := mk {
  cache : gmap string LayoutRect;
  typeStats : gmap string TypeStats;
}.

(** [createLayoutCache()] *)
Definition create : t := mk ∅ ∅.

Definition get (c : t) (k : string) : option LayoutRect := cache c !! k.

Definition set (c : t) (k : string) (layout : LayoutRect) : t :=
  mk (<[k := layout]> (cache c)) (typeStats c).

Definition has (c : t) (k : string) : bool := bool_decide (is_Some (cache c !! k)).

Definition delete (c : t) (k : string) : t :=
  mk (base.delete k (cache c)) (typeStats c).

Definition clear (c : t) : t := mk ∅ ∅.

(** The [keyToIndexMap] argument is iterated in insertion order; every
    key whose index is at least [flatIndex] is deleted from the cache. *)
Definition invalidateFrom (c : t) (flatIndex : Z) (keyToIndexMap : list (string * Z)) : t :=
  foldl (λ c' '(k, index), if bool_decide (flatIndex ≤ index)%Z then delete c' k else c')
        c keyToIndexMap.

Definition getAverageSize (c : t) (itemType : string) : option Qc :=
  match typeStats c !! itemType with
  | None => None
  | Some stats =>
      if bool_decide (count stats = 0%Z) then None
      else Some (totalSize stats / Qc_of_Z (count stats))%Qc
  end.

(** The statistics object is created on first use and then updated in
    place; in the map this is one insertion of the updated record. *)
Definition recordMeasurement (c : t) (itemType : string) (size : Qc) : t :=
  let stats := default (mkStats 0%Qc 0%Z) (typeStats c !! itemType) in
  mk (cache c)
     (<[itemType := mkStats (totalSize stats + size)%Qc (count stats + 1)%Z]> (typeStats c)).

Definition size (c : t) : Z := Z.of_nat (base.size (cache c)).

(** A call of one of the mutating methods of the interface. *)
Inductive Call :=
| CSet (k : string) (layout : LayoutRect)
| CDelete (k : string)
| CClear
| CInvalidateFrom (flatIndex : Z) (keyToIndexMap : list (string * Z))
| CRecordMeasurement (itemType : string) (size : Qc).

Definition call (c : t) (op : Call) : t :=
  match op with
  | CSet k layout => set c k layout
  | CDelete k => delete c k
  | CClear => clear c
  | CInvalidateFrom i m => invalidateFrom c i m
  | CRecordMeasurement ty s => recordMeasurement c ty s
  end.

Definition run (c : t) (ops : list Call) : t := foldl call c ops.

(** What the contract talks about: the sizes recorded for a type since
    the last [clear], in the order of recording, and their mean. *)
Definition recordedStep (ty : string) (acc : list Qc) (op : Call) : list Qc :=
  match op with
  | CClear => []
  | CRecordMeasurement ty' s => if bool_decide (ty' = ty) then acc ++ [s] else acc
  | _ => acc
  end.

Definition recordedSinceClear (ty : string) (ops : list Call) : list Qc :=
  foldl (recordedStep ty) [] ops.

Definition total (sizes : list Qc) : Qc := foldl Qcplus 0%Qc sizes.

Definition mean (sizes : list Qc) : Qc :=
  (total sizes / Qc_of_Z (lengthZ sizes))%Qc.

(** The statistics stored for a type describe exactly the sizes recorded
    for it since the last [clear]. *)
Definition statsDescribe (o : option TypeStats) (sizes : list Qc) : Prop :=
  match o with
  | None => sizes = []
  | Some st => sizes ≠ [] ∧ totalSize st = total sizes ∧ count st = lengthZ sizes
  end.

End LayoutCache.

(** ** src/utils/flattenSections.ts *)

Module Flatten.

Record FlattenOptions := mkOptions {
  collapsedSections : option (gset string);
  includeSectionFooters : option bool;
}.

Section flatten.
Context {T : Type}.

(** The inner [for] loop over [section.data], from [itemIndex] on. *)
Fixpoint pushItems (sec : Section T) (sectionIndex itemIndex : Z) (rest : list T)
    (result : list (FlattenedItem T)) : list (FlattenedItem T) :=
  match rest with
  | [] => result
  | d :: rest' =>
      pushItems sec sectionIndex (itemIndex + 1) rest'
        (result ++ [ {| type := Item;
                        fkey := "item-" +:+ key sec +:+ "-" +:+ pretty itemIndex;
                        sectionKey := key sec;
                        sectionIndex := sectionIndex;
                        itemIndex := itemIndex;
                        item := Some d;
                        section := sec |} ])
  end.

(** The outer [for] loop over [sections], from [sectionIndex] on. *)
Fixpoint flattenLoop (collapsed : gset string) (footers : bool) (sectionIndex : Z)
    (rest : list (Section T)) (result : list (FlattenedItem T)) : list (FlattenedItem T) :=
  match rest with
  | [] => result
  | sec :: rest' =>
      let isCollapsed := bool_decide (key sec ∈ collapsed) in
      let result :=
        result ++ [ {| type := SectionHeader;
                       fkey := "header-" +:+ key sec;
                       sectionKey := key sec;
                       sectionIndex := sectionIndex;
                       itemIndex := (-1);
                       item := None;
                       section := sec |} ] in
      let result :=
        if isCollapsed then result
        else
          let result := pushItems sec sectionIndex 0 (data sec) result in
          if footers then
            result ++ [ {| type := SectionFooter;
                           fkey := "footer-" +:+ key sec;
                           sectionKey := key sec;
                           sectionIndex := sectionIndex;
                           itemIndex := (-1);
                           item := None;
                           section := sec |} ]
          else result in
      flattenLoop collapsed footers (sectionIndex + 1) rest' result
  end.

Definition flattenSections (sections : list (Section T)) (options : FlattenOptions)
    : list (FlattenedItem T) :=
  let collapsed := default ∅ (collapsedSections options) in
  let footers := default false (includeSectionFooters options) in
  flattenLoop collapsed footers 0 sections [].

(** The stand-alone [getFlatIndex] of the utilities.  Reading [.key] of a
    section that does not exist throws; that is [None] here.  The first
    loop runs over [i = 0 .. sectionIndex - 1]; the target section is
    read only when [itemIndex >= 0]. *)
Fixpoint countBefore (sections : list (Section T)) (collapsed : gset string) (footers : bool)
    (i : Z) (n : nat) (flatIndex : Z) : option Z :=
  match n with
  | O => Some flatIndex
  | S n' =>
      sec ← lookupZ sections i;
      let flatIndex := (flatIndex + 1)%Z in
      let flatIndex :=
        if bool_decide (key sec ∈ collapsed) then flatIndex
        else
          let flatIndex := (flatIndex + lengthZ (data sec))%Z in
          if footers then (flatIndex + 1)%Z else flatIndex in
      countBefore sections collapsed footers (i + 1) n' flatIndex
  end.

Definition getFlatIndex (sections : list (Section T)) (sectionIndex itemIndex : Z)
    (collapsed : gset string) (footers : bool) : option Z :=
  flatIndex ← countBefore sections collapsed footers 0 (Z.to_nat sectionIndex) 0;
  let flatIndex := (flatIndex + 1)%Z in
  if bool_decide (0 ≤ itemIndex)%Z then
    sec ← lookupZ sections sectionIndex;
    if bool_decide (key sec ∈ collapsed) then Some flatIndex
    else Some (flatIndex + itemIndex)%Z
  else Some flatIndex.

End flatten.

(** The result of [getSectionItemFromFlatIndex]; its [type] is one of
    ['header'], ['item'] and ['footer']. *)
Inductive PositionType := Header | ItemPosition | Footer.

Record Position := mkPosition {
  p_sectionIndex : Z;
  p_itemIndex : Z;
  p_type : PositionType;
}.

Section flatten.
Context {T : Type}.

(** The inner loop of [getSectionItemFromFlatIndex] over [section.data],
    from [itemIndex] on: the item index found, or the flat index reached
    at the end of the loop. *)
Fixpoint checkItems (rest : list T) (itemIndex currentFlatIndex flatIndex : Z) : Z + Z :=
  match rest with
  | [] => inr currentFlatIndex
  | _ :: rest' =>
      if bool_decide (currentFlatIndex = flatIndex) then inl itemIndex
      else checkItems rest' (itemIndex + 1) (currentFlatIndex + 1) flatIndex
  end.

(** The outer loop, from [sectionIndex] on. *)
Fixpoint findLoop (collapsed : gset string) (footers : bool) (sectionIndex : Z)
    (rest : list (Section T)) (currentFlatIndex flatIndex : Z) : option Position :=
  match rest with
  | [] => None
  | sec :: rest' =>
      let isCollapsed := bool_decide (key sec ∈ collapsed) in
      if bool_decide (currentFlatIndex = flatIndex)
      then Some (mkPosition sectionIndex (-1) Header)
      else
        let currentFlatIndex := (currentFlatIndex + 1)%Z in
        if isCollapsed
        then findLoop collapsed footers (sectionIndex + 1) rest' currentFlatIndex flatIndex
        else
          match checkItems (data sec) 0 currentFlatIndex flatIndex with
          | inl itemIndex => Some (mkPosition sectionIndex itemIndex ItemPosition)
          | inr currentFlatIndex =>
              if footers then
                if bool_decide (currentFlatIndex = flatIndex)
                then Some (mkPosition sectionIndex (-1) Footer)
                else findLoop collapsed footers (sectionIndex + 1) rest'
                              (currentFlatIndex + 1) flatIndex
              else findLoop collapsed footers (sectionIndex + 1) rest' currentFlatIndex flatIndex
          end
  end.

Definition getSectionItemFromFlatIndex (sections : list (Section T)) (flatIndex : Z)
    (collapsed : gset string) (footers : bool) : option Position :=
  findLoop collapsed footers 0 sections 0 flatIndex.

End flatten.

End Flatten.

(** ** src/core/LinearLayoutPositioner.ts *)

Module Positioner.

Record Options := mkOptions {
  o_horizontal : option bool;
  o_estimatedItemSize : option Qc;
  o_estimatedHeaderSize : option Qc;
  o_estimatedFooterSize : option Qc;
  o_containerWidth : option Qc;
  o_containerHeight : option Qc;
}.

Definition noOptions : Options := mkOptions None None None None None None.

Record ContentSize := mkSize { c_width : Qc; c_height : Qc }.

Record VisibleRange := mkRange { startIndex : Z; endIndex : Z }.

(** The positioner holds a reference to the layout cache it shares with
    its owner; the one cache object is a field of the state here. *)
Record t (T : Type) := mk {
  horizontal : bool;
  estimatedItemSize : Qc;
  estimatedHeaderSize : Qc;
  estimatedFooterSize : Qc;
  containerWidth : Qc;
  containerHeight : Qc;
  flattenedData : list (FlattenedItem T);
  layoutCache : LayoutCache.t;
  getItemType : Z → string;
  computedLayouts : gmap Z LayoutRect;
  totalContentSize : ContentSize;
  layoutsValid : bool;
}.
Global Arguments mk {T} _ _ _ _ _ _ _ _ _ _ _ _.
Global Arguments horizontal {T} _.
Global Arguments estimatedItemSize {T} _.
Global Arguments estimatedHeaderSize {T} _.
Global Arguments estimatedFooterSize {T} _.
Global Arguments containerWidth {T} _.
Global Arguments containerHeight {T} _.
Global Arguments flattenedData {T} _.
Global Arguments layoutCache {T} _.
Global Arguments getItemType {T} _.
Global Arguments computedLayouts {T} _.
Global Arguments totalContentSize {T} _.
Global Arguments layoutsValid {T} _.

Section positioner.
Context {T : Type}.
Implicit Types p : t T.

Definition create (cache : LayoutCache.t) (getItemType : Z → string) (options : Options) : t T :=
  {| horizontal := default false (o_horizontal options);
     estimatedItemSize := default DEFAULT_ESTIMATED_ITEM_SIZE (o_estimatedItemSize options);
     estimatedHeaderSize := default DEFAULT_ESTIMATED_HEADER_SIZE (o_estimatedHeaderSize options);
     estimatedFooterSize := default DEFAULT_ESTIMATED_FOOTER_SIZE (o_estimatedFooterSize options);
     containerWidth := default 0%Qc (o_containerWidth options);
     containerHeight := default 0%Qc (o_containerHeight options);
     flattenedData := [];
     layoutCache := cache;
     getItemType := getItemType;
     computedLayouts := ∅;
     totalContentSize := mkSize 0 0;
     layoutsValid := false |}.

(** Field updates of the mutable object. *)
Definition withLayouts p (m : gmap Z LayoutRect) (valid : bool) : t T :=
  mk (horizontal p) (estimatedItemSize p) (estimatedHeaderSize p) (estimatedFooterSize p)
     (containerWidth p) (containerHeight p) (flattenedData p) (layoutCache p) (getItemType p)
     m (totalContentSize p) valid.

Definition withTotal p (total : ContentSize) : t T :=
  mk (horizontal p) (estimatedItemSize p) (estimatedHeaderSize p) (estimatedFooterSize p)
     (containerWidth p) (containerHeight p) (flattenedData p) (layoutCache p) (getItemType p)
     (computedLayouts p) total (layoutsValid p).

Definition withData p (d : list (FlattenedItem T)) : t T :=
  mk (horizontal p) (estimatedItemSize p) (estimatedHeaderSize p) (estimatedFooterSize p)
     (containerWidth p) (containerHeight p) d (layoutCache p) (getItemType p)
     (computedLayouts p) (totalContentSize p) (layoutsValid p).

Definition withContainer p (w h : Qc) : t T :=
  mk (horizontal p) (estimatedItemSize p) (estimatedHeaderSize p) (estimatedFooterSize p)
     w h (flattenedData p) (layoutCache p) (getItemType p)
     (computedLayouts p) (totalContentSize p) (layoutsValid p).

Definition withCache p (c : LayoutCache.t) : t T :=
  mk (horizontal p) (estimatedItemSize p) (estimatedHeaderSize p) (estimatedFooterSize p)
     (containerWidth p) (containerHeight p) (flattenedData p) c (getItemType p)
     (computedLayouts p) (totalContentSize p) (layoutsValid p).

Definition withGetItemType p (f : Z → string) : t T :=
  mk (horizontal p) (estimatedItemSize p) (estimatedHeaderSize p) (estimatedFooterSize p)
     (containerWidth p) (containerHeight p) (flattenedData p) (layoutCache p) f
     (computedLayouts p) (totalContentSize p) (layoutsValid p).

Definition invalidateAll p : t T := withLayouts p ∅ false.

Definition setData p (d : list (FlattenedItem T)) : t T := invalidateAll (withData p d).

Definition setContainerSize p (w h : Qc) : t T :=
  if bool_decide (containerWidth p ≠ w) || bool_decide (containerHeight p ≠ h)
  then invalidateAll (withContainer p w h)
  else p.

Definition getEstimatedSize p (flatIndex : Z) : Qc :=
  match lookupZ (flattenedData p) flatIndex with
  | None => estimatedItemSize p
  | Some it =>
      let itemType := getItemType p flatIndex in
      match LayoutCache.getAverageSize (layoutCache p) itemType with
      | Some avgSize => avgSize
      | None =>
          match type it with
          | SectionHeader => estimatedHeaderSize p
          | SectionFooter => estimatedFooterSize p
          | Item => estimatedItemSize p
          end
      end
  end.

Definition getItemSize p (flatIndex : Z) : Qc :=
  match lookupZ (flattenedData p) flatIndex with
  | None => estimatedItemSize p
  | Some it =>
      match LayoutCache.get (layoutCache p) (fkey it) with
      | Some cached => if horizontal p then width cached else height cached
      | None => getEstimatedSize p flatIndex
      end
  end.

Definition crossAxisSize p : Qc :=
  if horizontal p then containerHeight p else containerWidth p.

(** One iteration of the loop of [ensureLayoutsComputed]: the state is the
    map filled so far and the running [offset]. *)
Definition layoutStep p (acc : gmap Z LayoutRect * Qc) (i : Z) : gmap Z LayoutRect * Qc :=
  let '(m, offset) := acc in
  let size := getItemSize p i in
  let layout :=
    if horizontal p
    then {| x := offset; y := 0; width := size; height := crossAxisSize p |}
    else {| x := 0; y := offset; width := crossAxisSize p; height := size |} in
  (<[i := layout]> m, (offset + size)%Qc).

Definition layoutLoop p : gmap Z LayoutRect * Qc :=
  foldl (layoutStep p) (∅, 0%Qc) (seqZ 0 (lengthZ (flattenedData p))).

Definition ensureLayoutsComputed p : t T :=
  if layoutsValid p then p
  else
    let '(m, offset) := layoutLoop p in
    let total :=
      if horizontal p then mkSize offset (crossAxisSize p)
      else mkSize (crossAxisSize p) offset in
    withLayouts (withTotal p total) m true.

Definition zeroRect : LayoutRect := {| x := 0; y := 0; width := 0; height := 0 |}.

(** Queries return their result together with the state in which the
    lazily computed layouts are stored. *)
Definition getLayoutForIndex p (index : Z) : LayoutRect * t T :=
  let p := ensureLayoutsComputed p in
  (default zeroRect (computedLayouts p !! index), p).

Definition getContentSize p : ContentSize * t T :=
  let p := ensureLayoutsComputed p in
  (totalContentSize p, p).

Definition itemStartOf p (layout : LayoutRect) : Qc :=
  if horizontal p then x layout else y layout.

Definition itemEndOf p (layout : LayoutRect) : Qc :=
  if horizontal p then (x layout + width layout)%Qc else (y layout + height layout)%Qc.

(** The [while (low < high)] loops.  [fuel] bounds the number of
    iterations; running out of it is [None]. *)
Fixpoint binarySearchStartLoop p (offset : Qc) (fuel : nat) (low high : Z) : option Z :=
  if bool_decide (low < high)%Z then
    match fuel with
    | O => None
    | S fuel' =>
        let mid := ((low + high) `div` 2)%Z in
        match computedLayouts p !! mid with
        | None => binarySearchStartLoop p offset fuel' (mid + 1) high
        | Some layout =>
            if bool_decide (itemEndOf p layout ≤ offset)%Qc
            then binarySearchStartLoop p offset fuel' (mid + 1) high
            else binarySearchStartLoop p offset fuel' low mid
        end
    end
  else Some low.

Fixpoint binarySearchEndLoop p (offset : Qc) (fuel : nat) (low high : Z) : option Z :=
  if bool_decide (low < high)%Z then
    match fuel with
    | O => None
    | S fuel' =>
        let mid := ((low + high + 1) `div` 2)%Z in
        match computedLayouts p !! mid with
        | None => binarySearchEndLoop p offset fuel' low (mid - 1)
        | Some layout =>
            if bool_decide (offset ≤ itemStartOf p layout)%Qc
            then binarySearchEndLoop p offset fuel' low (mid - 1)
            else binarySearchEndLoop p offset fuel' mid high
        end
    end
  else Some high.

Definition binarySearchStart p (offset : Qc) : option Z :=
  binarySearchStartLoop p offset (length (flattenedData p)) 0 (lengthZ (flattenedData p) - 1).

Definition binarySearchEnd p (offset : Qc) : option Z :=
  binarySearchEndLoop p offset (length (flattenedData p)) 0 (lengthZ (flattenedData p) - 1).

Definition Qcmax (a b : Qc) : Qc := if bool_decide (a ≤ b)%Qc then b else a.

Definition getVisibleRange p (scrollOffset viewportSize overscan : Qc)
    : option VisibleRange * t T :=
  let p := ensureLayoutsComputed p in
  if bool_decide (lengthZ (flattenedData p) = 0%Z) then
    (Some {| startIndex := 0; endIndex := -1 |}, p)
  else
    let startOffset := Qcmax 0 (scrollOffset - overscan) in
    let endOffset := (scrollOffset + viewportSize + overscan)%Qc in
    (startIndex ← binarySearchStart p startOffset;
     endIndex ← binarySearchEnd p endOffset;
     Some {| startIndex := Z.max 0 startIndex;
             endIndex := Z.min (lengthZ (flattenedData p) - 1) endIndex |},
     p).

(** The loop of [invalidateFrom] deletes the entries [index],
    [index + 1], ... below the number of items. *)
Definition invalidateFrom p (index : Z) : t T :=
  let m := foldl (λ m i, delete i m) (computedLayouts p)
                 (seqZ index (lengthZ (flattenedData p) - index)) in
  withLayouts p m false.

Definition updateItemLayout p (index : Z) (layout : LayoutRect) : t T :=
  match lookupZ (flattenedData p) index with
  | None => p
  | Some it =>
      let itemType := getItemType p index in
      let size := if horizontal p then width layout else height layout in
      let cache := LayoutCache.recordMeasurement (layoutCache p) itemType size in
      let cache := LayoutCache.set cache (fkey it) layout in
      invalidateFrom (withCache p cache) index
  end.

Definition getIndexForOffset p (offset : Qc) : option Z * t T :=
  let p := ensureLayoutsComputed p in
  if bool_decide (lengthZ (flattenedData p) = 0%Z) then (Some 0%Z, p)
  else (binarySearchStart p offset, p).

Definition getTotalItemCount p : Z := lengthZ (flattenedData p).

(** The states of a positioner: created by the constructor and changed by
    its public methods.  The repository hands the cache to the positioner
    and changes it through [updateItemLayout] only.  The [getItemType]
    callback of the section manager reads the manager's own data, which
    changes together with a [setData] ([reach_ownerData]). *)
Inductive reachable : t T → Prop :=
| reach_create cache f options : reachable (create cache f options)
| reach_setData p d : reachable p → reachable (setData p d)
| reach_ownerData p f d : reachable p → reachable (setData (withGetItemType p f) d)
| reach_setContainerSize p w h : reachable p → reachable (setContainerSize p w h)
| reach_updateItemLayout p i l : reachable p → reachable (updateItemLayout p i l)
| reach_invalidateFrom p i : reachable p → reachable (invalidateFrom p i)
| reach_invalidateAll p : reachable p → reachable (invalidateAll p)
| reach_getLayoutForIndex p i : reachable p → reachable (getLayoutForIndex p i).2
| reach_getContentSize p : reachable p → reachable (getContentSize p).2
| reach_getVisibleRange p s v o : reachable p → reachable (getVisibleRange p s v o).2
| reach_getIndexForOffset p o : reachable p → reachable (getIndexForOffset p o).2.

End positioner.
End Positioner.

(** ** src/core/SectionLayoutManager.ts *)

Module Manager.

Record SectionBoundary := mkBoundary {
  sectionIndex : Z;
  sectionKey : string;
  headerFlatIndex : Z;
  firstItemFlatIndex : Z;
  lastItemFlatIndex : Z;
  footerFlatIndex : option Z;
  itemCount : Z;
}.

Record Options := mkOptions {
  o_horizontal : option bool;
  o_estimatedItemSize : option Qc;
  o_estimatedHeaderSize : option Qc;
  o_estimatedFooterSize : option Qc;
  o_hasSectionFooters : option bool;
}.

Definition noOptions : Options := mkOptions None None None None None.

(** The manager passes its layout cache on to the positioner and never
    reads it; the one cache object is the positioner's field. *)
Record t (T : Type) := mk {
  sections : list (Section T);
  flattenedData : list (FlattenedItem T);
  collapsedSections : gset string;
  sectionBoundaries : gmap string SectionBoundary;
  flatIndexToSection : gmap Z SectionBoundary;
  layoutPositioner : Positioner.t T;
  horizontal : bool;
  hasSectionFooters : bool;
}.
Global Arguments mk {T} _ _ _ _ _ _ _ _.
Global Arguments sections {T} _.
Global Arguments flattenedData {T} _.
Global Arguments collapsedSections {T} _.
Global Arguments sectionBoundaries {T} _.
Global Arguments flatIndexToSection {T} _.
Global Arguments layoutPositioner {T} _.
Global Arguments horizontal {T} _.
Global Arguments hasSectionFooters {T} _.

(** The state of the loops of [updateData]. *)
Record Build (T : Type) := mkBuild {
  b_flattenedData : list (FlattenedItem T);
  b_sectionBoundaries : gmap string SectionBoundary;
  b_flatIndexToSection : gmap Z SectionBoundary;
  b_flatIndex : Z;
}.
Global Arguments mkBuild {T} _ _ _ _.
Global Arguments b_flattenedData {T} _.
Global Arguments b_sectionBoundaries {T} _.
Global Arguments b_flatIndexToSection {T} _.
Global Arguments b_flatIndex {T} _.

Section manager.
Context {T : Type}.
Implicit Types m : t T.

(** [getItemTypeForIndex], the callback given to the positioner; it reads
    the manager's current [flattenedData]. *)
Definition getItemTypeForIndex (flattened : list (FlattenedItem T)) (flatIndex : Z) : string :=
  match lookupZ flattened flatIndex with
  | None => "default"
  | Some it =>
      match Types.type it with
      | SectionHeader => "__section_header__"
      | SectionFooter => "__section_footer__"
      | Item => "default"
      end
  end.

Definition create (layoutCache : LayoutCache.t) (options : Options) : t T :=
  let horizontal := default false (o_horizontal options) in
  {| sections := [];
     flattenedData := [];
     collapsedSections := ∅;
     sectionBoundaries := ∅;
     flatIndexToSection := ∅;
     layoutPositioner :=
       Positioner.create layoutCache (getItemTypeForIndex [])
         {| Positioner.o_horizontal := Some horizontal;
            Positioner.o_estimatedItemSize := o_estimatedItemSize options;
            Positioner.o_estimatedHeaderSize := o_estimatedHeaderSize options;
            Positioner.o_estimatedFooterSize := o_estimatedFooterSize options;
            Positioner.o_containerWidth := None;
            Positioner.o_containerHeight := None |};
     horizontal := horizontal;
     hasSectionFooters := default false (o_hasSectionFooters options) |}.

(** The inner loop of [updateData].  The entries of [flatIndexToSection]
    written by one iteration of the outer loop all refer to the one
    [boundary] object of that iteration, which is still assigned to
    afterwards.  The flat indices that refer to it are collected in
    [owned]; they are bound to the object's final value when the
    iteration is over. *)
Fixpoint pushItems (sec : Section T) (sectionIndex itemIndex : Z) (rest : list T)
    (flattened : list (FlattenedItem T)) (owned : list Z) (flatIndex : Z)
    : list (FlattenedItem T) * list Z * Z :=
  match rest with
  | [] => (flattened, owned, flatIndex)
  | d :: rest' =>
      pushItems sec sectionIndex (itemIndex + 1) rest'
        (flattened ++ [ {| Types.type := Item;
                           fkey := "item-" +:+ key sec +:+ "-" +:+ pretty itemIndex;
                           Types.sectionKey := key sec;
                           Types.sectionIndex := sectionIndex;
                           itemIndex := itemIndex;
                           item := Some d;
                           section := sec |} ])
        (owned ++ [flatIndex]) (flatIndex + 1)
  end.

(** One iteration of the outer loop. *)
Definition pushSection (collapsed : gset string) (footers : bool)
    (b : Build T) (sectionIndex : Z) (sec : Section T) : Build T :=
  let flatIndex := b_flatIndex b in
  let isCollapsed := bool_decide (key sec ∈ collapsed) in
  let boundary :=
    {| sectionIndex := sectionIndex; sectionKey := key sec; headerFlatIndex := flatIndex;
       firstItemFlatIndex := -1; lastItemFlatIndex := -1; footerFlatIndex := None;
       itemCount := 0 |} in
  let flattened :=
    b_flattenedData b ++
      [ {| Types.type := SectionHeader;
           fkey := "header-" +:+ key sec;
           Types.sectionKey := key sec;
           Types.sectionIndex := sectionIndex;
           itemIndex := (-1);
           item := None;
           section := sec |} ] in
  let owned := [flatIndex] in
  let flatIndex := (flatIndex + 1)%Z in
  let '(flattened, owned, flatIndex, boundary) :=
    if isCollapsed then (flattened, owned, flatIndex, boundary)
    else
      let first := flatIndex in
      let '(flattened, owned, flatIndex) :=
        pushItems sec sectionIndex 0 (data sec) flattened owned flatIndex in
      let boundary :=
        mkBoundary sectionIndex (key sec) (headerFlatIndex boundary) first (flatIndex - 1)
                   None (lengthZ (data sec)) in
      if footers then
        (flattened ++
           [ {| Types.type := SectionFooter;
                fkey := "footer-" +:+ key sec;
                Types.sectionKey := key sec;
                Types.sectionIndex := sectionIndex;
                itemIndex := (-1);
                item := None;
                section := sec |} ],
         owned ++ [flatIndex], (flatIndex + 1)%Z,
         mkBoundary sectionIndex (key sec) (headerFlatIndex boundary) first (flatIndex - 1)
                    (Some flatIndex) (lengthZ (data sec)))
      else (flattened, owned, flatIndex, boundary) in
  {| b_flattenedData := flattened;
     b_sectionBoundaries := <[key sec := boundary]> (b_sectionBoundaries b);
     b_flatIndexToSection := foldl (λ fm i, <[i := boundary]> fm) (b_flatIndexToSection b) owned;
     b_flatIndex := flatIndex |}.

Fixpoint buildLoop (collapsed : gset string) (footers : bool) (sectionIndex : Z)
    (rest : list (Section T)) (b : Build T) : Build T :=
  match rest with
  | [] => b
  | sec :: rest' =>
      buildLoop collapsed footers (sectionIndex + 1) rest'
        (pushSection collapsed footers b sectionIndex sec)
  end.

(** [updateData] returns the new flattened data; the positioner is given
    the same array, and its [getItemType] callback reads it from now on. *)
Definition updateData m (sections : list (Section T)) (collapsedSections : gset string)
    : list (FlattenedItem T) * t T :=
  let b := buildLoop collapsedSections (hasSectionFooters m) 0 sections
             (mkBuild [] ∅ ∅ 0) in
  let flattened := b_flattenedData b in
  let positioner :=
    Positioner.setData
      (Positioner.withGetItemType (layoutPositioner m) (getItemTypeForIndex flattened))
      flattened in
  (flattened,
   {| sections := sections;
      flattenedData := flattened;
      collapsedSections := collapsedSections;
      sectionBoundaries := b_sectionBoundaries b;
      flatIndexToSection := b_flatIndexToSection b;
      layoutPositioner := positioner;
      horizontal := horizontal m;
      hasSectionFooters := hasSectionFooters m |}).

Definition getFlatIndex m (sectionIndex itemIndex : Z) : Z :=
  match lookupZ (sections m) sectionIndex with
  | None => -1
  | Some sec =>
      match sectionBoundaries m !! key sec with
      | None => -1
      | Some boundary =>
          if bool_decide (itemIndex = -1)%Z then headerFlatIndex boundary
          else if bool_decide (key sec ∈ collapsedSections m) then -1
          else if bool_decide (itemIndex < 0)%Z || bool_decide (lengthZ (data sec) ≤ itemIndex)%Z
               then -1
          else (firstItemFlatIndex boundary + itemIndex)%Z
      end
  end.

Record Coordinates := mkCoordinates {
  c_sectionIndex : Z;
  c_itemIndex : Z;
  c_isHeader : bool;
  c_isFooter : bool;
}.

Definition getSectionItemIndex m (flatIndex : Z) : Coordinates :=
  match lookupZ (flattenedData m) flatIndex with
  | None => mkCoordinates (-1) (-1) false false
  | Some it =>
      mkCoordinates (Types.sectionIndex it) (itemIndex it)
                    (bool_decide (Types.type it = SectionHeader))
                    (bool_decide (Types.type it = SectionFooter))
  end.

Definition isSectionCollapsed m (sectionKey : string) : bool :=
  bool_decide (sectionKey ∈ collapsedSections m).

Definition setSectionCollapsed m (sectionKey : string) (collapsed : bool) : t T :=
  let set := if collapsed then {[sectionKey]} ∪ collapsedSections m
             else collapsedSections m ∖ {[sectionKey]} in
  (updateData m (sections m) set).2.

End manager.

Section manager_layouts.
Context {T : Type}.
Implicit Types m : t T.

(** The manager with its positioner in a new state. *)
Definition withPositioner m (p : Positioner.t T) : t T :=
  mk (sections m) (flattenedData m) (collapsedSections m) (sectionBoundaries m)
     (flatIndexToSection m) p (horizontal m) (hasSectionFooters m).

(** [getSectionLayout] asks the positioner for up to three layouts; the
    positioner's state after these calls is returned with the result. *)
Definition getSectionLayout m (sectionKey : string) : option SectionLayoutInfo.t * t T :=
  match sectionBoundaries m !! sectionKey with
  | None => (None, m)
  | Some boundary =>
      let '(headerLayout, p) :=
        Positioner.getLayoutForIndex (layoutPositioner m) (headerFlatIndex boundary) in
      let '(footerLayout, p) :=
        match footerFlatIndex boundary with
        | None => (None, p)
        | Some footerFlatIndex =>
            let '(layout, p) := Positioner.getLayoutForIndex p footerFlatIndex in
            (Some layout, p)
        end in
      let isCollapsed := bool_decide (sectionKey ∈ collapsedSections m) in
      let itemsStartOffset :=
        if horizontal m then (x headerLayout + width headerLayout)%Qc
        else (y headerLayout + height headerLayout)%Qc in
      let '(itemsEndOffset, p) :=
        if negb isCollapsed &&
           bool_decide (firstItemFlatIndex boundary ≤ lastItemFlatIndex boundary)%Z
        then
          let '(lastItemLayout, p) :=
            Positioner.getLayoutForIndex p (lastItemFlatIndex boundary) in
          (if horizontal m then (x lastItemLayout + width lastItemLayout)%Qc
           else (y lastItemLayout + height lastItemLayout)%Qc, p)
        else (itemsStartOffset, p) in
      (Some (SectionLayoutInfo.mk sectionKey (sectionIndex boundary) headerLayout footerLayout
               itemsStartOffset itemsEndOffset (itemCount boundary) isCollapsed),
       withPositioner m p)
  end.

(** A [Map] is iterated in the order in which its keys were first
    inserted.  [updateData] clears [sectionBoundaries] and then sets the
    key of every section in the order of [sections], and nothing else
    writes to the map: its iteration order is the order of the first
    occurrences of the keys in [sections]. *)
Fixpoint firstOccurrences (seen : gset string) (keys : list string) : list string :=
  match keys with
  | [] => []
  | k :: keys' =>
      if bool_decide (k ∈ seen) then firstOccurrences seen keys'
      else k :: firstOccurrences ({[k]} ∪ seen) keys'
  end.

Definition boundaryKeys m : list string := firstOccurrences ∅ (key <$> sections m).

(** The loop of [getSectionAtOffset] over the keys that are left. *)
Fixpoint getSectionAtOffsetLoop m (offset : Qc) (keys : list string)
    : option SectionLayoutInfo.t * t T :=
  match keys with
  | [] => (None, m)
  | sectionKey :: keys' =>
      match getSectionLayout m sectionKey with
      | (None, m) => getSectionAtOffsetLoop m offset keys'
      | (Some layout, m) =>
          let sectionStart :=
            if horizontal m then x (SectionLayoutInfo.headerLayout layout)
            else y (SectionLayoutInfo.headerLayout layout) in
          let sectionEnd := SectionLayoutInfo.itemsEndOffset layout in
          if bool_decide (sectionStart ≤ offset)%Qc && bool_decide (offset < sectionEnd)%Qc
          then (Some layout, m)
          else getSectionAtOffsetLoop m offset keys'
      end
  end.

Definition getSectionAtOffset m (offset : Qc) : option SectionLayoutInfo.t * t T :=
  getSectionAtOffsetLoop m offset (boundaryKeys m).

(** The loop of [getAllSectionLayouts]. *)
Fixpoint getAllSectionLayoutsLoop m (layouts : list SectionLayoutInfo.t) (keys : list string)
    : list SectionLayoutInfo.t * t T :=
  match keys with
  | [] => (layouts, m)
  | sectionKey :: keys' =>
      match getSectionLayout m sectionKey with
      | (None, m) => getAllSectionLayoutsLoop m layouts keys'
      | (Some layout, m) => getAllSectionLayoutsLoop m (layouts ++ [layout]) keys'
      end
  end.

Definition getAllSectionLayouts m : list SectionLayoutInfo.t * t T :=
  getAllSectionLayoutsLoop m [] (boundaryKeys m).

(** The calls that the list component makes on the positioner it gets
    from [getLayoutPositioner]; only the manager gives it new data. *)
Inductive positionerCall (p : Positioner.t T) : Positioner.t T → Prop :=
| call_setContainerSize w h : positionerCall p (Positioner.setContainerSize p w h)
| call_updateItemLayout i l : positionerCall p (Positioner.updateItemLayout p i l)
| call_invalidateFrom i : positionerCall p (Positioner.invalidateFrom p i)
| call_invalidateAll : positionerCall p (Positioner.invalidateAll p)
| call_getLayoutForIndex i : positionerCall p (Positioner.getLayoutForIndex p i).2
| call_getContentSize : positionerCall p (Positioner.getContentSize p).2
| call_getVisibleRange s v o : positionerCall p (Positioner.getVisibleRange p s v o).2
| call_getIndexForOffset o : positionerCall p (Positioner.getIndexForOffset p o).2.

(** The states of a manager: made by the constructor and changed by its
    methods and by the calls on its positioner.  The set given to
    [updateData] is a value here; a caller that kept the [Set] object and
    changed it afterwards is outside these states. *)
Inductive reachable : t T → Prop :=
| after_create cache options : reachable (create cache options)
| after_updateData m sections collapsed :
    reachable m → reachable (updateData m sections collapsed).2
| after_setSectionCollapsed m sectionKey collapsed :
    reachable m → reachable (setSectionCollapsed m sectionKey collapsed)
| after_getSectionLayout m sectionKey :
    reachable m → reachable (getSectionLayout m sectionKey).2
| after_getSectionAtOffset m offset :
    reachable m → reachable (getSectionAtOffset m offset).2
| after_getAllSectionLayouts m :
    reachable m → reachable (getAllSectionLayouts m).2
| after_positionerCall m p :
    reachable m → positionerCall (layoutPositioner m) p → reachable (withPositioner m p).

End manager_layouts.

End Manager.

(** ** src/core/CellRecycler.ts *)

Module Recycler.

Record t := mk {
  pools : gmap string RecyclePool;
  inUse : gmap string (gset string);
  defaultMaxPoolSize : Z;
  cellCounter : Z;
}.

Definition create (defaultMaxPoolSize : Z) : t := mk ∅ ∅ defaultMaxPoolSize 0.

(** [Array.prototype.pop]: the last element and the elements before it. *)
Fixpoint pop {A} (l : list A) : option (list A * A) :=
  match l with
  | [] => None
  | a :: l' =>
      match pop l' with
      | None => Some ([], a)
      | Some (rest, z) => Some (a :: rest, z)
      end
  end.

Definition trackInUse (st : t) (type key : string) : gmap string (gset string) :=
  <[type := {[key]} ∪ default ∅ (inUse st !! type)]> (inUse st).

Definition acquireCell (st : t) (type : string) (flatIndex : Z) : option RecycledCell * t :=
  match pools st !! type with
  | None => (None, st)
  | Some pool =>
      match pop (cells pool) with
      | None => (None, st)
      | Some (rest, cell) =>
          let cell := mkCell (cellKey cell) (itemType cell) flatIndex in
          (Some cell,
           mk (<[type := mkPool (poolType pool) rest (maxSize pool)]> (pools st))
              (trackInUse st type (cellKey cell))
              (defaultMaxPoolSize st) (cellCounter st))
      end
  end.

Definition releaseCell (st : t) (cell : RecycledCell) : t :=
  let type := itemType cell in
  let key := cellKey cell in
  let inUse' :=
    match inUse st !! type with
    | Some inUseSet => <[type := inUseSet ∖ {[key]}]> (inUse st)
    | None => inUse st
    end in
  let pool := default (mkPool type [] (defaultMaxPoolSize st)) (pools st !! type) in
  let pool :=
    if bool_decide (lengthZ (cells pool) < maxSize pool)%Z
    then mkPool (poolType pool) (cells pool ++ [cell]) (maxSize pool)
    else pool in
  mk (<[type := pool]> (pools st)) inUse' (defaultMaxPoolSize st) (cellCounter st).

Definition clearPools (st : t) : t := mk ∅ ∅ (defaultMaxPoolSize st) (cellCounter st).

(** The loop [while (pool.cells.length > size) pool.cells.pop()].  On an
    empty array [pop] changes nothing, so the loop does not end for a
    negative [size]; [None] is a run that is out of [fuel]. *)
Fixpoint trimLoop (fuel : nat) (cells : list RecycledCell) (size : Z)
    : option (list RecycledCell) :=
  if bool_decide (size < lengthZ cells)%Z then
    match fuel with
    | O => None
    | S fuel' =>
        trimLoop fuel' (match pop cells with Some (rest, _) => rest | None => cells end) size
    end
  else Some cells.

Definition setMaxPoolSize (st : t) (type : string) (size : Z) : option t :=
  match pools st !! type with
  | None =>
      Some (mk (<[type := mkPool type [] size]> (pools st)) (inUse st)
               (defaultMaxPoolSize st) (cellCounter st))
  | Some pool =>
      trimmed ← trimLoop (length (cells pool)) (cells pool) size;
      Some (mk (<[type := mkPool (poolType pool) trimmed size]> (pools st)) (inUse st)
               (defaultMaxPoolSize st) (cellCounter st))
  end.

Record PoolStats := mkPoolStats { available : Z; statsInUse : Z }.

Definition getPoolStats (st : t) : gmap string PoolStats :=
  let allTypes : gset string := dom (pools st) ∪ dom (inUse st) in
  set_fold (λ type stats,
              <[type := mkPoolStats
                          (from_option (λ pool, lengthZ (cells pool)) 0%Z (pools st !! type))
                          (from_option (λ s, Z.of_nat (size s)) 0%Z (inUse st !! type))]> stats)
           ∅ allTypes.

Definition generateCellKey (st : t) (type : string) : string * t :=
  let counter := (cellCounter st + 1)%Z in
  (type +:+ "-" +:+ pretty counter,
   mk (pools st) (inUse st) (defaultMaxPoolSize st) counter).

Definition createCell (st : t) (type : string) (flatIndex : Z) : RecycledCell * t :=
  let '(key, st) := generateCellKey st type in
  (mkCell key type flatIndex,
   mk (pools st) (trackInUse st type key) (defaultMaxPoolSize st) (cellCounter st)).

Definition getCell (st : t) (type : string) (flatIndex : Z) : RecycledCell * t :=
  match acquireCell st type flatIndex with
  | (Some recycled, st) => (recycled, st)
  | (None, st) => createCell st type flatIndex
  end.

(** A cell object is identified by its type and key. *)
Definition cellId (cell : RecycledCell) : string * string := (itemType cell, cellKey cell).

Definition handed (o : option RecycledCell) : gset (string * string) :=
  match o with Some cell => {[cellId cell]} | None => ∅ end.

(** The uses of a recycler created with a default pool size: any calls of
    its methods, where every released cell is one that was handed out and
    not released since, and a maximum pool size is not negative.  [out]
    is the set of the cells handed out and not yet released. *)
Inductive used (d : Z) : t → gset (string * string) → Prop :=
| used_create : used d (create d) ∅
| used_acquireCell st out type flatIndex :
    used d st out →
    used d (acquireCell st type flatIndex).2 (out ∪ handed (acquireCell st type flatIndex).1)
| used_createCell st out type flatIndex :
    used d st out →
    used d (createCell st type flatIndex).2 (out ∪ {[cellId (createCell st type flatIndex).1]})
| used_getCell st out type flatIndex :
    used d st out →
    used d (getCell st type flatIndex).2 (out ∪ {[cellId (getCell st type flatIndex).1]})
| used_releaseCell st out cell :
    used d st out → cellId cell ∈ out →
    used d (releaseCell st cell) (out ∖ {[cellId cell]})
| used_setMaxPoolSize st out type size st' :
    used d st out → (0 ≤ size)%Z → setMaxPoolSize st type size = Some st' →
    used d st' out
| used_clearPools st out :
    used d st out → used d (clearPools st) out.

(** The uses of a recycler together with the maximum configured for each
    type: [configured] holds the size given by the latest
    [setMaxPoolSize] for a type; a type without an entry has the default
    pool size.  [clearPools] deletes the pools with their maxima, so it
    empties [configured]. *)
Inductive usedWith (d : Z) : t → gset (string * string) → gmap string Z → Prop :=
| usedWith_create : usedWith d (create d) ∅ ∅
| usedWith_acquireCell st out configured type flatIndex :
    usedWith d st out configured →
    usedWith d (acquireCell st type flatIndex).2
      (out ∪ handed (acquireCell st type flatIndex).1) configured
| usedWith_createCell st out configured type flatIndex :
    usedWith d st out configured →
    usedWith d (createCell st type flatIndex).2
      (out ∪ {[cellId (createCell st type flatIndex).1]}) configured
| usedWith_getCell st out configured type flatIndex :
    usedWith d st out configured →
    usedWith d (getCell st type flatIndex).2
      (out ∪ {[cellId (getCell st type flatIndex).1]}) configured
| usedWith_releaseCell st out configured cell :
    usedWith d st out configured → cellId cell ∈ out →
    usedWith d (releaseCell st cell) (out ∖ {[cellId cell]}) configured
| usedWith_setMaxPoolSize st out configured type size st' :
    usedWith d st out configured → (0 ≤ size)%Z → setMaxPoolSize st type size = Some st' →
    usedWith d st' out (<[type := size]> configured)
| usedWith_clearPools st out configured :
    usedWith d st out configured → usedWith d (clearPools st) out ∅.

End Recycler.

(** ** src/core/ViewabilityTracker.ts *)

Module Viewability.

Record Config := mkConfig {
  minimumViewTime : Z;
  viewAreaCoveragePercentThreshold : Qc;
  itemVisiblePercentThreshold : Qc;
  waitForInteraction : bool;
}.

Record ConfigOptions := mkConfigOptions {
  o_minimumViewTime : option Z;
  o_viewAreaCoveragePercentThreshold : option Qc;
  o_itemVisiblePercentThreshold : option Qc;
  o_waitForInteraction : option bool;
}.

Definition noOptions : ConfigOptions := mkConfigOptions None None None None.

Definition DEFAULT_VIEWABILITY_CONFIG : Config :=
  mkConfig 250 0 (Qc_of_Z 50) false.

Record TrackedItem := mkTracked {
  flatIndex : Z;
  isViewable : bool;
  lastVisibleTime : Z;
  becameVisibleAt : option Z;
}.

Global Instance TrackedItem_eq_dec : EqDecision TrackedItem.
Proof. solve_decision. Defined.

(** What the registered callbacks are called with. *)
Record Notification (T : Type) := mkNotification {
  viewableItems : list (ViewToken T);
  changed : list (ViewToken T);
}.
Global Arguments mkNotification {T} _ _.
Global Arguments viewableItems {T} _.
Global Arguments changed {T} _.

(** The tracker reads the layout positioner it shares with the list; the
    positioner is a field of the state here.  [currentlyViewable] is a
    [Set] filled in increasing order of the index and iterated in that
    order.  [pendingUpdate] tells whether the zero-delay timer is set. *)
Record t (T : Type) := mk {
  config : Config;
  layoutPositioner : Positioner.t T;
  flattenedData : list (FlattenedItem T);
  horizontal : bool;
  scrollOffset : Qc;
  viewportSize : Qc;
  trackedItems : gmap Z TrackedItem;
  currentlyViewable : list Z;
  hasInteracted : bool;
  pendingUpdate : bool;
}.
Global Arguments mk {T} _ _ _ _ _ _ _ _ _ _.
Global Arguments config {T} _.
Global Arguments layoutPositioner {T} _.
Global Arguments flattenedData {T} _.
Global Arguments horizontal {T} _.
Global Arguments scrollOffset {T} _.
Global Arguments viewportSize {T} _.
Global Arguments trackedItems {T} _.
Global Arguments currentlyViewable {T} _.
Global Arguments hasInteracted {T} _.
Global Arguments pendingUpdate {T} _.

Section viewability.
Context {T : Type}.
Implicit Types v : t T.

Definition create (layoutPositioner : Positioner.t T) (flattenedData : list (FlattenedItem T))
    (options : ConfigOptions) (horizontal : bool) : t T :=
  {| config :=
       {| minimumViewTime :=
            default (minimumViewTime DEFAULT_VIEWABILITY_CONFIG) (o_minimumViewTime options);
          viewAreaCoveragePercentThreshold :=
            default (viewAreaCoveragePercentThreshold DEFAULT_VIEWABILITY_CONFIG)
                    (o_viewAreaCoveragePercentThreshold options);
          itemVisiblePercentThreshold :=
            default (itemVisiblePercentThreshold DEFAULT_VIEWABILITY_CONFIG)
                    (o_itemVisiblePercentThreshold options);
          waitForInteraction :=
            default (waitForInteraction DEFAULT_VIEWABILITY_CONFIG)
                    (o_waitForInteraction options) |};
     layoutPositioner := layoutPositioner;
     flattenedData := flattenedData;
     horizontal := horizontal;
     scrollOffset := 0;
     viewportSize := 0;
     trackedItems := ∅;
     currentlyViewable := [];
     hasInteracted := false;
     pendingUpdate := false |}.

(** [scheduleUpdate]: the timer is set unless it is set already. *)
Definition scheduleUpdate v : t T :=
  mk (config v) (layoutPositioner v) (flattenedData v) (horizontal v) (scrollOffset v)
     (viewportSize v) (trackedItems v) (currentlyViewable v) (hasInteracted v) true.

Definition setData v (flattenedData : list (FlattenedItem T)) : t T :=
  scheduleUpdate
    (mk (config v) (layoutPositioner v) flattenedData (horizontal v) (scrollOffset v)
        (viewportSize v) ∅ [] (hasInteracted v) (pendingUpdate v)).

Definition updateScrollOffset v (offset : Qc) : t T :=
  scheduleUpdate
    (mk (config v) (layoutPositioner v) (flattenedData v) (horizontal v) offset
        (viewportSize v) (trackedItems v) (currentlyViewable v) (hasInteracted v)
        (pendingUpdate v)).

Definition setViewportSize v (size : Qc) : t T :=
  if bool_decide (viewportSize v ≠ size) then
    scheduleUpdate
      (mk (config v) (layoutPositioner v) (flattenedData v) (horizontal v) (scrollOffset v)
          size (trackedItems v) (currentlyViewable v) (hasInteracted v) (pendingUpdate v))
  else v.

Definition recordInteraction v : t T :=
  if hasInteracted v then v
  else
    scheduleUpdate
      (mk (config v) (layoutPositioner v) (flattenedData v) (horizontal v) (scrollOffset v)
          (viewportSize v) (trackedItems v) (currentlyViewable v) true (pendingUpdate v)).

(** The list changes the positioner it shares with the tracker. *)
Definition withPositioner v (positioner : Positioner.t T) : t T :=
  mk (config v) positioner (flattenedData v) (horizontal v) (scrollOffset v)
     (viewportSize v) (trackedItems v) (currentlyViewable v) (hasInteracted v)
     (pendingUpdate v).

Definition Qcmin (a b : Qc) : Qc := if bool_decide (a ≤ b)%Qc then a else b.

Definition isItemViewable v (flatIndex : Z) (layout : LayoutRect) : bool :=
  let itemStart := if horizontal v then x layout else y layout in
  let itemSize := if horizontal v then width layout else height layout in
  let itemEnd := (itemStart + itemSize)%Qc in
  let viewportStart := scrollOffset v in
  let viewportEnd := (scrollOffset v + viewportSize v)%Qc in
  let visibleStart := Positioner.Qcmax itemStart viewportStart in
  let visibleEnd := Qcmin itemEnd viewportEnd in
  let visibleSize := Positioner.Qcmax 0 (visibleEnd - visibleStart) in
  let failsItemPercent :=
    bool_decide (0 < itemVisiblePercentThreshold (config v))%Qc &&
    (let visiblePercent :=
       if bool_decide (0 < itemSize)%Qc then (visibleSize / itemSize * Qc_of_Z 100)%Qc
       else 0%Qc in
     bool_decide (visiblePercent < itemVisiblePercentThreshold (config v))%Qc) in
  let failsCoverage :=
    bool_decide (0 < viewAreaCoveragePercentThreshold (config v))%Qc &&
    (let coveragePercent :=
       if bool_decide (0 < viewportSize v)%Qc
       then (visibleSize / viewportSize v * Qc_of_Z 100)%Qc
       else 0%Qc in
     bool_decide (coveragePercent < viewAreaCoveragePercentThreshold (config v))%Qc) in
  if failsItemPercent then false
  else if failsCoverage then false
  else bool_decide (0 < visibleSize)%Qc.

Definition createViewToken v (flatIndex : Z) (isViewable : bool) : ViewToken T :=
  let it := lookupZ (flattenedData v) flatIndex in
  {| tokenItem := it ≫= item;
     tokenKey := from_option fkey ("item-" +:+ pretty flatIndex) it;
     index := flatIndex;
     Types.isViewable := isViewable;
     tokenSection := section <$> it |}.

(** The state of the two loops of [computeViewability]. *)
Record Pass := mkPass {
  p_positioner : Positioner.t T;
  p_tracked : gmap Z TrackedItem;
  p_newViewable : list Z;
  p_changed : list (ViewToken T);
}.

(** The body of the first loop, for index [i]. *)
Definition visit v (now : Z) (ps : Pass) (i : Z) : Pass :=
  let '(layout, positioner) := Positioner.getLayoutForIndex (p_positioner ps) i in
  if isItemViewable v i layout then
    let tracked :=
      match p_tracked ps !! i with
      | Some tracked => tracked
      | None => mkTracked i false now (Some now)
      end in
    let '(tracked, changed) :=
      match isViewable tracked, becameVisibleAt tracked with
      | false, Some since =>
          let visibleDuration := (now - since)%Z in
          if bool_decide (minimumViewTime (config v) ≤ visibleDuration)%Z
          then (mkTracked (flatIndex tracked) true (lastVisibleTime tracked)
                          (becameVisibleAt tracked),
                p_changed ps ++ [createViewToken v i true])
          else (tracked, p_changed ps)
      | _, _ => (tracked, p_changed ps)
      end in
    let tracked :=
      mkTracked (flatIndex tracked) (isViewable tracked) now (becameVisibleAt tracked) in
    mkPass positioner (<[i := tracked]> (p_tracked ps)) (p_newViewable ps ++ [i]) changed
  else
    mkPass positioner (p_tracked ps) (p_newViewable ps) (p_changed ps).

(** The body of the second loop, for a [flatIndex] that was viewable
    after the previous pass. *)
Definition leave v (ps : Pass) (flatIndex : Z) : Pass :=
  if bool_decide (flatIndex ∈ p_newViewable ps) then ps
  else
    match p_tracked ps !! flatIndex with
    | Some tracked =>
        if isViewable tracked then
          mkPass (p_positioner ps)
                 (<[flatIndex := mkTracked (Viewability.flatIndex tracked) false
                                           (lastVisibleTime tracked) None]> (p_tracked ps))
                 (p_newViewable ps)
                 (p_changed ps ++ [createViewToken v flatIndex false])
        else ps
    | None => ps
    end.

(** One pass.  The outer [None] is a binary search of the positioner that
    is out of fuel; the inner one is a pass that calls no callback. *)
Definition computeViewability v (now : Z) : option (option (Notification T) * t T) :=
  if waitForInteraction (config v) && negb (hasInteracted v) then Some (None, v)
  else
    let '(range, positioner) :=
      Positioner.getVisibleRange (layoutPositioner v) (scrollOffset v) (viewportSize v) 0 in
    range ← range;
    let startIndex := Positioner.startIndex range in
    let endIndex := Positioner.endIndex range in
    let ps := foldl (visit v now) (mkPass positioner (trackedItems v) [] [])
                    (seqZ startIndex (endIndex - startIndex + 1)) in
    let ps := foldl (leave v) ps (currentlyViewable v) in
    let v' :=
      mk (config v) (p_positioner ps) (flattenedData v) (horizontal v) (scrollOffset v)
         (viewportSize v) (p_tracked ps) (p_newViewable ps) (hasInteracted v)
         (pendingUpdate v) in
    let notification :=
      match p_changed ps with
      | [] => None
      | _ =>
          Some {| viewableItems :=
                    (λ i, createViewToken v' i true) <$>
                      filter (λ i, from_option isViewable false (p_tracked ps !! i) = true)
                             (p_newViewable ps);
                  changed := p_changed ps |}
      end in
    Some (notification, v').

(** The timer fires at time [now]. *)
Definition timerFires v (now : Z) : option (option (Notification T) * t T) :=
  if pendingUpdate v then
    computeViewability
      (mk (config v) (layoutPositioner v) (flattenedData v) (horizontal v) (scrollOffset v)
          (viewportSize v) (trackedItems v) (currentlyViewable v) (hasInteracted v) false)
      now
  else Some (None, v).

Definition getVisibleIndices v : list Z := currentlyViewable v.

Definition isIndexVisible v (index : Z) : bool := bool_decide (index ∈ currentlyViewable v).

Definition getFirstVisibleIndex v : Z :=
  match currentlyViewable v with
  | [] => -1
  | i :: rest => foldl Z.min i rest
  end.

Definition getLastVisibleIndex v : Z :=
  match currentlyViewable v with
  | [] => -1
  | i :: rest => foldl Z.max i rest
  end.

Definition dispose v : t T :=
  mk (config v) (layoutPositioner v) (flattenedData v) (horizontal v) (scrollOffset v)
     (viewportSize v) ∅ [] (hasInteracted v) false.

(** The "entered" and the "exited" events of a notification for a flat
    index. *)
Definition isEntered (i : Z) (tok : ViewToken T) : Prop :=
  index tok = i ∧ Types.isViewable tok = true.

Definition isExited (i : Z) (tok : ViewToken T) : Prop :=
  index tok = i ∧ Types.isViewable tok = false.

Global Instance isEntered_dec i tok : Decision (isEntered i tok).
Proof. unfold isEntered. apply _. Defined.

Global Instance isExited_dec i tok : Decision (isExited i tok).
Proof. unfold isExited. apply _. Defined.

Definition enteredIn (o : option (Notification T)) (i : Z) : list (ViewToken T) :=
  match o with
  | None => []
  | Some n => filter (isEntered i) (changed n)
  end.

Definition exitedIn (o : option (Notification T)) (i : Z) : list (ViewToken T) :=
  match o with
  | None => []
  | Some n => filter (isExited i) (changed n)
  end.

(** A scroll to [offset] followed by the pass it schedules, at [now]. *)
Definition scrollPass v (offset : Qc) (now : Z) : option (option (Notification T) * t T) :=
  timerFires (updateScrollOffset v offset) now.

End viewability.
End Viewability.

(** ** The recycler's bookkeeping

    A key is issued when it is the key generated for its type at some
    earlier value of the counter. *)

Definition issued (st : Recycler.t) (id : string * string) : Prop :=
  ∃ n : Z, (0 < n ≤ Recycler.cellCounter st)%Z ∧ id.2 = (id.1 +:+ "-" +:+ pretty n).

Definition poolOk (st : Recycler.t) (out : gset (string * string))
    (type : string) (pool : RecyclePool) : Prop :=
  (lengthZ (cells pool) ≤ maxSize pool)%Z ∧
  NoDup (cellKey <$> cells pool) ∧
  ∀ cell, cell ∈ cells pool →
    itemType cell = type ∧ (Recycler.cellId cell ∉ out) ∧ issued st (Recycler.cellId cell).

Definition recyclerOk (st : Recycler.t) (out : gset (string * string)) : Prop :=
  (0 ≤ Recycler.cellCounter st)%Z ∧
  (∀ type pool, Recycler.pools st !! type = Some pool → poolOk st out type pool) ∧
  (∀ id, id ∈ out → issued st id).

(** ** The flat sequence, group by group

    The entries one group contributes to the flat sequence and the
    position of a group's header in it, stated without the loops: one
    header, then the records of a group that is not collapsed in their
    order, then the footer when footers are enabled. *)

Section groups.
Context {T : Type}.

Definition headerEntry (sectionIndex : Z) (sec : Section T) : FlattenedItem T :=
  mkFlat SectionHeader ("header-" +:+ key sec) (key sec) sectionIndex (-1) None sec.

Definition itemEntry (sectionIndex itemIndex : Z) (sec : Section T) (d : T) : FlattenedItem T :=
  mkFlat Item ("item-" +:+ key sec +:+ "-" +:+ pretty itemIndex) (key sec)
         sectionIndex itemIndex (Some d) sec.

Definition footerEntry (sectionIndex : Z) (sec : Section T) : FlattenedItem T :=
  mkFlat SectionFooter ("footer-" +:+ key sec) (key sec) sectionIndex (-1) None sec.

Fixpoint itemEntries (sectionIndex itemIndex : Z) (sec : Section T) (rest : list T)
    : list (FlattenedItem T) :=
  match rest with
  | [] => []
  | d :: rest' =>
      itemEntry sectionIndex itemIndex sec d :: itemEntries sectionIndex (itemIndex + 1) sec rest'
  end.

Definition groupEntries (collapsed : gset string) (footers : bool) (sectionIndex : Z)
    (sec : Section T) : list (FlattenedItem T) :=
  headerEntry sectionIndex sec ::
    (if bool_decide (key sec ∈ collapsed) then []
     else itemEntries sectionIndex 0 sec (data sec) ++
          (if footers then [footerEntry sectionIndex sec] else [])).

Definition groupSize (collapsed : gset string) (footers : bool) (sec : Section T) : Z :=
  (1 + if bool_decide (key sec ∈ collapsed) then 0
       else lengthZ (data sec) + if footers then 1 else 0)%Z.

(** The flat index of the header of the group at [sectionIndex]: the
    number of entries of the groups before it. *)
Definition sizeOfGroups (collapsed : gset string) (footers : bool)
    (l : list (Section T)) : Z :=
  foldr (λ sec n, (groupSize collapsed footers sec + n)%Z) 0%Z l.

Definition headerPosition (collapsed : gset string) (footers : bool)
    (sections : list (Section T)) (sectionIndex : Z) : Z :=
  sizeOfGroups collapsed footers (take (Z.to_nat sectionIndex) sections).

(** The boundary recorded for a group whose header is at flat index [h]. *)
Definition boundaryAt (collapsed : gset string) (footers : bool) (sectionIndex : Z)
    (sec : Section T) (h : Z) : Manager.SectionBoundary :=
  if bool_decide (key sec ∈ collapsed) then
    Manager.mkBoundary sectionIndex (key sec) h (-1) (-1) None 0
  else
    Manager.mkBoundary sectionIndex (key sec) h (h + 1) (h + lengthZ (data sec))
      (if footers then Some (h + 1 + lengthZ (data sec))%Z else None)
      (lengthZ (data sec)).

End groups.

(** ** Offsets as prefix sums

    What the layout computation is expected to produce: the start offset
    of an index is the sum of the sizes of the indices below it, and the
    size of an entry is resolved as the measured size when the cache has
    one, else the running average of its type, else the default estimate
    of its kind. *)

Section offsets.
Context {T : Type}.
Implicit Types p : Positioner.t T.

Definition sumQc (l : list Qc) : Qc := foldr Qcplus 0%Qc l.

Definition offsetAt p (i : Z) : Qc := sumQc (Positioner.getItemSize p <$> seqZ 0 i).

Definition rectAt p (i : Z) : LayoutRect :=
  if Positioner.horizontal p
  then mkRect (offsetAt p i) 0 (Positioner.getItemSize p i) (Positioner.crossAxisSize p)
  else mkRect 0 (offsetAt p i) (Positioner.crossAxisSize p) (Positioner.getItemSize p i).

Definition mainSize p (r : LayoutRect) : Qc :=
  if Positioner.horizontal p then width r else height r.

Definition mainExtent p (c : Positioner.ContentSize) : Qc :=
  if Positioner.horizontal p then Positioner.c_width c else Positioner.c_height c.

Definition defaultEstimate p (it : FlattenedItem T) : Qc :=
  match type it with
  | SectionHeader => Positioner.estimatedHeaderSize p
  | SectionFooter => Positioner.estimatedFooterSize p
  | Item => Positioner.estimatedItemSize p
  end.

Definition resolvedSize p (i : nat) (it : FlattenedItem T) : Qc :=
  match LayoutCache.cache (Positioner.layoutCache p) !! fkey it with
  | Some measured => mainSize p measured
  | None =>
      match LayoutCache.getAverageSize (Positioner.layoutCache p)
                                       (Positioner.getItemType p (Z.of_nat i)) with
      | Some average => average
      | None => defaultEstimate p it
      end
  end.

Definition sumOfResolvedSizes p : Qc :=
  sumQc (imap (resolvedSize p) (Positioner.flattenedData p)).

(** The layouts stored by a completed computation, and the domain of the
    map of layouts at any time. *)
Definition layoutsComputed p : Prop :=
  (∀ i, Positioner.computedLayouts p !! i =
          if bool_decide (0 ≤ i < lengthZ (Positioner.flattenedData p))%Z
          then Some (rectAt p i) else None) ∧
  Positioner.totalContentSize p =
    (if Positioner.horizontal p
     then Positioner.mkSize (offsetAt p (lengthZ (Positioner.flattenedData p)))
                            (Positioner.crossAxisSize p)
     else Positioner.mkSize (Positioner.crossAxisSize p)
                            (offsetAt p (lengthZ (Positioner.flattenedData p)))).

Definition consistent p : Prop :=
  (Positioner.layoutsValid p = true → layoutsComputed p) ∧
  (∀ i, is_Some (Positioner.computedLayouts p !! i) →
        (0 ≤ i < lengthZ (Positioner.flattenedData p))%Z).

End offsets.

(** ** Scenarios *)

(** Three groups with 2, 0 and 3 records, footers disabled, the second
    group collapsed. *)
Definition scenarioSections : list (Section nat) :=
  [ mkSection "a" [10; 11]; mkSection "b" []; mkSection "c" [30; 31; 32] ].

Definition scenarioManager : Manager.t nat :=
  (Manager.updateData (Manager.create LayoutCache.create Manager.noOptions)
                      scenarioSections {["b"]}).2.

(** Six unmeasured items of one type, each estimated at the default 50. *)
Definition uniformData : list (FlattenedItem nat) :=
  itemEntries 0 0 (mkSection "s" [0; 1; 2; 3; 4; 5]) [0; 1; 2; 3; 4; 5].

Definition uniformPositioner : Positioner.t nat :=
  Positioner.setData
    (Positioner.create LayoutCache.create (λ _, "default") Positioner.noOptions)
    uniformData.

Definition measured80 : LayoutRect := mkRect 0 0 (Qc_of_Z 320) (Qc_of_Z 80).

(** A tracker with the default configuration (minimum view time 250 ms,
    half of an item visible) over the six uniform items, with a viewport
    of 100: items 0 and 1 are in view at scroll offset 0, items 4 and 5
    at scroll offset 200. *)
Definition scenarioTracker : Viewability.t nat :=
  Viewability.setViewportSize
    (Viewability.create uniformPositioner uniformData Viewability.noOptions false)
    (Qc_of_Z 100).

(** The pass at time [now] from [v], and three passes of the scenario
    tracker at scroll offset 0, at times 0, 100 and 300. *)
Definition passAt {T} (v : Viewability.t T) (now : Z)
    : option (Viewability.Notification T) * Viewability.t T :=
  default (None, v) (Viewability.computeViewability v now).

Definition scenarioPass1 := passAt scenarioTracker 0.
Definition scenarioPass2 := passAt scenarioPass1.2 100.
Definition scenarioPass3 := passAt scenarioPass2.2 300.

(** The events of a pass, as pairs of flat index and "entered" (true) or
    "exited" (false). *)
Definition events {T} (o : option (Viewability.Notification T)) : list (Z * bool) :=
  match o with
  | None => []
  | Some n => (λ tok, (index tok, isViewable tok)) <$> Viewability.changed n
  end.

(** A script of scrolls, each followed by its pass at the given time. *)
Fixpoint runPasses {T} (v : Viewability.t T) (script : list (Qc * Z))
    : option (list (list (Z * bool)) * Viewability.t T) :=
  match script with
  | [] => Some ([], v)
  | (offset, now) :: script' =>
      '(notification, v) ← Viewability.scrollPass v offset now;
      '(log, v) ← runPasses v script';
      Some (events notification :: log, v)
  end.

(** A recycler with the default pool size after one [getCell], and the
    cell that is handed out then. *)
Definition scenarioRecycler : Recycler.t :=
  (Recycler.getCell (Recycler.create DEFAULT_MAX_POOL_SIZE) "default" 0).2.

Definition scenarioHandedOut : gset (string * string) :=
  ∅ ∪ {[Recycler.cellId (Recycler.getCell (Recycler.create DEFAULT_MAX_POOL_SIZE) "default" 0).1]}.

(** Two cells of one type handed out and released again, and the pool
    then limited to one cell. *)
Definition scenarioSecond : RecycledCell * Recycler.t :=
  Recycler.getCell scenarioRecycler "default" 1.

Definition scenarioPooled : Recycler.t :=
  Recycler.releaseCell
    (Recycler.releaseCell scenarioSecond.2
       (Recycler.getCell (Recycler.create DEFAULT_MAX_POOL_SIZE) "default" 0).1)
    scenarioSecond.1.

Definition scenarioTrimmed : Recycler.t :=
  default scenarioPooled (Recycler.setMaxPoolSize scenarioPooled "default" 1).

(** ** One pass of the tracker, index by index

    [inView] is the geometric test of a pass for one index: the index is
    in the zero-overscan visible range and passes [isItemViewable].  The
    record of an index that is in view is [seen]: created if there is
    none, confirmed if it is [promotable], and stamped with the time of
    the pass.  The record of a confirmed index that is no longer in view
    is [retire]d. *)

Section pass.
Context {T : Type}.
Implicit Types v : Viewability.t T.

Definition passesTest v (positioner : Positioner.t T) (i : Z) : bool :=
  Viewability.isItemViewable v i (Positioner.getLayoutForIndex positioner i).1.

Definition inView v (i : Z) : bool :=
  match Positioner.getVisibleRange (Viewability.layoutPositioner v)
          (Viewability.scrollOffset v) (Viewability.viewportSize v) 0 with
  | (Some range, positioner) =>
      bool_decide (Positioner.startIndex range ≤ i ≤ Positioner.endIndex range)%Z &&
      passesTest v positioner i
  | (None, _) => false
  end.

Definition freshRecord (i now : Z) : Viewability.TrackedItem :=
  Viewability.mkTracked i false now (Some now).

Definition promotable (cfg : Viewability.Config) (now : Z) (tr : Viewability.TrackedItem) : bool :=
  match Viewability.isViewable tr, Viewability.becameVisibleAt tr with
  | false, Some since => bool_decide (Viewability.minimumViewTime cfg ≤ now - since)%Z
  | _, _ => false
  end.

Definition seen (cfg : Viewability.Config) (i now : Z) (o : option Viewability.TrackedItem)
    : Viewability.TrackedItem :=
  let tr := default (freshRecord i now) o in
  Viewability.mkTracked (Viewability.flatIndex tr)
    (Viewability.isViewable tr || promotable cfg now tr) now (Viewability.becameVisibleAt tr).

Definition retire (tr : Viewability.TrackedItem) : Viewability.TrackedItem :=
  Viewability.mkTracked (Viewability.flatIndex tr) false (Viewability.lastVisibleTime tr) None.

(** The record of an index after the second loop, which runs over the
    indices [old] that were in view after the previous pass. *)
Definition afterLeave (old newViewable : list Z) (i : Z)
    (o : option Viewability.TrackedItem) : option Viewability.TrackedItem :=
  match o with
  | Some tr =>
      if bool_decide (i ∈ old) && negb (bool_decide (i ∈ newViewable)) &&
         Viewability.isViewable tr
      then Some (retire tr) else Some tr
  | None => None
  end.

(** The tokens of one index that a change of its record in the second
    loop emits. *)
Definition exitTokens v (i : Z) (before after : option Viewability.TrackedItem)
    : list (ViewToken T) :=
  match after, before with
  | Some tr', Some tr =>
      if bool_decide (tr' = tr) then [] else [Viewability.createViewToken v i false]
  | _, _ => []
  end.

Definition passEnabled v : bool :=
  negb (Viewability.waitForInteraction (Viewability.config v) &&
        negb (Viewability.hasInteracted v)).

End pass.

Global Arguments passesTest : simpl never.

(** ** Runs of passes with an index in view

    Between two passes the list may scroll, resize, or change the shared
    positioner; this leaves the configuration and the tracking state as
    they are ([sameTracking]) as long as the data is not replaced and the
    tracker is not disposed.  [inViewRun i v log v'] is a sequence of
    passes, started from [v], in each of which index [i] is in view;
    [log] holds the time and the notification of each pass. *)

Definition sameTracking {T} (v v1 : Viewability.t T) : Prop :=
  Viewability.config v1 = Viewability.config v ∧
  Viewability.trackedItems v1 = Viewability.trackedItems v ∧
  Viewability.currentlyViewable v1 = Viewability.currentlyViewable v.

Inductive inViewRun {T} (i : Z)
  : Viewability.t T → list (Z * option (Viewability.Notification T)) → Viewability.t T → Prop :=
| inViewRun_done v : inViewRun i v [] v
| inViewRun_pass v v1 now res v2 log v3 :
    sameTracking v v1 →
    passEnabled v1 = true →
    inView v1 i = true →
    Viewability.computeViewability v1 now = Some (res, v2) →
    inViewRun i v2 log v3 →
    inViewRun i v ((now, res) :: log) v3.

Definition enteredTotal {T} (i : Z) (log : list (Z * option (Viewability.Notification T)))
    : nat :=
  sum_list ((λ e, length (Viewability.enteredIn e.2 i)) <$> log).

(** Some pass of the log runs at least [min] after [t0]. *)
Definition dwellReached {T} (min t0 : Z) (log : list (Z * option (Viewability.Notification T)))
    : bool :=
  existsb (λ e, bool_decide (min ≤ e.1 - t0)%Z) log.

(** ** Retired records of the tracker

    A record is retired when it is neither confirmed nor timed. *)
Definition retired (tracked : gmap Z Viewability.TrackedItem) (i : Z) : Prop :=
  ∃ tr, tracked !! i = Some tr ∧
        Viewability.isViewable tr = false ∧ Viewability.becameVisibleAt tr = None.

Definition noEntered {T} (changed : list (ViewToken T)) (i : Z) : Prop :=
  Forall (λ tok, ¬ (index tok = i ∧ isViewable tok = true)) changed.

(** ** The binary search utilities *)

Module BinarySearch.

(** How a search ends: with the index it returns, by handing an array
    element that does not exist to [getValue], or out of fuel. *)
Inductive Outcome :=
| Returns (index : Z)
| ReadsUndefined (index : Z)
| OutOfFuel.

Section binary_search.
Context {T : Type}.

(** The loop [while (low <= high)] of [binarySearch]. *)
Fixpoint binarySearchLoop (array : list T) (target : Qc) (getValue : T → Qc)
    (fuel : nat) (low high : Z) : Outcome :=
  if bool_decide (low ≤ high)%Z then
    match fuel with
    | O => OutOfFuel
    | S fuel' =>
        let mid := ((low + high) `div` 2)%Z in
        match lookupZ array mid with
        | None => ReadsUndefined mid
        | Some a =>
            let value := getValue a in
            if bool_decide (value = target) then Returns mid
            else if bool_decide (value < target)%Qc
                 then binarySearchLoop array target getValue fuel' (mid + 1) high
                 else binarySearchLoop array target getValue fuel' low (mid - 1)
        end
    end
  else Returns (-1).

Definition binarySearch (array : list T) (target : Qc) (getValue : T → Qc) : Outcome :=
  binarySearchLoop array target getValue (length array) 0 (lengthZ array - 1).

(** The loop [while (low < high)] of [binarySearchInsertPosition]. *)
Fixpoint binarySearchInsertPositionLoop (array : list T) (target : Qc) (getValue : T → Qc)
    (fuel : nat) (low high : Z) : Outcome :=
  if bool_decide (low < high)%Z then
    match fuel with
    | O => OutOfFuel
    | S fuel' =>
        let mid := ((low + high) `div` 2)%Z in
        match lookupZ array mid with
        | None => ReadsUndefined mid
        | Some a =>
            if bool_decide (getValue a < target)%Qc
            then binarySearchInsertPositionLoop array target getValue fuel' (mid + 1) high
            else binarySearchInsertPositionLoop array target getValue fuel' low mid
        end
    end
  else Returns low.

Definition binarySearchInsertPosition (array : list T) (target : Qc) (getValue : T → Qc)
    : Outcome :=
  binarySearchInsertPositionLoop array target getValue (length array) 0 (lengthZ array).

End binary_search.

(** [offsets[mid] + sizes[mid]] is not a number when one of the arrays has
    no element [mid] ([None] here), and every comparison with it is
    false. *)
Definition itemEndAt (offsets sizes : list Qc) (mid : Z) : option Qc :=
  o ← lookupZ offsets mid; s ← lookupZ sizes mid; Some (o + s)%Qc.

Fixpoint binarySearchFirstAfterLoop (offsets sizes : list Qc) (target : Qc)
    (fuel : nat) (low high : Z) : Outcome :=
  if bool_decide (low < high)%Z then
    match fuel with
    | O => OutOfFuel
    | S fuel' =>
        let mid := ((low + high) `div` 2)%Z in
        if from_option (λ itemEnd, bool_decide (itemEnd ≤ target)%Qc) false
                       (itemEndAt offsets sizes mid)
        then binarySearchFirstAfterLoop offsets sizes target fuel' (mid + 1) high
        else binarySearchFirstAfterLoop offsets sizes target fuel' low mid
    end
  else Returns low.

Definition binarySearchFirstAfter (offsets sizes : list Qc) (target : Qc) : Outcome :=
  binarySearchFirstAfterLoop offsets sizes target (length offsets) 0 (lengthZ offsets - 1).

(** [Math.ceil((low + high) / 2)]. *)
Fixpoint binarySearchLastBeforeLoop (offsets : list Qc) (target : Qc)
    (fuel : nat) (low high : Z) : Outcome :=
  if bool_decide (low < high)%Z then
    match fuel with
    | O => OutOfFuel
    | S fuel' =>
        let mid := ((low + high + 1) `div` 2)%Z in
        if from_option (λ offset, bool_decide (target ≤ offset)%Qc) false (lookupZ offsets mid)
        then binarySearchLastBeforeLoop offsets target fuel' low (mid - 1)
        else binarySearchLastBeforeLoop offsets target fuel' mid high
    end
  else Returns high.

Definition binarySearchLastBefore (offsets : list Qc) (target : Qc) : Outcome :=
  binarySearchLastBeforeLoop offsets target (length offsets) 0 (lengthZ offsets - 1).

End BinarySearch.

(** ** src/utils/keyExtractor.ts *)

Module KeyExtractor.

(** [validateUniqueKeys] returns, or throws the error that names the
    duplicate key and the index at which it was found. *)
Inductive Validation :=
| Valid
| DuplicateKey (key : string) (index : Z).

Section key_extractor.
Context {TItem : Type}.

(** The loop of [validateUniqueKeys] from index [i] on, with the set of
    the keys seen so far. *)
Fixpoint validateLoop (keyExtractor : TItem → Z → string) (items : list TItem)
    (i : Z) (seen : gset string) : Validation :=
  match items with
  | [] => Valid
  | item :: rest =>
      let key := keyExtractor item i in
      if bool_decide (key ∈ seen) then DuplicateKey key i
      else validateLoop keyExtractor rest (i + 1) ({[key]} ∪ seen)
  end.

Definition validateUniqueKeys (items : list TItem) (keyExtractor : TItem → Z → string)
    : Validation :=
  validateLoop keyExtractor items 0 ∅.

End key_extractor.
End KeyExtractor.

(** The keys of the items of a list, by position from [i] on. *)
Fixpoint keysFrom {TItem} (keyExtractor : TItem → Z → string) (i : Z) (items : list TItem)
    : list string :=
  match items with
  | [] => []
  | item :: rest => keyExtractor item i :: keysFrom keyExtractor (i + 1) rest
  end.

(** The position of an entry of the flat sequence. *)
Definition positionOf {T} (it : FlattenedItem T) : Flatten.Position :=
  Flatten.mkPosition (sectionIndex it) (itemIndex it)
    match type it with
    | SectionHeader => Flatten.Header
    | Item => Flatten.ItemPosition
    | SectionFooter => Flatten.Footer
    end.

(** The flat sequence as the concatenation of its groups. *)
Fixpoint flatOfGroups {T} (collapsed : gset string) (footers : bool) (sectionIndex : Z)
    (sections : list (Section T)) : list (FlattenedItem T) :=
  match sections with
  | [] => []
  | sec :: rest =>
      groupEntries collapsed footers sectionIndex sec ++
      flatOfGroups collapsed footers (sectionIndex + 1) rest
  end.

(** No character of the string is a dash. *)
Fixpoint noDash (s : string) : Prop :=
  match s with
  | EmptyString => True
  | String c s' => c ≠ "-"%char ∧ noDash s'
  end.

(** What an entry of the flat sequence is identified by, and the key
    that the loops give to an entry with that identity. *)
Definition identity {T} (it : FlattenedItem T) : FlattenedItemType * string * Z :=
  (type it, sectionKey it, itemIndex it).

Definition keyed {T} (it : FlattenedItem T) : Prop :=
  match type it with
  | SectionHeader => fkey it = "header-" +:+ sectionKey it ∧ itemIndex it = (-1)%Z
  | Item => fkey it = "item-" +:+ sectionKey it +:+ "-" +:+ pretty (itemIndex it) ∧
            (0 ≤ itemIndex it)%Z
  | SectionFooter => fkey it = "footer-" +:+ sectionKey it ∧ itemIndex it = (-1)%Z
  end.

(** The cells of a type that are handed out. *)
Definition outstanding (out : gset (string * string)) (type : string) : gset (string * string) :=
  filter (λ id, id.1 = type) out.

(** Every key of an in-use set belongs to a cell that is handed out. *)
Definition inUseTracked (st : Recycler.t) (out : gset (string * string)) : Prop :=
  ∀ type s key, Recycler.inUse st !! type = Some s → key ∈ s → (type, key) ∈ out.

(** ** The life of a tracked index

    The record of an index is unconfirmed (absent, or a candidate that
    is timed), confirmed, or retired (neither confirmed nor timed). *)
Inductive Phase := Unconfirmed | Confirmed | Retired.

Definition phase (o : option Viewability.TrackedItem) : Phase :=
  match o with
  | None => Unconfirmed
  | Some tr =>
      if Viewability.isViewable tr then Confirmed
      else match Viewability.becameVisibleAt tr with
           | Some _ => Unconfirmed
           | None => Retired
           end
  end.

(** The events of a notification for a flat index, in the order of the
    [changed] list: [true] for "entered", [false] for "exited". *)
Definition indexEvents {T} (o : option (Viewability.Notification T)) (i : Z) : list bool :=
  match o with
  | None => []
  | Some n => isViewable <$> filter (λ tok, index tok = i) (Viewability.changed n)
  end.

(** The event sequences that can still follow from a phase. *)
Definition eventsFrom (ph : Phase) : list (list bool) :=
  match ph with
  | Unconfirmed => [[]; [true]; [true; false]]
  | Confirmed => [[]; [false]]
  | Retired => [[]]
  end.

(** Any sequence of passes of one tracker.  Between two passes the list
    may scroll, resize, record an interaction or change the shared
    positioner; the data is not replaced and the tracker is not
    disposed. *)
Inductive passRun {T}
  : Viewability.t T → list (option (Viewability.Notification T)) → Viewability.t T → Prop :=
| passRun_done v : passRun v [] v
| passRun_pass v v1 now res v2 log v3 :
    sameTracking v v1 →
    Viewability.computeViewability v1 now = Some (res, v2) →
    passRun v2 log v3 →
    passRun v (res :: log) v3.

(** An index is confirmed when its record says so. *)
Definition confirmedIn {T} (v : Viewability.t T) (i : Z) : bool :=
  from_option Viewability.isViewable false (Viewability.trackedItems v !! i).

(** ** src/hooks/useStickyHeader.ts

    [useStickyHeader] and [useMultipleStickyHeaders] are [useMemo]
    computations of their arguments; the embedding is the memoised
    function. *)

Module StickyHeader.

Record StickyHeaderState := mkState {
  sectionKey : option string;
  sectionIndex : Z;
  translateY : Qc;
  isSticky : bool;
  headerLayout : option LayoutRect;
}.

Record Options := mkOptions {
  sectionLayouts : list SectionLayoutInfo.t;
  scrollOffset : Qc;
  viewportHeight : Qc;
  horizontal : option bool;
  enabled : option bool;
}.

Definition notSticky : StickyHeaderState := mkState None (-1) 0 false None.

(** The [for] loop of [useStickyHeader] from index [i] on, with the
    current values of [currentSection] and [nextSection];
    [sectionLayouts[i + 1] ?? null] is the array read, [None] past the
    end. *)
Fixpoint findSticky (sectionLayouts : list SectionLayoutInfo.t) (scrollOffset : Qc)
    (horizontal : bool) (fuel : nat) (i : Z)
    (currentSection nextSection : option SectionLayoutInfo.t)
    : option SectionLayoutInfo.t * option SectionLayoutInfo.t :=
  match fuel with
  | O => (currentSection, nextSection)
  | S fuel' =>
      match lookupZ sectionLayouts i with
      | None => (currentSection, nextSection)
      | Some section =>
          let headerStart :=
            if horizontal then x (SectionLayoutInfo.headerLayout section)
            else y (SectionLayoutInfo.headerLayout section) in
          if bool_decide (headerStart ≤ scrollOffset)%Qc
          then findSticky sectionLayouts scrollOffset horizontal fuel' (i + 1)
                 (Some section) (lookupZ sectionLayouts (i + 1))
          else (currentSection, nextSection)
      end
  end.

Definition useStickyHeader (options : Options) : StickyHeaderState :=
  let horizontal := default false (horizontal options) in
  let enabled := default true (enabled options) in
  let sectionLayouts := sectionLayouts options in
  let scrollOffset := scrollOffset options in
  if negb enabled || bool_decide (lengthZ sectionLayouts = 0)%Z then notSticky
  else
    match findSticky sectionLayouts scrollOffset horizontal (length sectionLayouts) 0
            None None with
    | (None, _) => notSticky
    | (Some currentSection, nextSection) =>
        let headerSize :=
          if horizontal then width (SectionLayoutInfo.headerLayout currentSection)
          else height (SectionLayoutInfo.headerLayout currentSection) in
        let translateY :=
          match nextSection with
          | None => 0%Qc
          | Some nextSection =>
              let nextHeaderStart :=
                if horizontal then x (SectionLayoutInfo.headerLayout nextSection)
                else y (SectionLayoutInfo.headerLayout nextSection) in
              let pushPoint := (nextHeaderStart - headerSize)%Qc in
              if bool_decide (pushPoint < scrollOffset)%Qc
              then (pushPoint - scrollOffset)%Qc else 0%Qc
          end in
        mkState (Some (SectionLayoutInfo.sectionKey currentSection))
                (SectionLayoutInfo.sectionIndex currentSection)
                translateY true
                (Some (SectionLayoutInfo.headerLayout currentSection))
    end.

(** The loop of [useMultipleStickyHeaders], which reads the vertical
    coordinate only. *)
Fixpoint findStickyVertical (sectionLayouts : list SectionLayoutInfo.t) (scrollOffset : Qc)
    (fuel : nat) (i : Z) (currentSection nextSection : option SectionLayoutInfo.t)
    : option SectionLayoutInfo.t * option SectionLayoutInfo.t :=
  match fuel with
  | O => (currentSection, nextSection)
  | S fuel' =>
      match lookupZ sectionLayouts i with
      | None => (currentSection, nextSection)
      | Some section =>
          let headerStart := y (SectionLayoutInfo.headerLayout section) in
          if bool_decide (headerStart ≤ scrollOffset)%Qc
          then findStickyVertical sectionLayouts scrollOffset fuel' (i + 1)
                 (Some section) (lookupZ sectionLayouts (i + 1))
          else (currentSection, nextSection)
      end
  end.

(** [levels] is not read by the body. *)
Definition useMultipleStickyHeaders (sectionLayouts : list SectionLayoutInfo.t)
    (scrollOffset : Qc) (levels : Z) : list StickyHeaderState :=
  if bool_decide (lengthZ sectionLayouts = 0)%Z then []
  else
    match findStickyVertical sectionLayouts scrollOffset (length sectionLayouts) 0
            None None with
    | (None, _) => []
    | (Some currentSection, nextSection) =>
        let headerSize := height (SectionLayoutInfo.headerLayout currentSection) in
        let translateY :=
          match nextSection with
          | None => 0%Qc
          | Some nextSection =>
              let nextHeaderStart := y (SectionLayoutInfo.headerLayout nextSection) in
              let pushPoint := (nextHeaderStart - headerSize)%Qc in
              if bool_decide (pushPoint < scrollOffset)%Qc
              then (pushPoint - scrollOffset)%Qc else 0%Qc
          end in
        [ mkState (Some (SectionLayoutInfo.sectionKey currentSection))
                  (SectionLayoutInfo.sectionIndex currentSection)
                  translateY true
                  (Some (SectionLayoutInfo.headerLayout currentSection)) ]
    end.

End StickyHeader.

(** The main-axis start and extent of a section's header. *)
Definition headerStartOf (horizontal : bool) (s : SectionLayoutInfo.t) : Qc :=
  if horizontal then x (SectionLayoutInfo.headerLayout s)
  else y (SectionLayoutInfo.headerLayout s).

Definition headerSizeOf (horizontal : bool) (s : SectionLayoutInfo.t) : Qc :=
  if horizontal then width (SectionLayoutInfo.headerLayout s)
  else height (SectionLayoutInfo.headerLayout s).

(** Two sections with headers of height 40 at 0 and 300, scrolled to 280:
    the second header has started to push the first one. *)
Definition stickyScenario : StickyHeader.Options :=
  StickyHeader.mkOptions
    [ SectionLayoutInfo.mk "a" 0 (mkRect 0 0 (Qc_of_Z 320) (Qc_of_Z 40)) None
        (Qc_of_Z 40) (Qc_of_Z 300) 5 false;
      SectionLayoutInfo.mk "b" 1 (mkRect 0 (Qc_of_Z 300) (Qc_of_Z 320) (Qc_of_Z 40)) None
        (Qc_of_Z 340) (Qc_of_Z 600) 5 false ]
    (Qc_of_Z 280) (Qc_of_Z 600) None None.

(** ** src/hooks/useLayoutMeasurement.ts: [useProgressiveRender]

    The hook keeps two refs, [renderCount] and [measuredCount]; they are
    the state.  The counts are integers.  [onItemMeasured] closes over
    the [totalItems] and [batchSize] of the render that made it and does
    not read its [index] argument; the call of [onRenderCountChange], if
    there is one, is the second component of the result. *)

Module ProgressiveRender.

Record t := mk {
  renderCount : Z;
  measuredCount : Z;
}.

(** The refs as the first render initialises them. *)
Definition create (totalItems initialCount : Z) : t :=
  mk (Z.min initialCount totalItems) 0.

Definition onItemMeasured (totalItems batchSize : Z) (st : t) (index : Z) : t * option Z :=
  let measuredCount := (measuredCount st + 1)%Z in
  if bool_decide (renderCount st ≤ measuredCount)%Z &&
     bool_decide (renderCount st < totalItems)%Z
  then
    let newCount := Z.min (renderCount st + batchSize) totalItems in
    (mk newCount measuredCount, Some newCount)
  else (mk (renderCount st) measuredCount, None).

End ProgressiveRender.

(** The refs after the measurements of [indices] were reported one after
    the other, and the counts passed to [onRenderCountChange] on the way,
    in order. *)
Definition measureAll (totalItems batchSize : Z) (st : ProgressiveRender.t) (indices : list Z)
    : ProgressiveRender.t * list Z :=
  foldl (λ '(st, reported) index,
           let '(st', call) := ProgressiveRender.onItemMeasured totalItems batchSize st index in
           (st', reported ++ from_option (λ c, [c]) [] call))
        (st, []) indices.

(** ** src/hooks/useScrollHandler.ts

    The refs of the hook ([scrollState], [lastOffset], [lastTimestamp],
    [endReachedCalled]) are the state.  [Date.now()] is an input of every
    handler, in milliseconds.  Of the options, [onEndReached] is given or
    not, and [onScrollStateChange] does not change the state; the call of
    [onEndReached], if a handler makes one, is returned with its
    argument. *)

Module ScrollHandler.

(** [Math.abs]. *)
Definition Qcabs (a : Qc) : Qc := if bool_decide (0 ≤ a)%Qc then a else (- a)%Qc.

Inductive Direction := forward | backward | idle.

Record ScrollState := mkScrollState {
  offset : Qc;
  velocity : Qc;
  direction : Direction;
  isScrolling : bool;
  contentSize : Qc;
  viewportSize : Qc;
}.

(** [NativeScrollEvent]: [contentOffset], [contentSize] and
    [layoutMeasurement]. *)
Record NativeScrollEvent := mkEvent {
  contentOffset_x : Qc;
  contentOffset_y : Qc;
  contentSize_width : Qc;
  contentSize_height : Qc;
  layoutMeasurement_width : Qc;
  layoutMeasurement_height : Qc;
}.

Record Options := mkOptions {
  horizontal : option bool;
  onEndReached : bool;
  onEndReachedThreshold : option Qc;
}.

Record t := mk {
  scrollState : ScrollState;
  lastOffset : Qc;
  lastTimestamp : Z;
  endReachedCalled : bool;
}.

(** The refs after the first render, at time [now]. *)
Definition create (now : Z) : t :=
  mk (mkScrollState 0 0 idle false 0 0) 0 now false.

Definition calculateVelocity (st : t) (now : Z) (newOffset : Qc) : Qc * t :=
  let timeDelta := (now - lastTimestamp st)%Z in
  if bool_decide (timeDelta = 0)%Z then (velocity (scrollState st), st)
  else
    let offsetDelta := (newOffset - lastOffset st)%Qc in
    let velocity := (offsetDelta / Qc_of_Z timeDelta)%Qc in
    (velocity, mk (scrollState st) newOffset now (endReachedCalled st)).

Definition getDirection (velocity : Qc) : Direction :=
  if bool_decide (Qcabs velocity < Q2Qc (1 # 10))%Qc then idle
  else if bool_decide (0 < velocity)%Qc then forward else backward.

Definition checkEndReached (options : Options) (st : t) : option Qc * t :=
  if negb (onEndReached options) then (None, st)
  else
    let s := scrollState st in
    let distanceFromEnd := (contentSize s - offset s - viewportSize s)%Qc in
    let threshold :=
      (viewportSize s * default (Q2Qc (1 # 2)) (onEndReachedThreshold options))%Qc in
    if bool_decide (distanceFromEnd ≤ threshold)%Qc && negb (endReachedCalled st)
    then (Some distanceFromEnd, mk (scrollState st) (lastOffset st) (lastTimestamp st) true)
    else if bool_decide (threshold < distanceFromEnd)%Qc
    then (None, mk (scrollState st) (lastOffset st) (lastTimestamp st) false)
    else (None, st).

Definition updateScrollState (options : Options) (st : t) (now : Z)
    (event : NativeScrollEvent) (isScrolling : bool) : option Qc * t :=
  let horizontal := default false (horizontal options) in
  let offset := if horizontal then contentOffset_x event else contentOffset_y event in
  let size := if horizontal then contentSize_width event else contentSize_height event in
  let viewport :=
    if horizontal then layoutMeasurement_width event else layoutMeasurement_height event in
  let '(velocity, st) := calculateVelocity st now offset in
  let direction := getDirection velocity in
  let st :=
    mk (mkScrollState offset velocity direction isScrolling size viewport)
       (lastOffset st) (lastTimestamp st) (endReachedCalled st) in
  checkEndReached options st.

(** The handlers that write a field of [scrollState.current] before the
    update. *)
Definition withScrolling (st : t) (b : bool) : t :=
  let s := scrollState st in
  mk (mkScrollState (offset s) (velocity s) (direction s) b (contentSize s) (viewportSize s))
     (lastOffset st) (lastTimestamp st) (endReachedCalled st).

Definition onScroll options st now event : option Qc * t :=
  updateScrollState options st now event (isScrolling (scrollState st)).

Definition onScrollBeginDrag options st now event : option Qc * t :=
  updateScrollState options (withScrolling st true) now event true.

Definition onScrollEndDrag options st now event : option Qc * t :=
  updateScrollState options st now event (isScrolling (scrollState st)).

Definition onMomentumScrollBegin options st now event : option Qc * t :=
  updateScrollState options (withScrolling st true) now event true.

Definition onMomentumScrollEnd options st now event : option Qc * t :=
  let s := scrollState st in
  let st :=
    mk (mkScrollState (offset s) 0 idle false (contentSize s) (viewportSize s))
       (lastOffset st) (lastTimestamp st) (endReachedCalled st) in
  updateScrollState options st now event false.

Definition onContentSizeChange (options : Options) (st : t) (width height : Qc) : t :=
  let s := scrollState st in
  let size := if default false (horizontal options) then width else height in
  mk (mkScrollState (offset s) (velocity s) (direction s) (isScrolling s) size (viewportSize s))
     (lastOffset st) (lastTimestamp st) (endReachedCalled st).

End ScrollHandler.

(** A call of one of the handlers that the hook returns. *)
Inductive HandlerCall :=
| Scroll (now : Z) (event : ScrollHandler.NativeScrollEvent)
| ScrollBeginDrag (now : Z) (event : ScrollHandler.NativeScrollEvent)
| ScrollEndDrag (now : Z) (event : ScrollHandler.NativeScrollEvent)
| MomentumScrollBegin (now : Z) (event : ScrollHandler.NativeScrollEvent)
| MomentumScrollEnd (now : Z) (event : ScrollHandler.NativeScrollEvent)
| ContentSizeChange (width height : Qc).

Definition handle (options : ScrollHandler.Options) (st : ScrollHandler.t) (c : HandlerCall)
    : option Qc * ScrollHandler.t :=
  match c with
  | Scroll now e => ScrollHandler.onScroll options st now e
  | ScrollBeginDrag now e => ScrollHandler.onScrollBeginDrag options st now e
  | ScrollEndDrag now e => ScrollHandler.onScrollEndDrag options st now e
  | MomentumScrollBegin now e => ScrollHandler.onMomentumScrollBegin options st now e
  | MomentumScrollEnd now e => ScrollHandler.onMomentumScrollEnd options st now e
  | ContentSizeChange w h => (None, ScrollHandler.onContentSizeChange options st w h)
  end.

Definition handleAll (options : ScrollHandler.Options) (st : ScrollHandler.t)
    (calls : list HandlerCall) : ScrollHandler.t :=
  foldl (λ st c, (handle options st c).2) st calls.

(** The native event of a handler call, if it has one. *)
Definition nativeEvent (c : HandlerCall) : option ScrollHandler.NativeScrollEvent :=
  match c with
  | Scroll _ e | ScrollBeginDrag _ e | ScrollEndDrag _ e
  | MomentumScrollBegin _ e | MomentumScrollEnd _ e => Some e
  | ContentSizeChange _ _ => None
  end.

(** The distance from the end that a native event reports, and whether
    it is within the threshold. *)
Definition distanceFromEndOf (options : ScrollHandler.Options)
    (e : ScrollHandler.NativeScrollEvent) : Qc :=
  if default false (ScrollHandler.horizontal options)
  then (ScrollHandler.contentSize_width e - ScrollHandler.contentOffset_x e -
        ScrollHandler.layoutMeasurement_width e)%Qc
  else (ScrollHandler.contentSize_height e - ScrollHandler.contentOffset_y e -
        ScrollHandler.layoutMeasurement_height e)%Qc.

Definition nearEnd (options : ScrollHandler.Options)
    (e : ScrollHandler.NativeScrollEvent) : bool :=
  let viewport :=
    if default false (ScrollHandler.horizontal options)
    then ScrollHandler.layoutMeasurement_width e
    else ScrollHandler.layoutMeasurement_height e in
  bool_decide
    (distanceFromEndOf options e ≤
     viewport * default (Q2Qc (1 # 2)) (ScrollHandler.onEndReachedThreshold options))%Qc.

(** The native event of the latest handler call that has one. *)
Definition lastNativeEvent (calls : list HandlerCall) : option ScrollHandler.NativeScrollEvent :=
  List.last (filter is_Some (nativeEvent <$> calls)) None.

(** A vertical list of content height 1000 in a viewport of height 400,
    with the default threshold: at offset 0 the end is 600 away, at
    offset 500 it is 100 away. *)
Definition scrollOptions : ScrollHandler.Options := ScrollHandler.mkOptions None true None.

Definition scrollEventAt (offset : Z) : ScrollHandler.NativeScrollEvent :=
  ScrollHandler.mkEvent 0 (Qc_of_Z offset) (Qc_of_Z 320) (Qc_of_Z 1000)
    (Qc_of_Z 320) (Qc_of_Z 400).

Section section_layouts.
Context {T : Type}.
Implicit Types (m : Manager.t T) (sec : Section T).

(** The number of entries that a section has between its header and its
    footer. *)
Definition shownItems m sec : Z :=
  if bool_decide (key sec ∈ Manager.collapsedSections m) then 0%Z else lengthZ (data sec).

(** The flat index of the header of the section at [sectionIndex]. *)
Definition headerIndex m (sectionIndex : Z) : Z :=
  headerPosition (Manager.collapsedSections m) (Manager.hasSectionFooters m)
    (Manager.sections m) sectionIndex.

(** The layout info of a section in terms of the positioner's offsets. *)
Definition sectionLayoutOf m (sectionIndex : Z) sec : SectionLayoutInfo.t :=
  let p := Manager.layoutPositioner m in
  let h := headerIndex m sectionIndex in
  SectionLayoutInfo.mk (key sec) sectionIndex (rectAt p h)
    (if bool_decide (key sec ∈ Manager.collapsedSections m) then None
     else if Manager.hasSectionFooters m then Some (rectAt p (h + 1 + lengthZ (data sec)))
     else None)
    (offsetAt p (h + 1)) (offsetAt p (h + 1 + shownItems m sec))
    (shownItems m sec) (bool_decide (key sec ∈ Manager.collapsedSections m)).

(** What the manager's methods keep true: the boundaries and the flat
    data are those of a rebuild from the current sections, and the
    positioner works on the manager's flat data in the manager's
    direction. *)
Definition inSync m : Prop :=
  let b := Manager.buildLoop (Manager.collapsedSections m) (Manager.hasSectionFooters m) 0
             (Manager.sections m) (Manager.mkBuild [] ∅ ∅ 0) in
  Manager.sectionBoundaries m = Manager.b_sectionBoundaries b ∧
  Manager.flattenedData m = Manager.b_flattenedData b ∧
  Positioner.flattenedData (Manager.layoutPositioner m) = Manager.flattenedData m ∧
  Positioner.horizontal (Manager.layoutPositioner m) = Manager.horizontal m ∧
  Positioner.reachable (Manager.layoutPositioner m).

(** The manager after queries that only made the positioner compute its
    layouts. *)
Definition settled m m' : Prop :=
  m' = m ∨
  m' = Manager.withPositioner m (Positioner.ensureLayoutsComputed (Manager.layoutPositioner m)).

(** Whether the range that [getSectionAtOffset] tests, from the start of
    the header to the end of the items, holds an offset. *)
Definition holdsOffset (horizontal : bool) (offset : Qc) (l : SectionLayoutInfo.t) : bool :=
  bool_decide (headerStartOf horizontal l ≤ offset)%Qc &&
  bool_decide (offset < SectionLayoutInfo.itemsEndOffset l)%Qc.

End section_layouts.

(* ================================================================== *)
(** * Theorems *)
(* ================================================================== *)

(** ** LayoutCache: running averages *)

Section layout_cache_facts.
Import LayoutCache.

Lemma run_snoc c ops op : run c (ops ++ [op]) = call (run c ops) op.
Proof. unfold run. by rewrite foldl_app. Qed.

Lemma recordedSinceClear_snoc ty ops op :
  recordedSinceClear ty (ops ++ [op]) = recordedStep ty (recordedSinceClear ty ops) op.
Proof. unfold recordedSinceClear. by rewrite foldl_app. Qed.

Lemma total_snoc sizes s : total (sizes ++ [s]) = (total sizes + s)%Qc.
Proof. unfold total. by rewrite foldl_app. Qed.

Lemma typeStats_invalidateFrom c i m : typeStats (invalidateFrom c i m) = typeStats c.
Proof.
  unfold invalidateFrom. revert c.
  induction m as [|[k j] m IH]; intros c; simpl; [done|].
  rewrite IH. by case_bool_decide.
Qed.

Lemma typeStats_run ty ops :
  statsDescribe (typeStats (run create ops) !! ty) (recordedSinceClear ty ops).
Proof.
  induction ops as [|op ops IH] using rev_ind; [done|].
  rewrite run_snoc, recordedSinceClear_snoc.
  destruct op as [k l|k| |i m|ty' s]; simpl;
    rewrite ?typeStats_invalidateFrom; try done.
  unfold recordMeasurement; simpl. case_bool_decide as Hty.
  - subst ty'. rewrite lookup_insert_eq. simpl.
    split; [by destruct (recordedSinceClear ty ops)|].
    rewrite total_snoc. unfold lengthZ. rewrite length_app. simpl.
    destruct (typeStats (run create ops) !! ty) as [st|]; simpl in *.
    + destruct IH as (_ & -> & ->). unfold lengthZ. split; [done|lia].
    + rewrite IH. done.
  - by rewrite lookup_insert_ne.
Qed.

End layout_cache_facts.

(** C8. After any sequence of calls on a fresh cache, [getAverageSize]
    of a type is the arithmetic mean (total divided by count) of the
    sizes recorded for that type since the last [clear], and it is
    undefined when no size was recorded for the type since then. *)
Theorem getAverageSize_mean (ops : list LayoutCache.Call) (ty : string) :
  LayoutCache.getAverageSize (LayoutCache.run LayoutCache.create ops) ty =
    match LayoutCache.recordedSinceClear ty ops with
    | [] => None
    | sizes => Some (LayoutCache.mean sizes)
    end.
Proof.
  pose proof (typeStats_run ty ops) as H.
  unfold LayoutCache.getAverageSize.
  destruct (LayoutCache.typeStats _ !! ty) as [st|]; simpl in H.
  - destruct H as (Hne & Htot & Hcnt).
    destruct (LayoutCache.recordedSinceClear ty ops) as [|s sizes] eqn:E; [done|].
    rewrite bool_decide_eq_false_2.
    + unfold LayoutCache.mean. by rewrite Htot, Hcnt.
    + rewrite Hcnt. unfold lengthZ. simpl. lia.
  - by rewrite H.
Qed.


(** ** Flattening: the utility and the manager *)

Section flatten_facts.
Context {T : Type}.
Implicit Types (sec : Section T) (b : Manager.Build T).

Lemma lookupZ_app_l {A} (l1 l2 : list A) (i : Z) :
  (0 ≤ i < lengthZ l1)%Z → lookupZ (l1 ++ l2) i = lookupZ l1 i.
Proof.
  unfold lookupZ, lengthZ. intros Hi. case_bool_decide; [|lia].
  apply lookup_app_l. lia.
Qed.

Lemma lookupZ_app_r {A} (l1 l2 : list A) (i : Z) :
  (0 ≤ i)%Z → lookupZ (l1 ++ l2) (lengthZ l1 + i) = lookupZ l2 i.
Proof.
  unfold lookupZ, lengthZ. intros Hi. rewrite !bool_decide_eq_true_2 by lia.
  rewrite lookup_app_r by lia. f_equal. lia.
Qed.

Lemma lookupZ_Some {A} (l : list A) (i : Z) (a : A) :
  lookupZ l i = Some a → (0 ≤ i < lengthZ l)%Z.
Proof.
  unfold lookupZ, lengthZ. case_bool_decide; [|done].
  intros Hlt%lookup_lt_Some. lia.
Qed.

Lemma lookupZ_None {A} (l : list A) (i : Z) :
  (i < 0 ∨ lengthZ l ≤ i)%Z → lookupZ l i = None.
Proof.
  unfold lookupZ, lengthZ. intros Hi. case_bool_decide; [|done].
  apply lookup_ge_None. lia.
Qed.

Lemma lengthZ_app {A} (l1 l2 : list A) : lengthZ (l1 ++ l2) = (lengthZ l1 + lengthZ l2)%Z.
Proof. unfold lengthZ. rewrite length_app. lia. Qed.

Lemma flatten_pushItems sec si ii rest result :
  Flatten.pushItems sec si ii rest result = result ++ itemEntries si ii sec rest.
Proof.
  revert ii result. induction rest as [|d rest IH]; intros ii result; simpl.
  - by rewrite app_nil_r.
  - rewrite IH, <- app_assoc. done.
Qed.

Lemma manager_pushItems sec si ii rest flattened owned fi :
  Manager.pushItems sec si ii rest flattened owned fi =
    (flattened ++ itemEntries si ii sec rest,
     owned ++ seqZ fi (lengthZ rest),
     (fi + lengthZ rest)%Z).
Proof.
  revert ii flattened owned fi.
  induction rest as [|d rest IH]; intros ii flattened owned fi; simpl.
  - unfold lengthZ; simpl. rewrite seqZ_nil by lia. rewrite !app_nil_r. do 2 f_equal. lia.
  - rewrite IH, <- !app_assoc. unfold lengthZ. simpl length.
    rewrite (seqZ_cons fi) by lia. simpl.
    replace (Z.pred (Z.of_nat (S (length rest)))) with (Z.of_nat (length rest)) by lia.
    replace (Z.succ fi) with (fi + 1)%Z by lia.
    f_equal; try reflexivity; lia.
Qed.

Lemma length_itemEntries si ii sec rest : length (itemEntries si ii sec rest) = length rest.
Proof. revert ii. induction rest as [|d rest IH]; intros ii; simpl; [done|]. by rewrite IH. Qed.

Lemma lookup_itemEntries si ii sec rest (k : nat) d :
  rest !! k = Some d →
  itemEntries si ii sec rest !! k = Some (itemEntry si (ii + Z.of_nat k) sec d).
Proof.
  revert ii k. induction rest as [|d' rest IH]; intros ii k; [done|].
  destruct k as [|k]; simpl.
  - intros [= ->]. do 2 f_equal. lia.
  - intros H. rewrite (IH _ _ H). do 2 f_equal. lia.
Qed.

Lemma lengthZ_groupEntries c f si sec :
  lengthZ (groupEntries c f si sec) = groupSize c f sec.
Proof.
  unfold groupEntries, groupSize, lengthZ. simpl. case_bool_decide; simpl; [lia|].
  rewrite length_app, length_itemEntries. destruct f; simpl; lia.
Qed.

Lemma flatten_step c f si sec rest result :
  Flatten.flattenLoop c f si (sec :: rest) result =
    Flatten.flattenLoop c f (si + 1) rest (result ++ groupEntries c f si sec).
Proof.
  simpl. f_equal. unfold groupEntries.
  case_bool_decide; simpl; [done|].
  rewrite flatten_pushItems. destruct f; rewrite <- ?app_assoc; simpl; by rewrite ?app_nil_r.
Qed.

Lemma pushSection_data c f b si sec :
  Manager.b_flattenedData (Manager.pushSection c f b si sec) =
    Manager.b_flattenedData b ++ groupEntries c f si sec.
Proof.
  unfold Manager.pushSection, groupEntries.
  case_bool_decide; simpl; [done|].
  rewrite manager_pushItems. destruct f; simpl; rewrite <- ?app_assoc; simpl; by rewrite ?app_nil_r.
Qed.

Lemma pushSection_flatIndex c f b si sec :
  Manager.b_flatIndex (Manager.pushSection c f b si sec) =
    (Manager.b_flatIndex b + groupSize c f sec)%Z.
Proof.
  unfold Manager.pushSection, groupSize.
  case_bool_decide; simpl; [lia|].
  rewrite manager_pushItems. destruct f; simpl; lia.
Qed.

Lemma pushSection_boundaries c f b si sec :
  Manager.b_sectionBoundaries (Manager.pushSection c f b si sec) =
    <[key sec := boundaryAt c f si sec (Manager.b_flatIndex b)]> (Manager.b_sectionBoundaries b).
Proof.
  unfold Manager.pushSection, boundaryAt.
  case_bool_decide; simpl; [done|].
  rewrite manager_pushItems. destruct f; simpl; do 2 f_equal; lia.
Qed.

Lemma buildLoop_data c f si rest b :
  Manager.b_flattenedData (Manager.buildLoop c f si rest b) =
    Flatten.flattenLoop c f si rest (Manager.b_flattenedData b).
Proof.
  revert si b. induction rest as [|sec rest IH]; intros si b; [done|].
  rewrite flatten_step. simpl. by rewrite IH, pushSection_data.
Qed.

End flatten_facts.

(** C10. For every list of sections, set of collapsed sections and footer
    flag, [flattenSections] and the manager's [updateData] return the same
    flattened sequence: the same entries (type, key, section key, section
    index, item index, payload and section) in the same order. *)
Theorem updateData_flattenSections {T} (m : Manager.t T) (sections : list (Section T))
    (collapsed : gset string) :
  (Manager.updateData m sections collapsed).1 =
    Flatten.flattenSections sections
      (Flatten.mkOptions (Some collapsed) (Some (Manager.hasSectionFooters m))).
Proof.
  unfold Manager.updateData, Flatten.flattenSections. simpl.
  apply buildLoop_data.
Qed.

(** ** The manager's coordinate lookup *)

Section manager_facts.
Context {T : Type}.
Implicit Types (sec : Section T) (b : Manager.Build T).

Lemma buildLoop_app c f si l1 l2 b :
  Manager.buildLoop c f si (l1 ++ l2) b =
    Manager.buildLoop c f (si + lengthZ l1) l2 (Manager.buildLoop c f si l1 b).
Proof.
  revert si b. induction l1 as [|sec l1 IH]; intros si b; simpl.
  - f_equal. unfold lengthZ. simpl. lia.
  - rewrite IH. f_equal. unfold lengthZ. simpl length. lia.
Qed.

Lemma buildLoop_flatIndex c f si rest b :
  Manager.b_flatIndex (Manager.buildLoop c f si rest b) =
    (Manager.b_flatIndex b + sizeOfGroups c f rest)%Z.
Proof.
  revert si b. induction rest as [|sec rest IH]; intros si b; simpl; [lia|].
  rewrite IH, pushSection_flatIndex. lia.
Qed.

Lemma groupSize_pos c f sec : (0 < groupSize c f sec)%Z.
Proof. unfold groupSize, lengthZ. case_bool_decide; destruct f; lia. Qed.

Lemma sizeOfGroups_nonneg c f (l : list (Section T)) : (0 ≤ sizeOfGroups c f l)%Z.
Proof.
  induction l as [|sec l IH]; simpl; [lia|]. pose proof (groupSize_pos c f sec). lia.
Qed.

(** The flat index counts the entries pushed so far. *)
Lemma buildLoop_length c f si rest b :
  Manager.b_flatIndex b = lengthZ (Manager.b_flattenedData b) →
  Manager.b_flatIndex (Manager.buildLoop c f si rest b) =
    lengthZ (Manager.b_flattenedData (Manager.buildLoop c f si rest b)).
Proof.
  revert si b. induction rest as [|sec rest IH]; intros si b Hb; simpl; [done|].
  apply IH. rewrite pushSection_flatIndex, pushSection_data, lengthZ_app, lengthZ_groupEntries.
  lia.
Qed.

(** The entries already pushed stay where they are. *)
Lemma buildLoop_data_prefix c f si rest b :
  ∃ suffix, Manager.b_flattenedData (Manager.buildLoop c f si rest b) =
              Manager.b_flattenedData b ++ suffix.
Proof.
  revert si b. induction rest as [|sec rest IH]; intros si b; simpl.
  - exists []. by rewrite app_nil_r.
  - destruct (IH (si + 1)%Z (Manager.pushSection c f b si sec)) as [suffix ->].
    rewrite pushSection_data, <- app_assoc. eauto.
Qed.

(** A boundary is overwritten only by a later section with the same key. *)
Lemma buildLoop_boundaries_other c f si rest b (k : string) :
  k ∉ key <$> rest →
  Manager.b_sectionBoundaries (Manager.buildLoop c f si rest b) !! k =
    Manager.b_sectionBoundaries b !! k.
Proof.
  revert si b. induction rest as [|sec rest IH]; intros si b Hk; simpl; [done|].
  rewrite fmap_cons in Hk. apply not_elem_of_cons in Hk as [Hne Hk].
  rewrite IH by done. rewrite pushSection_boundaries. by rewrite lookup_insert_ne.
Qed.

(** What a rebuild records for the group at [si]. *)
Lemma buildLoop_group c f (sections : list (Section T)) (si : Z) sec :
  NoDup (key <$> sections) →
  lookupZ sections si = Some sec →
  let b := Manager.buildLoop c f 0 sections (Manager.mkBuild [] ∅ ∅ 0) in
  let h := headerPosition c f sections si in
  Manager.b_sectionBoundaries b !! key sec = Some (boundaryAt c f si sec h) ∧
  (0 ≤ h)%Z ∧
  ∀ j, (0 ≤ j < groupSize c f sec)%Z →
       lookupZ (Manager.b_flattenedData b) (h + j) = lookupZ (groupEntries c f si sec) j.
Proof.
  intros Hnd Hsec b h. subst b h.
  pose proof (lookupZ_Some _ _ _ Hsec) as Hsi.
  unfold lookupZ in Hsec. rewrite bool_decide_eq_true_2 in Hsec by lia.
  pose proof (take_drop_middle _ _ _ Hsec) as Hsplit.
  set (pre := take (Z.to_nat si) sections) in *.
  set (post := drop (S (Z.to_nat si)) sections) in *.
  assert (lengthZ pre = si) as Hpre.
  { unfold lengthZ, pre. rewrite length_take. unfold lengthZ in Hsi. lia. }
  unfold headerPosition. fold pre.
  rewrite <- Hsplit in Hnd |- *.
  rewrite buildLoop_app. simpl. rewrite Z.add_0_l, Hpre.
  set (b1 := Manager.buildLoop c f 0 pre (Manager.mkBuild [] ∅ ∅ 0)).
  assert (Manager.b_flatIndex b1 = sizeOfGroups c f pre) as Hfi.
  { unfold b1. rewrite buildLoop_flatIndex. simpl. lia. }
  assert (Manager.b_flatIndex b1 = lengthZ (Manager.b_flattenedData b1)) as Hlen.
  { unfold b1. by apply buildLoop_length. }
  split; [|split].
  - rewrite buildLoop_boundaries_other.
    + by rewrite pushSection_boundaries, lookup_insert_eq, Hfi.
    + rewrite fmap_app, fmap_cons in Hnd.
      apply NoDup_app in Hnd as (_ & _ & Hnd). by apply NoDup_cons in Hnd as [? _].
  - apply sizeOfGroups_nonneg.
  - intros j Hj.
    destruct (buildLoop_data_prefix c f (si + 1) post (Manager.pushSection c f b1 si sec))
      as [suffix ->].
    rewrite pushSection_data, <- app_assoc.
    rewrite <- Hfi, Hlen, lookupZ_app_r by lia.
    apply lookupZ_app_l. rewrite lengthZ_groupEntries. lia.
Qed.

Lemma lookupZ_groupEntries_header c f si sec :
  lookupZ (groupEntries c f si sec) 0 = Some (headerEntry si sec).
Proof. done. Qed.

Lemma lookupZ_groupEntries_item c f si sec (ri : Z) d :
  key sec ∉ c →
  lookupZ (data sec) ri = Some d →
  lookupZ (groupEntries c f si sec) (1 + ri) = Some (itemEntry si ri sec d).
Proof.
  intros Hc Hd. pose proof (lookupZ_Some _ _ _ Hd) as Hri.
  unfold lookupZ in *. rewrite bool_decide_eq_true_2 in Hd by lia.
  rewrite bool_decide_eq_true_2 by lia.
  unfold groupEntries. rewrite bool_decide_eq_false_2 by done.
  replace (Z.to_nat (1 + ri)) with (S (Z.to_nat ri)) by lia. simpl.
  rewrite lookup_app_l.
  - rewrite (lookup_itemEntries _ _ _ _ _ _ Hd). do 2 f_equal. lia.
  - rewrite length_itemEntries. by apply lookup_lt_Some in Hd.
Qed.

End manager_facts.

(** C1. After a rebuild over sections with pairwise distinct keys, for the
    group [sec] at [sectionIndex] whose header is at flat position [h]:
    the recorded boundary is the group's; [getFlatIndex] with record
    index [-1] returns the header's flat index, where the flat sequence
    holds the group's header; for a collapsed group and a record index
    [>= 0] it returns [-1]; and for a valid record index of a group that
    is not collapsed it returns [firstItemFlatIndex + recordIndex], where
    the flat sequence holds that record. *)
Theorem getFlatIndex_after_rebuild {T} (m0 : Manager.t T) (sections : list (Section T))
    (collapsed : gset string) (sectionIndex : Z) (sec : Section T) :
  NoDup (key <$> sections) →
  lookupZ sections sectionIndex = Some sec →
  let m := (Manager.updateData m0 sections collapsed).2 in
  let h := headerPosition collapsed (Manager.hasSectionFooters m0) sections sectionIndex in
  ∃ boundary,
    Manager.sectionBoundaries m !! key sec = Some boundary ∧
    Manager.sectionIndex boundary = sectionIndex ∧
    Manager.headerFlatIndex boundary = h ∧
    Manager.getFlatIndex m sectionIndex (-1) = Manager.headerFlatIndex boundary ∧
    lookupZ (Manager.flattenedData m) h = Some (headerEntry sectionIndex sec) ∧
    (key sec ∈ collapsed →
     ∀ recordIndex, (0 ≤ recordIndex)%Z →
       Manager.getFlatIndex m sectionIndex recordIndex = (-1)%Z) ∧
    (key sec ∉ collapsed →
     ∀ recordIndex d, lookupZ (data sec) recordIndex = Some d →
       Manager.getFlatIndex m sectionIndex recordIndex =
         (Manager.firstItemFlatIndex boundary + recordIndex)%Z ∧
       lookupZ (Manager.flattenedData m) (Manager.getFlatIndex m sectionIndex recordIndex) =
         Some (itemEntry sectionIndex recordIndex sec d)).
Proof.
  intros Hnd Hsec m h.
  destruct (buildLoop_group collapsed (Manager.hasSectionFooters m0) sections sectionIndex sec
              Hnd Hsec) as (Hb & Hh & Hdata).
  fold h in Hb, Hh, Hdata.
  exists (boundaryAt collapsed (Manager.hasSectionFooters m0) sectionIndex sec h).
  assert (∀ ri, Manager.getFlatIndex m sectionIndex ri =
            if bool_decide (ri = -1)%Z then h
            else if bool_decide (key sec ∈ collapsed) then (-1)%Z
            else if bool_decide (ri < 0)%Z || bool_decide (lengthZ (data sec) ≤ ri)%Z
                 then (-1)%Z
            else (h + 1 + ri)%Z) as Hget.
  { intros ri. unfold Manager.getFlatIndex, m. simpl. rewrite Hsec, Hb.
    unfold boundaryAt. repeat case_bool_decide; simpl; done. }
  pose proof (groupSize_pos collapsed (Manager.hasSectionFooters m0) sec) as Hpos.
  split; [exact Hb|].
  split; [unfold boundaryAt; by case_bool_decide|].
  split; [unfold boundaryAt; by case_bool_decide|].
  split; [rewrite Hget; unfold boundaryAt; by case_bool_decide|].
  split.
  { specialize (Hdata 0%Z). rewrite Z.add_0_r in Hdata.
    unfold m. simpl. rewrite Hdata by lia. apply lookupZ_groupEntries_header. }
  split.
  - intros Hc ri Hri. rewrite Hget.
    rewrite bool_decide_eq_false_2 by lia. by rewrite bool_decide_eq_true_2.
  - intros Hc ri d Hd. pose proof (lookupZ_Some _ _ _ Hd) as Hri.
    rewrite Hget.
    rewrite (bool_decide_eq_false_2 (ri = -1)%Z) by lia.
    rewrite (bool_decide_eq_false_2 (key sec ∈ collapsed)) by done.
    rewrite (bool_decide_eq_false_2 (ri < 0)%Z) by lia.
    rewrite (bool_decide_eq_false_2 (lengthZ (data sec) ≤ ri)%Z) by lia. simpl.
    split.
    + unfold boundaryAt. rewrite bool_decide_eq_false_2 by done. done.
    + unfold m. simpl. replace (h + 1 + ri)%Z with (h + (1 + ri))%Z by lia.
      rewrite Hdata.
      * by apply lookupZ_groupEntries_item.
      * unfold groupSize. rewrite bool_decide_eq_false_2 by done.
        destruct (Manager.hasSectionFooters m0); lia.
Qed.

(** The scenario of three groups with 2, 0 and 3 records, footers
    disabled and the second group collapsed. *)
Lemma getFlatIndex_after_rebuild_scenario :
  NoDup (key <$> scenarioSections) ∧
  lookupZ scenarioSections 1 = Some (mkSection "b" []) ∧
  Manager.getFlatIndex scenarioManager 1 0 = (-1)%Z.
Proof.
  assert (NoDup (key <$> scenarioSections)) as Hnd.
  { apply (bool_decide_unpack _). by vm_compute. }
  assert (lookupZ scenarioSections 1 = Some (mkSection "b" [])) as Hsec by reflexivity.
  split; [exact Hnd|]. split; [exact Hsec|].
  destruct (getFlatIndex_after_rebuild
              (Manager.create LayoutCache.create Manager.noOptions)
              scenarioSections {["b"]} 1 (mkSection "b" []) Hnd Hsec)
    as (boundary & _ & _ & _ & _ & _ & Hcollapsed & _).
  apply Hcollapsed; [|lia]. simpl. set_solver.
Defined.

Example scenario_flat_length : lengthZ (Manager.flattenedData scenarioManager) = 8%Z.
Proof. by vm_compute. Qed.

Example scenario_getFlatIndex :
  Manager.getFlatIndex scenarioManager 1 0 = (-1)%Z ∧
  Manager.getFlatIndex scenarioManager 1 (-1) = 3%Z ∧
  Manager.getFlatIndex scenarioManager 2 0 = 5%Z.
Proof. vm_compute. done. Qed.

(** The stand-alone [getFlatIndex] of the utilities follows another
    convention: it counts the target header in, and it knows no [-1]. *)
Example utility_getFlatIndex :
  Flatten.getFlatIndex scenarioSections 1 0 {["b"]} false = Some 4%Z ∧
  Flatten.getFlatIndex scenarioSections 1 (-1) {["b"]} false = Some 4%Z ∧
  Flatten.getFlatIndex scenarioSections 2 0 {["b"]} false = Some 5%Z.
Proof. vm_compute. done. Qed.

(** The boundaries are kept by section key: of two sections with one key
    the later one's boundary is found for both. *)
Example duplicate_section_keys :
  let m := (Manager.updateData (Manager.create LayoutCache.create Manager.noOptions)
              [mkSection "a" [10]; mkSection "a" []] ∅).2 in
  Manager.getFlatIndex (T:=nat) m 0 (-1) = 2%Z ∧ Manager.getFlatIndex m 1 (-1) = 2%Z.
Proof. by vm_compute. Qed.

(** ** The positioner: lazily computed prefix sums *)

Section positioner_facts.
Context {T : Type}.
Implicit Types p : Positioner.t T.

Lemma sumQc_snoc (l : list Qc) (a : Qc) : sumQc (l ++ [a]) = (sumQc l + a)%Qc.
Proof.
  induction l as [|b l IH]; simpl.
  - by rewrite Qcplus_0_l, Qcplus_0_r.
  - by rewrite IH, Qcplus_assoc.
Qed.

Lemma offsetAt_0 p : offsetAt p 0 = 0%Qc.
Proof. done. Qed.

Lemma offsetAt_succ p (i : Z) :
  (0 ≤ i)%Z → offsetAt p (i + 1) = (offsetAt p i + Positioner.getItemSize p i)%Qc.
Proof.
  intros Hi. unfold offsetAt.
  rewrite seqZ_app by lia. rewrite fmap_app.
  rewrite (seqZ_cons _ 1) by lia. rewrite (seqZ_nil _ (Z.pred 1)) by lia. simpl.
  by rewrite sumQc_snoc.
Qed.

Lemma Qcle_plus_nonneg (a s : Qc) : (0 ≤ s)%Qc → (a ≤ a + s)%Qc.
Proof.
  intros Hs. rewrite <- (Qcplus_0_r a) at 1. by apply Qcplus_le_mono_l.
Qed.

(** Offsets grow with the index when no size is negative. *)
Lemma offsetAt_mono p (n i j : Z) :
  (∀ k, (0 ≤ k < n)%Z → (0 ≤ Positioner.getItemSize p k)%Qc) →
  (0 ≤ i)%Z → (i ≤ j)%Z → (j ≤ n)%Z → (offsetAt p i ≤ offsetAt p j)%Qc.
Proof.
  intros Hsizes Hi Hij Hjn.
  replace j with (i + Z.of_nat (Z.to_nat (j - i)))%Z in * by lia.
  induction (Z.to_nat (j - i)) as [|d IH].
  - rewrite Z.add_0_r. reflexivity.
  - replace (i + Z.of_nat (S d))%Z with (i + Z.of_nat d + 1)%Z in * by lia.
    rewrite offsetAt_succ by lia.
    etrans; [apply IH; lia|]. apply Qcle_plus_nonneg, Hsizes. lia.
Qed.

(** The loop of [ensureLayoutsComputed], after [n] iterations. *)
Lemma layoutLoop_prefix p (n : nat) :
  ∃ m, foldl (Positioner.layoutStep p) (∅, 0%Qc) (seqZ 0 (Z.of_nat n)) =
         (m, offsetAt p (Z.of_nat n)) ∧
       ∀ i, m !! i = if bool_decide (0 ≤ i < Z.of_nat n)%Z then Some (rectAt p i) else None.
Proof.
  induction n as [|n (m & Hfold & Hm)].
  - exists ∅. split; [done|]. intros i. rewrite lookup_empty.
    by rewrite bool_decide_eq_false_2 by lia.
  - rewrite seqZ_S, foldl_app, Hfold. simpl. rewrite Z.add_0_l.
    eexists. split.
    + f_equal. replace (Z.of_nat (S n)) with (Z.of_nat n + 1)%Z by lia.
      by rewrite offsetAt_succ by lia.
    + intros i. rewrite lookup_insert. case_decide as Hi.
      * subst i. rewrite bool_decide_eq_true_2 by lia. done.
      * rewrite Hm. repeat case_bool_decide; try done; lia.
Qed.

Lemma ensureLayoutsComputed_fields p :
  let p' := Positioner.ensureLayoutsComputed p in
  Positioner.horizontal p' = Positioner.horizontal p ∧
  Positioner.flattenedData p' = Positioner.flattenedData p ∧
  Positioner.layoutCache p' = Positioner.layoutCache p ∧
  (∀ i, Positioner.getItemSize p' i = Positioner.getItemSize p i) ∧
  (∀ i, offsetAt p' i = offsetAt p i) ∧
  (∀ i, rectAt p' i = rectAt p i).
Proof.
  unfold Positioner.ensureLayoutsComputed.
  destruct (Positioner.layoutsValid p); [done|].
  destruct (Positioner.layoutLoop p) as [m offset]. done.
Qed.

Lemma ensureLayoutsComputed_computed p :
  consistent p →
  let p' := Positioner.ensureLayoutsComputed p in
  Positioner.layoutsValid p' = true ∧ layoutsComputed p'.
Proof.
  intros [Hvalid Hdom]. unfold Positioner.ensureLayoutsComputed.
  destruct (Positioner.layoutsValid p) eqn:Hv; [by auto|].
  unfold Positioner.layoutLoop, lengthZ.
  destruct (layoutLoop_prefix p (length (Positioner.flattenedData p))) as (m & -> & Hm).
  split; [done|]. split; [exact Hm|]. simpl.
  by destruct (Positioner.horizontal p).
Qed.

Lemma ensureLayoutsComputed_consistent p :
  consistent p → consistent (Positioner.ensureLayoutsComputed p).
Proof.
  intros Hp. destruct (ensureLayoutsComputed_computed p Hp) as [Hv [Hm Ht]].
  split; [done|].
  intros i [r Hi]. rewrite Hm in Hi. by case_bool_decide.
Qed.

Lemma lookup_delete_range (m : gmap Z LayoutRect) (from len i : Z) :
  foldl (λ m i, delete i m) m (seqZ from len) !! i =
    if bool_decide (from ≤ i < from + len)%Z then None else m !! i.
Proof.
  destruct (decide (len ≤ 0)%Z) as [Hlen|Hlen].
  { rewrite seqZ_nil by lia. simpl. by rewrite bool_decide_eq_false_2 by lia. }
  replace len with (Z.of_nat (Z.to_nat len)) by lia.
  induction (Z.to_nat len) as [|n IH].
  - rewrite seqZ_nil by lia. simpl. by rewrite bool_decide_eq_false_2 by lia.
  - rewrite seqZ_S, foldl_app. simpl. rewrite lookup_delete.
    destruct (decide ((from + Z.of_nat n)%Z = i)) as [Hi|Hi].
    + subst i. by rewrite bool_decide_eq_true_2 by lia.
    + rewrite IH. repeat case_bool_decide; try done; lia.
Qed.

Lemma invalidateFrom_lookup p (index i : Z) :
  Positioner.computedLayouts (Positioner.invalidateFrom p index) !! i =
    if bool_decide (index ≤ i < lengthZ (Positioner.flattenedData p))%Z then None
    else Positioner.computedLayouts p !! i.
Proof.
  unfold Positioner.invalidateFrom. simpl. rewrite lookup_delete_range.
  repeat case_bool_decide; try done; lia.
Qed.

Lemma invalidateFrom_consistent p index :
  (∀ i, is_Some (Positioner.computedLayouts p !! i) →
        (0 ≤ i < lengthZ (Positioner.flattenedData p))%Z) →
  consistent (Positioner.invalidateFrom p index).
Proof.
  intros Hdom. split; [done|].
  intros i. rewrite invalidateFrom_lookup. case_bool_decide; [by intros [? ?]|].
  apply Hdom.
Qed.

Lemma invalidateAll_consistent p : consistent (Positioner.invalidateAll p).
Proof. split; [done|]. intros i. simpl. rewrite lookup_empty. by intros [? ?]. Qed.

Lemma updateItemLayout_consistent p i l :
  consistent p → consistent (Positioner.updateItemLayout p i l).
Proof.
  intros Hp. unfold Positioner.updateItemLayout.
  destruct (lookupZ _ _); [|done].
  apply invalidateFrom_consistent. apply Hp.
Qed.

Lemma getVisibleRange_state p so v o :
  (Positioner.getVisibleRange p so v o).2 = Positioner.ensureLayoutsComputed p.
Proof. unfold Positioner.getVisibleRange. by case_bool_decide. Qed.

Lemma getIndexForOffset_state p o :
  (Positioner.getIndexForOffset p o).2 = Positioner.ensureLayoutsComputed p.
Proof. unfold Positioner.getIndexForOffset. by case_bool_decide. Qed.

(** Every state of a positioner is consistent. *)
Lemma reachable_consistent p : Positioner.reachable p → consistent p.
Proof.
  induction 1.
  - split; [done|]. intros i. simpl. rewrite lookup_empty. by intros [? ?].
  - apply invalidateAll_consistent.
  - apply invalidateAll_consistent.
  - unfold Positioner.setContainerSize.
    destruct (_ || _); [apply invalidateAll_consistent|done].
  - by apply updateItemLayout_consistent.
  - apply invalidateFrom_consistent. by apply IHreachable.
  - apply invalidateAll_consistent.
  - by apply ensureLayoutsComputed_consistent.
  - by apply ensureLayoutsComputed_consistent.
  - rewrite getVisibleRange_state. by apply ensureLayoutsComputed_consistent.
  - rewrite getIndexForOffset_state. by apply ensureLayoutsComputed_consistent.
Qed.

(** The layout returned for an index. *)
Lemma getLayoutForIndex_rect p (i : Z) :
  consistent p →
  (Positioner.getLayoutForIndex p i).1 =
    if bool_decide (0 ≤ i < lengthZ (Positioner.flattenedData p))%Z
    then rectAt p i else Positioner.zeroRect.
Proof.
  intros Hp. unfold Positioner.getLayoutForIndex. simpl.
  destruct (ensureLayoutsComputed_computed p Hp) as [_ [Hm _]].
  destruct (ensureLayoutsComputed_fields p) as (_ & Hd & _ & _ & _ & Hr).
  rewrite Hm, Hd. case_bool_decide; simpl; [apply Hr|done].
Qed.

Lemma getContentSize_main p :
  consistent p →
  mainExtent p (Positioner.getContentSize p).1 =
    offsetAt p (lengthZ (Positioner.flattenedData p)).
Proof.
  intros Hp. unfold Positioner.getContentSize. simpl.
  destruct (ensureLayoutsComputed_computed p Hp) as [_ [_ Ht]].
  destruct (ensureLayoutsComputed_fields p) as (Hh & Hd & _ & _ & Ho & _).
  rewrite Ht, Hh, Hd, Ho. unfold mainExtent. by destruct (Positioner.horizontal p).
Qed.

Lemma getItemSize_resolved p (i : nat) (it : FlattenedItem T) :
  Positioner.flattenedData p !! i = Some it →
  Positioner.getItemSize p (Z.of_nat i) = resolvedSize p i it.
Proof.
  intros Hit. unfold Positioner.getItemSize, Positioner.getEstimatedSize, resolvedSize, lookupZ.
  rewrite bool_decide_eq_true_2 by lia. rewrite Nat2Z.id, Hit.
  unfold LayoutCache.get. destruct (LayoutCache.cache _ !! _); [done|].
  by destruct (LayoutCache.getAverageSize _ _).
Qed.

Lemma offsetAt_sumOfResolvedSizes p :
  offsetAt p (lengthZ (Positioner.flattenedData p)) = sumOfResolvedSizes p.
Proof.
  unfold offsetAt, sumOfResolvedSizes. f_equal.
  apply list_eq. intros i.
  rewrite list_lookup_fmap, list_lookup_imap.
  destruct (Positioner.flattenedData p !! i) as [it|] eqn:Hit; simpl.
  - rewrite lookup_seqZ_lt.
    + simpl. f_equal. rewrite Z.add_0_l. by apply getItemSize_resolved.
    + apply lookup_lt_Some in Hit. unfold lengthZ. lia.
  - rewrite lookup_seqZ_ge; [done|].
    apply lookup_ge_None in Hit. unfold lengthZ. lia.
Qed.

(** *** The binary searches *)

Lemma itemEndOf_rectAt p (i : Z) :
  (0 ≤ i)%Z → Positioner.itemEndOf p (rectAt p i) = offsetAt p (i + 1).
Proof.
  intros Hi. rewrite offsetAt_succ by done.
  unfold Positioner.itemEndOf, rectAt. by destruct (Positioner.horizontal p).
Qed.

Lemma itemStartOf_rectAt p (i : Z) : Positioner.itemStartOf p (rectAt p i) = offsetAt p i.
Proof. unfold Positioner.itemStartOf, rectAt. by destruct (Positioner.horizontal p). Qed.

Lemma midpoint_floor (low high : Z) :
  (low < high)%Z → (low ≤ (low + high) `div` 2 < high)%Z.
Proof. intros. Z.div_mod_to_equations. lia. Qed.

Lemma midpoint_ceil (low high : Z) :
  (low < high)%Z → (low < (low + high + 1) `div` 2 ≤ high)%Z.
Proof. intros. Z.div_mod_to_equations. lia. Qed.

(** The searches end: an iteration narrows the interval, whatever the
    layouts are, so the fuel given to them is never used up. *)
Lemma binarySearchStartLoop_total p offset (fuel : nat) (low high : Z) :
  (high - low ≤ Z.of_nat fuel)%Z →
  is_Some (Positioner.binarySearchStartLoop p offset fuel low high).
Proof.
  revert low high. induction fuel as [|fuel IH]; intros low high Hfuel; simpl.
  - by rewrite bool_decide_eq_false_2 by lia.
  - case_bool_decide as Hlt; [|done].
    pose proof (midpoint_floor low high Hlt).
    destruct (Positioner.computedLayouts p !! _); [case_bool_decide|]; apply IH; lia.
Qed.

Lemma binarySearchEndLoop_total p offset (fuel : nat) (low high : Z) :
  (high - low ≤ Z.of_nat fuel)%Z →
  is_Some (Positioner.binarySearchEndLoop p offset fuel low high).
Proof.
  revert low high. induction fuel as [|fuel IH]; intros low high Hfuel; simpl.
  - by rewrite bool_decide_eq_false_2 by lia.
  - case_bool_decide as Hlt; [|done].
    pose proof (midpoint_ceil low high Hlt).
    destruct (Positioner.computedLayouts p !! _); [case_bool_decide|]; apply IH; lia.
Qed.

Lemma getVisibleRange_total p (scrollOffset viewportSize overscan : Qc) :
  is_Some (Positioner.getVisibleRange p scrollOffset viewportSize overscan).1.
Proof.
  unfold Positioner.getVisibleRange. case_bool_decide; [done|]. simpl.
  unfold Positioner.binarySearchStart, Positioner.binarySearchEnd.
  destruct (binarySearchStartLoop_total (Positioner.ensureLayoutsComputed p)
              (Positioner.Qcmax 0 (scrollOffset - overscan))
              (length (Positioner.flattenedData (Positioner.ensureLayoutsComputed p))) 0
              (lengthZ (Positioner.flattenedData (Positioner.ensureLayoutsComputed p)) - 1))
    as [s ->]; [unfold lengthZ; lia|].
  destruct (binarySearchEndLoop_total (Positioner.ensureLayoutsComputed p)
              (scrollOffset + viewportSize + overscan)%Qc
              (length (Positioner.flattenedData (Positioner.ensureLayoutsComputed p))) 0
              (lengthZ (Positioner.flattenedData (Positioner.ensureLayoutsComputed p)) - 1))
    as [e ->]; [unfold lengthZ; lia|].
  done.
Qed.

Lemma getIndexForOffset_total p (offset : Qc) :
  is_Some (Positioner.getIndexForOffset p offset).1.
Proof.
  unfold Positioner.getIndexForOffset. case_bool_decide; [done|]. simpl.
  apply binarySearchStartLoop_total. unfold lengthZ. lia.
Qed.

Section searches.
Context (p : Positioner.t T) (n : Z) (offset : Qc).
Context (Hn : n = lengthZ (Positioner.flattenedData p)).
Context (Hcomputed : layoutsComputed p).
Context (Hsizes : ∀ k, (0 ≤ k < n)%Z → (0 ≤ Positioner.getItemSize p k)%Qc).

Lemma computed_lookup (i : Z) :
  (0 ≤ i < n)%Z → Positioner.computedLayouts p !! i = Some (rectAt p i).
Proof.
  intros Hi. destruct Hcomputed as [Hm _]. rewrite Hm, <- Hn.
  by rewrite bool_decide_eq_true_2 by lia.
Qed.

(** [binarySearchStart]: the result is the first index whose end is
    beyond [offset], or the last index when there is none. *)
Lemma binarySearchStartLoop_spec (fuel : nat) (low high : Z) :
  (0 ≤ low)%Z → (low ≤ high)%Z → (high ≤ n - 1)%Z → (high - low ≤ Z.of_nat fuel)%Z →
  (∀ i, (0 ≤ i < low)%Z → (offsetAt p (i + 1) ≤ offset)%Qc) →
  (high = (n - 1)%Z ∨ (offset < offsetAt p (high + 1))%Qc) →
  ∃ r, Positioner.binarySearchStartLoop p offset fuel low high = Some r ∧
       (0 ≤ r ≤ n - 1)%Z ∧
       (∀ i, (0 ≤ i < r)%Z → (offsetAt p (i + 1) ≤ offset)%Qc) ∧
       (r = (n - 1)%Z ∨ (offset < offsetAt p (r + 1))%Qc).
Proof.
  revert low high. induction fuel as [|fuel IH]; intros low high Hlow Hlh Hhigh Hfuel Hbelow Hat.
  - simpl. rewrite bool_decide_eq_false_2 by lia.
    exists low. replace high with low in * by lia. repeat split; auto; lia.
  - simpl. case_bool_decide as Hlt.
    + pose proof (midpoint_floor low high Hlt) as Hmid.
      set (mid := ((low + high) `div` 2)%Z) in *.
      rewrite computed_lookup by lia. rewrite itemEndOf_rectAt by lia.
      case_bool_decide as Hend.
      * apply IH; try lia; [|done].
        intros i Hi. etrans; [|exact Hend].
        apply (offsetAt_mono p n); [done|lia..].
      * apply IH; try lia; [done|].
        right. by apply Qclt_nge.
    + exists low. replace high with low in * by lia. repeat split; auto; lia.
Qed.

(** [binarySearchEnd]: the result is the last index whose start is before
    [offset], or index 0 when there is none. *)
Lemma binarySearchEndLoop_spec (fuel : nat) (low high : Z) :
  (0 ≤ low)%Z → (low ≤ high)%Z → (high ≤ n - 1)%Z → (high - low ≤ Z.of_nat fuel)%Z →
  (∀ i, (high < i ≤ n - 1)%Z → (offset ≤ offsetAt p i)%Qc) →
  (low = 0%Z ∨ (offsetAt p low < offset)%Qc) →
  ∃ r, Positioner.binarySearchEndLoop p offset fuel low high = Some r ∧
       (0 ≤ r ≤ n - 1)%Z ∧
       (∀ i, (r < i ≤ n - 1)%Z → (offset ≤ offsetAt p i)%Qc) ∧
       (r = 0%Z ∨ (offsetAt p r < offset)%Qc).
Proof.
  revert low high. induction fuel as [|fuel IH]; intros low high Hlow Hlh Hhigh Hfuel Habove Hat.
  - simpl. rewrite bool_decide_eq_false_2 by lia.
    exists high. replace low with high in * by lia. repeat split; auto; lia.
  - simpl. case_bool_decide as Hlt.
    + pose proof (midpoint_ceil low high Hlt) as Hmid.
      set (mid := ((low + high + 1) `div` 2)%Z) in *.
      rewrite computed_lookup by lia. rewrite itemStartOf_rectAt.
      case_bool_decide as Hstart.
      * apply IH; try lia; [|done].
        intros i Hi. etrans; [exact Hstart|].
        apply (offsetAt_mono p n); [done|lia..].
      * apply IH; try lia; [done|].
        right. by apply Qclt_nge.
    + exists high. replace low with high in * by lia. repeat split; auto; lia.
Qed.

End searches.

End positioner_facts.

Section positioner_queries.
Context {T : Type}.
Implicit Types p : Positioner.t T.

Lemma getItemSize_nonneg p :
  (∀ i it, Positioner.flattenedData p !! i = Some it → (0 ≤ resolvedSize p i it)%Qc) →
  ∀ k, (0 ≤ k < lengthZ (Positioner.flattenedData p))%Z → (0 ≤ Positioner.getItemSize p k)%Qc.
Proof.
  intros Hsizes k Hk.
  destruct (Positioner.flattenedData p !! Z.to_nat k) as [it|] eqn:Hit.
  - replace k with (Z.of_nat (Z.to_nat k)) by lia.
    rewrite (getItemSize_resolved _ _ _ Hit). by eapply Hsizes.
  - apply lookup_ge_None in Hit. unfold lengthZ in Hk. lia.
Qed.

(** With no measurement at all, every size is the default estimate. *)
Lemma resolvedSize_unmeasured p i it :
  Positioner.layoutCache p = LayoutCache.create →
  resolvedSize p i it = defaultEstimate p it.
Proof. intros Hc. unfold resolvedSize. by rewrite Hc. Qed.

Lemma getVisibleRange_spec p (scrollOffset viewportSize overscan : Qc) :
  consistent p →
  (∀ k, (0 ≤ k < lengthZ (Positioner.flattenedData p))%Z → (0 ≤ Positioner.getItemSize p k)%Qc) →
  (0 < lengthZ (Positioner.flattenedData p))%Z →
  let n := lengthZ (Positioner.flattenedData p) in
  let lower := Positioner.Qcmax 0 (scrollOffset - overscan) in
  let upper := (scrollOffset + viewportSize + overscan)%Qc in
  ∃ s e,
    (Positioner.getVisibleRange p scrollOffset viewportSize overscan).1 =
      Some (Positioner.mkRange s e) ∧
    (0 ≤ s ≤ n - 1)%Z ∧ (0 ≤ e ≤ n - 1)%Z ∧
    (∀ i, (0 ≤ i < s)%Z → (offsetAt p (i + 1) ≤ lower)%Qc) ∧
    (s = (n - 1)%Z ∨ (lower < offsetAt p (s + 1))%Qc) ∧
    (∀ i, (e < i ≤ n - 1)%Z → (upper ≤ offsetAt p i)%Qc) ∧
    (e = 0%Z ∨ (offsetAt p e < upper)%Qc).
Proof.
  intros Hp Hsizes Hlen n lower upper.
  destruct (ensureLayoutsComputed_computed p Hp) as [_ Hc].
  destruct (ensureLayoutsComputed_fields p) as (Hh & Hd & _ & Hsz & Ho & _).
  unfold Positioner.getVisibleRange.
  set (p' := Positioner.ensureLayoutsComputed p) in *.
  rewrite bool_decide_eq_false_2 by (rewrite Hd; lia).
  fold lower upper. simpl.
  assert (∀ k, (0 ≤ k < n)%Z → (0 ≤ Positioner.getItemSize p' k)%Qc) as Hsizes'.
  { intros k Hk. rewrite Hsz. by apply Hsizes. }
  assert (n = lengthZ (Positioner.flattenedData p')) as Hn by by rewrite Hd.
  destruct (binarySearchStartLoop_spec p' n lower Hn Hc Hsizes'
              (length (Positioner.flattenedData p')) 0 (n - 1))
    as (s & Hs & Hs1 & Hs2 & Hs3); try (unfold lengthZ in *; lia); try (by left).
  destruct (binarySearchEndLoop_spec p' n upper Hn Hc Hsizes'
              (length (Positioner.flattenedData p')) 0 (n - 1))
    as (e & He & He1 & He2 & He3); try (unfold lengthZ in *; lia); try (by left).
  exists s, e. unfold Positioner.binarySearchStart, Positioner.binarySearchEnd.
  rewrite <- Hn, Hs, He. simpl.
  rewrite Z.max_r, Z.min_r by lia.
  setoid_rewrite Ho in Hs2. setoid_rewrite Ho in He2. rewrite Ho in Hs3, He3.
  done.
Qed.

End positioner_queries.

(** C9. In every state of the positioner, [getLayoutForIndex] of an index
    that is negative or at least the number of items returns the zero
    rect. *)
Theorem getLayoutForIndex_out_of_range {T} (p : Positioner.t T) (index : Z) :
  Positioner.reachable p →
  (index < 0 ∨ lengthZ (Positioner.flattenedData p) ≤ index)%Z →
  (Positioner.getLayoutForIndex p index).1 = mkRect 0 0 0 0.
Proof.
  intros Hp Hindex. rewrite getLayoutForIndex_rect by by apply reachable_consistent.
  rewrite bool_decide_eq_false_2 by lia. done.
Qed.

(** C6. In every state of the positioner in which no resolved size is
    negative, the start offsets of the layouts are non-decreasing in the
    index, and the main-axis component of [getContentSize] is the sum of
    the resolved sizes of all items (the measured size when cached, else
    the type's average, else the default estimate). *)
Theorem offsets_monotone_and_total {T} (p : Positioner.t T) :
  Positioner.reachable p →
  (∀ i it, Positioner.flattenedData p !! i = Some it → (0 ≤ resolvedSize p i it)%Qc) →
  (∀ i j, (0 ≤ i)%Z → (i ≤ j)%Z → (j < lengthZ (Positioner.flattenedData p))%Z →
     (Positioner.itemStartOf p (Positioner.getLayoutForIndex p i).1 ≤
      Positioner.itemStartOf p (Positioner.getLayoutForIndex p j).1)%Qc) ∧
  mainExtent p (Positioner.getContentSize p).1 = sumOfResolvedSizes p.
Proof.
  intros Hp%reachable_consistent Hsizes. split.
  - intros i j Hi Hij Hj.
    rewrite !getLayoutForIndex_rect by done.
    rewrite !bool_decide_eq_true_2 by lia.
    assert (∀ k, Positioner.itemStartOf p (rectAt p k) = offsetAt p k) as Hstart.
    { intros k. unfold Positioner.itemStartOf, rectAt. by destruct (Positioner.horizontal p). }
    rewrite !Hstart.
    apply (offsetAt_mono p (lengthZ (Positioner.flattenedData p))); try lia.
    intros k Hk.
    destruct (Positioner.flattenedData p !! Z.to_nat k) as [it|] eqn:Hit.
    + replace k with (Z.of_nat (Z.to_nat k)) by lia.
      rewrite (getItemSize_resolved _ _ _ Hit). by eapply Hsizes.
    + apply lookup_ge_None in Hit. unfold lengthZ in Hk. lia.
  - rewrite getContentSize_main by done. apply offsetAt_sumOfResolvedSizes.
Qed.

(** C4 (amended). In every state of a positioner with at least one item
    and no negative size, [getVisibleRange] returns two valid indices
    such that an item other than the last one is left out below the range
    exactly when its end is at most the lower bound
    [max 0 (scrollOffset - overscan)], and an item other than the first
    one is left out above the range exactly when its start is at least the
    upper bound [scrollOffset + viewportSize + overscan].  The last item
    is the start index when no item ends after the lower bound and item 0
    is the end index when no item starts before the upper bound.  Every
    item that overlaps the window is in the range, and the range is not
    empty when the lower bound is below the upper bound; it can be empty
    otherwise. *)
Theorem getVisibleRange_half_open {T} (p : Positioner.t T)
    (scrollOffset viewportSize overscan : Qc) :
  Positioner.reachable p →
  (∀ i it, Positioner.flattenedData p !! i = Some it → (0 ≤ resolvedSize p i it)%Qc) →
  (0 < lengthZ (Positioner.flattenedData p))%Z →
  let n := lengthZ (Positioner.flattenedData p) in
  let lower := Positioner.Qcmax 0 (scrollOffset - overscan) in
  let upper := (scrollOffset + viewportSize + overscan)%Qc in
  let rect i := (Positioner.getLayoutForIndex p i).1 in
  ∃ r, (Positioner.getVisibleRange p scrollOffset viewportSize overscan).1 = Some r ∧
       (0 ≤ Positioner.startIndex r ≤ n - 1)%Z ∧
       (0 ≤ Positioner.endIndex r ≤ n - 1)%Z ∧
       (∀ i, (0 ≤ i < n - 1)%Z →
          (i < Positioner.startIndex r)%Z ↔ (Positioner.itemEndOf p (rect i) ≤ lower)%Qc) ∧
       (∀ i, (0 < i ≤ n - 1)%Z →
          (Positioner.endIndex r < i)%Z ↔ (upper ≤ Positioner.itemStartOf p (rect i))%Qc) ∧
       ((∀ i, (0 ≤ i < n)%Z → (Positioner.itemEndOf p (rect i) ≤ lower)%Qc) →
        Positioner.startIndex r = (n - 1)%Z) ∧
       ((∀ i, (0 ≤ i < n)%Z → (upper ≤ Positioner.itemStartOf p (rect i))%Qc) →
        Positioner.endIndex r = 0%Z) ∧
       (∀ i, (0 ≤ i < n)%Z →
          (lower < Positioner.itemEndOf p (rect i))%Qc →
          (Positioner.itemStartOf p (rect i) < upper)%Qc →
          (Positioner.startIndex r ≤ i ≤ Positioner.endIndex r)%Z) ∧
       ((lower < upper)%Qc → (Positioner.startIndex r ≤ Positioner.endIndex r)%Z).
Proof.
  intros Hp%reachable_consistent Hres Hlen n lower upper rect.
  pose proof (getItemSize_nonneg p Hres) as Hsizes.
  destruct (getVisibleRange_spec p scrollOffset viewportSize overscan Hp Hsizes Hlen)
    as (s & e & Hr & Hs & He & Hs1 & Hs2 & He1 & He2).
  fold n lower upper in Hr, Hs, He, Hs1, Hs2, He1, He2.
  exists (Positioner.mkRange s e). simpl.
  split; [exact Hr|]. split; [exact Hs|]. split; [exact He|].
  assert (∀ i, (0 ≤ i < n)%Z → rect i = rectAt p i) as Hrect.
  { intros i Hi. unfold rect. rewrite getLayoutForIndex_rect by done.
    by rewrite bool_decide_eq_true_2 by (fold n; lia). }
  assert (∀ i, (0 ≤ i < n - 1)%Z →
            (i < s)%Z ↔ (Positioner.itemEndOf p (rect i) ≤ lower)%Qc) as Hbelow.
  { intros i Hi. rewrite Hrect, itemEndOf_rectAt by lia. split.
    + intros Hlt. apply Hs1. lia.
    + intros Hend. destruct (decide (i < s)%Z) as [|Hge]; [done|exfalso].
      destruct Hs2 as [->|Hs2]; [lia|].
      apply Qclt_nge in Hs2. apply Hs2. etrans; [|exact Hend].
      apply (offsetAt_mono p n); [done|lia..]. }
  assert (∀ i, (0 < i ≤ n - 1)%Z →
            (e < i)%Z ↔ (upper ≤ Positioner.itemStartOf p (rect i))%Qc) as Habove.
  { intros i Hi. rewrite Hrect, itemStartOf_rectAt by lia. split.
    + intros Hlt. apply He1. lia.
    + intros Hstart. destruct (decide (e < i)%Z) as [|Hge]; [done|exfalso].
      destruct He2 as [->|He2]; [lia|].
      apply Qclt_nge in He2. apply He2. etrans; [exact Hstart|].
      apply (offsetAt_mono p n); [done|lia..]. }
  split; [exact Hbelow|]. split; [exact Habove|].
  split; [|split; [|split]].
  - intros Hall. destruct (decide (s = n - 1)%Z) as [|Hne]; [done|exfalso].
    assert (s < s)%Z; [|lia]. apply (Hbelow s); [lia|]. apply Hall. lia.
  - intros Hall. destruct (decide (e = 0)%Z) as [|Hne]; [done|exfalso].
    assert (e < e)%Z; [|lia]. apply (Habove e); [lia|]. apply Hall. lia.
  - intros i Hi Hend Hstart. split.
    + destruct (decide (s ≤ i)%Z) as [|Hgt]; [done|exfalso].
      apply (Qclt_not_le _ _ Hend). apply Hbelow; lia.
    + destruct (decide (i ≤ e)%Z) as [|Hgt]; [done|exfalso].
      apply (Qclt_not_le _ _ Hstart). apply Habove; lia.
  - intros Hwindow. destruct (decide (s ≤ e)%Z) as [|Hgt]; [done|exfalso].
    apply (Qclt_not_le _ _ Hwindow).
    transitivity (Positioner.itemStartOf p (rect s)); [apply Habove; lia|].
    replace (Positioner.itemStartOf p (rect s))
      with (Positioner.itemEndOf p (rect (s - 1)%Z)); [apply Hbelow; lia|].
    rewrite !Hrect by lia. rewrite itemEndOf_rectAt, itemStartOf_rectAt by lia.
    f_equal. lia.
Qed.

Lemma uniformPositioner_reachable : Positioner.reachable uniformPositioner.
Proof. apply Positioner.reach_setData, Positioner.reach_create. Qed.

Lemma uniformPositioner_sizes i it :
  Positioner.flattenedData uniformPositioner !! i = Some it →
  (0 ≤ resolvedSize uniformPositioner i it)%Qc.
Proof.
  intros _. rewrite resolvedSize_unmeasured by done.
  unfold defaultEstimate. by destruct (type it).
Qed.

(** The scenarios: six items of size 50 without overscan.  With a viewport
    of 300 at scroll offset 0 the range is [0, 5]; with an empty viewport
    at scroll offset 100 the start index 2 is above the end index 1. *)
Lemma getVisibleRange_half_open_scenario :
  (Positioner.getVisibleRange uniformPositioner 0 (Qc_of_Z 300) 0).1 =
    Some (Positioner.mkRange 0 5) ∧
  (Positioner.getVisibleRange uniformPositioner (Qc_of_Z 100) 0 0).1 =
    Some (Positioner.mkRange 2 1).
Proof.
  split.
  - destruct (getVisibleRange_half_open uniformPositioner 0 (Qc_of_Z 300) 0
                uniformPositioner_reachable uniformPositioner_sizes)
      as (r & Hr & _); [done|].
    rewrite Hr. vm_compute in Hr. by injection Hr as <-.
  - destruct (getVisibleRange_half_open uniformPositioner (Qc_of_Z 100) 0 0
                uniformPositioner_reachable uniformPositioner_sizes)
      as (r & Hr & _); [done|].
    rewrite Hr. vm_compute in Hr. by injection Hr as <-.
Defined.

(** Against the claim as stated: scrolled to offset 300, the last item
    ends exactly at the lower bound [300 - 0] and is the returned range;
    with an empty viewport at offset 0, item 0 starts exactly at the upper
    bound [0 + 0 + 0] and is the returned range. *)
Lemma getVisibleRange_keeps_adjoining_item :
  Positioner.itemEndOf uniformPositioner
    (Positioner.getLayoutForIndex uniformPositioner 5).1 = (Qc_of_Z 300 - 0)%Qc ∧
  (Positioner.getVisibleRange uniformPositioner (Qc_of_Z 300) (Qc_of_Z 300) 0).1 =
    Some (Positioner.mkRange 5 5) ∧
  Positioner.itemStartOf uniformPositioner
    (Positioner.getLayoutForIndex uniformPositioner 0).1 = (0 + 0 + 0)%Qc ∧
  (Positioner.getVisibleRange uniformPositioner 0 0 0).1 = Some (Positioner.mkRange 0 0).
Proof.
  split; [apply Qc_is_canon; by vm_compute|].
  split; [by vm_compute|].
  split; [apply Qc_is_canon; by vm_compute|].
  by vm_compute.
Qed.

Lemma getLayoutForIndex_out_of_range_witness :
  (Positioner.getLayoutForIndex uniformPositioner 6).1 = mkRect 0 0 0 0 ∧
  (Positioner.getLayoutForIndex uniformPositioner (-1)).1 = mkRect 0 0 0 0.
Proof.
  split; apply getLayoutForIndex_out_of_range;
    [apply uniformPositioner_reachable|right; by vm_compute
    |apply uniformPositioner_reachable|left; lia].
Defined.

Lemma offsets_monotone_and_total_witness :
  mainExtent uniformPositioner (Positioner.getContentSize uniformPositioner).1 =
    sumOfResolvedSizes uniformPositioner ∧
  sumOfResolvedSizes uniformPositioner = Qc_of_Z 300.
Proof.
  split; [|apply Qc_is_canon; by vm_compute].
  apply (offsets_monotone_and_total uniformPositioner
           uniformPositioner_reachable uniformPositioner_sizes).
Defined.

(** ** Measurements and the layouts below the measured index *)

Section update_facts.
Context {T : Type}.
Implicit Types p : Positioner.t T.

Lemma updateItemLayout_unfold p index layout it :
  lookupZ (Positioner.flattenedData p) index = Some it →
  Positioner.updateItemLayout p index layout =
    Positioner.invalidateFrom
      (Positioner.withCache p
         (LayoutCache.set
            (LayoutCache.recordMeasurement (Positioner.layoutCache p)
               (Positioner.getItemType p index) (mainSize p layout))
            (fkey it) layout))
      index.
Proof. intros Hit. unfold Positioner.updateItemLayout. by rewrite Hit. Qed.



End update_facts.




(** ** The recycler *)

Section recycler_facts.
Import Recycler.
Implicit Types (st : Recycler.t) (out : gset (string * string)) (cell : RecycledCell).

Lemma pop_None {A} (l : list A) : pop l = None → l = [].
Proof. destruct l as [|a l]; [done|]. simpl. by destruct (pop l) as [[? ?]|]. Qed.

Lemma pop_Some {A} (l rest : list A) (z : A) : pop l = Some (rest, z) → l = rest ++ [z].
Proof.
  revert rest. induction l as [|a l IH]; intros rest; [done|]. simpl.
  destruct (pop l) as [[rest' z']|] eqn:Hpop.
  - intros [= <- <-]. simpl. f_equal. by apply IH.
  - intros [= <- <-]. apply pop_None in Hpop. by subst.
Qed.

(** For a size that is not negative the trimming loop ends, with the
    first cells of the pool, at most [size] of them. *)
Lemma trimLoop_spec (fuel : nat) (cs : list RecycledCell) (size : Z) :
  (0 ≤ size)%Z → length cs ≤ fuel →
  ∃ k, trimLoop fuel cs size = Some (take k cs) ∧ (lengthZ (take k cs) ≤ size)%Z.
Proof.
  intros Hsize. revert cs. induction fuel as [|fuel IH]; intros cs Hfuel.
  - destruct cs; [|simpl in Hfuel; lia]. exists 0. simpl.
    rewrite bool_decide_eq_false_2 by (unfold lengthZ; simpl; lia).
    split; [done|]. unfold lengthZ. simpl. lia.
  - simpl. case_bool_decide as Hlt.
    + destruct (pop cs) as [[rest z]|] eqn:Hpop.
      * apply pop_Some in Hpop. subst cs. rewrite length_app in Hfuel. simpl in Hfuel.
        destruct (IH rest) as (k & Hk & Hlen); [lia|].
        exists (k `min` length rest). rewrite take_app_le by lia.
        assert (take (k `min` length rest) rest = take k rest) as ->; [|done].
        destruct (decide (k ≤ length rest)); [by rewrite Nat.min_l by lia|].
        rewrite Nat.min_r by lia. by rewrite !take_ge by lia.
      * apply pop_None in Hpop. subst cs. unfold lengthZ in Hlt. simpl in Hlt. lia.
    + exists (length cs). rewrite take_ge by lia. split; [done|lia].
Qed.

(** For a negative size it never ends. *)
Lemma trimLoop_negative (fuel : nat) (cs : list RecycledCell) (size : Z) :
  (size < 0)%Z → trimLoop fuel cs size = None.
Proof.
  intros Hsize. revert cs. induction fuel as [|fuel IH]; intros cs; simpl;
    rewrite bool_decide_eq_true_2 by (unfold lengthZ; lia); [done|apply IH].
Qed.

Lemma issued_fresh st type :
  ¬ issued st (type, type +:+ "-" +:+ pretty (cellCounter st + 1)%Z).
Proof.
  intros (n & Hn & Hkey). simpl in Hkey.
  apply (inj (String.app type)) in Hkey. apply (inj (String.app "-")) in Hkey.
  apply (inj pretty) in Hkey. lia.
Qed.

Lemma issued_mono st st' id :
  (cellCounter st ≤ cellCounter st')%Z → issued st id → issued st' id.
Proof. intros Hle (n & Hn & Hkey). exists n. split; [lia|done]. Qed.

Lemma poolOk_weaken st st' out out' type pool :
  (cellCounter st ≤ cellCounter st')%Z →
  (∀ cell, cell ∈ cells pool → itemType cell = type → cellId cell ∉ out → cellId cell ∉ out') →
  poolOk st out type pool → poolOk st' out' type pool.
Proof.
  intros Hle Hsub (Hlen & Hnd & Hcells). split; [done|split; [done|]].
  intros c Hin. destruct (Hcells c Hin) as (Hty & Hnot & Hi).
  split; [done|]. split; [by apply Hsub|by eapply issued_mono].
Qed.

Lemma recyclerOk_create d : recyclerOk (create d) ∅.
Proof.
  split; [done|]. split; [intros ty pool; simpl; by rewrite lookup_empty|set_solver].
Qed.

Lemma recyclerOk_acquireCell st out type flatIndex :
  recyclerOk st out →
  recyclerOk (acquireCell st type flatIndex).2 (out ∪ handed (acquireCell st type flatIndex).1) ∧
  ∀ cell, (acquireCell st type flatIndex).1 = Some cell →
          itemType cell = type ∧ cellId cell ∉ out.
Proof.
  intros (Hcounter & Hpools & Hout).
  assert (recyclerOk st (out ∪ ∅)) as Hsame.
  { split; [done|]. split; [|set_solver].
    intros ty p Hp. eapply poolOk_weaken; [reflexivity| |by apply Hpools]. set_solver. }
  unfold acquireCell.
  destruct (pools st !! type) as [pool|] eqn:Hpool; simpl; [|done].
  destruct (pop (cells pool)) as [[rest cell]|] eqn:Hpop; simpl; [|done].
  apply pop_Some in Hpop.
  destruct (Hpools type pool Hpool) as (Hlen & Hnd & Hcells).
  rewrite Hpop in Hlen, Hnd, Hcells.
  rewrite fmap_app in Hnd. apply NoDup_app in Hnd as (Hnd & Hdisj & _).
  destruct (Hcells cell) as (Hty & Hnotout & Hissued); [set_solver|].
  split; [|intros c [= <-]; by split].
  unfold cellId at 1. simpl. fold (cellId cell).
  split; [done|]. split.
  - intros ty p. simpl. destruct (decide (ty = type)) as [->|Hne].
    + rewrite lookup_insert_eq. intros [= <-]. simpl.
      split; [rewrite lengthZ_app in Hlen; unfold lengthZ in *; simpl in *; lia|].
      split; [done|]. intros c Hin.
      destruct (Hcells c) as (? & ? & ?); [set_solver|].
      repeat split; [done| |done].
      assert (cellKey c ≠ cellKey cell).
      { intros Heq. apply (Hdisj (cellKey c)); [by apply list_elem_of_fmap_2|].
        rewrite Heq. set_solver. }
      unfold cellId in *. set_solver.
    + rewrite lookup_insert_ne by done. intros Hp.
      eapply poolOk_weaken; [reflexivity| |by apply Hpools].
      intros c Hin Hc Hnot. unfold cellId in *. set_solver.
  - intros id [Hid|Hid]%elem_of_union; [by apply Hout|].
    apply elem_of_singleton in Hid. by subst id.
Qed.

Lemma recyclerOk_createCell st out type flatIndex :
  recyclerOk st out →
  recyclerOk (createCell st type flatIndex).2 (out ∪ {[cellId (createCell st type flatIndex).1]}) ∧
  itemType (createCell st type flatIndex).1 = type ∧
  cellId (createCell st type flatIndex).1 ∉ out.
Proof.
  intros (Hcounter & Hpools & Hout). unfold createCell, generateCellKey, cellId. simpl.
  pose proof (issued_fresh st type) as Hfresh.
  split; [|split; [done|]].
  - split; [simpl; lia|]. split.
    + intros ty p Hp. eapply poolOk_weaken; [| |by apply Hpools]; [simpl; lia|].
      intros c Hin Hty Hnot. apply not_elem_of_union. split; [done|].
      intros Heq%elem_of_singleton. apply Hfresh.
      destruct (Hpools ty p Hp) as (_ & _ & Hc). destruct (Hc c Hin) as (_ & _ & Hi).
      unfold cellId in *. by rewrite <- Heq.
    + intros id [Hid|Hid]%elem_of_union.
      * eapply issued_mono; [|by apply Hout]. simpl. lia.
      * apply elem_of_singleton in Hid. subst id.
        exists (cellCounter st + 1)%Z. simpl. split; [lia|done].
  - intros Hin. by apply Hfresh, Hout.
Qed.

Lemma getCell_cases st type flatIndex :
  (∃ cell, (acquireCell st type flatIndex).1 = Some cell ∧
           getCell st type flatIndex = (cell, (acquireCell st type flatIndex).2)) ∨
  ((acquireCell st type flatIndex).1 = None ∧
   (acquireCell st type flatIndex).2 = st ∧
   getCell st type flatIndex = createCell st type flatIndex).
Proof.
  unfold getCell, acquireCell.
  destruct (pools st !! type) as [pool|]; [|by right].
  destruct (pop (cells pool)) as [[rest cell]|]; [|by right].
  left. eauto.
Qed.

Lemma recyclerOk_getCell st out type flatIndex :
  recyclerOk st out →
  recyclerOk (getCell st type flatIndex).2 (out ∪ {[cellId (getCell st type flatIndex).1]}) ∧
  itemType (getCell st type flatIndex).1 = type ∧
  cellId (getCell st type flatIndex).1 ∉ out.
Proof.
  intros Hok.
  destruct (getCell_cases st type flatIndex) as [(cell & Hcell & ->)|(_ & _ & ->)].
  - destruct (recyclerOk_acquireCell st out type flatIndex Hok) as [Hok' Hnew].
    rewrite Hcell in Hok'. simpl in *. split; [done|]. by apply Hnew.
  - by apply recyclerOk_createCell.
Qed.

Lemma recyclerOk_releaseCell d st out cell :
  (0 ≤ d)%Z → defaultMaxPoolSize st = d →
  recyclerOk st out → cellId cell ∈ out →
  recyclerOk (releaseCell st cell) (out ∖ {[cellId cell]}).
Proof.
  intros Hd Hdefault (Hcounter & Hpools & Hout) Hin.
  split; [done|]. split; [|intros id Hid; apply Hout; set_solver].
  intros ty p. unfold releaseCell. simpl.
  destruct (decide (ty = itemType cell)) as [->|Hne].
  - rewrite lookup_insert_eq. intros [= <-].
    assert (poolOk st out (itemType cell)
              (default (mkPool (itemType cell) [] (defaultMaxPoolSize st))
                       (pools st !! itemType cell))) as (Hlen & Hnd & Hcells).
    { destruct (pools st !! itemType cell) as [pool|] eqn:Hpool; simpl; [by apply Hpools|].
      split; [unfold lengthZ; simpl; lia|]. split; [constructor|]. set_solver. }
    set (pool := default _ _) in *.
    case_bool_decide as Hroom.
    + split; [simpl; rewrite lengthZ_app; unfold lengthZ in *; simpl; lia|]. simpl. split.
      * rewrite fmap_app. apply NoDup_app. split; [done|]. split; [|apply NoDup_singleton].
        intros k Hk Hk'. apply list_elem_of_fmap in Hk as (c & -> & Hc).
        apply list_elem_of_singleton in Hk'.
        destruct (Hcells c Hc) as (Hty & Hnot & _). apply Hnot.
        unfold cellId in *. by rewrite Hty, Hk'.
      * intros c [Hc|Hc]%elem_of_app.
        -- destruct (Hcells c Hc) as (? & ? & ?). repeat split; [done|set_solver|done].
        -- apply list_elem_of_singleton in Hc. subst c.
           repeat split; [set_solver|by apply Hout].
    + split; [done|]. split; [done|]. intros c Hc.
      destruct (Hcells c Hc) as (? & ? & ?). repeat split; [done|set_solver|done].
  - rewrite lookup_insert_ne by done. intros Hp.
    eapply poolOk_weaken; [reflexivity| |by apply Hpools]. set_solver.
Qed.

Lemma setMaxPoolSize_total st type size :
  (0 ≤ size)%Z → is_Some (setMaxPoolSize st type size).
Proof.
  intros Hsize. unfold setMaxPoolSize.
  destruct (pools st !! type) as [pool|]; [|done].
  destruct (trimLoop_spec (length (cells pool)) (cells pool) size Hsize) as (k & -> & _);
    [lia|done].
Qed.

Lemma recyclerOk_setMaxPoolSize st st' out type size :
  (0 ≤ size)%Z → setMaxPoolSize st type size = Some st' →
  recyclerOk st out → recyclerOk st' out.
Proof.
  intros Hsize Hset (Hcounter & Hpools & Hout). unfold setMaxPoolSize in Hset.
  destruct (pools st !! type) as [pool|] eqn:Hpool.
  - destruct (trimLoop_spec (length (cells pool)) (cells pool) size Hsize)
      as (k & Htrim & Hlen); [lia|].
    rewrite Htrim in Hset. simpl in Hset. injection Hset as <-.
    split; [done|]. split; [|done]. intros ty p. simpl.
    destruct (decide (ty = type)) as [->|Hne].
    + rewrite lookup_insert_eq. intros [= <-].
      destruct (Hpools type pool Hpool) as (_ & Hnd & Hcells).
      split; [done|]. simpl. split.
      * rewrite fmap_take. eapply sublist_NoDup; [done|apply sublist_take].
      * intros c Hc. apply Hcells. by apply (subseteq_take k).
    + rewrite lookup_insert_ne by done. apply Hpools.
  - injection Hset as <-. split; [done|]. split; [|done]. intros ty p. simpl.
    destruct (decide (ty = type)) as [->|Hne].
    + rewrite lookup_insert_eq. intros [= <-].
      split; [unfold lengthZ; simpl; lia|]. split; [constructor|]. set_solver.
    + rewrite lookup_insert_ne by done. apply Hpools.
Qed.

Lemma used_defaultMaxPoolSize d st out : used d st out → defaultMaxPoolSize st = d.
Proof.
  induction 1 as [|st out ty fi _ IH|st out ty fi _ IH|st out ty fi _ IH
                 |st out cell _ IH _|st out ty size st' _ IH _ Hset|st out _ IH]; try done.
  - unfold acquireCell. destruct (pools st !! ty) as [pool|]; [|done].
    by destruct (pop (cells pool)) as [[? ?]|].
  - destruct (getCell_cases st ty fi) as [(cell & Hcell & ->)|(_ & _ & ->)]; [|done].
    unfold acquireCell. destruct (pools st !! ty) as [pool|]; [|done].
    by destruct (pop (cells pool)) as [[? ?]|].
  - unfold setMaxPoolSize in Hset. destruct (pools st !! ty) as [pool|].
    + destruct (trimLoop _ _ _); [|done]. simpl in Hset. by injection Hset as <-.
    + by injection Hset as <-.
Qed.

Lemma used_recyclerOk d st out : (0 ≤ d)%Z → used d st out → recyclerOk st out.
Proof.
  intros Hd. induction 1 as [|st out ty fi _ IH|st out ty fi _ IH|st out ty fi _ IH
                            |st out cell Hused IH Hin|st out ty size st' _ IH Hsize Hset
                            |st out _ IH].
  - apply recyclerOk_create.
  - by apply recyclerOk_acquireCell.
  - by apply recyclerOk_createCell.
  - by apply recyclerOk_getCell.
  - eapply recyclerOk_releaseCell; [done| |done..]. by eapply used_defaultMaxPoolSize.
  - by eapply recyclerOk_setMaxPoolSize.
  - destruct IH as (Hcounter & _ & Hout). split; [done|]. split; [|done].
    intros ty p. simpl. by rewrite lookup_empty.
Qed.

Lemma usedWith_used d st out configured : usedWith d st out configured → used d st out.
Proof. induction 1; by econstructor. Qed.

(** The maximum stored in a pool is the configured one. *)
Lemma usedWith_maxSize d st out configured :
  usedWith d st out configured →
  (∀ type pool, pools st !! type = Some pool → maxSize pool = default d (configured !! type)) ∧
  (∀ type, is_Some (configured !! type) → is_Some (pools st !! type)).
Proof.
  induction 1 as [|st out cfg ty fi Hused IH|st out cfg ty fi Hused IH|st out cfg ty fi Hused IH
                 |st out cfg cell Hused IH Hin|st out cfg ty size st' Hused IH Hsize Hset
                 |st out cfg Hused IH].
  - split; [intros ty pool; simpl; by rewrite lookup_empty|].
    intros ty. rewrite lookup_empty. by intros [? ?].
  - destruct IH as [Hmax Hdom]. unfold acquireCell.
    destruct (pools st !! ty) as [pool|] eqn:Hpool; [|done].
    destruct (pop (cells pool)) as [[rest c]|]; [|done]. simpl. split.
    + intros ty' pool'. destruct (decide (ty' = ty)) as [->|Hne].
      * rewrite lookup_insert_eq. intros [= <-]. simpl. by apply Hmax.
      * rewrite lookup_insert_ne by done. apply Hmax.
    + intros ty' Hc. destruct (decide (ty' = ty)) as [->|Hne].
      * by rewrite lookup_insert_eq.
      * rewrite lookup_insert_ne by done. by apply Hdom.
  - done.
  - destruct IH as [Hmax Hdom].
    destruct (getCell_cases st ty fi) as [(cell & Hcell & ->)|(_ & _ & ->)]; [|done].
    unfold acquireCell.
    destruct (pools st !! ty) as [pool|] eqn:Hpool; [|done].
    destruct (pop (cells pool)) as [[rest c]|]; [|done]. simpl. split.
    + intros ty' pool'. destruct (decide (ty' = ty)) as [->|Hne].
      * rewrite lookup_insert_eq. intros [= <-]. simpl. by apply Hmax.
      * rewrite lookup_insert_ne by done. apply Hmax.
    + intros ty' Hc. destruct (decide (ty' = ty)) as [->|Hne].
      * by rewrite lookup_insert_eq.
      * rewrite lookup_insert_ne by done. by apply Hdom.
  - destruct IH as [Hmax Hdom].
    pose proof (used_defaultMaxPoolSize d st out (usedWith_used _ _ _ _ Hused)) as Hd.
    unfold releaseCell. simpl. split.
    + intros ty' pool'. destruct (decide (ty' = itemType cell)) as [->|Hne].
      * rewrite lookup_insert_eq. intros [= <-].
        assert (maxSize (default (mkPool (itemType cell) [] (defaultMaxPoolSize st))
                           (pools st !! itemType cell)) =
                default d (cfg !! itemType cell)) as Hm.
        { destruct (pools st !! itemType cell) as [pool|] eqn:Hpool; simpl; [by apply Hmax|].
          destruct (cfg !! itemType cell) as [z|] eqn:Hcfg; [|done].
          destruct (Hdom (itemType cell)) as [? ?]; [by rewrite Hcfg|congruence]. }
        by case_bool_decide.
      * rewrite lookup_insert_ne by done. apply Hmax.
    + intros ty' Hc. destruct (decide (ty' = itemType cell)) as [->|Hne].
      * by rewrite lookup_insert_eq.
      * rewrite lookup_insert_ne by done. by apply Hdom.
  - destruct IH as [Hmax Hdom]. unfold setMaxPoolSize in Hset.
    assert (∃ pool', pools st' = <[ty := pool']> (pools st) ∧ maxSize pool' = size)
      as (pool' & Hpools & Hsz).
    { destruct (pools st !! ty) as [pool|].
      - destruct (trimLoop _ _ _) as [trimmed|]; [|done]. simpl in Hset.
        injection Hset as <-. by eexists.
      - injection Hset as <-. by eexists. }
    rewrite Hpools. split.
    + intros ty' pool''. destruct (decide (ty' = ty)) as [->|Hne].
      * rewrite !lookup_insert_eq. by intros [= <-].
      * rewrite !lookup_insert_ne by done. apply Hmax.
    + intros ty' Hc. destruct (decide (ty' = ty)) as [->|Hne].
      * by rewrite lookup_insert_eq.
      * rewrite lookup_insert_ne by done. apply Hdom.
        by rewrite lookup_insert_ne in Hc by done.
  - split; [intros ty pool; simpl; by rewrite lookup_empty|].
    intros ty. rewrite lookup_empty. by intros [? ?].
Qed.

(** [setMaxPoolSize] with a size that is not negative returns; the pool
    of the type then has the given maximum and the first cells it had,
    at most [size] of them. *)
Lemma setMaxPoolSize_effect st type size :
  (0 ≤ size)%Z →
  ∃ st' pool',
    setMaxPoolSize st type size = Some st' ∧
    pools st' !! type = Some pool' ∧ maxSize pool' = size ∧
    (lengthZ (cells pool') ≤ size)%Z ∧
    cells pool' `prefix_of` from_option cells [] (pools st !! type) ∧
    (∀ other, other ≠ type → pools st' !! other = pools st !! other).
Proof.
  intros Hsize. unfold setMaxPoolSize.
  destruct (pools st !! type) as [pool|] eqn:Hpool.
  - destruct (trimLoop_spec (length (cells pool)) (cells pool) size Hsize)
      as (k & -> & Hlen); [lia|]. simpl.
    eexists _, _. split; [done|]. simpl. rewrite lookup_insert_eq.
    split; [done|]. split; [done|]. split; [done|]. split; [apply prefix_take|].
    intros other Hne. by rewrite lookup_insert_ne.
  - eexists _, _. split; [done|]. simpl. rewrite lookup_insert_eq.
    split; [done|]. split; [done|]. split; [unfold lengthZ; simpl; lia|]. split; [done|].
    intros other Hne. by rewrite lookup_insert_ne.
Qed.

End recycler_facts.

(** C7. In every use of a recycler whose default pool size is not
    negative, where every released cell had been handed out and not
    released since and no configured size is negative: the maximum of
    every pool is the maximum configured for its type (the size given by
    the latest [setMaxPoolSize] for the type, else the default), and no
    pool holds more cells than that; a cell handed out by [getCell] (or
    [acquireCell]) is not one of the cells that are handed out and not
    yet released; [setMaxPoolSize] returns, stores the given size and
    trims the pool to its first cells, at most [size] of them, leaving
    the other pools alone; and [releaseCell] leaves a full pool as it
    is. *)
Theorem recycler_bounded_and_exclusive (d : Z) (st : Recycler.t)
    (out : gset (string * string)) (configured : gmap string Z) :
  (0 ≤ d)%Z →
  Recycler.usedWith d st out configured →
  (∀ type pool, Recycler.pools st !! type = Some pool →
     maxSize pool = default d (configured !! type) ∧
     (lengthZ (cells pool) ≤ default d (configured !! type))%Z) ∧
  (∀ type flatIndex, Recycler.cellId (Recycler.getCell st type flatIndex).1 ∉ out) ∧
  (∀ type flatIndex cell, (Recycler.acquireCell st type flatIndex).1 = Some cell →
     Recycler.cellId cell ∉ out) ∧
  (∀ type size, (0 ≤ size)%Z →
     ∃ st' pool',
       Recycler.setMaxPoolSize st type size = Some st' ∧
       Recycler.pools st' !! type = Some pool' ∧ maxSize pool' = size ∧
       (lengthZ (cells pool') ≤ size)%Z ∧
       cells pool' `prefix_of` from_option cells [] (Recycler.pools st !! type) ∧
       (∀ other, other ≠ type → Recycler.pools st' !! other = Recycler.pools st !! other)) ∧
  (∀ cell pool, Recycler.pools st !! itemType cell = Some pool →
     (maxSize pool ≤ lengthZ (cells pool))%Z →
     Recycler.pools (Recycler.releaseCell st cell) !! itemType cell = Some pool).
Proof.
  intros Hd Hwith. pose proof (usedWith_used _ _ _ _ Hwith) as Hused.
  pose proof (used_recyclerOk d st out Hd Hused) as Hok.
  destruct (usedWith_maxSize _ _ _ _ Hwith) as [Hmax _].
  split; [|split; [|split; [|split]]].
  - intros ty pool Hpool. destruct Hok as (_ & Hpools & _).
    destruct (Hpools ty pool Hpool) as [Hlen _].
    rewrite <- (Hmax ty pool Hpool). done.
  - intros ty fi. by apply recyclerOk_getCell.
  - intros ty fi cell Hcell.
    by destruct (recyclerOk_acquireCell st out ty fi Hok) as [_ Hnew]; apply Hnew.
  - intros ty size. apply setMaxPoolSize_effect.
  - intros cell pool Hpool Hfull. unfold Recycler.releaseCell. simpl.
    rewrite lookup_insert_eq, Hpool. simpl.
    by rewrite bool_decide_eq_false_2 by lia.
Qed.

Lemma recycler_bounded_and_exclusive_witness :
  (0 ≤ DEFAULT_MAX_POOL_SIZE)%Z ∧
  from_option (λ pool, lengthZ (cells pool)) 0%Z
    (Recycler.pools scenarioPooled !! "default") = 2%Z ∧
  ∃ out configured pool,
    Recycler.usedWith DEFAULT_MAX_POOL_SIZE scenarioTrimmed out configured ∧
    Recycler.pools scenarioTrimmed !! "default" = Some pool ∧
    maxSize pool = 1%Z ∧ (lengthZ (cells pool) ≤ 1)%Z ∧
    Recycler.cellId (Recycler.getCell scenarioTrimmed "default" 2).1 ∉ out.
Proof.
  assert (0 ≤ DEFAULT_MAX_POOL_SIZE)%Z as Hd by (unfold DEFAULT_MAX_POOL_SIZE; lia).
  split; [exact Hd|]. split; [vm_compute; reflexivity|].
  assert (∃ out configured,
            Recycler.usedWith DEFAULT_MAX_POOL_SIZE scenarioTrimmed out configured ∧
            configured !! "default" = Some 1%Z) as (out & configured & Hused & Hcfg).
  { eexists _, _. split.
    - eapply (Recycler.usedWith_setMaxPoolSize _ scenarioPooled _ _ "default" 1);
        [|lia|by vm_compute].
      apply Recycler.usedWith_releaseCell.
      + apply Recycler.usedWith_releaseCell.
        * apply Recycler.usedWith_getCell, Recycler.usedWith_getCell,
            Recycler.usedWith_create.
        * apply elem_of_union. left. apply elem_of_union. right.
          by apply elem_of_singleton.
      + apply elem_of_difference. split.
        * apply elem_of_union. right. by apply elem_of_singleton.
        * rewrite elem_of_singleton. by vm_compute.
    - apply lookup_insert_eq. }
  assert (∃ pool, Recycler.pools scenarioTrimmed !! "default" = Some pool) as [pool Hpool]
    by (eexists; vm_compute; reflexivity).
  exists out, configured, pool. split; [exact Hused|]. split; [exact Hpool|].
  destruct (recycler_bounded_and_exclusive _ _ _ _ Hd Hused) as (Hpools & Hget & _).
  destruct (Hpools "default" pool Hpool) as [Hmax Hlen].
  rewrite Hcfg in Hmax, Hlen. split; [exact Hmax|]. split; [exact Hlen|]. apply Hget.
Defined.

(** A cell is recycled after its release, and a fresh one has a new key;
    a full pool drops the released cell. *)
Example recycler_keys :
  let st0 := Recycler.create 1 in
  let '(c1, st1) := Recycler.getCell st0 "default" 0 in
  let '(c2, st2) := Recycler.getCell st1 "default" 1 in
  let st3 := Recycler.releaseCell st2 c1 in
  let st4 := Recycler.releaseCell st3 c2 in
  let '(c3, st5) := Recycler.getCell st4 "default" 2 in
  let '(c4, st6) := Recycler.getCell st5 "default" 3 in
  (cellKey c1, cellKey c2, cellKey c3, cellKey c4) =
    ("default-1", "default-2", "default-1", "default-3").
Proof. by vm_compute. Qed.

(** ** The viewability tracker *)

Section tracker_facts.
Context {T : Type}.
Implicit Types (v : Viewability.t T) (ps : @Viewability.Pass T).

Lemma filter_none {A} (P : A → Prop) `{∀ a, Decision (P a)} (l : list A) :
  Forall (λ a, ¬ P a) l → filter P l = [].
Proof.
  induction 1 as [|a l Ha _ IH]; [done|]. by rewrite filter_cons_False.
Qed.

Lemma visit_retired v now ps i j :
  retired (Viewability.p_tracked ps) i → noEntered (Viewability.p_changed ps) i →
  retired (Viewability.p_tracked (Viewability.visit v now ps j)) i ∧
  noEntered (Viewability.p_changed (Viewability.visit v now ps j)) i.
Proof.
  intros (tr & Htr & Hview & Hsince) Hchanged. unfold Viewability.visit.
  destruct (Positioner.getLayoutForIndex _ _) as [layout positioner].
  destruct (Viewability.isItemViewable v j layout); simpl; [|by split; [exists tr|]].
  destruct (decide (j = i)) as [->|Hne].
  - rewrite Htr, Hview, Hsince. simpl. split; [|done].
    eexists. by rewrite lookup_insert_eq.
  - set (tracked := match Viewability.p_tracked ps !! j with
                    | Some t => t | None => _ end).
    destruct (Viewability.isViewable tracked), (Viewability.becameVisibleAt tracked);
      try case_bool_decide; simpl;
      (split; [exists tr; by rewrite lookup_insert_ne|]); try done.
    apply Forall_app. split; [done|]. apply Forall_singleton. simpl. tauto.
Qed.

Lemma leave_retired v ps i j :
  retired (Viewability.p_tracked ps) i → noEntered (Viewability.p_changed ps) i →
  retired (Viewability.p_tracked (Viewability.leave v ps j)) i ∧
  noEntered (Viewability.p_changed (Viewability.leave v ps j)) i.
Proof.
  intros (tr & Htr & Hview & Hsince) Hchanged. unfold Viewability.leave.
  case_bool_decide; [by split; [exists tr|]|].
  destruct (Viewability.p_tracked ps !! j) as [tracked|] eqn:Hj; [|by split; [exists tr|]].
  destruct (Viewability.isViewable tracked) eqn:Hv; [|by split; [exists tr|]].
  simpl. split.
  - destruct (decide (j = i)) as [->|Hne]; [congruence|].
    exists tr. by rewrite lookup_insert_ne.
  - apply Forall_app. split; [done|]. apply Forall_singleton. simpl.
    intros [_ ?]. done.
Qed.

Lemma foldl_retired (step : @Viewability.Pass T → Z → @Viewability.Pass T) i (l : list Z) ps :
  (∀ ps j, retired (Viewability.p_tracked ps) i → noEntered (Viewability.p_changed ps) i →
           retired (Viewability.p_tracked (step ps j)) i ∧
           noEntered (Viewability.p_changed (step ps j)) i) →
  retired (Viewability.p_tracked ps) i → noEntered (Viewability.p_changed ps) i →
  retired (Viewability.p_tracked (foldl step ps l)) i ∧
  noEntered (Viewability.p_changed (foldl step ps l)) i.
Proof.
  intros Hstep. revert ps. induction l as [|j l IH]; intros ps Hr Hc; simpl; [done|].
  destruct (Hstep ps j Hr Hc). by apply IH.
Qed.

(** A retired record stays retired in every pass, and no "entered" is
    emitted for its index, whatever the geometry and the time. *)
Lemma retired_forever v (now : Z) (i : Z) res v' :
  retired (Viewability.trackedItems v) i →
  Viewability.computeViewability v now = Some (res, v') →
  Viewability.enteredIn res i = [] ∧ retired (Viewability.trackedItems v') i.
Proof.
  intros Hret. unfold Viewability.computeViewability.
  destruct (_ && _); [by intros [= <- <-]|].
  destruct (Positioner.getVisibleRange _ _ _ _) as [[range|] positioner]; [|done]. simpl.
  set (ps0 := Viewability.mkPass positioner (Viewability.trackedItems v) [] []).
  set (ps1 := foldl (Viewability.visit v now) ps0 _).
  set (ps2 := foldl (Viewability.leave v) ps1 _).
  assert (retired (Viewability.p_tracked ps2) i ∧ noEntered (Viewability.p_changed ps2) i)
    as [Hr Hc].
  { apply foldl_retired; [intros; by apply leave_retired|..];
      (apply foldl_retired; [intros; by apply visit_retired|done|constructor]). }
  intros [= <- <-]. simpl. split; [|done].
  destruct (Viewability.p_changed ps2) as [|tok toks] eqn:Hch; [done|]. simpl.
  rewrite <- Hch. apply filter_none.
  eapply Forall_impl; [rewrite Hch; exact Hc|]. simpl. tauto.
Qed.

(** *** The two loops of a pass *)

Lemma ensureLayoutsComputed_valid (p : Positioner.t T) :
  Positioner.layoutsValid (Positioner.ensureLayoutsComputed p) = true.
Proof.
  unfold Positioner.ensureLayoutsComputed.
  destruct (Positioner.layoutsValid p) eqn:Hv; [done|].
  by destruct (Positioner.layoutLoop p).
Qed.

Lemma ensureLayoutsComputed_id (p : Positioner.t T) :
  Positioner.layoutsValid p = true → Positioner.ensureLayoutsComputed p = p.
Proof. intros Hv. unfold Positioner.ensureLayoutsComputed. by rewrite Hv. Qed.

Lemma visit_unfold v now ps (i : Z) :
  Positioner.layoutsValid (Viewability.p_positioner ps) = true →
  Viewability.visit v now ps i =
    if passesTest v (Viewability.p_positioner ps) i
    then
      Viewability.mkPass (Viewability.p_positioner ps)
        (<[i := seen (Viewability.config v) i now (Viewability.p_tracked ps !! i)]>
           (Viewability.p_tracked ps))
        (Viewability.p_newViewable ps ++ [i])
        (Viewability.p_changed ps ++
           if promotable (Viewability.config v) now
                (default (freshRecord i now) (Viewability.p_tracked ps !! i))
           then [Viewability.createViewToken v i true] else [])
    else ps.
Proof.
  intros Hvalid. unfold passesTest, Viewability.visit, Positioner.getLayoutForIndex.
  rewrite (ensureLayoutsComputed_id _ Hvalid). simpl.
  destruct (Viewability.isItemViewable _ _ _); [|by destruct ps].
  unfold seen, promotable, freshRecord.
  destruct (Viewability.p_tracked ps !! i) as [tr|]; simpl.
  - destruct (Viewability.isViewable tr) eqn:E1, (Viewability.becameVisibleAt tr) eqn:E2;
      try case_bool_decide; simpl; rewrite ?E1, ?E2, ?app_nil_r; done.
  - case_bool_decide; simpl; by rewrite ?app_nil_r.
Qed.

(** The first loop, over indices without repetition. *)
Lemma visit_loop v now (l : list Z) ps :
  Positioner.layoutsValid (Viewability.p_positioner ps) = true →
  NoDup l →
  let q := passesTest v (Viewability.p_positioner ps) in
  let ps' := foldl (Viewability.visit v now) ps l in
  Viewability.p_positioner ps' = Viewability.p_positioner ps ∧
  Viewability.p_newViewable ps' = Viewability.p_newViewable ps ++ filter (λ i, q i = true) l ∧
  (∀ i, Viewability.p_tracked ps' !! i =
          if bool_decide (i ∈ l) && q i
          then Some (seen (Viewability.config v) i now (Viewability.p_tracked ps !! i))
          else Viewability.p_tracked ps !! i) ∧
  (∀ i, filter (Viewability.isEntered i) (Viewability.p_changed ps') =
          filter (Viewability.isEntered i) (Viewability.p_changed ps) ++
          if bool_decide (i ∈ l) && q i &&
             promotable (Viewability.config v) now
               (default (freshRecord i now) (Viewability.p_tracked ps !! i))
          then [Viewability.createViewToken v i true] else []).
Proof.
  intros Hvalid Hnd. revert ps Hvalid. induction Hnd as [|j l Hj Hnd IH]; intros ps Hvalid q ps'.
  - simpl. split; [done|]. split; [by rewrite app_nil_r|]. split; [done|].
    intros i. by rewrite app_nil_r.
  - subst ps'. simpl. rewrite (visit_unfold _ _ _ _ Hvalid). fold (q j).
    destruct (q j) eqn:Hqj.
    + set (ps1 := Viewability.mkPass _ _ _ _).
      destruct (IH ps1 Hvalid) as (Hpos & Hnew & Htr & Hch).
      split; [done|]. split.
      { rewrite Hnew. simpl. rewrite filter_cons_True by done. by rewrite <- app_assoc. }
      split.
      * intros i. rewrite Htr. simpl.
        destruct (decide (i = j)) as [->|Hne].
        -- rewrite bool_decide_eq_false_2 by done. simpl.
           rewrite lookup_insert_eq. rewrite bool_decide_eq_true_2 by set_solver.
           simpl. by rewrite Hqj.
        -- rewrite lookup_insert_ne by done.
           destruct (decide (i ∈ l)) as [Hin|Hnin].
           ++ rewrite !bool_decide_eq_true_2 by set_solver. done.
           ++ rewrite !bool_decide_eq_false_2 by set_solver. done.
      * intros i. rewrite Hch. simpl. rewrite filter_app, <- app_assoc. f_equal.
        destruct (decide (i = j)) as [->|Hne].
        -- rewrite (bool_decide_eq_false_2 (j ∈ l)) by done.
           rewrite (bool_decide_eq_true_2 (j ∈ j :: l)) by set_solver.
           simpl. rewrite Hqj, app_nil_r. simpl.
           destruct (promotable _ _ _); [|done].
           by rewrite filter_cons_True by done.
        -- rewrite lookup_insert_ne by done.
           assert (filter (Viewability.isEntered i)
                     (if promotable (Viewability.config v) now
                           (default (freshRecord j now) (Viewability.p_tracked ps !! j))
                      then [Viewability.createViewToken v j true] else []) = []) as ->.
           { destruct (promotable _ _ _); [|done].
             rewrite filter_cons_False; [done|].
             unfold Viewability.isEntered. simpl. intros [? _]. congruence. }
           simpl.
           destruct (decide (i ∈ l)) as [Hin|Hnin].
           ++ rewrite !bool_decide_eq_true_2 by set_solver. done.
           ++ rewrite !bool_decide_eq_false_2 by set_solver. done.
    + destruct (IH ps Hvalid) as (Hpos & Hnew & Htr & Hch).
      split; [done|]. split.
      { rewrite Hnew. by rewrite filter_cons_False by (rewrite Hqj; done). }
      split.
      * intros i. rewrite Htr.
        destruct (decide (i = j)) as [->|Hne].
        -- rewrite bool_decide_eq_false_2 by done.
           rewrite bool_decide_eq_true_2 by set_solver. simpl. by rewrite Hqj.
        -- destruct (decide (i ∈ l)) as [Hin|Hnin].
           ++ rewrite !bool_decide_eq_true_2 by set_solver. done.
           ++ rewrite !bool_decide_eq_false_2 by set_solver. done.
      * intros i. rewrite Hch. f_equal.
        destruct (decide (i = j)) as [->|Hne].
        -- rewrite bool_decide_eq_false_2 by done.
           rewrite bool_decide_eq_true_2 by set_solver. simpl. by rewrite Hqj.
        -- destruct (decide (i ∈ l)) as [Hin|Hnin].
           ++ rewrite !bool_decide_eq_true_2 by set_solver. done.
           ++ rewrite !bool_decide_eq_false_2 by set_solver. done.
Qed.

(** The second loop. *)
Lemma leave_unfold v ps (j : Z) :
  Viewability.leave v ps j =
    match Viewability.p_tracked ps !! j with
    | Some tr =>
        if negb (bool_decide (j ∈ Viewability.p_newViewable ps)) && Viewability.isViewable tr
        then Viewability.mkPass (Viewability.p_positioner ps)
               (<[j := retire tr]> (Viewability.p_tracked ps))
               (Viewability.p_newViewable ps)
               (Viewability.p_changed ps ++ [Viewability.createViewToken v j false])
        else ps
    | None => ps
    end.
Proof.
  unfold Viewability.leave, retire. case_bool_decide; simpl.
  - by destruct (Viewability.p_tracked ps !! j).
  - destruct (Viewability.p_tracked ps !! j) as [tr|]; [|done].
    by destruct (Viewability.isViewable tr).
Qed.

Lemma bool_decide_elem_of_cons_ne (i j : Z) (l : list Z) :
  i ≠ j → bool_decide (i ∈ j :: l) = bool_decide (i ∈ l).
Proof. intros Hne. apply bool_decide_ext. rewrite elem_of_cons. tauto. Qed.

Lemma bool_decide_elem_of_cons_eq (j : Z) (l : list Z) : bool_decide (j ∈ j :: l) = true.
Proof. apply bool_decide_eq_true_2, elem_of_cons. by left. Qed.

Lemma afterLeave_nil newViewable i o : afterLeave [] newViewable i o = o.
Proof.
  unfold afterLeave. destruct o as [tr|]; [|done].
  by rewrite (bool_decide_eq_false_2 (i ∈ [])) by apply not_elem_of_nil.
Qed.

Lemma afterLeave_cons_ne old newViewable i j o :
  i ≠ j → afterLeave (j :: old) newViewable i o = afterLeave old newViewable i o.
Proof. intros Hne. unfold afterLeave. by rewrite bool_decide_elem_of_cons_ne. Qed.

Lemma afterLeave_retire old newViewable i tr :
  afterLeave old newViewable i (Some (retire tr)) = Some (retire tr).
Proof. unfold afterLeave. simpl. by rewrite andb_false_r. Qed.

Lemma exitTokens_same v i o : exitTokens v i o o = [].
Proof. destruct o; simpl; [|done]. by rewrite bool_decide_eq_true_2. Qed.

Lemma retire_ne tr : Viewability.isViewable tr = true → retire tr ≠ tr.
Proof. intros Hv Heq. rewrite <- Heq in Hv. done. Qed.

Lemma leave_loop v (old : list Z) ps :
  let ps' := foldl (Viewability.leave v) ps old in
  Viewability.p_positioner ps' = Viewability.p_positioner ps ∧
  Viewability.p_newViewable ps' = Viewability.p_newViewable ps ∧
  (∀ i, Viewability.p_tracked ps' !! i =
          afterLeave old (Viewability.p_newViewable ps) i (Viewability.p_tracked ps !! i)) ∧
  (∀ i, filter (Viewability.isEntered i) (Viewability.p_changed ps') =
          filter (Viewability.isEntered i) (Viewability.p_changed ps)) ∧
  (∀ i, filter (Viewability.isExited i) (Viewability.p_changed ps') =
          filter (Viewability.isExited i) (Viewability.p_changed ps) ++
          exitTokens v i (Viewability.p_tracked ps !! i)
            (afterLeave old (Viewability.p_newViewable ps) i (Viewability.p_tracked ps !! i))).
Proof.
  revert ps. induction old as [|j old IH]; intros ps ps'.
  - simpl. split; [done|]. split; [done|]. split; [|split].
    + intros i. by rewrite afterLeave_nil.
    + done.
    + intros i. by rewrite afterLeave_nil, exitTokens_same, app_nil_r.
  - subst ps'. simpl. rewrite leave_unfold.
    assert (∀ i, Viewability.p_tracked ps !! j = None ∨
                 (∃ trj, Viewability.p_tracked ps !! j = Some trj ∧
                    negb (bool_decide (j ∈ Viewability.p_newViewable ps)) &&
                    Viewability.isViewable trj = false) →
                 afterLeave (j :: old) (Viewability.p_newViewable ps) i
                   (Viewability.p_tracked ps !! i) =
                 afterLeave old (Viewability.p_newViewable ps) i
                   (Viewability.p_tracked ps !! i)) as Hskip.
    { intros i Hj. destruct (decide (i = j)) as [->|Hne]; [|by apply afterLeave_cons_ne].
      destruct Hj as [->|(trj & -> & Hgo)]; [done|]. unfold afterLeave.
      rewrite bool_decide_elem_of_cons_eq. simpl. rewrite Hgo.
      destruct (bool_decide (j ∈ old)); simpl; by rewrite ?Hgo. }
    destruct (Viewability.p_tracked ps !! j) as [trj|] eqn:Hj;
      [destruct (negb (bool_decide (j ∈ Viewability.p_newViewable ps)) &&
                 Viewability.isViewable trj) eqn:Hgo|];
      match goal with
      | |- context [foldl _ ?p old] => destruct (IH p) as (Hpos & Hnew & Htr & Hent & Hex)
      end; clear IH.
    + simpl in Hpos, Hnew, Htr, Hent, Hex.
      apply andb_true_iff in Hgo as [Hnotnew%negb_true_iff Hview].
      split; [done|]. split; [done|]. split; [|split].
      * intros i. rewrite Htr. destruct (decide (i = j)) as [->|Hne].
        -- rewrite lookup_insert_eq, Hj, afterLeave_retire. unfold afterLeave.
           by rewrite bool_decide_elem_of_cons_eq, Hnotnew, Hview.
        -- rewrite lookup_insert_ne by done. by rewrite afterLeave_cons_ne.
      * intros i. rewrite Hent, filter_app.
        rewrite (filter_cons_False _ (Viewability.createViewToken v j false));
          [by rewrite app_nil_r|]. unfold Viewability.isEntered. simpl. by intros [_ ?].
      * intros i. rewrite Hex, filter_app, <- app_assoc. f_equal.
        destruct (decide (i = j)) as [->|Hne].
        -- rewrite lookup_insert_eq, Hj, afterLeave_retire, exitTokens_same, app_nil_r.
           rewrite filter_cons_True by done. simpl.
           unfold afterLeave. rewrite bool_decide_elem_of_cons_eq, Hnotnew, Hview. simpl.
           by rewrite bool_decide_eq_false_2 by by apply retire_ne.
        -- rewrite lookup_insert_ne by done.
           rewrite filter_cons_False;
             [|unfold Viewability.isExited; simpl; intros [? _]; congruence].
           simpl. by rewrite afterLeave_cons_ne.
    + split; [done|]. split; [done|].
      split; [|split]; [intros i; rewrite Htr, Hskip; [done|right; eauto]|done|].
      intros i. rewrite Hex, Hskip; [done|right; eauto].
    + split; [done|]. split; [done|].
      split; [|split]; [intros i; rewrite Htr, Hskip; [done|by left]|done|].
      intros i. rewrite Hex, Hskip; [done|by left].
Qed.

(** The first loop emits no "exited". *)
Lemma visit_loop_no_exit v now (l : list Z) ps i :
  filter (Viewability.isExited i) (Viewability.p_changed ps) = [] →
  filter (Viewability.isExited i)
         (Viewability.p_changed (foldl (Viewability.visit v now) ps l)) = [].
Proof.
  revert ps. induction l as [|j l IH]; intros ps Hps; simpl; [done|].
  apply IH. unfold Viewability.visit.
  destruct (Positioner.getLayoutForIndex _ _) as [layout pos].
  destruct (Viewability.isItemViewable _ _ _); simpl; [|done].
  destruct (Viewability.isViewable _), (Viewability.becameVisibleAt _);
    try case_bool_decide; simpl; try done.
  rewrite filter_app, Hps. simpl.
  apply filter_none, Forall_singleton. unfold Viewability.isExited. simpl.
  by intros [_ ?].
Qed.

Lemma enteredIn_notify (viewable changed : list (ViewToken T)) (i : Z) :
  Viewability.enteredIn
    match changed with
    | [] => None
    | _ => Some (Viewability.mkNotification viewable changed)
    end i = filter (Viewability.isEntered i) changed.
Proof. by destruct changed. Qed.

Lemma exitedIn_notify (viewable changed : list (ViewToken T)) (i : Z) :
  Viewability.exitedIn
    match changed with
    | [] => None
    | _ => Some (Viewability.mkNotification viewable changed)
    end i = filter (Viewability.isExited i) changed.
Proof. by destruct changed. Qed.

(** *** One pass, for one index

    In a pass at time [now] that is not held back by [waitForInteraction]
    ([passEnabled]),
    an index is in [currentlyViewable] afterwards exactly when it is
    [inView].  If it is, its record is [seen] and an "entered" is emitted
    exactly when the record is [promotable].  If it is not, no "entered"
    is emitted, and its record is never removed: it is [retire]d, with an
    "exited", when the index was in view and confirmed before, and left
    as it is otherwise. *)
Lemma pass_semantics v (now : Z) (i : Z) res v' :
  passEnabled v = true →
  Viewability.computeViewability v now = Some (res, v') →
  let before := Viewability.trackedItems v !! i in
  let after := Viewability.trackedItems v' !! i in
  bool_decide (i ∈ Viewability.currentlyViewable v') = inView v i ∧
  if inView v i then
    after = Some (seen (Viewability.config v) i now before) ∧
    Viewability.enteredIn res i =
      (if promotable (Viewability.config v) now (default (freshRecord i now) before)
       then [Viewability.createViewToken v i true] else []) ∧
    Viewability.exitedIn res i = []
  else
    after = afterLeave (Viewability.currentlyViewable v) [] i before ∧
    Viewability.enteredIn res i = [] ∧
    Viewability.exitedIn res i = exitTokens v i before after.
Proof.
  unfold passEnabled, Viewability.computeViewability, inView.
  intros Hgate%negb_true_iff. rewrite Hgate.
  pose proof (getVisibleRange_state (Viewability.layoutPositioner v)
                (Viewability.scrollOffset v) (Viewability.viewportSize v) 0) as Hstate.
  destruct (Positioner.getVisibleRange _ _ _ _) as [[range|] positioner]; [|done].
  simpl in Hstate. simpl.
  assert (Positioner.layoutsValid positioner = true) as Hvalid.
  { rewrite Hstate. apply ensureLayoutsComputed_valid. }
  set (l := seqZ (Positioner.startIndex range)
                 (Positioner.endIndex range - Positioner.startIndex range + 1)).
  set (ps0 := Viewability.mkPass positioner (Viewability.trackedItems v) [] []).
  destruct (visit_loop v now l ps0 Hvalid (NoDup_seqZ _ _)) as (Hpos1 & Hnew1 & Htr1 & Hch1).
  set (ps1 := foldl (Viewability.visit v now) ps0 l) in *.
  destruct (leave_loop v (Viewability.currentlyViewable v) ps1)
    as (Hpos2 & Hnew2 & Htr2 & Hent2 & Hex2).
  set (ps2 := foldl (Viewability.leave v) ps1 (Viewability.currentlyViewable v)) in *.
  simpl in Hnew1, Htr1, Hch1.
  set (q := passesTest v positioner) in *.
  assert (bool_decide (i ∈ l) =
          bool_decide (Positioner.startIndex range ≤ i ≤ Positioner.endIndex range)%Z) as Hl.
  { apply bool_decide_ext. unfold l. rewrite elem_of_seqZ. lia. }
  assert (bool_decide (i ∈ Viewability.p_newViewable ps1) = bool_decide (i ∈ l) && q i) as Hin.
  { rewrite Hnew1. destruct (q i) eqn:Hq.
    - rewrite andb_true_r. apply bool_decide_ext. rewrite list_elem_of_filter. tauto.
    - rewrite andb_false_r. apply bool_decide_eq_false_2.
      rewrite list_elem_of_filter. intros [? _]. congruence. }
  assert (filter (Viewability.isEntered i) (Viewability.p_changed ps2) =
          if bool_decide (i ∈ l) && q i &&
             promotable (Viewability.config v) now
               (default (freshRecord i now) (Viewability.trackedItems v !! i))
          then [Viewability.createViewToken v i true] else []) as Hentered.
  { by rewrite Hent2, Hch1. }
  intros [= <- <-]. simpl.
  rewrite enteredIn_notify, exitedIn_notify, Hentered, Hnew2, Hin, <- Hl.
  split; [done|].
  assert (filter (Viewability.isExited i) (Viewability.p_changed ps1) = []) as Hnoexit.
  { by apply visit_loop_no_exit. }
  rewrite Htr2, Hex2, Hnoexit, Htr1. simpl.
  destruct (bool_decide (i ∈ l) && q i) eqn:Hqi; simpl.
  - unfold afterLeave. rewrite Hin. simpl. rewrite andb_false_r. simpl.
    split; [done|]. split; [done|]. by rewrite bool_decide_eq_true_2.
  - assert (afterLeave (Viewability.currentlyViewable v) (Viewability.p_newViewable ps1) i
              (Viewability.trackedItems v !! i) =
            afterLeave (Viewability.currentlyViewable v) [] i
              (Viewability.trackedItems v !! i)) as ->; [|done].
    unfold afterLeave. destruct (Viewability.trackedItems v !! i) as [tr|]; [|done].
    rewrite Hin. by rewrite (bool_decide_eq_false_2 (i ∈ [])) by apply not_elem_of_nil.
Qed.

(** The record of a confirmed index that leaves the view is kept, as a
    retired record, and "exited" is emitted once. *)
Lemma confirmed_record_is_kept v (now : Z) (i : Z) res v' tr :
  passEnabled v = true →
  Viewability.computeViewability v now = Some (res, v') →
  Viewability.trackedItems v !! i = Some tr →
  Viewability.isViewable tr = true →
  i ∈ Viewability.currentlyViewable v →
  inView v i = false →
  Viewability.trackedItems v' !! i = Some (retire tr) ∧
  retired (Viewability.trackedItems v') i ∧
  Viewability.exitedIn res i = [Viewability.createViewToken v i false].
Proof.
  intros Hgate Hpass Htr Hview Hold Hout.
  destruct (pass_semantics v now i res v' Hgate Hpass) as [_ Hsem].
  rewrite Hout, Htr in Hsem. destruct Hsem as (Hafter & _ & Hexit).
  unfold afterLeave in Hafter. rewrite bool_decide_eq_true_2 in Hafter by done.
  rewrite (bool_decide_eq_false_2 (i ∈ [])) in Hafter by apply not_elem_of_nil.
  rewrite Hview in Hafter. simpl in Hafter.
  split; [done|]. split; [by exists (retire tr)|].
  rewrite Hexit, Hafter. simpl. by rewrite bool_decide_eq_false_2 by by apply retire_ne.
Qed.

(** The record of a candidate that leaves the view is kept as it is, with
    the time of its first sighting. *)
Lemma candidate_record_is_kept v (now : Z) (i : Z) res v' tr :
  passEnabled v = true →
  Viewability.computeViewability v now = Some (res, v') →
  Viewability.trackedItems v !! i = Some tr →
  Viewability.isViewable tr = false →
  inView v i = false →
  Viewability.trackedItems v' !! i = Some tr ∧
  Viewability.enteredIn res i = [] ∧ Viewability.exitedIn res i = [].
Proof.
  intros Hgate Hpass Htr Hview Hout.
  destruct (pass_semantics v now i res v' Hgate Hpass) as [_ Hsem].
  rewrite Hout, Htr in Hsem. destruct Hsem as (Hafter & Hent & Hexit).
  unfold afterLeave in Hafter. rewrite Hview, andb_false_r in Hafter.
  split; [done|]. split; [done|].
  rewrite Hexit, Hafter. simpl. by rewrite bool_decide_eq_true_2.
Qed.

(** An index that is in view and has a record gets its "entered" exactly
    when the record is not confirmed and the time since its timestamp is
    at least the minimum view time; an index without a record gets it
    only for a minimum view time of 0 or less. *)
Lemma entered_when_in_view v (now : Z) (i : Z) res v' :
  passEnabled v = true →
  Viewability.computeViewability v now = Some (res, v') →
  inView v i = true →
  Viewability.enteredIn res i =
    match Viewability.trackedItems v !! i with
    | Some tr =>
        match Viewability.isViewable tr, Viewability.becameVisibleAt tr with
        | false, Some since =>
            if bool_decide (Viewability.minimumViewTime (Viewability.config v) ≤ now - since)%Z
            then [Viewability.createViewToken v i true] else []
        | _, _ => []
        end
    | None =>
        if bool_decide (Viewability.minimumViewTime (Viewability.config v) ≤ 0)%Z
        then [Viewability.createViewToken v i true] else []
    end.
Proof.
  intros Hgate Hpass Hin.
  destruct (pass_semantics v now i res v' Hgate Hpass) as [_ Hsem].
  rewrite Hin in Hsem. destruct Hsem as (_ & -> & _).
  unfold promotable, freshRecord.
  destruct (Viewability.trackedItems v !! i) as [tr|]; simpl.
  - by destruct (Viewability.isViewable tr), (Viewability.becameVisibleAt tr).
  - by rewrite Z.sub_diag.
Qed.

(** *** Runs of passes *)

Lemma computeViewability_config v (now : Z) res v' :
  Viewability.computeViewability v now = Some (res, v') →
  Viewability.config v' = Viewability.config v.
Proof.
  unfold Viewability.computeViewability. destruct (_ && _); [by intros [= <- <-]|].
  destruct (Positioner.getVisibleRange _ _ _ _) as [[range|] positioner]; [|done].
  by intros [= <- <-].
Qed.

Lemma enteredTotal_cons (i now : Z) (res : option (Viewability.Notification T)) log :
  enteredTotal i ((now, res) :: log) =
    length (Viewability.enteredIn res i) + enteredTotal i log.
Proof. done. Qed.

(** From a record with timestamp [t0] on: nothing before the dwell, and
    one "entered" in all, if the record was not confirmed yet and some
    pass runs late enough. *)
Lemma run_from_record (i : Z) (t0 : Z) v log v' tr :
  inViewRun i v log v' →
  Viewability.trackedItems v !! i = Some tr →
  Viewability.becameVisibleAt tr = Some t0 →
  let min := Viewability.minimumViewTime (Viewability.config v) in
  (∀ now res, (now, res) ∈ log → (now - t0 < min)%Z → Viewability.enteredIn res i = []) ∧
  enteredTotal i log =
    if Viewability.isViewable tr then 0
    else if dwellReached min t0 log then 1 else 0.
Proof.
  intros Hrun. revert tr.
  induction Hrun as [v|v v1 now res v2 log v3 (Hcfg & Htracked & _) Hgate Hin Hpass _ IH];
    intros tr Htr Hsince min.
  - split; [by intros now res Hin%elem_of_nil|]. simpl. by destruct (Viewability.isViewable tr).
  - pose proof (entered_when_in_view v1 now i res v2 Hgate Hpass Hin) as Hent.
    destruct (pass_semantics v1 now i res v2 Hgate Hpass) as [_ Hsem].
    rewrite Hin in Hsem. destruct Hsem as (Hafter & _ & _).
    rewrite Htracked, Htr in Hent, Hafter. rewrite Hsince, Hcfg in Hent. fold min in Hent.
    pose proof (computeViewability_config _ _ _ _ Hpass) as Hcfg2.
    destruct (IH _ Hafter Hsince) as [Hbefore Htotal].
    rewrite Hcfg2, Hcfg in Hbefore, Htotal. fold min in Hbefore, Htotal.
    split.
    + intros now' res' [[= -> ->]|Hin']%elem_of_cons Hearly; [|by eapply Hbefore].
      rewrite Hent. destruct (Viewability.isViewable tr); [done|].
      by rewrite bool_decide_eq_false_2 by lia.
    + rewrite enteredTotal_cons, Htotal, Hent.
      unfold seen, promotable, dwellReached. simpl. rewrite Hsince. fold min.
      destruct (Viewability.isViewable tr); simpl; [done|].
      by case_bool_decide.
Qed.

(** A pass always ends. *)
Lemma computeViewability_total v (now : Z) :
  is_Some (Viewability.computeViewability v now).
Proof.
  unfold Viewability.computeViewability. destruct (_ && _); [done|].
  pose proof (getVisibleRange_total (Viewability.layoutPositioner v)
                (Viewability.scrollOffset v) (Viewability.viewportSize v) 0) as [r Hr].
  destruct (Positioner.getVisibleRange _ _ _ _) as [range positioner].
  simpl in Hr. subst range. done.
Qed.

End tracker_facts.


(** C3 (the code at the failing input). Items 0 and 1 are seen at time 0,
    confirmed at 300 and leave at 1000, where "exited" is emitted; their
    tracked records stay, with no timestamp.  They are in view again from
    2000 on and at 3000, a dwell of 1000 ms, and no "entered" is emitted:
    the records are not fresh candidates and are never promoted again. *)
Lemma tracker_never_reconfirms :
  fst <$> runPasses scenarioTracker
            [(0%Qc, 0%Z); (0%Qc, 300%Z); (Qc_of_Z 200, 1000%Z); (0%Qc, 2000%Z); (0%Qc, 3000%Z)] =
    Some [ []; [(0%Z, true); (1%Z, true)]; [(0%Z, false); (1%Z, false)]; []; [] ] ∧
  (λ r, Viewability.trackedItems r.2 !! 0%Z) <$>
    runPasses scenarioTracker [(0%Qc, 0%Z); (0%Qc, 300%Z); (Qc_of_Z 200, 1000%Z)] =
    Some (Some (Viewability.mkTracked 0 false 300 None)) ∧
  (λ r, (Viewability.isIndexVisible r.2 0, Viewability.trackedItems r.2 !! 0%Z)) <$>
    runPasses scenarioTracker
      [(0%Qc, 0%Z); (0%Qc, 300%Z); (Qc_of_Z 200, 1000%Z); (0%Qc, 2000%Z); (0%Qc, 3000%Z)] =
    Some (true, Some (Viewability.mkTracked 0 false 3000 None)).
Proof. vm_compute. done. Qed.

(** C5 (amended). For an index without a tracked record, over the passes
    of a run in which it is in view, the first at time [t0]: no "entered"
    is emitted for it in a pass that runs less than the minimum view time
    after [t0], and in all exactly one "entered" is emitted when some pass
    runs at least the minimum view time after [t0], and none otherwise. *)
Theorem entered_once_after_dwell {T} (i : Z) (v v' : Viewability.t T) (t0 : Z)
    (res0 : option (Viewability.Notification T))
    (rest : list (Z * option (Viewability.Notification T))) :
  Viewability.trackedItems v !! i = None →
  inViewRun i v ((t0, res0) :: rest) v' →
  let min := Viewability.minimumViewTime (Viewability.config v) in
  let log := (t0, res0) :: rest in
  (∀ now res, (now, res) ∈ log → (now - t0 < min)%Z → Viewability.enteredIn res i = []) ∧
  enteredTotal i log = if dwellReached min t0 log then 1 else 0.
Proof.
  intros Hnone Hrun min log.
  inversion Hrun as [|? v1 ? ? v2 ? ? (Hcfg & Htracked & _) Hgate Hin Hpass Hrest]; subst.
  pose proof (entered_when_in_view v1 t0 i res0 v2 Hgate Hpass Hin) as Hent.
  destruct (pass_semantics v1 t0 i res0 v2 Hgate Hpass) as [_ Hsem].
  rewrite Hin in Hsem. destruct Hsem as (Hafter & _ & _).
  rewrite Htracked, Hnone in Hent, Hafter. rewrite Hcfg in Hent. fold min in Hent.
  pose proof (computeViewability_config _ _ _ _ Hpass) as Hcfg2.
  destruct (run_from_record i t0 v2 rest v' _ Hrest Hafter eq_refl) as [Hbefore Htotal].
  rewrite Hcfg2, Hcfg in Hbefore, Htotal. fold min in Hbefore, Htotal.
  split.
  - intros now res [[= -> ->]|Hin']%elem_of_cons Hearly; [|by eapply Hbefore].
    rewrite Hent. by rewrite bool_decide_eq_false_2 by lia.
  - unfold log. rewrite enteredTotal_cons, Htotal, Hent.
    unfold seen, promotable, freshRecord, dwellReached. simpl.
    rewrite Z.sub_diag. fold min. by case_bool_decide.
Qed.

Lemma passAt_spec {T} (v : Viewability.t T) (now : Z) :
  Viewability.computeViewability v now = Some ((passAt v now).1, (passAt v now).2).
Proof.
  unfold passAt. destruct (computeViewability_total v now) as [[res v'] ->]. done.
Qed.

Lemma sameTracking_refl {T} (v : Viewability.t T) : sameTracking v v.
Proof. done. Qed.

(** The scenario tracker at scroll offset 0, with passes at times 0, 100
    and 300: one "entered" for index 0, in the pass at 300. *)
Lemma entered_once_after_dwell_witness :
  enteredTotal 0 [(0%Z, scenarioPass1.1); (100%Z, scenarioPass2.1); (300%Z, scenarioPass3.1)] = 1 ∧
  events scenarioPass1.1 = [] ∧ events scenarioPass2.1 = [] ∧
  events scenarioPass3.1 = [(0%Z, true); (1%Z, true)].
Proof.
  split; [|by vm_compute].
  assert (inViewRun 0 scenarioTracker
            [(0%Z, scenarioPass1.1); (100%Z, scenarioPass2.1); (300%Z, scenarioPass3.1)]
            scenarioPass3.2) as Hrun.
  { unfold scenarioPass3, scenarioPass2, scenarioPass1.
    do 3 (eapply inViewRun_pass;
            [apply sameTracking_refl|vm_compute; reflexivity|vm_compute; reflexivity
            |apply passAt_spec|]).
    apply inViewRun_done. }
  assert (Viewability.trackedItems scenarioTracker !! 0%Z = None) as Hnone by by vm_compute.
  destruct (entered_once_after_dwell 0 scenarioTracker _ 0 _ _ Hnone Hrun) as [_ Htotal].
  rewrite Htotal. vm_compute. reflexivity.
Defined.

(** Against the claim as stated: items 0 and 1 are in view from time 0
    until the scroll at time 5000, passes run at 0 and at 100, and no
    "entered" is emitted for them at all: the dwell is looked at in a pass
    only, and no pass ran 250 ms after the first. *)
Lemma tracker_confirms_in_a_pass_only :
  Viewability.minimumViewTime (Viewability.config scenarioTracker) = 250%Z ∧
  (λ r, Viewability.getVisibleIndices r.2) <$>
    runPasses scenarioTracker [(0%Qc, 0%Z); (0%Qc, 100%Z)] = Some [0%Z; 1%Z] ∧
  fst <$> runPasses scenarioTracker [(0%Qc, 0%Z); (0%Qc, 100%Z); (Qc_of_Z 200, 5000%Z)] =
    Some [ []; []; [] ].
Proof. vm_compute. done. Qed.

(** The code at another failing input. Items 4 and 5 are seen at time
    1000 and are out of view at 1010; when they come into view again at
    3000 their "entered" is emitted in that very pass, with a minimum view
    time of 250 ms: the timestamp of the first sighting was kept. *)
Lemma tracker_confirms_without_dwell :
  Viewability.minimumViewTime (Viewability.config scenarioTracker) = 250%Z ∧
  fst <$> runPasses scenarioTracker
            [(Qc_of_Z 200, 1000%Z); (0%Qc, 1010%Z); (Qc_of_Z 200, 3000%Z)] =
    Some [ []; []; [(4%Z, true); (5%Z, true)] ] ∧
  (λ r, Viewability.getVisibleIndices r.2) <$>
    runPasses scenarioTracker [(Qc_of_Z 200, 1000%Z); (0%Qc, 1010%Z)] =
    Some [0%Z; 1%Z].
Proof. vm_compute. done. Qed.

(* ================================================================== *)
(** * Further properties *)
(* ================================================================== *)

(** ** Reading arrays *)

Lemma lookupZ_is_Some {A} (l : list A) (i : Z) :
  (0 ≤ i < lengthZ l)%Z → is_Some (lookupZ l i).
Proof.
  unfold lookupZ, lengthZ. intros Hi. rewrite bool_decide_eq_true_2 by lia.
  apply lookup_lt_is_Some. lia.
Qed.

Lemma lookupZ_fmap {A B} (f : A → B) (l : list A) (i : Z) :
  lookupZ (f <$> l) i = f <$> lookupZ l i.
Proof. unfold lookupZ. case_bool_decide; [apply list_lookup_fmap|done]. Qed.

Lemma lookupZ_cons {A} (a : A) (l : list A) (i : Z) :
  lookupZ (a :: l) i = if bool_decide (i = 0)%Z then Some a else lookupZ l (i - 1).
Proof.
  unfold lookupZ. case_bool_decide as Hi.
  - case_bool_decide as H0; [by subst|].
    rewrite bool_decide_eq_true_2 by lia.
    replace (Z.to_nat i) with (S (Z.to_nat (i - 1))) by lia. done.
  - rewrite bool_decide_eq_false_2 by lia. by rewrite bool_decide_eq_false_2 by lia.
Qed.

Lemma lookupZ_app {A} (l1 l2 : list A) (i : Z) :
  lookupZ (l1 ++ l2) i =
    if bool_decide (i < lengthZ l1)%Z then lookupZ l1 i else lookupZ l2 (i - lengthZ l1).
Proof.
  case_bool_decide as Hi.
  - destruct (decide (0 ≤ i)%Z); [by apply lookupZ_app_l|].
    unfold lookupZ. by rewrite !bool_decide_eq_false_2 by lia.
  - replace i with (lengthZ l1 + (i - lengthZ l1))%Z at 1 by lia.
    apply lookupZ_app_r. lia.
Qed.

Section binary_search_facts.
Import BinarySearch.

Lemma Sorted_Qcle_lookup (l : list Qc) (i j : nat) (a b : Qc) :
  Sorted Qcle l → (i ≤ j)%nat → l !! i = Some a → l !! j = Some b → (a ≤ b)%Qc.
Proof.
  intros Hs%Sorted_StronglySorted; [|apply _]. revert i j.
  induction Hs as [|c l Hs IH Hall]; intros i j Hij Hi Hj; [done|].
  destruct i as [|i], j as [|j]; simpl in *; simplify_eq.
  - apply Qcle_refl.
  - rewrite Forall_forall in Hall. apply Hall. by eapply list_elem_of_lookup_2.
  - lia.
  - eapply IH; [|done..]. lia.
Qed.

(** Values of a sorted array, by position. *)
Lemma sorted_values {T} (array : list T) (getValue : T → Qc) (i j : Z) (a b : T) :
  Sorted Qcle (getValue <$> array) → (i ≤ j)%Z →
  lookupZ array i = Some a → lookupZ array j = Some b → (getValue a ≤ getValue b)%Qc.
Proof.
  intros Hs Hij Hi Hj.
  pose proof (lookupZ_Some _ _ _ Hi). pose proof (lookupZ_Some _ _ _ Hj).
  unfold lookupZ in Hi, Hj. rewrite bool_decide_eq_true_2 in Hi, Hj by lia.
  eapply (Sorted_Qcle_lookup _ (Z.to_nat i) (Z.to_nat j)); [done|lia|..];
    rewrite list_lookup_fmap; [by rewrite Hi|by rewrite Hj].
Qed.

Section with_array.
Context {T : Type} (array : list T) (target : Qc) (getValue : T → Qc).
Hypothesis Hsorted : Sorted Qcle (getValue <$> array).

Lemma binarySearchLoop_spec (fuel : nat) (low high : Z) :
  (0 ≤ low)%Z → (high < lengthZ array)%Z → (high - low < Z.of_nat fuel)%Z →
  (∀ i a, (i < low)%Z → lookupZ array i = Some a → (getValue a < target)%Qc) →
  (∀ i a, (high < i)%Z → lookupZ array i = Some a → (target < getValue a)%Qc) →
  ∃ r, binarySearchLoop array target getValue fuel low high = Returns r ∧
       ((r = -1 ∧ ∀ a, a ∈ array → getValue a ≠ target)%Z ∨
        (∃ a, lookupZ array r = Some a ∧ getValue a = target)).
Proof.
  revert low high. induction fuel as [|fuel IH]; intros low high Hlow Hhigh Hfuel Hbelow Habove.
  - simpl. rewrite bool_decide_eq_false_2 by lia. exists (-1)%Z. split; [done|]. left.
    split; [done|]. intros a [k Hk]%list_elem_of_lookup Heq.
    destruct (decide (Z.of_nat k < low)%Z) as [Hlt|Hge].
    + eapply Qclt_not_eq; [|exact Heq]. apply (Hbelow (Z.of_nat k)); [done|].
      unfold lookupZ. rewrite bool_decide_eq_true_2 by lia. by rewrite Nat2Z.id.
    + eapply Qclt_not_eq; [|symmetry; exact Heq]. apply (Habove (Z.of_nat k)); [lia|].
      unfold lookupZ. rewrite bool_decide_eq_true_2 by lia. by rewrite Nat2Z.id.
  - simpl. case_bool_decide as Hlh.
    + pose proof (Z.div_mod (low + high) 2 ltac:(lia)) as Hdm.
      pose proof (Z.mod_pos_bound (low + high) 2 ltac:(lia)) as Hmod.
      set (mid := ((low + high) `div` 2)%Z) in *.
      destruct (lookupZ_is_Some array mid ltac:(lia)) as [a Ha]. rewrite Ha.
      case_bool_decide as Heq; [exists mid; split; [done|]; right; eauto|].
      case_bool_decide as Hlt.
      * apply IH; [lia..| |done].
        intros i b Hi Hb.
        eapply Qcle_lt_trans; [|exact Hlt].
        apply (sorted_values array getValue i mid); [done|lia|done..].
      * apply IH; [lia..|done|].
        intros i b Hi Hb.
        assert (getValue a ≤ getValue b)%Qc
          by (apply (sorted_values array getValue mid i); [done|lia|done..]).
        apply Qcnot_lt_le in Hlt.
        eapply Qclt_le_trans; [|done].
        apply Qcle_lt_or_eq in Hlt as [?|?]; [done|congruence].
    + exists (-1)%Z. split; [done|]. left.
      split; [done|]. intros a [k Hk]%list_elem_of_lookup Heq.
      destruct (decide (Z.of_nat k < low)%Z) as [Hlt|Hge].
      * eapply Qclt_not_eq; [|exact Heq]. apply (Hbelow (Z.of_nat k)); [done|].
        unfold lookupZ. rewrite bool_decide_eq_true_2 by lia. by rewrite Nat2Z.id.
      * eapply Qclt_not_eq; [|symmetry; exact Heq]. apply (Habove (Z.of_nat k)); [lia|].
        unfold lookupZ. rewrite bool_decide_eq_true_2 by lia. by rewrite Nat2Z.id.
Qed.

Lemma binarySearchInsertPositionLoop_spec (fuel : nat) (low high : Z) :
  (0 ≤ low ≤ high)%Z → (high ≤ lengthZ array)%Z → (high - low ≤ Z.of_nat fuel)%Z →
  (∀ i a, (i < low)%Z → lookupZ array i = Some a → (getValue a < target)%Qc) →
  (∀ i a, (high ≤ i)%Z → lookupZ array i = Some a → (target ≤ getValue a)%Qc) →
  ∃ r, binarySearchInsertPositionLoop array target getValue fuel low high = Returns r ∧
       (0 ≤ r ≤ lengthZ array)%Z ∧
       (∀ i a, (i < r)%Z → lookupZ array i = Some a → (getValue a < target)%Qc) ∧
       (∀ i a, (r ≤ i)%Z → lookupZ array i = Some a → (target ≤ getValue a)%Qc).
Proof.
  revert low high. induction fuel as [|fuel IH]; intros low high Hlow Hhigh Hfuel Hbelow Habove.
  - simpl. rewrite bool_decide_eq_false_2 by lia. exists low.
    split; [done|]. split; [lia|]. split; [done|]. intros i a Hi. apply Habove. lia.
  - simpl. case_bool_decide as Hlh.
    + pose proof (Z.div_mod (low + high) 2 ltac:(lia)) as Hdm.
      pose proof (Z.mod_pos_bound (low + high) 2 ltac:(lia)) as Hmod.
      set (mid := ((low + high) `div` 2)%Z) in *.
      destruct (lookupZ_is_Some array mid ltac:(lia)) as [a Ha]. rewrite Ha.
      case_bool_decide as Hlt.
      * apply IH; [lia..| |done].
        intros i b Hi Hb. eapply Qcle_lt_trans; [|exact Hlt].
        apply (sorted_values array getValue i mid); [done|lia|done..].
      * apply IH; [lia..|done|].
        intros i b Hi Hb. apply Qcnot_lt_le in Hlt.
        eapply Qcle_trans; [exact Hlt|].
        apply (sorted_values array getValue mid i); [done|lia|done..].
    + exists low. split; [done|]. split; [lia|]. split; [done|].
      intros i a Hi. apply Habove. lia.
Qed.

End with_array.

Lemma itemEndAt_zip (offsets sizes : list Qc) (i : Z) :
  length sizes = length offsets →
  itemEndAt offsets sizes i = lookupZ (zip_with Qcplus offsets sizes) i.
Proof.
  intros Hlen. unfold itemEndAt, lookupZ. case_bool_decide; [|done].
  rewrite lookup_zip_with.
  destruct (offsets !! Z.to_nat i) as [o|]; simpl; [|done].
  by destruct (sizes !! Z.to_nat i).
Qed.

Lemma sorted_numbers (l : list Qc) (i j : Z) (a b : Qc) :
  Sorted Qcle l → (i ≤ j)%Z → lookupZ l i = Some a → lookupZ l j = Some b → (a ≤ b)%Qc.
Proof.
  intros Hs. apply (sorted_values l id). by rewrite list_fmap_id.
Qed.

Lemma binarySearchFirstAfterLoop_spec (ends : list Qc) (offsets sizes : list Qc) (target : Qc)
    (fuel : nat) (low high : Z) :
  (∀ i, itemEndAt offsets sizes i = lookupZ ends i) →
  Sorted Qcle ends →
  (0 ≤ low ≤ high)%Z → (high < lengthZ ends)%Z → (high - low ≤ Z.of_nat fuel)%Z →
  (∀ i e, (i < low)%Z → lookupZ ends i = Some e → (e ≤ target)%Qc) →
  (high < lengthZ ends - 1 → ∃ e, lookupZ ends high = Some e ∧ (target < e)%Qc)%Z →
  ∃ r, binarySearchFirstAfterLoop offsets sizes target fuel low high = Returns r ∧
       (0 ≤ r < lengthZ ends)%Z ∧
       (∀ i e, (i < r)%Z → lookupZ ends i = Some e → (e ≤ target)%Qc) ∧
       (r < lengthZ ends - 1 → ∃ e, lookupZ ends r = Some e ∧ (target < e)%Qc)%Z.
Proof.
  intros Hends Hs. revert low high.
  induction fuel as [|fuel IH]; intros low high Hlow Hhigh Hfuel Hbelow Habove.
  - simpl. rewrite bool_decide_eq_false_2 by lia. exists low.
    assert (low = high) as -> by lia. eauto 10 with lia.
  - simpl. case_bool_decide as Hlh.
    + pose proof (Z.div_mod (low + high) 2 ltac:(lia)) as Hdm.
      pose proof (Z.mod_pos_bound (low + high) 2 ltac:(lia)) as Hmod.
      set (mid := ((low + high) `div` 2)%Z) in *.
      rewrite Hends.
      destruct (lookupZ_is_Some ends mid ltac:(lia)) as [e He]. rewrite He. simpl.
      case_bool_decide as Hle.
      * apply IH; [lia..| |done].
        intros i e' Hi He'. eapply Qcle_trans; [|exact Hle].
        apply (sorted_numbers ends i mid); [done|lia|done..].
      * apply IH; [lia..|done|].
        intros _. exists e. split; [done|]. by apply Qcnot_le_lt.
    + exists low. assert (low = high) as -> by lia. eauto 10 with lia.
Qed.

Lemma binarySearchLastBeforeLoop_spec (offsets : list Qc) (target : Qc)
    (fuel : nat) (low high : Z) :
  Sorted Qcle offsets →
  (0 ≤ low ≤ high)%Z → (high < lengthZ offsets)%Z → (high - low ≤ Z.of_nat fuel)%Z →
  (∀ i o, (high < i)%Z → lookupZ offsets i = Some o → (target ≤ o)%Qc) →
  (0 < low → ∃ o, lookupZ offsets low = Some o ∧ (o < target)%Qc)%Z →
  ∃ r, binarySearchLastBeforeLoop offsets target fuel low high = Returns r ∧
       (0 ≤ r < lengthZ offsets)%Z ∧
       (∀ i o, (r < i)%Z → lookupZ offsets i = Some o → (target ≤ o)%Qc) ∧
       (0 < r → ∃ o, lookupZ offsets r = Some o ∧ (o < target)%Qc)%Z.
Proof.
  intros Hs. revert low high.
  induction fuel as [|fuel IH]; intros low high Hlow Hhigh Hfuel Habove Hbelow.
  - simpl. rewrite bool_decide_eq_false_2 by lia. exists high.
    assert (low = high) as -> by lia. eauto 10 with lia.
  - simpl. case_bool_decide as Hlh.
    + pose proof (Z.div_mod (low + high + 1) 2 ltac:(lia)) as Hdm.
      pose proof (Z.mod_pos_bound (low + high + 1) 2 ltac:(lia)) as Hmod.
      set (mid := ((low + high + 1) `div` 2)%Z) in *.
      destruct (lookupZ_is_Some offsets mid ltac:(lia)) as [o Ho]. rewrite Ho. simpl.
      case_bool_decide as Hle.
      * apply IH; [lia..| |done].
        intros i o' Hi Ho'. eapply Qcle_trans; [exact Hle|].
        apply (sorted_numbers offsets mid i); [done|lia|done..].
      * apply IH; [lia..|done|].
        intros _. exists o. split; [done|]. by apply Qcnot_le_lt.
    + exists high. assert (low = high) as -> by lia. eauto 10 with lia.
Qed.

End binary_search_facts.

(** X1. [binarySearch] on an array sorted by [getValue] ends with a result:
    the index of an element whose value is the target when there is one,
    and [-1] when no element has that value. *)
Theorem binarySearch_sorted {T} (array : list T) (target : Qc) (getValue : T → Qc) :
  Sorted Qcle (getValue <$> array) →
  ∃ r, BinarySearch.binarySearch array target getValue = BinarySearch.Returns r ∧
       ((r = (-1)%Z ∧ ∀ a, a ∈ array → getValue a ≠ target) ∨
        (∃ a, lookupZ array r = Some a ∧ getValue a = target)).
Proof.
  intros Hs. unfold BinarySearch.binarySearch.
  apply binarySearchLoop_spec; [done|lia|lia|unfold lengthZ; lia|..].
  - intros i a Hi Ha%lookupZ_Some. lia.
  - intros i a Hi Ha%lookupZ_Some. lia.
Qed.

Lemma binarySearch_sorted_witness :
  let array := [Qc_of_Z 1; Qc_of_Z 3; Qc_of_Z 5; Qc_of_Z 7] in
  Sorted Qcle (id <$> array) ∧
  ∃ r, BinarySearch.binarySearch array (Qc_of_Z 5) id = BinarySearch.Returns r ∧
       ((r = (-1)%Z ∧ ∀ a, a ∈ array → id a ≠ Qc_of_Z 5) ∨
        (∃ a, lookupZ array r = Some a ∧ id a = Qc_of_Z 5)).
Proof.
  intros array.
  assert (Sorted Qcle (id <$> array)) as Hs.
  { apply (bool_decide_unpack _). vm_compute. reflexivity. }
  split; [exact Hs|]. exact (binarySearch_sorted array (Qc_of_Z 5) id Hs).
Defined.

(** X2. [binarySearchInsertPosition] on an array sorted by [getValue] returns
    the position that splits it: every element before it has a value
    below the target and every element from it on a value that is at
    least the target. *)
Theorem binarySearchInsertPosition_sorted {T} (array : list T) (target : Qc)
    (getValue : T → Qc) :
  Sorted Qcle (getValue <$> array) →
  ∃ r, BinarySearch.binarySearchInsertPosition array target getValue = BinarySearch.Returns r ∧
       (0 ≤ r ≤ lengthZ array)%Z ∧
       (∀ i a, (i < r)%Z → lookupZ array i = Some a → (getValue a < target)%Qc) ∧
       (∀ i a, (r ≤ i)%Z → lookupZ array i = Some a → (target ≤ getValue a)%Qc).
Proof.
  intros Hs. unfold BinarySearch.binarySearchInsertPosition.
  apply binarySearchInsertPositionLoop_spec; [done|unfold lengthZ; lia|lia|unfold lengthZ; lia|..].
  - intros i a Hi Ha%lookupZ_Some. lia.
  - intros i a Hi Ha%lookupZ_Some. lia.
Qed.

Lemma binarySearchInsertPosition_sorted_witness :
  let array := [Qc_of_Z 1; Qc_of_Z 3; Qc_of_Z 3; Qc_of_Z 7] in
  Sorted Qcle (id <$> array) ∧
  BinarySearch.binarySearchInsertPosition array (Qc_of_Z 3) id = BinarySearch.Returns 1 ∧
  ∃ r, BinarySearch.binarySearchInsertPosition array (Qc_of_Z 3) id = BinarySearch.Returns r ∧
       (0 ≤ r ≤ lengthZ array)%Z ∧
       (∀ i a, (i < r)%Z → lookupZ array i = Some a → (id a < Qc_of_Z 3)%Qc) ∧
       (∀ i a, (r ≤ i)%Z → lookupZ array i = Some a → (Qc_of_Z 3 ≤ id a)%Qc).
Proof.
  intros array.
  assert (Sorted Qcle (id <$> array)) as Hs.
  { apply (bool_decide_unpack _). vm_compute. reflexivity. }
  split; [exact Hs|]. split; [vm_compute; reflexivity|].
  exact (binarySearchInsertPosition_sorted array (Qc_of_Z 3) id Hs).
Defined.

(** X3. [binarySearchFirstAfter] on offsets and sizes of one length whose end
    positions [offsets[i] + sizes[i]] are sorted returns [0] for no items
    and else a valid index: every item before it ends at or before the
    target, and the item itself ends after the target unless it is the
    last one. *)
Theorem binarySearchFirstAfter_sorted (offsets sizes : list Qc) (target : Qc) :
  length sizes = length offsets →
  Sorted Qcle (zip_with Qcplus offsets sizes) →
  ∃ r, BinarySearch.binarySearchFirstAfter offsets sizes target = BinarySearch.Returns r ∧
       (offsets = [] → r = 0%Z) ∧
       (offsets ≠ [] → (0 ≤ r < lengthZ offsets)%Z) ∧
       (∀ i e, (i < r)%Z → BinarySearch.itemEndAt offsets sizes i = Some e → (e ≤ target)%Qc) ∧
       ((r < lengthZ offsets - 1)%Z →
        ∃ e, BinarySearch.itemEndAt offsets sizes r = Some e ∧ (target < e)%Qc).
Proof.
  intros Hlen Hs. unfold BinarySearch.binarySearchFirstAfter.
  destruct (decide (offsets = [])) as [->|Hne].
  - exists 0%Z. split; [done|]. split; [done|]. split; [done|].
    split; [|unfold lengthZ; simpl; lia].
    intros i e Hi. unfold BinarySearch.itemEndAt, lookupZ.
    rewrite bool_decide_eq_false_2 by lia. done.
  - assert (length (zip_with Qcplus offsets sizes) = length offsets) as Hzl.
    { rewrite length_zip_with. lia. }
    assert (0 < lengthZ offsets)%Z as Hpos.
    { unfold lengthZ. destruct offsets; [done|]. simpl. lia. }
    destruct (binarySearchFirstAfterLoop_spec (zip_with Qcplus offsets sizes) offsets sizes target
                (length offsets) 0 (lengthZ offsets - 1)) as (r & Hr & Hrange & Hbelow & Habove).
    + intros i. by apply itemEndAt_zip.
    + done.
    + lia.
    + unfold lengthZ. rewrite Hzl. lia.
    + unfold lengthZ. lia.
    + intros i e Hi He%lookupZ_Some. lia.
    + unfold lengthZ. rewrite Hzl. lia.
    + exists r. split; [done|]. split; [done|].
      unfold lengthZ in Hrange, Habove. rewrite Hzl in Hrange, Habove.
      split; [done|]. split.
      * intros i e Hi He. rewrite itemEndAt_zip in He by done. eauto.
      * intros Hlast. rewrite itemEndAt_zip by done. by apply Habove.
Qed.

Lemma binarySearchFirstAfter_sorted_witness :
  let offsets := [Qc_of_Z 0; Qc_of_Z 40; Qc_of_Z 90] in
  let sizes := [Qc_of_Z 40; Qc_of_Z 50; Qc_of_Z 50] in
  BinarySearch.binarySearchFirstAfter offsets sizes (Qc_of_Z 40) = BinarySearch.Returns 1 ∧
  ∃ r, BinarySearch.binarySearchFirstAfter offsets sizes (Qc_of_Z 40) = BinarySearch.Returns r ∧
       (offsets = [] → r = 0%Z) ∧
       (offsets ≠ [] → (0 ≤ r < lengthZ offsets)%Z) ∧
       (∀ i e, (i < r)%Z → BinarySearch.itemEndAt offsets sizes i = Some e →
               (e ≤ Qc_of_Z 40)%Qc) ∧
       ((r < lengthZ offsets - 1)%Z →
        ∃ e, BinarySearch.itemEndAt offsets sizes r = Some e ∧ (Qc_of_Z 40 < e)%Qc).
Proof.
  intros offsets sizes. split; [vm_compute; reflexivity|].
  apply (binarySearchFirstAfter_sorted offsets sizes (Qc_of_Z 40)); [reflexivity|].
  apply (bool_decide_unpack _). vm_compute. reflexivity.
Defined.

(** X4. [binarySearchLastBefore] on sorted offsets returns [-1] for no items
    and else a valid index: every item after it starts at or after the
    target, and the item itself starts before the target unless it is the
    first one. *)
Theorem binarySearchLastBefore_sorted (offsets : list Qc) (target : Qc) :
  Sorted Qcle offsets →
  ∃ r, BinarySearch.binarySearchLastBefore offsets target = BinarySearch.Returns r ∧
       (offsets = [] → r = (-1)%Z) ∧
       (offsets ≠ [] → (0 ≤ r < lengthZ offsets)%Z) ∧
       (∀ i o, (r < i)%Z → lookupZ offsets i = Some o → (target ≤ o)%Qc) ∧
       ((0 < r)%Z → ∃ o, lookupZ offsets r = Some o ∧ (o < target)%Qc).
Proof.
  intros Hs. unfold BinarySearch.binarySearchLastBefore.
  destruct (decide (offsets = [])) as [->|Hne].
  - exists (-1)%Z. split; [done|]. split; [done|]. split; [done|].
    split; [|lia]. intros i o Hi Ho%lookupZ_Some. unfold lengthZ in Ho. simpl in Ho. lia.
  - assert (0 < lengthZ offsets)%Z as Hpos.
    { unfold lengthZ. destruct offsets; [done|]. simpl. lia. }
    destruct (binarySearchLastBeforeLoop_spec offsets target
                (length offsets) 0 (lengthZ offsets - 1)) as (r & Hr & Hrange & Habove & Hbelow);
      [done|lia|lia|unfold lengthZ; lia| |lia|].
    + intros i o Hi Ho%lookupZ_Some. lia.
    + exists r. split; [done|]. split; [done|]. split; [done|]. split; done.
Qed.

Lemma binarySearchLastBefore_sorted_witness :
  let offsets := [Qc_of_Z 0; Qc_of_Z 40; Qc_of_Z 90] in
  BinarySearch.binarySearchLastBefore offsets (Qc_of_Z 90) = BinarySearch.Returns 1 ∧
  ∃ r, BinarySearch.binarySearchLastBefore offsets (Qc_of_Z 90) = BinarySearch.Returns r ∧
       (offsets = [] → r = (-1)%Z) ∧
       (offsets ≠ [] → (0 ≤ r < lengthZ offsets)%Z) ∧
       (∀ i o, (r < i)%Z → lookupZ offsets i = Some o → (Qc_of_Z 90 ≤ o)%Qc) ∧
       ((0 < r)%Z → ∃ o, lookupZ offsets r = Some o ∧ (o < Qc_of_Z 90)%Qc).
Proof.
  intros offsets. split; [vm_compute; reflexivity|].
  apply (binarySearchLastBefore_sorted offsets (Qc_of_Z 90)).
  apply (bool_decide_unpack _). vm_compute. reflexivity.
Defined.

Section key_extractor_facts.
Context {TItem : Type} (keyExtractor : TItem → Z → string).

Lemma validateLoop_spec (items : list TItem) (i : Z) (seen : gset string) (pre : list string) :
  seen = list_to_set pre → NoDup pre → lengthZ pre = i →
  match KeyExtractor.validateLoop keyExtractor items i seen with
  | KeyExtractor.Valid => NoDup (pre ++ keysFrom keyExtractor i items)
  | KeyExtractor.DuplicateKey k j =>
      (i ≤ j)%Z ∧
      (pre ++ keysFrom keyExtractor i items) !! Z.to_nat j = Some k ∧
      k ∈ take (Z.to_nat j) (pre ++ keysFrom keyExtractor i items) ∧
      NoDup (take (Z.to_nat j) (pre ++ keysFrom keyExtractor i items))
  end.
Proof.
  revert i seen pre. induction items as [|item rest IH]; intros i seen pre Hseen Hnd Hlen; simpl.
  - by rewrite app_nil_r.
  - unfold lengthZ in Hlen. case_bool_decide as Hin.
    + assert (Z.to_nat i = length pre) as Hi by lia.
      split; [lia|]. rewrite Hi. split; [|split].
      * by rewrite lookup_app_r, Nat.sub_diag by lia.
      * rewrite take_app_length. subst seen. by apply elem_of_list_to_set in Hin.
      * by rewrite take_app_length.
    + specialize (IH (i + 1)%Z ({[keyExtractor item i]} ∪ seen) (pre ++ [keyExtractor item i])).
      rewrite <- app_assoc in IH. simpl in IH.
      assert (NoDup (pre ++ [keyExtractor item i])) as Hnd'.
      { apply NoDup_app. split; [done|]. split; [|apply NoDup_singleton].
        intros k Hk ->%list_elem_of_singleton. apply Hin. subst seen.
        by apply elem_of_list_to_set. }
      assert (lengthZ (pre ++ [keyExtractor item i]) = (i + 1)%Z) as Hlen'.
      { unfold lengthZ. rewrite length_app. simpl. lia. }
      assert ({[keyExtractor item i]} ∪ seen =@{gset string}
              list_to_set (pre ++ [keyExtractor item i])) as Hseen'.
      { subst seen. rewrite list_to_set_app_L. simpl. set_solver. }
      specialize (IH Hseen' Hnd' Hlen').
      destruct (KeyExtractor.validateLoop keyExtractor rest (i + 1)
                  ({[keyExtractor item i]} ∪ seen)) as [|k j]; [done|].
      destruct IH as (Hj & ?). split; [lia|done].
Qed.

End key_extractor_facts.

(** X5. [validateUniqueKeys] returns exactly when the keys of the items are
    pairwise distinct; else it throws for the first index whose key
    occurs at an earlier index, naming that key. *)
Theorem validateUniqueKeys_first_duplicate {TItem} (items : list TItem)
    (keyExtractor : TItem → Z → string) :
  let keys := keysFrom keyExtractor 0 items in
  match KeyExtractor.validateUniqueKeys items keyExtractor with
  | KeyExtractor.Valid => NoDup keys
  | KeyExtractor.DuplicateKey k j =>
      ¬ NoDup keys ∧ (0 ≤ j)%Z ∧ keys !! Z.to_nat j = Some k ∧
      k ∈ take (Z.to_nat j) keys ∧ NoDup (take (Z.to_nat j) keys)
  end.
Proof.
  intros keys. unfold KeyExtractor.validateUniqueKeys.
  pose proof (validateLoop_spec keyExtractor items 0 ∅ [] eq_refl NoDup_nil_2 eq_refl) as H.
  simpl in H. fold keys in H.
  destruct (KeyExtractor.validateLoop keyExtractor items 0 ∅) as [|k j]; [done|].
  destruct H as (Hj & Hk & Hin & Hnd). split; [|done].
  intros Hall. rewrite <- (take_drop_middle keys (Z.to_nat j) k Hk) in Hall.
  apply NoDup_app in Hall as (_ & Hdisj & _). apply (Hdisj k Hin). left.
Qed.

Section flatten_lookup_facts.
Context {T : Type}.
Implicit Types (sec : Section T).

Lemma flattenLoop_flatOfGroups c f si (rest : list (Section T)) result :
  Flatten.flattenLoop c f si rest result = result ++ flatOfGroups c f si rest.
Proof.
  revert si result. induction rest as [|sec rest IH]; intros si result.
  - simpl. by rewrite app_nil_r.
  - rewrite flatten_step, IH. simpl. by rewrite <- app_assoc.
Qed.

Lemma lengthZ_flatOfGroups c f si (rest : list (Section T)) :
  lengthZ (flatOfGroups c f si rest) = sizeOfGroups c f rest.
Proof.
  revert si. induction rest as [|sec rest IH]; intros si; [done|].
  cbn [flatOfGroups]. by rewrite lengthZ_app, lengthZ_groupEntries, IH.
Qed.

Lemma checkItems_spec (rest : list T) (ii cur fi : Z) :
  Flatten.checkItems rest ii cur fi =
    if bool_decide (cur ≤ fi < cur + lengthZ rest)%Z then inl (ii + (fi - cur))%Z
    else inr (cur + lengthZ rest)%Z.
Proof.
  revert ii cur. induction rest as [|d rest IH]; intros ii cur; simpl.
  - unfold lengthZ. simpl. rewrite bool_decide_eq_false_2 by lia. f_equal. lia.
  - unfold lengthZ in *. simpl length. case_bool_decide as Heq.
    + rewrite bool_decide_eq_true_2 by lia. f_equal. lia.
    + rewrite IH. case_bool_decide.
      * rewrite bool_decide_eq_true_2 by lia. f_equal. lia.
      * rewrite bool_decide_eq_false_2 by lia. f_equal. lia.
Qed.

Lemma lookupZ_itemEntries si sec (rest : list T) (ii k : Z) :
  lookupZ (itemEntries si ii sec rest) k =
    (λ d, itemEntry si (ii + k) sec d) <$> lookupZ rest k.
Proof.
  unfold lookupZ. case_bool_decide as Hk; [|done].
  destruct (rest !! Z.to_nat k) as [d|] eqn:Hd; simpl.
  - rewrite (lookup_itemEntries _ _ _ _ _ _ Hd). do 2 f_equal. lia.
  - apply lookup_ge_None. rewrite length_itemEntries. by apply lookup_ge_None.
Qed.

Lemma findLoop_spec c f si (rest : list (Section T)) (cur fi : Z) :
  Flatten.findLoop c f si rest cur fi =
    positionOf <$> lookupZ (flatOfGroups c f si rest) (fi - cur).
Proof.
  revert si cur. induction rest as [|sec rest IH]; intros si cur.
  - simpl. unfold lookupZ. by case_bool_decide.
  - cbn [Flatten.findLoop flatOfGroups]. unfold groupEntries.
    rewrite <- app_comm_cons, lookupZ_cons.
    case_bool_decide as Hcur.
    + rewrite bool_decide_eq_true_2 by lia. done.
    + rewrite (bool_decide_eq_false_2 (fi - cur = 0)%Z) by lia.
      case_bool_decide as Hc; simpl.
      * rewrite IH. do 2 f_equal. lia.
      * rewrite <- app_assoc, checkItems_spec, lookupZ_app.
        assert (lengthZ (itemEntries si 0 sec (data sec)) = lengthZ (data sec)) as Hlen.
        { unfold lengthZ. by rewrite length_itemEntries. }
        rewrite Hlen, lookupZ_itemEntries.
        case_bool_decide as Hitem.
        -- rewrite bool_decide_eq_true_2 by lia.
           destruct (lookupZ_is_Some (data sec) (fi - cur - 1)) as [d Hd]; [lia|].
           rewrite Hd. simpl. unfold positionOf. simpl. do 2 f_equal. lia.
        -- destruct (decide (fi - cur - 1 < lengthZ (data sec))%Z) as [Hneg|Hge].
           ++ rewrite (bool_decide_eq_true_2 (fi - cur - 1 < lengthZ (data sec))%Z) by lia.
              rewrite (lookupZ_None (data sec)) by lia. simpl.
              destruct f.
              ** rewrite bool_decide_eq_false_2 by lia. rewrite IH.
                 by rewrite lookupZ_None by (left; lia).
              ** rewrite IH. by rewrite lookupZ_None by (left; lia).
           ++ rewrite (bool_decide_eq_false_2 (fi - cur - 1 < lengthZ (data sec))%Z) by lia.
              destruct f.
              ** simpl. rewrite lookupZ_cons.
                 case_bool_decide as Hfoot.
                 --- rewrite bool_decide_eq_true_2 by lia. done.
                 --- rewrite bool_decide_eq_false_2 by lia. rewrite IH. do 2 f_equal. lia.
              ** simpl. rewrite IH. do 2 f_equal. lia.
Qed.

End flatten_lookup_facts.

Section flatten_position_facts.
Context {T : Type}.
Implicit Types (sec : Section T).

Lemma flatOfGroups_app c f si (l1 l2 : list (Section T)) :
  flatOfGroups c f si (l1 ++ l2) =
    flatOfGroups c f si l1 ++ flatOfGroups c f (si + lengthZ l1) l2.
Proof.
  revert si. induction l1 as [|sec l1 IH]; intros si.
  - simpl. f_equal. unfold lengthZ. simpl. lia.
  - cbn [app flatOfGroups]. rewrite IH, <- app_assoc. do 3 f_equal.
    unfold lengthZ. simpl length. lia.
Qed.

(** The entries of the group at [si] in the flat sequence. *)
Lemma flatOfGroups_group c f (sections : list (Section T)) (si : Z) sec (j : Z) :
  lookupZ sections si = Some sec →
  (0 ≤ j < groupSize c f sec)%Z →
  lookupZ (flatOfGroups c f 0 sections) (headerPosition c f sections si + j) =
    lookupZ (groupEntries c f si sec) j.
Proof.
  intros Hsec Hj. pose proof (lookupZ_Some _ _ _ Hsec) as Hsi.
  unfold lookupZ in Hsec. rewrite bool_decide_eq_true_2 in Hsec by lia.
  pose proof (take_drop_middle _ _ _ Hsec) as Hsplit.
  unfold headerPosition.
  set (pre := take (Z.to_nat si) sections) in *.
  assert (lengthZ pre = si) as Hpre.
  { unfold lengthZ, pre. rewrite length_take. unfold lengthZ in Hsi. lia. }
  rewrite <- Hsplit at 1. rewrite flatOfGroups_app. cbn [flatOfGroups].
  rewrite Z.add_0_l, Hpre.
  rewrite <- (lengthZ_flatOfGroups c f 0 pre), lookupZ_app_r by lia.
  apply lookupZ_app_l. rewrite lengthZ_groupEntries. lia.
Qed.

Lemma countBefore_spec c f (sections : list (Section T)) (i : Z) (n : nat) (acc : Z) :
  (0 ≤ i)%Z → (i + Z.of_nat n ≤ lengthZ sections)%Z →
  Flatten.countBefore sections c f i n acc =
    Some (acc + sizeOfGroups c f (take n (drop (Z.to_nat i) sections)))%Z.
Proof.
  revert i acc. induction n as [|n IH]; intros i acc Hi Hn; simpl.
  - f_equal. lia.
  - destruct (lookupZ_is_Some sections i) as [sec Hsec]; [lia|].
    rewrite Hsec. simpl. rewrite IH by lia.
    unfold lookupZ in Hsec. rewrite bool_decide_eq_true_2 in Hsec by lia.
    rewrite (drop_S _ _ _ Hsec). simpl.
    replace (Z.to_nat (i + 1)) with (S (Z.to_nat i)) by lia.
    f_equal. unfold groupSize. case_bool_decide; destruct f; lia.
Qed.

End flatten_position_facts.

Lemma flattenSections_flatOfGroups {T} (sections : list (Section T)) c f :
  Flatten.flattenSections sections (Flatten.mkOptions (Some c) (Some f)) =
    flatOfGroups c f 0 sections.
Proof. unfold Flatten.flattenSections. simpl. by rewrite flattenLoop_flatOfGroups. Qed.

Lemma getSectionItemFromFlatIndex_flatOfGroups {T} (sections : list (Section T)) (fi : Z) c f :
  Flatten.getSectionItemFromFlatIndex sections fi c f =
    positionOf <$> lookupZ (flatOfGroups c f 0 sections) fi.
Proof.
  unfold Flatten.getSectionItemFromFlatIndex. rewrite findLoop_spec. do 2 f_equal. lia.
Qed.

(** X6. [getSectionItemFromFlatIndex] inverts [flattenSections]: for every
    flat index it returns the section index, the item index and the kind
    of the entry that [flattenSections] puts at that index, and [null]
    for an index outside the flattened sequence. *)
Theorem getSectionItemFromFlatIndex_inverts_flattenSections {T}
    (sections : list (Section T)) (flatIndex : Z) (collapsed : gset string) (footers : bool) :
  Flatten.getSectionItemFromFlatIndex sections flatIndex collapsed footers =
    positionOf <$>
      lookupZ (Flatten.flattenSections sections
                 (Flatten.mkOptions (Some collapsed) (Some footers))) flatIndex.
Proof.
  by rewrite flattenSections_flatOfGroups, getSectionItemFromFlatIndex_flatOfGroups.
Qed.

(** X7. The stand-alone [getFlatIndex] for an existing section whose header
    is at flat index [h]: for an item index below 0 and for a collapsed
    section it returns [h + 1], the index after the header; for an item
    of a section that is not collapsed it returns [h + 1 + itemIndex],
    where [flattenSections] holds that item, and
    [getSectionItemFromFlatIndex] maps this index back to the section
    and item index. *)
Theorem getFlatIndex_utility_positions {T} (sections : list (Section T))
    (sectionIndex itemIndex : Z) (collapsed : gset string) (footers : bool) (sec : Section T) :
  lookupZ sections sectionIndex = Some sec →
  let flat := Flatten.flattenSections sections
                (Flatten.mkOptions (Some collapsed) (Some footers)) in
  let h := headerPosition collapsed footers sections sectionIndex in
  lookupZ flat h = Some (headerEntry sectionIndex sec) ∧
  ((itemIndex < 0)%Z ∨ key sec ∈ collapsed →
   Flatten.getFlatIndex sections sectionIndex itemIndex collapsed footers = Some (h + 1)%Z) ∧
  (key sec ∉ collapsed →
   ∀ d, lookupZ (data sec) itemIndex = Some d →
     Flatten.getFlatIndex sections sectionIndex itemIndex collapsed footers =
       Some (h + 1 + itemIndex)%Z ∧
     lookupZ flat (h + 1 + itemIndex) = Some (itemEntry sectionIndex itemIndex sec d) ∧
     Flatten.getSectionItemFromFlatIndex sections (h + 1 + itemIndex) collapsed footers =
       Some (Flatten.mkPosition sectionIndex itemIndex Flatten.ItemPosition)).
Proof.
  intros Hsec flat h. pose proof (lookupZ_Some _ _ _ Hsec) as Hsi.
  assert (flat = flatOfGroups collapsed footers 0 sections) as Hflat.
  { apply flattenSections_flatOfGroups. }
  assert (Flatten.countBefore sections collapsed footers 0 (Z.to_nat sectionIndex) 0 = Some h)
    as Hcount.
  { rewrite countBefore_spec by lia. simpl. f_equal. }
  pose proof (groupSize_pos collapsed footers sec) as Hpos.
  assert (∀ d, key sec ∉ collapsed → lookupZ (data sec) itemIndex = Some d →
            lookupZ flat (h + 1 + itemIndex) = Some (itemEntry sectionIndex itemIndex sec d))
    as Hitem.
  { intros d Hc Hd. pose proof (lookupZ_Some _ _ _ Hd) as Hii.
    rewrite Hflat. replace (h + 1 + itemIndex)%Z with (h + (1 + itemIndex))%Z by lia.
    unfold h. rewrite (flatOfGroups_group _ _ _ _ sec) by
      (try done; unfold groupSize; rewrite bool_decide_eq_false_2 by done; destruct footers; lia).
    by apply lookupZ_groupEntries_item. }
  split; [|split].
  - rewrite Hflat. rewrite <- (Z.add_0_r h). unfold h.
    rewrite (flatOfGroups_group _ _ _ _ sec) by (done || lia).
    apply lookupZ_groupEntries_header.
  - intros Hcase. unfold Flatten.getFlatIndex. rewrite Hcount. simpl.
    case_bool_decide as Hii; [|done].
    rewrite Hsec. simpl. destruct Hcase as [?|Hc]; [lia|].
    by rewrite bool_decide_eq_true_2.
  - intros Hc d Hd. pose proof (lookupZ_Some _ _ _ Hd) as Hii.
    split; [|split].
    + unfold Flatten.getFlatIndex. rewrite Hcount. simpl.
      rewrite bool_decide_eq_true_2 by lia. rewrite Hsec. simpl.
      by rewrite bool_decide_eq_false_2.
    + by apply Hitem.
    + rewrite getSectionItemFromFlatIndex_flatOfGroups, <- Hflat. by rewrite (Hitem d).
Qed.

Lemma getFlatIndex_utility_positions_witness :
  lookupZ scenarioSections 2 = Some (mkSection "c" [30; 31; 32]) ∧
  Flatten.getFlatIndex scenarioSections 2 1 {["b"]} false = Some 6%Z ∧
  Flatten.getSectionItemFromFlatIndex scenarioSections 6 {["b"]} false =
    Some (Flatten.mkPosition 2 1 Flatten.ItemPosition).
Proof.
  assert (lookupZ scenarioSections 2 = Some (mkSection "c" [30; 31; 32])) as Hsec
    by reflexivity.
  split; [exact Hsec|].
  destruct (getFlatIndex_utility_positions scenarioSections 2 1 {["b"]} false
              (mkSection "c" [30; 31; 32]) Hsec) as (_ & _ & Hitem).
  destruct (Hitem ltac:(simpl; set_solver) 31 eq_refl) as (Hget & _ & Hback).
  split; [exact Hget|exact Hback].
Defined.

(** ** Keys of the flat sequence *)

Section flat_key_facts.

Lemma noDash_pretty_N_go (x : N) (s : string) : noDash s → noDash (pretty_N_go x s).
Proof.
  revert s. induction (N.lt_wf_0 x) as [x _ IH]; intros s Hs.
  assert (x = 0 ∨ 0 < x)%N as [->|?] by lia.
  - by rewrite pretty_N_go_0.
  - rewrite pretty_N_go_step by done. apply IH.
    { by apply N.div_lt. }
    split; [|done]. unfold pretty_N_char. by repeat case_match.
Qed.

Lemma noDash_pretty_N (x : N) : noDash (pretty x).
Proof.
  unfold pretty, pretty_N. case_decide; [by simpl|]. by apply noDash_pretty_N_go.
Qed.

Lemma noDash_pretty_Z (n : Z) : (0 ≤ n)%Z → noDash (pretty n).
Proof.
  intros Hn. destruct n as [|p|p]; [by simpl| |lia].
  apply (noDash_pretty_N (Npos p)).
Qed.

Lemma noDash_app_dash (a b : string) : ¬ noDash (a +:+ String "-" b).
Proof. induction a as [|c a IH]; simpl; [by intros [? _]|]. by intros [_ ?]. Qed.

(** The text after the last dash of a string and the text before it. *)
Lemma dash_suffix_inj (s1 s2 d1 d2 : string) :
  noDash d1 → noDash d2 →
  s1 +:+ String "-" d1 = s2 +:+ String "-" d2 → s1 = s2 ∧ d1 = d2.
Proof.
  intros Hd1 Hd2. revert s2. induction s1 as [|c s1 IH]; intros [|c' s2]; simpl.
  - by intros [= ->].
  - intros [= <- ->]. by apply noDash_app_dash in Hd1.
  - intros [= -> <-]. by apply noDash_app_dash in Hd2.
  - intros [= <- Heq]. by destruct (IH _ Heq) as [-> ->].
Qed.

End flat_key_facts.

Section flat_keys.
Context {T : Type}.
Implicit Types (sec : Section T) (it : FlattenedItem T).

Lemma keyed_inj it1 it2 :
  keyed it1 → keyed it2 → fkey it1 = fkey it2 → identity it1 = identity it2.
Proof.
  unfold keyed, identity.
  destruct (type it1), (type it2); intros [-> H1] [-> H2] Heq; try discriminate.
  - apply (inj (String.app "header-")) in Heq. by rewrite Heq, H1, H2.
  - apply (inj (String.app "item-")) in Heq.
    apply dash_suffix_inj in Heq as [-> Hp]; [|by apply noDash_pretty_Z..].
    by apply (inj pretty) in Hp as ->.
  - apply (inj (String.app "footer-")) in Heq. by rewrite Heq, H1, H2.
Qed.

Lemma itemEntries_elem si ii sec (rest : list T) it :
  it ∈ itemEntries si ii sec rest →
  type it = Item ∧ sectionKey it = key sec ∧ (ii ≤ itemIndex it)%Z ∧
  fkey it = "item-" +:+ key sec +:+ "-" +:+ pretty (itemIndex it).
Proof.
  revert ii. induction rest as [|d rest IH]; intros ii; simpl; [by intros ?%elem_of_nil|].
  intros [->|Hin]%elem_of_cons; [simpl; split_and!; (done || lia)|].
  destruct (IH _ Hin) as (? & ? & ? & ?). split_and!; (done || lia).
Qed.

Lemma itemEntries_identities si ii sec (rest : list T) :
  (0 ≤ ii)%Z → NoDup (identity <$> itemEntries si ii sec rest).
Proof.
  revert ii. induction rest as [|d rest IH]; intros ii Hii; simpl; [apply NoDup_nil_2|].
  apply NoDup_cons. split; [|apply IH; lia].
  intros (it & Heq & Hin)%list_elem_of_fmap.
  apply itemEntries_elem in Hin as (_ & _ & Hge & _).
  unfold identity in Heq. simpl in Heq. injection Heq as _ _ Heq. lia.
Qed.

Lemma groupEntries_elem c f si sec it :
  it ∈ groupEntries c f si sec → sectionKey it = key sec ∧ keyed it.
Proof.
  unfold groupEntries. intros [->|Hin]%elem_of_cons; [by unfold keyed|].
  case_bool_decide; [by apply elem_of_nil in Hin|].
  apply elem_of_app in Hin as [Hin|Hin].
  - apply itemEntries_elem in Hin as (Hty & Hk & Hge & Hkey).
    split; [done|]. unfold keyed. rewrite Hty, Hk. split; [done|lia].
  - destruct f; [|by apply elem_of_nil in Hin].
    apply list_elem_of_singleton in Hin as ->. by unfold keyed.
Qed.

Lemma groupEntries_identities c f si sec : NoDup (identity <$> groupEntries c f si sec).
Proof.
  unfold groupEntries. rewrite fmap_cons. apply NoDup_cons. split.
  - intros (it & Heq & Hin)%list_elem_of_fmap.
    case_bool_decide; [by apply elem_of_nil in Hin|].
    apply elem_of_app in Hin as [Hin|Hin].
    + apply itemEntries_elem in Hin as (Hty & _). unfold identity in Heq. simpl in Heq.
      rewrite Hty in Heq. discriminate.
    + destruct f; [|by apply elem_of_nil in Hin].
      apply list_elem_of_singleton in Hin as ->. discriminate.
  - case_bool_decide; [apply NoDup_nil_2|].
    rewrite fmap_app. apply NoDup_app. split; [by apply itemEntries_identities|].
    split; [|destruct f; simpl; [apply NoDup_singleton|apply NoDup_nil_2]].
    intros id (it & -> & Hin)%list_elem_of_fmap Hfoot.
    destruct f; [|by apply elem_of_nil in Hfoot].
    apply list_elem_of_singleton in Hfoot.
    apply itemEntries_elem in Hin as (Hty & _). unfold identity in Hfoot. simpl in Hfoot.
    rewrite Hty in Hfoot. discriminate.
Qed.

Lemma flatOfGroups_elem c f si (sections : list (Section T)) it :
  it ∈ flatOfGroups c f si sections → sectionKey it ∈ key <$> sections ∧ keyed it.
Proof.
  revert si. induction sections as [|sec rest IH]; intros si; cbn [flatOfGroups].
  - by intros ?%elem_of_nil.
  - rewrite fmap_cons. intros [Hin|Hin]%elem_of_app.
    + apply groupEntries_elem in Hin as [-> ?]. split; [left|done].
    + destruct (IH _ Hin). split; [by right|done].
Qed.

Lemma flatOfGroups_identities c f si (sections : list (Section T)) :
  NoDup (key <$> sections) → NoDup (identity <$> flatOfGroups c f si sections).
Proof.
  revert si. induction sections as [|sec rest IH]; intros si Hnd; cbn [flatOfGroups];
    [apply NoDup_nil_2|].
  rewrite fmap_cons in Hnd. apply NoDup_cons in Hnd as [Hsec Hnd].
  rewrite fmap_app. apply NoDup_app. split; [apply groupEntries_identities|].
  split; [|by apply IH].
  intros id (it1 & -> & Hin1)%list_elem_of_fmap (it2 & Heq & Hin2)%list_elem_of_fmap.
  apply groupEntries_elem in Hin1 as [Hk1 _].
  apply flatOfGroups_elem in Hin2 as [Hk2 _].
  unfold identity in Heq. injection Heq as _ Heq _. congruence.
Qed.

Lemma flatOfGroups_keys c f si (sections : list (Section T)) :
  NoDup (key <$> sections) → NoDup (fkey <$> flatOfGroups c f si sections).
Proof.
  intros Hnd. pose proof (flatOfGroups_identities c f si sections Hnd) as Hid.
  apply NoDup_fmap_2_strong; [|by apply NoDup_fmap_1 in Hid].
  intros it1 it2 Hin1 Hin2 Heq.
  pose proof (flatOfGroups_elem _ _ _ _ _ Hin1) as [_ Hk1].
  pose proof (flatOfGroups_elem _ _ _ _ _ Hin2) as [_ Hk2].
  pose proof (keyed_inj _ _ Hk1 Hk2 Heq) as Hident.
  apply list_elem_of_lookup in Hin1 as [i Hi]. apply list_elem_of_lookup in Hin2 as [j Hj].
  assert (i = j) as ->; [|congruence].
  eapply (NoDup_lookup _ _ _ _ Hid); rewrite list_lookup_fmap.
  - by rewrite Hi.
  - rewrite Hj. simpl. by rewrite Hident.
Qed.

End flat_keys.

(** X8. When the keys of the sections are pairwise distinct, so are the keys
    of the entries that [flattenSections] returns. *)
Theorem flattenSections_keys_unique {T} (sections : list (Section T))
    (collapsed : gset string) (footers : bool) :
  NoDup (key <$> sections) →
  NoDup (fkey <$> Flatten.flattenSections sections
                    (Flatten.mkOptions (Some collapsed) (Some footers))).
Proof.
  intros Hnd. rewrite flattenSections_flatOfGroups. by apply flatOfGroups_keys.
Qed.

Lemma flattenSections_keys_unique_witness :
  NoDup (key <$> scenarioSections) ∧
  NoDup (fkey <$> Flatten.flattenSections scenarioSections
                    (Flatten.mkOptions (Some {["b"]}) (Some true))).
Proof.
  assert (NoDup (key <$> scenarioSections)) as Hnd.
  { apply (bool_decide_unpack _). by vm_compute. }
  split; [exact Hnd|]. exact (flattenSections_keys_unique scenarioSections {["b"]} true Hnd).
Defined.

Section manager_round_trip.
Context {T : Type}.
Implicit Types (sec : Section T).

(** [getFlatIndex] after a rebuild, in closed form. *)
Lemma getFlatIndex_rebuilt (m0 : Manager.t T) (sections : list (Section T)) c si sec (ri : Z) :
  NoDup (key <$> sections) →
  lookupZ sections si = Some sec →
  Manager.getFlatIndex (Manager.updateData m0 sections c).2 si ri =
    let h := headerPosition c (Manager.hasSectionFooters m0) sections si in
    if bool_decide (ri = -1)%Z then h
    else if bool_decide (key sec ∈ c) then (-1)%Z
    else if bool_decide (ri < 0)%Z || bool_decide (lengthZ (data sec) ≤ ri)%Z then (-1)%Z
    else (h + 1 + ri)%Z.
Proof.
  intros Hnd Hsec.
  destruct (buildLoop_group c (Manager.hasSectionFooters m0) sections si sec Hnd Hsec)
    as (Hb & _ & _).
  unfold Manager.getFlatIndex. simpl. rewrite Hsec, Hb.
  unfold boundaryAt. repeat case_bool_decide; simpl; done.
Qed.

Lemma updateData_flatOfGroups (m0 : Manager.t T) (sections : list (Section T)) c :
  Manager.flattenedData (Manager.updateData m0 sections c).2 =
    flatOfGroups c (Manager.hasSectionFooters m0) 0 sections.
Proof.
  unfold Manager.updateData. simpl. by rewrite buildLoop_data, flattenLoop_flatOfGroups.
Qed.

(** Every entry of the flat sequence lies in the group of some section. *)
Lemma flatOfGroups_locate c f (s0 : Z) (sections : list (Section T)) (fi : Z) it :
  lookupZ (flatOfGroups c f s0 sections) fi = Some it →
  ∃ (k : nat) sec (j : Z),
    sections !! k = Some sec ∧ (0 ≤ j < groupSize c f sec)%Z ∧
    fi = (sizeOfGroups c f (take k sections) + j)%Z ∧
    lookupZ (groupEntries c f (s0 + Z.of_nat k) sec) j = Some it.
Proof.
  revert s0 fi. induction sections as [|sec rest IH]; intros s0 fi; cbn [flatOfGroups].
  - intros Hfi%lookupZ_Some. unfold lengthZ in Hfi. simpl in Hfi. lia.
  - rewrite lookupZ_app, lengthZ_groupEntries. case_bool_decide as Hlt.
    + intros Hit. pose proof (lookupZ_Some _ _ _ Hit) as Hr.
      exists 0%nat, sec, fi. rewrite Z.add_0_r. split; [done|].
      rewrite lengthZ_groupEntries in Hr. split; [lia|]. split; [simpl; lia|done].
    + intros Hit. destruct (IH _ _ Hit) as (k & sec' & j & Hk & Hj & Hfi & Hent).
      exists (S k), sec', j. split; [done|]. split; [done|]. split.
      * simpl. lia.
      * replace (s0 + Z.of_nat (S k))%Z with (s0 + 1 + Z.of_nat k)%Z by lia. done.
Qed.

(** The coordinates of the entries of a group. *)
Lemma groupEntries_coordinates c f si sec (j : Z) it :
  lookupZ (groupEntries c f si sec) j = Some it →
  sectionIndex it = si ∧
  match type it with
  | SectionHeader => j = 0%Z ∧ itemIndex it = (-1)%Z
  | Item => j = (1 + itemIndex it)%Z ∧ (0 ≤ itemIndex it < lengthZ (data sec))%Z ∧
            key sec ∉ c
  | SectionFooter => itemIndex it = (-1)%Z
  end.
Proof.
  unfold groupEntries. rewrite lookupZ_cons. case_bool_decide as Hj.
  - intros [= <-]. simpl. done.
  - case_bool_decide as Hc; [intros Hn%lookupZ_Some; unfold lengthZ in Hn; simpl in Hn; lia|].
    rewrite lookupZ_app, lookupZ_itemEntries. case_bool_decide as Hlt.
    + destruct (lookupZ (data sec) (j - 1)) as [d|] eqn:Hd; [|done].
      intros [= <-]. simpl. apply lookupZ_Some in Hd. split; [done|]. split; [lia|].
      split; [lia|done].
    + destruct f; [|intros Hn%lookupZ_Some; unfold lengthZ in Hn; simpl in Hn; lia].
      rewrite lookupZ_cons. case_bool_decide; [|intros Hn%lookupZ_Some;
        unfold lengthZ in Hn; simpl in Hn; lia].
      intros [= <-]. done.
Qed.

End manager_round_trip.

(** X9. After a rebuild over sections with pairwise distinct keys the two
    coordinate lookups of the manager are inverse to each other: the
    coordinates that [getSectionItemIndex] returns for the flat index of
    a header or an item lead [getFlatIndex] back to that flat index (a
    footer has the coordinates of its section's header), and a flat index
    outside the sequence has the coordinates [-1], [-1]. *)
Theorem getSectionItemIndex_inverts_getFlatIndex {T} (m0 : Manager.t T)
    (sections : list (Section T)) (collapsed : gset string) (flatIndex : Z) :
  NoDup (key <$> sections) →
  let m := (Manager.updateData m0 sections collapsed).2 in
  let c := Manager.getSectionItemIndex m flatIndex in
  match lookupZ (Manager.flattenedData m) flatIndex with
  | None => c = Manager.mkCoordinates (-1) (-1) false false
  | Some it =>
      c = Manager.mkCoordinates (sectionIndex it) (itemIndex it)
            (bool_decide (type it = SectionHeader)) (bool_decide (type it = SectionFooter)) ∧
      Manager.getFlatIndex m (Manager.c_sectionIndex c) (Manager.c_itemIndex c) =
        (if Manager.c_isFooter c
         then Manager.getFlatIndex m (Manager.c_sectionIndex c) (-1)
         else flatIndex)
  end.
Proof.
  intros Hnd m c. unfold c, Manager.getSectionItemIndex.
  destruct (lookupZ (Manager.flattenedData m) flatIndex) as [it|] eqn:Hit; [|done].
  split; [done|]. simpl.
  unfold m in Hit. rewrite updateData_flatOfGroups in Hit.
  destruct (flatOfGroups_locate _ _ _ _ _ _ Hit) as (k & sec & j & Hk & Hj & Hfi & Hent).
  rewrite Z.add_0_l in Hent.
  destruct (groupEntries_coordinates _ _ _ _ _ _ Hent) as [Hsi Hty].
  assert (lookupZ sections (Z.of_nat k) = Some sec) as Hsec.
  { unfold lookupZ. rewrite bool_decide_eq_true_2 by lia. by rewrite Nat2Z.id. }
  assert (headerPosition collapsed (Manager.hasSectionFooters m0) sections (Z.of_nat k) =
          sizeOfGroups collapsed (Manager.hasSectionFooters m0) (take k sections)) as Hh.
  { unfold headerPosition. by rewrite Nat2Z.id. }
  unfold m. rewrite Hsi.
  destruct (type it) eqn:Htype.
  - destruct Hty as [-> Hii]. rewrite Hii.
    rewrite (bool_decide_eq_false_2 (SectionHeader = SectionFooter)) by done.
    rewrite (getFlatIndex_rebuilt _ _ _ _ sec) by done. simpl.
    rewrite Hh. lia.
  - destruct Hty as (-> & Hii & Hc).
    rewrite (bool_decide_eq_false_2 (Item = SectionFooter)) by done.
    rewrite (getFlatIndex_rebuilt _ _ _ _ sec) by done. simpl.
    rewrite (bool_decide_eq_false_2 (itemIndex it = -1)%Z) by lia.
    rewrite (bool_decide_eq_false_2 (key sec ∈ collapsed)) by done.
    rewrite (bool_decide_eq_false_2 (itemIndex it < 0)%Z) by lia.
    rewrite (bool_decide_eq_false_2 (lengthZ (data sec) ≤ itemIndex it)%Z) by lia.
    simpl. rewrite Hh. lia.
  - rewrite bool_decide_eq_true_2 by done. by rewrite Hty.
Qed.

Lemma getSectionItemIndex_inverts_getFlatIndex_witness :
  NoDup (key <$> scenarioSections) ∧
  Manager.getSectionItemIndex scenarioManager 6 = Manager.mkCoordinates 2 1 false false ∧
  Manager.getFlatIndex scenarioManager 2 1 = 6%Z.
Proof.
  assert (NoDup (key <$> scenarioSections)) as Hnd.
  { apply (bool_decide_unpack _). by vm_compute. }
  split; [exact Hnd|].
  pose proof (getSectionItemIndex_inverts_getFlatIndex
                (Manager.create LayoutCache.create Manager.noOptions)
                scenarioSections {["b"]} 6 Hnd) as H.
  split; [reflexivity|]. exact (proj2 H).
Defined.

Section positioner_more.
Context {T : Type}.
Implicit Types p : Positioner.t T.

Lemma rectAt_cross p (i : Z) :
  (if Positioner.horizontal p then y (rectAt p i) else x (rectAt p i)) = 0%Qc ∧
  (if Positioner.horizontal p then height (rectAt p i) else width (rectAt p i)) =
    Positioner.crossAxisSize p.
Proof. unfold rectAt. by destruct (Positioner.horizontal p). Qed.

Lemma Qcmax_mono (a b : Qc) : (a ≤ b)%Qc → (Positioner.Qcmax 0 a ≤ Positioner.Qcmax 0 b)%Qc.
Proof.
  intros Hab. unfold Positioner.Qcmax.
  destruct (decide (0 ≤ a)%Qc) as [Ha|Ha], (decide (0 ≤ b)%Qc) as [Hb|Hb].
  - by rewrite !bool_decide_eq_true_2.
  - exfalso. apply Hb. by etrans.
  - by rewrite bool_decide_eq_false_2, bool_decide_eq_true_2.
  - by rewrite !bool_decide_eq_false_2.
Qed.

End positioner_more.

(** X10. In every state of the positioner the layouts tile the main axis: the
    first item starts at 0, every item starts where the item before it
    ends, the last item ends at the content size, and on the cross axis
    every item sits at 0 and has the container's extent. *)
Theorem layouts_tile_the_main_axis {T} (p : Positioner.t T) :
  Positioner.reachable p →
  let n := lengthZ (Positioner.flattenedData p) in
  let rect i := (Positioner.getLayoutForIndex p i).1 in
  ((0 < n)%Z → Positioner.itemStartOf p (rect 0%Z) = 0%Qc) ∧
  (∀ i, (0 ≤ i)%Z → (i + 1 < n)%Z →
        Positioner.itemStartOf p (rect (i + 1)%Z) = Positioner.itemEndOf p (rect i)) ∧
  ((0 < n)%Z →
   Positioner.itemEndOf p (rect (n - 1)%Z) = mainExtent p (Positioner.getContentSize p).1) ∧
  (∀ i, (0 ≤ i < n)%Z →
        (if Positioner.horizontal p then y (rect i) else x (rect i)) = 0%Qc ∧
        (if Positioner.horizontal p then height (rect i) else width (rect i)) =
          Positioner.crossAxisSize p).
Proof.
  intros Hp%reachable_consistent n rect.
  assert (∀ i, (0 ≤ i < n)%Z → rect i = rectAt p i) as Hrect.
  { intros i Hi. unfold rect. rewrite getLayoutForIndex_rect by done.
    by rewrite bool_decide_eq_true_2. }
  split; [|split; [|split]].
  - intros Hn. rewrite Hrect by lia. by rewrite itemStartOf_rectAt.
  - intros i Hi Hlt. rewrite !Hrect by lia.
    by rewrite itemStartOf_rectAt, itemEndOf_rectAt.
  - intros Hn. rewrite Hrect by lia. rewrite itemEndOf_rectAt by lia.
    rewrite getContentSize_main by done. f_equal. lia.
  - intros i Hi. rewrite Hrect by done. apply rectAt_cross.
Qed.

Lemma layouts_tile_the_main_axis_witness :
  Positioner.itemStartOf uniformPositioner (Positioner.getLayoutForIndex uniformPositioner 3).1 =
    Positioner.itemEndOf uniformPositioner (Positioner.getLayoutForIndex uniformPositioner 2).1.
Proof.
  destruct (layouts_tile_the_main_axis uniformPositioner uniformPositioner_reachable)
    as (_ & Hnext & _).
  apply (Hnext 2%Z); [lia|]. vm_compute. reflexivity.
Defined.

(** X11. [getIndexForOffset] returns 0 for no items; else, with no negative
    size, it returns the first item that ends after the offset, or the
    last item when there is none; so for an offset from 0 to below the
    content size it returns the item that contains the offset. *)
Theorem getIndexForOffset_contains {T} (p : Positioner.t T) (offset : Qc) :
  Positioner.reachable p →
  (∀ i it, Positioner.flattenedData p !! i = Some it → (0 ≤ resolvedSize p i it)%Qc) →
  let n := lengthZ (Positioner.flattenedData p) in
  let rect i := (Positioner.getLayoutForIndex p i).1 in
  ∃ r, (Positioner.getIndexForOffset p offset).1 = Some r ∧
    (n = 0%Z → r = 0%Z) ∧
    ((0 < n)%Z →
       (0 ≤ r < n)%Z ∧
       (∀ i, (0 ≤ i < r)%Z → (Positioner.itemEndOf p (rect i) ≤ offset)%Qc) ∧
       (r = (n - 1)%Z ∨ (offset < Positioner.itemEndOf p (rect r))%Qc) ∧
       ((0 ≤ offset)%Qc → (offset < mainExtent p (Positioner.getContentSize p).1)%Qc →
        (Positioner.itemStartOf p (rect r) ≤ offset)%Qc ∧
        (offset < Positioner.itemEndOf p (rect r))%Qc)).
Proof.
  intros Hp%reachable_consistent Hsizes n rect.
  pose proof (getItemSize_nonneg p Hsizes) as Hnonneg.
  assert (∀ i, (0 ≤ i < n)%Z → rect i = rectAt p i) as Hrect.
  { intros i Hi. unfold rect. rewrite getLayoutForIndex_rect by done.
    by rewrite bool_decide_eq_true_2. }
  destruct (ensureLayoutsComputed_computed p Hp) as [_ Hc].
  destruct (ensureLayoutsComputed_fields p) as (Hh & Hd & _ & Hsz & Ho & _).
  unfold Positioner.getIndexForOffset.
  set (p' := Positioner.ensureLayoutsComputed p) in *.
  rewrite Hd. fold n. case_bool_decide as Hn.
  { exists 0%Z. split; [done|]. split; [done|]. lia. }
  pose proof (lookupZ_Some (Positioner.flattenedData p)) as _.
  assert (0 < n)%Z as Hpos by (unfold n, lengthZ in *; lia).
  assert (∀ k, (0 ≤ k < n)%Z → (0 ≤ Positioner.getItemSize p' k)%Qc) as Hsizes'.
  { intros k Hk. rewrite Hsz. by apply Hnonneg. }
  assert (n = lengthZ (Positioner.flattenedData p')) as Hn' by by rewrite Hd.
  destruct (binarySearchStartLoop_spec p' n offset Hn' Hc Hsizes'
              (length (Positioner.flattenedData p')) 0 (n - 1))
    as (r & Hr & Hr1 & Hr2 & Hr3); try (unfold lengthZ in *; lia); try (by left).
  exists r. cbn [fst]. unfold Positioner.binarySearchStart. rewrite <- Hn', Hr.
  split; [done|]. split; [lia|]. intros _.
  setoid_rewrite Ho in Hr2. rewrite Ho in Hr3.
  split; [lia|]. split; [|split].
  - intros i Hi. rewrite Hrect by lia. rewrite itemEndOf_rectAt by lia. by apply Hr2.
  - rewrite Hrect by lia. rewrite itemEndOf_rectAt by lia. done.
  - intros H0 Htotal. rewrite getContentSize_main in Htotal by done. fold n in Htotal.
    rewrite Hrect by lia. rewrite itemStartOf_rectAt, itemEndOf_rectAt by lia. split.
    + destruct (decide (r = 0%Z)) as [->|Hne]; [by rewrite offsetAt_0|].
      replace r with (r - 1 + 1)%Z by lia. apply Hr2. lia.
    + destruct Hr3 as [->|Hlt]; [|done]. by replace (n - 1 + 1)%Z with n by lia.
Qed.

Lemma getIndexForOffset_contains_witness :
  (Positioner.getIndexForOffset uniformPositioner (Qc_of_Z 120)).1 = Some 2%Z ∧
  ∃ r, (Positioner.getIndexForOffset uniformPositioner (Qc_of_Z 120)).1 = Some r ∧
       (Positioner.itemStartOf uniformPositioner
          (Positioner.getLayoutForIndex uniformPositioner r).1 ≤ Qc_of_Z 120)%Qc ∧
       (Qc_of_Z 120 < Positioner.itemEndOf uniformPositioner
                        (Positioner.getLayoutForIndex uniformPositioner r).1)%Qc.
Proof.
  split; [vm_compute; reflexivity|].
  destruct (getIndexForOffset_contains uniformPositioner (Qc_of_Z 120)
              uniformPositioner_reachable uniformPositioner_sizes)
    as (r & Hr & _ & Hin).
  exists r. split; [exact Hr|].
  destruct (Hin ltac:(vm_compute; reflexivity)) as (_ & _ & _ & Hcontains).
  apply Hcontains; vm_compute; [discriminate|reflexivity].
Defined.

(** X12. Measuring an item is read back: after [updateItemLayout] at an
    existing index the cache holds the measured rect under the item's
    key, and the layout returned for the index has the measured extent on
    the main axis. *)
Theorem updateItemLayout_read_back {T} (p : Positioner.t T) (index : Z) (layout : LayoutRect)
    (it : FlattenedItem T) :
  Positioner.reachable p →
  lookupZ (Positioner.flattenedData p) index = Some it →
  let p' := Positioner.updateItemLayout p index layout in
  LayoutCache.get (Positioner.layoutCache p') (fkey it) = Some layout ∧
  mainSize p (Positioner.getLayoutForIndex p' index).1 = mainSize p layout.
Proof.
  intros Hp Hit p'.
  assert (consistent p') as Hp' by (apply reachable_consistent; by constructor).
  pose proof (lookupZ_Some _ _ _ Hit) as Hindex.
  unfold p' in *. rewrite (updateItemLayout_unfold _ _ _ _ Hit) in *.
  split.
  - simpl. unfold LayoutCache.get. simpl. by rewrite lookup_insert_eq.
  - rewrite getLayoutForIndex_rect by done. simpl.
    rewrite bool_decide_eq_true_2 by done.
    unfold rectAt, mainSize, Positioner.getItemSize. simpl. rewrite Hit.
    unfold LayoutCache.get. simpl. rewrite lookup_insert_eq.
    by destruct (Positioner.horizontal p).
Qed.

Lemma updateItemLayout_read_back_witness :
  mainSize uniformPositioner
    (Positioner.getLayoutForIndex (Positioner.updateItemLayout uniformPositioner 3 measured80) 3).1
    = Qc_of_Z 80.
Proof.
  destruct (lookupZ (Positioner.flattenedData uniformPositioner) 3) as [it|] eqn:Hit;
    [|by vm_compute in Hit].
  exact (proj2 (updateItemLayout_read_back uniformPositioner 3 measured80 it
                  uniformPositioner_reachable Hit)).
Defined.

(** X13. A larger overscan never narrows the visible range: the range for the
    larger overscan starts at or before and ends at or after the range
    for the smaller one. *)
Theorem getVisibleRange_grows_with_overscan {T} (p : Positioner.t T)
    (scrollOffset viewportSize overscan overscan' : Qc) :
  Positioner.reachable p →
  (∀ i it, Positioner.flattenedData p !! i = Some it → (0 ≤ resolvedSize p i it)%Qc) →
  (overscan ≤ overscan')%Qc →
  ∃ r r',
    (Positioner.getVisibleRange p scrollOffset viewportSize overscan).1 = Some r ∧
    (Positioner.getVisibleRange p scrollOffset viewportSize overscan').1 = Some r' ∧
    (Positioner.startIndex r' ≤ Positioner.startIndex r)%Z ∧
    (Positioner.endIndex r ≤ Positioner.endIndex r')%Z.
Proof.
  intros Hp%reachable_consistent Hsizes Hle.
  pose proof (getItemSize_nonneg p Hsizes) as Hnonneg.
  destruct (decide (lengthZ (Positioner.flattenedData p) = 0%Z)) as [Hn|Hn].
  { exists (Positioner.mkRange 0 (-1)), (Positioner.mkRange 0 (-1)).
    destruct (ensureLayoutsComputed_fields p) as (_ & Hd & _).
    unfold Positioner.getVisibleRange. rewrite Hd.
    rewrite !bool_decide_eq_true_2 by done. done. }
  assert (0 < lengthZ (Positioner.flattenedData p))%Z as Hpos by (unfold lengthZ in *; lia).
  destruct (getVisibleRange_spec p scrollOffset viewportSize overscan Hp Hnonneg Hpos)
    as (s & e & Hr & Hs & He & Hs1 & Hs2 & He1 & He2).
  destruct (getVisibleRange_spec p scrollOffset viewportSize overscan' Hp Hnonneg Hpos)
    as (s' & e' & Hr' & Hs' & He' & Hs1' & Hs2' & He1' & He2').
  exists (Positioner.mkRange s e), (Positioner.mkRange s' e').
  split; [done|]. split; [done|]. simpl.
  assert (Positioner.Qcmax 0 (scrollOffset - overscan') ≤
          Positioner.Qcmax 0 (scrollOffset - overscan))%Qc as Hlower.
  { apply Qcmax_mono. unfold Qcminus. apply Qcplus_le_mono_l. by apply Qcopp_le_compat. }
  assert (scrollOffset + viewportSize + overscan ≤
          scrollOffset + viewportSize + overscan')%Qc as Hupper.
  { by apply Qcplus_le_mono_l. }
  split.
  - destruct (decide (s' ≤ s)%Z) as [?|Hgt]; [done|]. exfalso.
    destruct Hs2 as [->|Hlt]; [lia|].
    specialize (Hs1' s ltac:(lia)).
    apply (Qclt_not_le _ _ Hlt). by etrans.
  - destruct (decide (e ≤ e')%Z) as [?|Hgt]; [done|]. exfalso.
    destruct He2 as [->|Hlt]; [lia|].
    specialize (He1' e ltac:(lia)).
    apply (Qclt_not_le _ _ Hlt). by etrans.
Qed.

Lemma getVisibleRange_grows_with_overscan_witness :
  ∃ r r',
    (Positioner.getVisibleRange uniformPositioner (Qc_of_Z 100) (Qc_of_Z 100) 0).1 = Some r ∧
    (Positioner.getVisibleRange uniformPositioner (Qc_of_Z 100) (Qc_of_Z 100)
       (Qc_of_Z 60)).1 = Some r' ∧
    (Positioner.startIndex r' ≤ Positioner.startIndex r)%Z ∧
    (Positioner.endIndex r ≤ Positioner.endIndex r')%Z.
Proof.
  apply (getVisibleRange_grows_with_overscan uniformPositioner (Qc_of_Z 100) (Qc_of_Z 100)
           0 (Qc_of_Z 60) uniformPositioner_reachable uniformPositioner_sizes).
  vm_compute. discriminate.
Defined.

(** ** The layout cache: invalidation *)

Section cache_invalidation.
Import LayoutCache.

Lemma cache_invalidateFrom_lookup (c : LayoutCache.t) (flatIndex : Z) (m : list (string * Z))
    (k : string) :
  get (invalidateFrom c flatIndex m) k =
    if bool_decide (Exists (λ e, e.1 = k ∧ (flatIndex ≤ e.2)%Z) m) then None else get c k.
Proof.
  revert c. induction m as [|[k' i] m IH]; intros c.
  - unfold invalidateFrom. cbn [foldl].
    rewrite bool_decide_eq_false_2; [done|]. by intros ?%Exists_nil.
  - unfold invalidateFrom in *. cbn [foldl]. rewrite IH.
    rewrite (bool_decide_ext _ _ (Exists_cons _ _ _)), bool_decide_or. cbn [fst snd].
    destruct (bool_decide (Exists _ m)); [by rewrite orb_true_r|]. rewrite orb_false_r.
    rewrite bool_decide_and.
    destruct (decide (flatIndex ≤ i)%Z) as [Hi|Hi].
    + rewrite (bool_decide_eq_true_2 (flatIndex ≤ i)%Z) by done. rewrite andb_true_r.
      unfold get, delete. simpl. case_bool_decide as Hk.
      * subst k'. by rewrite lookup_delete_eq.
      * by rewrite lookup_delete_ne.
    + rewrite (bool_decide_eq_false_2 (flatIndex ≤ i)%Z) by done. by rewrite andb_false_r.
Qed.

End cache_invalidation.

(** X14. [invalidateFrom] of the cache removes exactly the layouts of the keys
    that the given map sends to an index at or after [flatIndex]; every
    other cached layout and every running average stay as they are. *)
Theorem cache_invalidateFrom_removes (c : LayoutCache.t) (flatIndex : Z)
    (keyToIndexMap : list (string * Z)) :
  let c' := LayoutCache.invalidateFrom c flatIndex keyToIndexMap in
  (∀ k, LayoutCache.get c' k =
          if bool_decide (Exists (λ e, e.1 = k ∧ (flatIndex ≤ e.2)%Z) keyToIndexMap)
          then None else LayoutCache.get c k) ∧
  (∀ itemType, LayoutCache.getAverageSize c' itemType = LayoutCache.getAverageSize c itemType).
Proof.
  intros c'. split.
  - intros k. apply cache_invalidateFrom_lookup.
  - intros ty. unfold LayoutCache.getAverageSize, c'. by rewrite typeStats_invalidateFrom.
Qed.

(** ** The recycler: reuse order, keys and statistics *)

Section recycler_more.
Import Recycler.
Implicit Types (st : Recycler.t) (out : gset (string * string)) (cell : RecycledCell).

Lemma pop_snoc {A} (l : list A) (z : A) : pop (l ++ [z]) = Some (l, z).
Proof.
  induction l as [|a l IH]; [done|]. simpl. by rewrite IH.
Qed.

Lemma inUseTracked_acquireCell st out type flatIndex :
  recyclerOk st out → inUseTracked st out →
  inUseTracked (acquireCell st type flatIndex).2 (out ∪ handed (acquireCell st type flatIndex).1).
Proof.
  intros (_ & Hpools & _) Htr. unfold acquireCell.
  destruct (pools st !! type) as [pool|] eqn:Hpool; [|intros ty s k ??; set_solver].
  destruct (pop (cells pool)) as [[rest cell]|] eqn:Hpop; [|intros ty s k ??; set_solver].
  apply pop_Some in Hpop.
  destruct (Hpools _ _ Hpool) as (_ & _ & Hcells).
  destruct (Hcells cell) as (Hty & _); [rewrite Hpop; set_solver|].
  intros ty s k. simpl. unfold trackInUse, cellId. simpl.
  destruct (decide (ty = type)) as [->|Hne].
  - rewrite lookup_insert_eq. intros [= <-] [->%elem_of_singleton|Hk]%elem_of_union.
    + rewrite Hty. set_solver.
    + destruct (inUse st !! type) as [s|] eqn:Hs; [|set_solver].
      apply elem_of_union_l. by eapply Htr.
  - rewrite lookup_insert_ne by done. intros Hs Hk. apply elem_of_union_l. by eapply Htr.
Qed.

Lemma inUseTracked_createCell st out type flatIndex :
  inUseTracked st out →
  inUseTracked (createCell st type flatIndex).2
               (out ∪ {[cellId (createCell st type flatIndex).1]}).
Proof.
  intros Htr ty s k. unfold createCell, generateCellKey, trackInUse, cellId. simpl.
  destruct (decide (ty = type)) as [->|Hne].
  - rewrite lookup_insert_eq. intros [= <-] [->%elem_of_singleton|Hk]%elem_of_union.
    + set_solver.
    + destruct (inUse st !! type) as [s|] eqn:Hs; [|set_solver].
      apply elem_of_union_l. by eapply Htr.
  - rewrite lookup_insert_ne by done. intros Hs Hk. apply elem_of_union_l. by eapply Htr.
Qed.

Lemma inUseTracked_releaseCell st out cell :
  inUseTracked st out → inUseTracked (releaseCell st cell) (out ∖ {[cellId cell]}).
Proof.
  intros Htr ty s k. unfold releaseCell, cellId. simpl.
  destruct (inUse st !! itemType cell) as [s0|] eqn:Hs0.
  - destruct (decide (ty = itemType cell)) as [->|Hne].
    + rewrite lookup_insert_eq. intros [= <-] [Hk Hne]%elem_of_difference.
      apply elem_of_difference. split; [by eapply Htr|]. set_solver.
    + rewrite lookup_insert_ne by done. intros Hs Hk.
      apply elem_of_difference. split; [by eapply Htr|].
      intros [= ? ?]%elem_of_singleton. done.
  - intros Hs Hk. apply elem_of_difference. split; [by eapply Htr|].
    intros [= -> ->]%elem_of_singleton. congruence.
Qed.

Lemma used_inUseTracked d st out : (0 ≤ d)%Z → used d st out → inUseTracked st out.
Proof.
  intros Hd. induction 1 as [|st out ty fi Hused IH|st out ty fi _ IH|st out ty fi Hused IH
                            |st out cell Hused IH Hin|st out ty size st' _ IH Hsize Hset
                            |st out _ IH].
  - intros ty s k. simpl. by rewrite lookup_empty.
  - apply inUseTracked_acquireCell; [by eapply used_recyclerOk|done].
  - by apply inUseTracked_createCell.
  - destruct (getCell_cases st ty fi) as [(cell & Hcell & ->)|(_ & _ & ->)].
    + pose proof (inUseTracked_acquireCell st out ty fi
                    (used_recyclerOk d st out Hd Hused) IH) as H.
      rewrite Hcell in H. done.
    + by apply inUseTracked_createCell.
  - by apply inUseTracked_releaseCell.
  - unfold setMaxPoolSize in Hset. destruct (pools st !! ty) as [pool|].
    + destruct (trimLoop _ _ _); [|done]. simpl in Hset. injection Hset as <-. done.
    + injection Hset as <-. done.
  - intros ty s k. simpl. by rewrite lookup_empty.
Qed.

Lemma getPoolStats_lookup st (type : string) :
  getPoolStats st !! type =
    if bool_decide (type ∈ dom (pools st) ∪ dom (inUse st))
    then Some (mkPoolStats
                 (from_option (λ pool, lengthZ (cells pool)) 0%Z (pools st !! type))
                 (from_option (λ s, Z.of_nat (size s)) 0%Z (inUse st !! type)))
    else None.
Proof.
  unfold getPoolStats.
  set (stats := mkPoolStats
                  (from_option (λ pool, lengthZ (cells pool)) 0%Z (pools st !! type))
                  (from_option (λ s, Z.of_nat (size s)) 0%Z (inUse st !! type))).
  set (P := λ (r : gmap string PoolStats) (X : gset string),
              r !! type = if bool_decide (type ∈ X) then Some stats else None).
  generalize (dom (pools st) ∪ dom (inUse st)). intros X.
  match goal with |- ?l !! _ = _ => change (P l X) end.
  apply (set_fold_ind_L P); unfold P.
  - by rewrite lookup_empty, bool_decide_eq_false_2 by set_solver.
  - intros x Y r Hx Hr. destruct (decide (x = type)) as [->|Hne].
    + rewrite lookup_insert_eq. by rewrite bool_decide_eq_true_2 by set_solver.
    + rewrite lookup_insert_ne by done. rewrite Hr.
      destruct (decide (type ∈ Y)).
      * by rewrite !bool_decide_eq_true_2 by set_solver.
      * by rewrite !bool_decide_eq_false_2 by set_solver.
Qed.

Lemma size_keys_outstanding out type (s : gset string) :
  (∀ key, key ∈ s → (type, key) ∈ out) → size s ≤ size (outstanding out type).
Proof.
  intros Hs.
  assert (size (set_map (C:=gset string) (D:=gset (string * string)) (λ key, (type, key)) s)
          = size s) as <-.
  { clear Hs. induction s as [|k s Hk IH] using set_ind_L.
    - by rewrite set_map_empty, !size_empty.
    - rewrite set_map_union_L, set_map_singleton_L.
      rewrite !size_union, !size_singleton, IH; [done|set_solver|].
      intros id ->%elem_of_singleton (key & [= <-] & Hkey)%elem_of_map. done. }
  apply subseteq_size. intros id (key & -> & Hkey)%elem_of_map.
  apply elem_of_filter. split; [done|by apply Hs].
Qed.

End recycler_more.

(** X15. A released cell is the next one handed out for its type: when the
    pool of the cell's type has room, [acquireCell] after [releaseCell]
    returns the released cell (its key and type, with the new flat
    index) and leaves in the pool the cells that were there before. *)
Theorem releaseCell_then_acquireCell (st : Recycler.t) (cell : RecycledCell) (flatIndex : Z) :
  let pool := default (mkPool (itemType cell) [] (Recycler.defaultMaxPoolSize st))
                      (Recycler.pools st !! itemType cell) in
  (lengthZ (cells pool) < maxSize pool)%Z →
  let '(acquired, st') :=
    Recycler.acquireCell (Recycler.releaseCell st cell) (itemType cell) flatIndex in
  acquired = Some (mkCell (cellKey cell) (itemType cell) flatIndex) ∧
  cells <$> Recycler.pools st' !! itemType cell = Some (cells pool).
Proof.
  intros pool Hroom. unfold Recycler.acquireCell, Recycler.releaseCell. simpl.
  rewrite lookup_insert_eq. fold pool.
  rewrite bool_decide_eq_true_2 by done. simpl.
  rewrite pop_snoc. simpl. split; [done|].
  by rewrite lookup_insert_eq.
Qed.

Lemma releaseCell_then_acquireCell_witness :
  (Recycler.acquireCell
     (Recycler.releaseCell scenarioRecycler (mkCell "default-1" "default" 0)) "default" 7).1 =
    Some (mkCell "default-1" "default" 7).
Proof.
  pose proof (releaseCell_then_acquireCell scenarioRecycler (mkCell "default-1" "default" 0) 7
                ltac:(vm_compute; reflexivity)) as H.
  destruct (Recycler.acquireCell _ _ _) as [acquired st']. exact (proj1 H).
Defined.

(** X16. In every use of a recycler whose default pool size is not negative,
    [getPoolStats] lists a type exactly when the type has a pool or an
    in-use set; for a listed type, [available] is the number of cells in
    its pool (0 without a pool), at most the pool's maximum, and [inUse]
    is the size of its in-use set (0 without one), at most the number of
    cells of the type that are handed out and not yet released. *)
Theorem getPoolStats_bounds (d : Z) (st : Recycler.t) (out : gset (string * string))
    (type : string) :
  (0 ≤ d)%Z →
  Recycler.used d st out →
  (is_Some (Recycler.getPoolStats st !! type) ↔
   is_Some (Recycler.pools st !! type) ∨ is_Some (Recycler.inUse st !! type)) ∧
  ∀ stats, Recycler.getPoolStats st !! type = Some stats →
    Recycler.available stats =
      from_option (λ pool, lengthZ (cells pool)) 0%Z (Recycler.pools st !! type) ∧
    Recycler.statsInUse stats =
      from_option (λ s, Z.of_nat (size s)) 0%Z (Recycler.inUse st !! type) ∧
    (∀ pool, Recycler.pools st !! type = Some pool →
             (Recycler.available stats ≤ maxSize pool)%Z) ∧
    (0 ≤ Recycler.statsInUse stats ≤ Z.of_nat (size (outstanding out type)))%Z.
Proof.
  intros Hd Hused. rewrite getPoolStats_lookup.
  pose proof (used_recyclerOk d st out Hd Hused) as (_ & Hpools & _).
  pose proof (used_inUseTracked d st out Hd Hused) as Htr.
  split.
  - case_bool_decide as Hknown.
    + split; [intros _|by eauto].
      apply elem_of_union in Hknown as [Hk|Hk]; apply elem_of_dom in Hk; auto.
    + rewrite not_elem_of_union, !not_elem_of_dom in Hknown. destruct Hknown as [-> ->].
      split; [by intros [? ?]|]. by intros [[? ?]|[? ?]].
  - intros stats. case_bool_decide as Hknown; [|done]. intros [= <-]. simpl.
    split; [done|]. split; [done|]. split.
    + intros pool Hpool. rewrite Hpool. simpl. by destruct (Hpools _ _ Hpool) as [? _].
    + destruct (Recycler.inUse st !! type) as [s|] eqn:Hs; simpl; [|lia].
      split; [lia|]. apply inj_le. apply size_keys_outstanding.
      intros key Hkey. by eapply Htr.
Qed.

Lemma getPoolStats_bounds_witness :
  (0 ≤ DEFAULT_MAX_POOL_SIZE)%Z ∧
  Recycler.used DEFAULT_MAX_POOL_SIZE scenarioRecycler scenarioHandedOut ∧
  Recycler.getPoolStats scenarioRecycler !! "default" = Some (Recycler.mkPoolStats 0 1) ∧
  Recycler.getPoolStats scenarioRecycler !! "other" = None ∧
  (0 ≤ 1 ≤ Z.of_nat (size (outstanding scenarioHandedOut "default")))%Z.
Proof.
  assert (0 ≤ DEFAULT_MAX_POOL_SIZE)%Z as Hd by (unfold DEFAULT_MAX_POOL_SIZE; lia).
  assert (Recycler.used DEFAULT_MAX_POOL_SIZE scenarioRecycler scenarioHandedOut) as Hused.
  { apply Recycler.used_getCell, Recycler.used_create. }
  assert (Recycler.getPoolStats scenarioRecycler !! "default" =
          Some (Recycler.mkPoolStats 0 1)) as Hstats by (vm_compute; reflexivity).
  split; [exact Hd|]. split; [exact Hused|]. split; [exact Hstats|].
  split.
  - destruct (getPoolStats_bounds _ _ _ "other" Hd Hused) as [Hlisted _].
    destruct (Recycler.getPoolStats scenarioRecycler !! "other") as [stats|] eqn:Hother;
      [|reflexivity].
    exfalso. destruct (proj1 Hlisted (mk_is_Some _ _ eq_refl)) as [[? Hp]|[? Hi]].
    + vm_compute in Hp. discriminate Hp.
    + vm_compute in Hi. discriminate Hi.
  - destruct (getPoolStats_bounds _ _ _ "default" Hd Hused) as [_ Hbounds].
    destruct (Hbounds _ Hstats) as (_ & _ & _ & Hin). exact Hin.
Defined.

Section recycler_keys.
Import Recycler.

Lemma issued_key_inj st (id1 id2 : string * string) :
  issued st id1 → issued st id2 → id1.2 = id2.2 → id1 = id2.
Proof.
  intros (n1 & Hn1 & Hk1) (n2 & Hn2 & Hk2) Heq. pose proof Heq as Hkeys.
  rewrite Hk1, Hk2 in Heq.
  apply dash_suffix_inj in Heq as [Hty _]; [|apply noDash_pretty_Z; lia..].
  destruct id1 as [t1 k1], id2 as [t2 k2]. simpl in *. congruence.
Qed.

Lemma issued_key_fresh st (type : string) (id : string * string) :
  (0 ≤ cellCounter st)%Z → issued st id →
  id.2 ≠ type +:+ "-" +:+ pretty (cellCounter st + 1)%Z.
Proof.
  intros Hc (n & Hn & Hk) Heq. rewrite Hk in Heq.
  apply dash_suffix_inj in Heq as [_ Hp]; [|apply noDash_pretty_Z; lia..].
  apply (inj pretty) in Hp. lia.
Qed.

End recycler_keys.

(** X17. In every use of a recycler whose default pool size is not negative, a
    key identifies a cell across all types: two cells that are pooled or
    handed out and have the same key have the same type, and the key of a
    cell made by [createCell] is the key of no pooled or handed-out
    cell. *)
Theorem cell_keys_identify_cells (d : Z) (st : Recycler.t) (out : gset (string * string)) :
  (0 ≤ d)%Z →
  Recycler.used d st out →
  let known id := id ∈ out ∨
    ∃ type pool cell, Recycler.pools st !! type = Some pool ∧ cell ∈ cells pool ∧
                      id = Recycler.cellId cell in
  (∀ id1 id2, known id1 → known id2 → id1.2 = id2.2 → id1 = id2) ∧
  (∀ type flatIndex id, known id →
     id.2 ≠ cellKey (Recycler.createCell st type flatIndex).1).
Proof.
  intros Hd Hused known.
  pose proof (used_recyclerOk d st out Hd Hused) as (Hcounter & Hpools & Hout).
  assert (∀ id, known id → issued st id) as Hissued.
  { intros id [Hin|(ty & pool & cell & Hpool & Hcell & ->)]; [by apply Hout|].
    destruct (Hpools _ _ Hpool) as (_ & _ & Hcells). by destruct (Hcells _ Hcell) as (_ & _ & ?). }
  split.
  - intros id1 id2 H1%Hissued H2%Hissued. by apply (issued_key_inj st).
  - intros ty fi id Hid%Hissued. simpl. by apply issued_key_fresh.
Qed.

Lemma cell_keys_identify_cells_witness :
  cellKey (Recycler.createCell scenarioRecycler "header" 1).1 ≠ "default-1".
Proof.
  assert (0 ≤ DEFAULT_MAX_POOL_SIZE)%Z as Hd by (unfold DEFAULT_MAX_POOL_SIZE; lia).
  assert (Recycler.used DEFAULT_MAX_POOL_SIZE scenarioRecycler scenarioHandedOut) as Hused.
  { apply Recycler.used_getCell, Recycler.used_create. }
  destruct (cell_keys_identify_cells _ _ _ Hd Hused) as [_ Hfresh].
  intros Heq. apply (Hfresh "header" 1%Z ("default", "default-1")); [|by symmetry].
  left. vm_compute. set_solver.
Defined.

Section tracker_life.
Context {T : Type}.
Implicit Types (v : Viewability.t T).

Lemma indexEvents_entered_only (l : list (ViewToken T)) (i : Z) :
  filter (Viewability.isExited i) l = [] →
  isViewable <$> filter (λ tok, index tok = i) l =
    (λ _, true) <$> filter (Viewability.isEntered i) l.
Proof.
  induction l as [|tok l IH]; [done|]. rewrite !filter_cons.
  destruct (decide (Viewability.isExited i tok)) as [Hex|Hex]; [done|]. intros Hl.
  destruct (decide (index tok = i)) as [Hi|Hi],
           (decide (Viewability.isEntered i tok)) as [Hen|Hen];
    unfold Viewability.isExited, Viewability.isEntered in *.
  - simpl. rewrite (proj2 Hen). f_equal. by apply IH.
  - destruct (isViewable tok); naive_solver.
  - naive_solver.
  - by apply IH.
Qed.

Lemma indexEvents_exited_only (l : list (ViewToken T)) (i : Z) :
  filter (Viewability.isEntered i) l = [] →
  isViewable <$> filter (λ tok, index tok = i) l =
    (λ _, false) <$> filter (Viewability.isExited i) l.
Proof.
  induction l as [|tok l IH]; [done|]. rewrite !filter_cons.
  destruct (decide (Viewability.isEntered i tok)) as [Hen|Hen]; [done|]. intros Hl.
  destruct (decide (index tok = i)) as [Hi|Hi],
           (decide (Viewability.isExited i tok)) as [Hex|Hex];
    unfold Viewability.isExited, Viewability.isEntered in *.
  - simpl. rewrite (proj2 Hex). f_equal. by apply IH.
  - destruct (isViewable tok); naive_solver.
  - naive_solver.
  - by apply IH.
Qed.

Lemma indexEvents_split (res : option (Viewability.Notification T)) (i : Z) :
  Viewability.exitedIn res i = [] →
  indexEvents res i = (λ _, true) <$> Viewability.enteredIn res i.
Proof. destruct res as [n|]; [|done]. apply indexEvents_entered_only. Qed.

Lemma indexEvents_exited (res : option (Viewability.Notification T)) (i : Z) :
  Viewability.enteredIn res i = [] →
  indexEvents res i = (λ _, false) <$> Viewability.exitedIn res i.
Proof. destruct res as [n|]; [|done]. apply indexEvents_exited_only. Qed.

(** One pass moves the record of an index along
    unconfirmed - confirmed - retired, with "entered" for the first step
    and "exited" for the second, and emits nothing else for the index. *)
Lemma pass_phase v (now : Z) (i : Z) res v' :
  Viewability.computeViewability v now = Some (res, v') →
  (indexEvents res i = [] ∧
   phase (Viewability.trackedItems v' !! i) = phase (Viewability.trackedItems v !! i)) ∨
  (indexEvents res i = [true] ∧
   phase (Viewability.trackedItems v !! i) = Unconfirmed ∧
   phase (Viewability.trackedItems v' !! i) = Confirmed) ∨
  (indexEvents res i = [false] ∧
   phase (Viewability.trackedItems v !! i) = Confirmed ∧
   phase (Viewability.trackedItems v' !! i) = Retired).
Proof.
  intros Hpass.
  destruct (passEnabled v) eqn:Hen.
  2:{ unfold passEnabled in Hen. apply negb_false_iff in Hen.
      unfold Viewability.computeViewability in Hpass. rewrite Hen in Hpass.
      injection Hpass as <- <-. left. done. }
  destruct (pass_semantics v now i res v' Hen Hpass) as [_ Hsem].
  destruct (inView v i).
  - destruct Hsem as (Hafter & Hentered & Hexited).
    rewrite (indexEvents_split _ _ Hexited), Hentered, Hafter.
    unfold seen, promotable, freshRecord.
    destruct (Viewability.trackedItems v !! i) as [tr|]; simpl.
    + destruct (Viewability.isViewable tr) eqn:Hv; simpl; [by left|].
      destruct (Viewability.becameVisibleAt tr) eqn:Hs; simpl; [|by left].
      case_bool_decide; simpl; [right; left; done|left; done].
    + case_bool_decide; simpl; [right; left; done|left; done].
  - destruct Hsem as (Hafter & Hentered & Hexited).
    rewrite (indexEvents_exited _ _ Hentered), Hexited, Hafter.
    unfold afterLeave, exitTokens.
    destruct (Viewability.trackedItems v !! i) as [tr|]; simpl; [|by left].
    destruct (bool_decide (i ∈ Viewability.currentlyViewable v) && true &&
              Viewability.isViewable tr) eqn:Hleave.
    + apply andb_true_iff in Hleave as [_ Hv].
      rewrite (bool_decide_eq_false_2 (retire tr = tr)) by by apply retire_ne.
      right; right. simpl. by rewrite Hv.
    + rewrite (bool_decide_eq_true_2 (tr = tr)) by done. by left.
Qed.

Lemma passRun_events v log v' (i : Z) :
  passRun v log v' →
  concat ((λ res, indexEvents res i) <$> log) ∈
    eventsFrom (phase (Viewability.trackedItems v !! i)).
Proof.
  induction 1 as [v|v v1 now res v2 log v3 (_ & Htracked & _) Hpass _ IH].
  - simpl. destruct (phase _); simpl; rewrite !elem_of_cons; auto.
  - rewrite fmap_cons. simpl. rewrite <- Htracked.
    destruct (pass_phase v1 now i res v2 Hpass) as [[Hev Hab]|[(Hev & Hb & Ha)|(Hev & Hb & Ha)]];
      rewrite Hev.
    + by rewrite <- Hab.
    + rewrite Ha in IH. rewrite Hb. simpl in *.
      rewrite !elem_of_cons, elem_of_nil in *. destruct IH as [->|[->|[]]]; auto.
    + rewrite Ha in IH. rewrite Hb. simpl in *.
      rewrite !elem_of_cons, elem_of_nil in *. destruct IH as [->|[]]; auto.
Qed.

End tracker_life.

(** X18. Over any sequence of passes of a tracker that starts without a
    record for an index (as after creation or [setData]), the events
    emitted for the index are, in order, at most one "entered" followed
    by at most one "exited". *)
Theorem events_enter_then_exit_once {T} (v v' : Viewability.t T)
    (log : list (option (Viewability.Notification T))) (i : Z) :
  Viewability.trackedItems v !! i = None →
  passRun v log v' →
  let events := concat ((λ res, indexEvents res i) <$> log) in
  events = [] ∨ events = [true] ∨ events = [true; false].
Proof.
  intros Hnone Hrun events.
  pose proof (passRun_events v log v' i Hrun) as H. rewrite Hnone in H. simpl in H.
  fold events in H. rewrite !elem_of_cons, elem_of_nil in H.
  destruct H as [?|[?|[?|[]]]]; auto.
Qed.

Lemma events_enter_then_exit_once_witness :
  concat ((λ res, indexEvents res 0) <$> [scenarioPass1.1; scenarioPass2.1; scenarioPass3.1]) =
    [true].
Proof.
  assert (passRun scenarioTracker [scenarioPass1.1; scenarioPass2.1; scenarioPass3.1]
            scenarioPass3.2) as Hrun.
  { unfold scenarioPass3, scenarioPass2, scenarioPass1.
    do 3 (eapply passRun_pass; [apply sameTracking_refl|apply passAt_spec|]).
    apply passRun_done. }
  assert (Viewability.trackedItems scenarioTracker !! 0%Z = None) as Hnone by by vm_compute.
  destruct (events_enter_then_exit_once scenarioTracker _ _ 0 Hnone Hrun) as [H|[H|H]];
    [by vm_compute in H|exact H|by vm_compute in H].
Defined.

(** ** What a pass leaves behind *)

Section pass_results.
Context {T : Type}.
Implicit Types (v : Viewability.t T).

Lemma StronglySorted_seqZ (m : Z) (n : Z) : StronglySorted Z.lt (seqZ m n).
Proof.
  destruct (decide (n ≤ 0)%Z); [rewrite seqZ_nil by done; constructor|].
  replace n with (Z.of_nat (Z.to_nat n)) by lia.
  generalize (Z.to_nat n). clear. intros k. revert m.
  induction k as [|k IH]; intros m; [rewrite seqZ_nil by lia; constructor|].
  rewrite seqZ_cons by lia. replace (Z.pred (Z.of_nat (S k))) with (Z.of_nat k) by lia.
  constructor; [apply IH|].
  apply Forall_forall. intros x Hx%elem_of_seqZ. lia.
Qed.

Lemma StronglySorted_filter {A} (R : relation A) (P : A → Prop) `{∀ a, Decision (P a)}
    (l : list A) :
  StronglySorted R l → StronglySorted R (filter P l).
Proof.
  induction 1 as [|a l Hl IH Ha]; [constructor|].
  rewrite filter_cons. case_decide; [|done].
  constructor; [done|]. apply Forall_forall. intros x [_ Hx]%list_elem_of_filter.
  rewrite Forall_forall in Ha. by apply Ha.
Qed.

Lemma foldl_min_sorted (i : Z) (rest : list Z) :
  StronglySorted Z.lt (i :: rest) → foldl Z.min i rest = i.
Proof.
  intros Hs. apply StronglySorted_inv in Hs as [_ Hall].
  induction rest as [|j rest IH]; [done|]. simpl.
  apply Forall_cons in Hall as [Hj Hall]. rewrite Z.min_l by lia. by apply IH.
Qed.

Lemma last_cons_default {A} (d i : A) (rest : list A) :
  default d (last (i :: rest)) = default i (last rest).
Proof.
  destruct rest as [|k r]; [done|]. change (last (i :: k :: r)) with (last (k :: r)).
  destruct (last (k :: r)) eqn:Hlast; [done|]. by apply last_None in Hlast.
Qed.

Lemma foldl_max_sorted (i : Z) (rest : list Z) :
  StronglySorted Z.lt (i :: rest) → foldl Z.max i rest = default i (last rest).
Proof.
  revert i. induction rest as [|j rest IH]; intros i Hs; [done|]. simpl.
  apply StronglySorted_inv in Hs as [Hs Hall].
  apply Forall_cons in Hall as [Hj Hall]. rewrite Z.max_r by lia.
  rewrite IH by done. by rewrite last_cons_default.
Qed.

(** The indices that are viewable after a pass. *)
Lemma pass_visible v (now : Z) res v' :
  passEnabled v = true →
  Viewability.computeViewability v now = Some (res, v') →
  ∃ range positioner,
    Positioner.getVisibleRange (Viewability.layoutPositioner v)
      (Viewability.scrollOffset v) (Viewability.viewportSize v) 0 = (Some range, positioner) ∧
    Viewability.currentlyViewable v' =
      filter (λ i, passesTest v positioner i = true)
             (seqZ (Positioner.startIndex range)
                   (Positioner.endIndex range - Positioner.startIndex range + 1)).
Proof.
  unfold passEnabled, Viewability.computeViewability.
  intros Hgate%negb_true_iff. rewrite Hgate.
  pose proof (getVisibleRange_state (Viewability.layoutPositioner v)
                (Viewability.scrollOffset v) (Viewability.viewportSize v) 0) as Hstate.
  destruct (Positioner.getVisibleRange _ _ _ _) as [[range|] positioner]; [|done].
  simpl in Hstate. simpl.
  assert (Positioner.layoutsValid positioner = true) as Hvalid.
  { rewrite Hstate. apply ensureLayoutsComputed_valid. }
  set (l := seqZ (Positioner.startIndex range)
                 (Positioner.endIndex range - Positioner.startIndex range + 1)).
  set (ps0 := Viewability.mkPass positioner (Viewability.trackedItems v) [] []).
  destruct (visit_loop v now l ps0 Hvalid (NoDup_seqZ _ _)) as (_ & Hnew1 & _).
  set (ps1 := foldl (Viewability.visit v now) ps0 l) in *.
  destruct (leave_loop v (Viewability.currentlyViewable v) ps1) as (_ & Hnew2 & _).
  intros [= <- <-]. exists range, positioner. split; [done|]. simpl.
  by rewrite Hnew2, Hnew1.
Qed.

Lemma getVisibleRange_bounds (p : Positioner.t T) (so vs os : Qc) range :
  (Positioner.getVisibleRange p so vs os).1 = Some range →
  (0 ≤ Positioner.startIndex range)%Z ∧
  (Positioner.endIndex range ≤ lengthZ (Positioner.flattenedData p) - 1)%Z.
Proof.
  unfold Positioner.getVisibleRange.
  destruct (ensureLayoutsComputed_fields p) as (_ & Hd & _). rewrite Hd.
  case_bool_decide as Hn; simpl.
  - intros [= <-]. simpl. lia.
  - destruct (Positioner.binarySearchStart _ _) as [s|]; [|done].
    destruct (Positioner.binarySearchEnd _ _) as [e|]; [|done]. simpl.
    intros [= <-]. simpl. lia.
Qed.

End pass_results.

(** X19. After a pass that is not held back by [waitForInteraction], the
    visible indices are in increasing order and are valid indices of the
    positioner's items; an index is visible exactly when it was in view
    in the pass; and [getFirstVisibleIndex] and [getLastVisibleIndex] are
    the first and the last of the visible indices, or [-1] when there is
    none. *)
Theorem visible_indices_after_pass {T} (v v' : Viewability.t T) (now : Z)
    (res : option (Viewability.Notification T)) :
  passEnabled v = true →
  Viewability.computeViewability v now = Some (res, v') →
  let visible := Viewability.getVisibleIndices v' in
  StronglySorted Z.lt visible ∧
  (∀ i, i ∈ visible →
        (0 ≤ i < lengthZ (Positioner.flattenedData (Viewability.layoutPositioner v)))%Z) ∧
  (∀ i, Viewability.isIndexVisible v' i = inView v i) ∧
  Viewability.getFirstVisibleIndex v' = default (-1)%Z (head visible) ∧
  Viewability.getLastVisibleIndex v' = default (-1)%Z (last visible).
Proof.
  intros Hen Hpass visible.
  destruct (pass_visible v now res v' Hen Hpass) as (range & positioner & Hrange & Hvis).
  assert (StronglySorted Z.lt visible) as Hsorted.
  { unfold visible, Viewability.getVisibleIndices. rewrite Hvis.
    apply StronglySorted_filter, StronglySorted_seqZ. }
  split; [done|]. split; [|split; [|split]].
  - intros i. unfold visible, Viewability.getVisibleIndices. rewrite Hvis.
    intros [_ Hi%elem_of_seqZ]%list_elem_of_filter.
    destruct (getVisibleRange_bounds (Viewability.layoutPositioner v)
                (Viewability.scrollOffset v) (Viewability.viewportSize v) 0 range)
      as [Hs He]; [by rewrite Hrange|]. lia.
  - intros i. unfold Viewability.isIndexVisible.
    by destruct (pass_semantics v now i res v' Hen Hpass) as [-> _].
  - unfold Viewability.getFirstVisibleIndex. fold visible.
    unfold Viewability.getVisibleIndices in visible. fold visible in Hsorted |- *.
    destruct visible as [|i rest]; [done|]. simpl. by apply foldl_min_sorted.
  - unfold Viewability.getLastVisibleIndex. fold visible.
    unfold Viewability.getVisibleIndices in visible. fold visible in Hsorted |- *.
    destruct visible as [|i rest]; [done|].
    rewrite foldl_max_sorted by done. by rewrite last_cons_default.
Qed.

Lemma visible_indices_after_pass_witness :
  Viewability.getVisibleIndices scenarioPass1.2 = [0%Z; 1%Z] ∧
  Viewability.getFirstVisibleIndex scenarioPass1.2 =
    default (-1)%Z (head (Viewability.getVisibleIndices scenarioPass1.2)) ∧
  Viewability.getLastVisibleIndex scenarioPass1.2 =
    default (-1)%Z (last (Viewability.getVisibleIndices scenarioPass1.2)).
Proof.
  split; [vm_compute; reflexivity|].
  assert (passEnabled scenarioTracker = true) as Hen by reflexivity.
  unfold scenarioPass1.
  destruct (visible_indices_after_pass scenarioTracker _ 0 _ Hen (passAt_spec scenarioTracker 0))
    as (_ & _ & _ & Hfirst & Hlast).
  split; [exact Hfirst|exact Hlast].
Defined.

Section notification_facts.
Context {T : Type}.
Implicit Types (v : Viewability.t T).

Lemma pass_notification v (now : Z) n v' :
  Viewability.computeViewability v now = Some (Some n, v') →
  Viewability.changed n ≠ [] ∧
  Viewability.viewableItems n =
    (λ i, Viewability.createViewToken v' i true) <$>
      filter (λ i, confirmedIn v' i = true) (Viewability.currentlyViewable v').
Proof.
  unfold Viewability.computeViewability. destruct (_ && _); [done|].
  destruct (Positioner.getVisibleRange _ _ _ _) as [[range|] positioner]; [|done]. simpl.
  set (ps := foldl (Viewability.leave v) _ _).
  destruct (Viewability.p_changed ps) as [|tok toks] eqn:Hch; [done|].
  intros [= <- <-]. simpl. split; done.
Qed.

Lemma NoDup_fmap_count {A} (f : A → Z) (l : list A) :
  (∀ i, length (filter (λ a, f a = i) l) ≤ 1) → NoDup (f <$> l).
Proof.
  induction l as [|a l IH]; intros Hcount; [constructor|].
  rewrite fmap_cons. constructor.
  - intros (b & Hb & Hin)%list_elem_of_fmap.
    specialize (Hcount (f a)). rewrite filter_cons_True in Hcount by done.
    simpl in Hcount.
    assert (b ∈ filter (λ x, f x = f a) l) as Hb' by by apply list_elem_of_filter.
    destruct (filter _ l); [by apply elem_of_nil in Hb'|simpl in Hcount; lia].
  - apply IH. intros i. specialize (Hcount i). rewrite filter_cons in Hcount.
    case_decide; simpl in Hcount; lia.
Qed.

End notification_facts.

(** X20. A notification of a pass is consistent: it has at least one change
    and at most one change per index; [viewableItems] holds the tokens of
    the indices that are visible and confirmed after the pass; and every
    change is the token of its index with the state that [viewableItems]
    shows: "entered" for an index that is among the viewable items,
    "exited" for one that is not. *)
Theorem notification_is_consistent {T} (v v' : Viewability.t T) (now : Z)
    (n : Viewability.Notification T) :
  Viewability.computeViewability v now = Some (Some n, v') →
  Viewability.changed n ≠ [] ∧
  NoDup (index <$> Viewability.changed n) ∧
  Viewability.viewableItems n =
    (λ i, Viewability.createViewToken v' i true) <$>
      filter (λ i, confirmedIn v' i = true) (Viewability.getVisibleIndices v') ∧
  (∀ tok, tok ∈ Viewability.changed n →
     tok = Viewability.createViewToken v (index tok) (isViewable tok) ∧
     (isViewable tok = true ↔ index tok ∈ index <$> Viewability.viewableItems n)).
Proof.
  intros Hpass.
  assert (passEnabled v = true) as Hen.
  { unfold passEnabled. unfold Viewability.computeViewability in Hpass.
    by destruct (_ && _). }
  destruct (pass_notification v now n v' Hpass) as [Hne Hviewable].
  split; [done|]. split; [|split; [done|]].
  - apply NoDup_fmap_count. intros i.
    destruct (pass_phase v now i (Some n) v' Hpass) as [[Hev _]|[(Hev & _)|(Hev & _)]];
      simpl in Hev; apply (f_equal length) in Hev; rewrite length_fmap in Hev;
      simpl in Hev; lia.
  - intros tok Htok.
    assert (index <$> Viewability.viewableItems n =
            filter (λ i, confirmedIn v' i = true) (Viewability.currentlyViewable v')) as Hidx.
    { rewrite Hviewable, <- list_fmap_compose. apply list_fmap_id. }
    rewrite Hidx, list_elem_of_filter.
    destruct (pass_semantics v now (index tok) (Some n) v' Hen Hpass) as [Hvis Hsem].
    destruct (isViewable tok) eqn:Hv.
    + assert (tok ∈ Viewability.enteredIn (Some n) (index tok)) as Hin.
      { simpl. apply list_elem_of_filter. by split. }
      destruct (inView v (index tok)).
      * destruct Hsem as (Hafter & Hentered & _). rewrite Hentered in Hin.
        destruct (promotable _ _ _) eqn:Hprom; [|by apply elem_of_nil in Hin].
        apply list_elem_of_singleton in Hin. split; [done|]. split; [intros _|done].
        split; [|by apply bool_decide_eq_true_1 in Hvis].
        unfold confirmedIn. rewrite Hafter. simpl. rewrite Hprom. apply orb_true_r.
      * destruct Hsem as (_ & Hentered & _). rewrite Hentered in Hin.
        by apply elem_of_nil in Hin.
    + assert (tok ∈ Viewability.exitedIn (Some n) (index tok)) as Hin.
      { simpl. apply list_elem_of_filter. by split. }
      destruct (inView v (index tok)).
      * destruct Hsem as (_ & _ & Hexited). rewrite Hexited in Hin.
        by apply elem_of_nil in Hin.
      * destruct Hsem as (Hafter & _ & Hexited). rewrite Hexited in Hin.
        apply bool_decide_eq_false_1 in Hvis.
        split; [|split; [done|by intros [_ ?]]].
        unfold exitTokens in Hin.
        destruct (Viewability.trackedItems v' !! index tok) as [tr'|];
          [|by apply elem_of_nil in Hin].
        destruct (Viewability.trackedItems v !! index tok) as [tr|];
          [|by apply elem_of_nil in Hin].
        case_bool_decide; [by apply elem_of_nil in Hin|].
        by apply list_elem_of_singleton in Hin.
Qed.

Lemma notification_is_consistent_witness :
  ∃ n, scenarioPass3.1 = Some n ∧
       index <$> Viewability.changed n = [0%Z; 1%Z] ∧
       NoDup (index <$> Viewability.changed n).
Proof.
  destruct scenarioPass3.1 as [n|] eqn:Hn; [|by vm_compute in Hn].
  exists n. split; [done|]. split; [by vm_compute in Hn; injection Hn as <-|].
  assert (Viewability.computeViewability scenarioPass2.2 300 = Some (Some n, scenarioPass3.2))
    as Hpass.
  { rewrite <- Hn. unfold scenarioPass3. apply passAt_spec. }
  exact (proj1 (proj2 (notification_is_consistent _ _ _ _ Hpass))).
Defined.

(** Linear arithmetic on [Qc], through [Q]. *)
Ltac qc_lra :=
  repeat match goal with
  | H : @eq Qc ?a ?b |- _ =>
      assert (this a == this b)%Q by (rewrite H; reflexivity); clear H
  end;
  try apply Qc_is_canon;
  unfold Qcle, Qclt, Qcminus, Qcplus, Qcopp, Q2Qc in *; cbn [this] in *;
  rewrite ?Qred_correct in *; lra.

Section sticky_header.
Import StickyHeader.

(** The loop stops at the first section whose header starts after the
    scroll offset: it returns the last section of the leading run of
    started headers, together with the section after it. *)
Lemma findSticky_spec (layouts : list SectionLayoutInfo.t) (scroll : Qc) (h : bool)
    (fuel : nat) (i : Z) cur nxt :
  (0 ≤ i ≤ lengthZ layouts)%Z → (lengthZ layouts ≤ i + Z.of_nat fuel)%Z →
  (∀ j s, (0 ≤ j < i)%Z → lookupZ layouts j = Some s → (headerStartOf h s ≤ scroll)%Qc) →
  (if bool_decide (i = 0)%Z then cur = None
   else cur = lookupZ layouts (i - 1) ∧ nxt = lookupZ layouts i) →
  ∃ k : Z,
    (0 ≤ k ≤ lengthZ layouts)%Z ∧
    (∀ j s, (0 ≤ j < k)%Z → lookupZ layouts j = Some s → (headerStartOf h s ≤ scroll)%Qc) ∧
    (∀ s, lookupZ layouts k = Some s → (scroll < headerStartOf h s)%Qc) ∧
    (findSticky layouts scroll h fuel i cur nxt).1 =
      (if bool_decide (k = 0)%Z then None else lookupZ layouts (k - 1)) ∧
    (k ≠ 0%Z → (findSticky layouts scroll h fuel i cur nxt).2 = lookupZ layouts k).
Proof.
  revert i cur nxt. induction fuel as [|fuel IH]; intros i cur nxt Hi Hfuel Hrun Hinv.
  - exists i. simpl. split; [done|]. split; [done|].
    split; [intros s Hs%lookupZ_Some; lia|].
    destruct (decide (i = 0)%Z) as [Hi0|Hi0].
    { rewrite (bool_decide_eq_true_2 _ Hi0) in *. done. }
    rewrite (bool_decide_eq_false_2 _ Hi0) in *. by destruct Hinv as [-> ->].
  - simpl. destruct (lookupZ layouts i) as [sec|] eqn:Hsec.
    + fold (headerStartOf h sec).
      destruct (decide (headerStartOf h sec ≤ scroll)%Qc) as [Hle|Hle];
        [rewrite (bool_decide_eq_true_2 _ Hle)|rewrite (bool_decide_eq_false_2 _ Hle)].
      * pose proof (lookupZ_Some _ _ _ Hsec) as Hlt.
        apply IH; [lia|lia| |].
        -- intros j s Hj Hs. destruct (decide (j = i)) as [->|]; [|apply (Hrun j); [lia|done]].
           rewrite Hsec in Hs. by injection Hs as <-.
        -- rewrite bool_decide_eq_false_2 by lia.
           replace (i + 1 - 1)%Z with i by lia. done.
      * exists i. split; [done|]. split; [done|].
        split.
        { intros s Hs. rewrite Hsec in Hs. injection Hs as <-. by apply Qcnot_le_lt. }
        simpl. destruct (decide (i = 0)%Z) as [Hi0|Hi0].
        { rewrite (bool_decide_eq_true_2 _ Hi0) in *. done. }
        rewrite (bool_decide_eq_false_2 _ Hi0) in *. destruct Hinv as [-> ->].
        by rewrite Hsec.
    + exists i. split; [done|]. split; [done|]. split; [intros s Hs; congruence|].
      simpl. destruct (decide (i = 0)%Z) as [Hi0|Hi0].
      { rewrite (bool_decide_eq_true_2 _ Hi0) in *. done. }
      rewrite (bool_decide_eq_false_2 _ Hi0) in *. destruct Hinv as [-> ->].
      by rewrite Hsec.
Qed.

Lemma findStickyVertical_findSticky layouts scroll fuel i cur nxt :
  findStickyVertical layouts scroll fuel i cur nxt = findSticky layouts scroll false fuel i cur nxt.
Proof.
  revert i cur nxt. induction fuel as [|fuel IH]; intros i cur nxt; [done|].
  simpl. destruct (lookupZ layouts i); [|done]. case_bool_decide; [apply IH|done].
Qed.

Lemma useStickyHeader_disabled (o : Options) :
  default true (enabled o) = false → useStickyHeader o = notSticky.
Proof. unfold useStickyHeader. by intros ->. Qed.

(** The result of [useStickyHeader] in terms of the loop's stopping
    index [k]. *)
Lemma useStickyHeader_spec (o : Options) :
  default true (enabled o) = true →
  let h := default false (horizontal o) in
  let layouts := sectionLayouts o in
  let scroll := scrollOffset o in
  ∃ k : Z,
    (0 ≤ k ≤ lengthZ layouts)%Z ∧
    (∀ j s, (0 ≤ j < k)%Z → lookupZ layouts j = Some s → (headerStartOf h s ≤ scroll)%Qc) ∧
    (∀ s, lookupZ layouts k = Some s → (scroll < headerStartOf h s)%Qc) ∧
    useStickyHeader o =
      match lookupZ layouts (k - 1) with
      | None => notSticky
      | Some cur =>
          mkState (Some (SectionLayoutInfo.sectionKey cur)) (SectionLayoutInfo.sectionIndex cur)
            match lookupZ layouts k with
            | None => 0%Qc
            | Some nxt =>
                if bool_decide (headerStartOf h nxt - headerSizeOf h cur < scroll)%Qc
                then (headerStartOf h nxt - headerSizeOf h cur - scroll)%Qc else 0%Qc
            end
            true (Some (SectionLayoutInfo.headerLayout cur))
      end.
Proof.
  intros He h layouts scroll.
  destruct (findSticky_spec layouts scroll h (length layouts) 0 None None)
    as (k & Hk & Hrun & Hstop & Hcur & Hnxt); [unfold lengthZ; lia|unfold lengthZ; lia| |done|].
  { intros j s Hj. lia. }
  exists k. split; [done|]. split; [done|]. split; [done|].
  unfold useStickyHeader. rewrite He. fold h layouts scroll. simpl negb. simpl orb.
  destruct (decide (k = 0%Z)) as [->|Hk0].
  - rewrite bool_decide_eq_true_2 in Hcur by done.
    replace (lookupZ layouts (0 - 1)) with (@None SectionLayoutInfo.t) by done.
    case_bool_decide; [done|].
    destruct (findSticky layouts scroll h (length layouts) 0 None None) as [c n].
    simpl in Hcur. by subst c.
  - specialize (Hnxt Hk0). rewrite bool_decide_eq_false_2 in Hcur by done.
    rewrite bool_decide_eq_false_2 by lia.
    destruct (findSticky layouts scroll h (length layouts) 0 None None) as [c n].
    simpl in Hcur, Hnxt. subst c n.
    destruct (lookupZ layouts (k - 1)) as [cur|]; [|done].
    destruct (lookupZ layouts k) as [nxt|]; done.
Qed.

End sticky_header.

(** X21. The sticky header is the header of the last section of the leading
    run of sections whose header starts at or before the scroll offset
    (no header is sticky when the run is empty or the hook is disabled).
    It is never moved down, and it is moved up just enough that it ends
    where the header of the next section starts. *)
Theorem useStickyHeader_pins_and_pushes (o : StickyHeader.Options) :
  let h := default false (StickyHeader.horizontal o) in
  let layouts := StickyHeader.sectionLayouts o in
  let scroll := StickyHeader.scrollOffset o in
  let st := StickyHeader.useStickyHeader o in
  if default true (StickyHeader.enabled o) then
    ∃ k : Z,
      (0 ≤ k ≤ lengthZ layouts)%Z ∧
      (∀ j s, (0 ≤ j < k)%Z → lookupZ layouts j = Some s → (headerStartOf h s ≤ scroll)%Qc) ∧
      (∀ s, lookupZ layouts k = Some s → (scroll < headerStartOf h s)%Qc) ∧
      match lookupZ layouts (k - 1) with
      | None => k = 0%Z ∧ st = StickyHeader.notSticky
      | Some cur =>
          StickyHeader.isSticky st = true ∧
          StickyHeader.sectionKey st = Some (SectionLayoutInfo.sectionKey cur) ∧
          StickyHeader.sectionIndex st = SectionLayoutInfo.sectionIndex cur ∧
          StickyHeader.headerLayout st = Some (SectionLayoutInfo.headerLayout cur) ∧
          (StickyHeader.translateY st ≤ 0)%Qc ∧
          match lookupZ layouts k with
          | None => k = lengthZ layouts ∧ StickyHeader.translateY st = 0%Qc
          | Some nxt =>
              let bottom := (scroll + StickyHeader.translateY st + headerSizeOf h cur)%Qc in
              (bottom ≤ headerStartOf h nxt)%Qc ∧
              (StickyHeader.translateY st = 0%Qc ∨ bottom = headerStartOf h nxt)
          end
      end
  else st = StickyHeader.notSticky.
Proof.
  intros h layouts scroll st.
  destruct (default true (StickyHeader.enabled o)) eqn:He;
    [|by apply useStickyHeader_disabled].
  destruct (useStickyHeader_spec o He) as (k & Hk & Hrun & Hstop & Hst).
  fold h layouts scroll st in Hk, Hrun, Hstop, Hst.
  exists k. split; [done|]. split; [done|]. split; [done|].
  destruct (lookupZ layouts (k - 1)) as [cur|] eqn:Hcur.
  - rewrite Hst. simpl. do 4 (split; [done|]).
    destruct (lookupZ layouts k) as [nxt|] eqn:Hnxt.
    + destruct (decide (headerStartOf h nxt - headerSizeOf h cur < scroll)%Qc) as [Hlt|Hge].
      * rewrite (bool_decide_eq_true_2 _ Hlt). split; [qc_lra|]. split; [|right; ring].
        apply Qcle_refl || qc_lra.
      * rewrite (bool_decide_eq_false_2 _ Hge). split; [apply Qcle_refl|].
        split; [qc_lra|by left].
    + split; [apply Qcle_refl|]. split; [|done].
      destruct (decide (k < lengthZ layouts)%Z) as [Hlt|]; [|lia].
      unfold lookupZ in Hnxt. rewrite bool_decide_eq_true_2 in Hnxt by lia.
      apply lookup_ge_None in Hnxt. unfold lengthZ in Hlt. lia.
  - split; [|done]. destruct (decide (k = 0%Z)) as [|Hk0]; [done|].
    unfold lookupZ in Hcur. rewrite bool_decide_eq_true_2 in Hcur by lia.
    apply lookup_ge_None in Hcur. unfold lengthZ in Hk. lia.
Qed.

(** X22. [useMultipleStickyHeaders] is the vertical, enabled [useStickyHeader]:
    it returns the state that [useStickyHeader] computes for the same
    section layouts and scroll offset when that state is sticky, and no
    state otherwise; [levels] and the viewport height play no part. *)
Theorem useMultipleStickyHeaders_single (o : StickyHeader.Options) (levels : Z) :
  default false (StickyHeader.horizontal o) = false →
  default true (StickyHeader.enabled o) = true →
  StickyHeader.useMultipleStickyHeaders
      (StickyHeader.sectionLayouts o) (StickyHeader.scrollOffset o) levels =
    if StickyHeader.isSticky (StickyHeader.useStickyHeader o)
    then [StickyHeader.useStickyHeader o] else [].
Proof.
  intros Hh He.
  unfold StickyHeader.useMultipleStickyHeaders, StickyHeader.useStickyHeader.
  rewrite Hh, He, findStickyVertical_findSticky. simpl negb. simpl orb.
  case_bool_decide; [done|].
  destruct (StickyHeader.findSticky _ _ _ _ _ _ _) as [[cur|] nxt]; done.
Qed.

Lemma useMultipleStickyHeaders_single_witness :
  StickyHeader.useMultipleStickyHeaders
      (StickyHeader.sectionLayouts stickyScenario) (StickyHeader.scrollOffset stickyScenario) 1 =
    [StickyHeader.useStickyHeader stickyScenario] ∧
  StickyHeader.translateY (StickyHeader.useStickyHeader stickyScenario) = Qc_of_Z (-20).
Proof.
  split; [|by apply Qc_is_canon].
  exact (useMultipleStickyHeaders_single stickyScenario 1 eq_refl eq_refl).
Defined.

Lemma measureAll_snoc totalItems batchSize st indices index :
  measureAll totalItems batchSize st (indices ++ [index]) =
    let '(st1, reported) := measureAll totalItems batchSize st indices in
    let '(st2, call) := ProgressiveRender.onItemMeasured totalItems batchSize st1 index in
    (st2, reported ++ from_option (λ c, [c]) [] call).
Proof.
  unfold measureAll. rewrite foldl_app. simpl.
  by destruct (foldl _ _ indices) as [st1 reported].
Qed.

Lemma StronglySorted_snoc_lt (l : list Z) (c : Z) :
  StronglySorted Z.lt l → (∀ a, a ∈ l → (a < c)%Z) → StronglySorted Z.lt (l ++ [c]).
Proof.
  induction 1 as [|a l Hl IH Ha]; intros Hc; simpl.
  - repeat constructor.
  - constructor.
    + apply IH. intros b Hb. apply Hc. by right.
    + apply Forall_app. split; [done|]. constructor; [|constructor]. apply Hc. by left.
Qed.

Lemma sorted_snoc_below (l : list Z) (c a : Z) :
  StronglySorted Z.lt (l ++ [c]) → a ∈ l → (a < c)%Z.
Proof.
  induction l as [|b l IH]; simpl; [by intros _ ?%elem_of_nil|].
  intros Hs [->|Ha]%elem_of_cons.
  - apply StronglySorted_inv in Hs as [_ Hall]. apply Forall_app in Hall as [_ Hc].
    by apply Forall_inv in Hc.
  - apply IH; [|done]. by apply StronglySorted_inv in Hs as [? _].
Qed.

Lemma sorted_le_last (l : list Z) (d a : Z) :
  StronglySorted Z.lt l → a ∈ l → (a ≤ List.last l d)%Z.
Proof.
  destruct l as [|c l _] using rev_ind; [by intros _ ?%elem_of_nil|].
  rewrite last_last. intros Hs [Ha| ->%list_elem_of_singleton]%elem_of_app; [|done].
  apply Z.lt_le_incl. by apply (sorted_snoc_below l).
Qed.

(** X23. With a batch size of at least 1 and an initial count that is not
    negative, the render window only grows and never passes the number
    of items: after any sequence of measurement reports [renderCount] is
    at most [totalItems] and at least the smaller of [totalItems] and the
    number of reports, so it is [totalItems] once [totalItems] reports
    have arrived; the counts passed to [onRenderCountChange] are strictly
    increasing, and the last of them is the current [renderCount]. *)
Theorem useProgressiveRender_grows_to_total (totalItems initialCount batchSize : Z)
    (indices : list Z) :
  (0 ≤ initialCount)%Z → (1 ≤ batchSize)%Z →
  let '(st, reported) :=
    measureAll totalItems batchSize (ProgressiveRender.create totalItems initialCount) indices in
  let n := lengthZ indices in
  ProgressiveRender.measuredCount st = n ∧
  (ProgressiveRender.renderCount st ≤ totalItems)%Z ∧
  (Z.min totalItems n ≤ ProgressiveRender.renderCount st)%Z ∧
  ((totalItems ≤ n)%Z → ProgressiveRender.renderCount st = totalItems) ∧
  StronglySorted Z.lt reported ∧
  (∀ c, c ∈ reported → (Z.min initialCount totalItems < c ≤ totalItems)%Z) ∧
  ProgressiveRender.renderCount st = List.last reported (Z.min initialCount totalItems).
Proof.
  intros Hinit Hbatch.
  induction indices as [|index indices IH] using rev_ind.
  - simpl. unfold lengthZ. simpl. split; [done|]. split; [lia|]. split; [lia|].
    split; [lia|]. split; [constructor|]. split; [|done]. by intros c ?%elem_of_nil.
  - rewrite measureAll_snoc.
    destruct (measureAll totalItems batchSize _ indices) as [st1 reported].
    destruct IH as (Hm & Hle & Hge & _ & Hsorted & Hrange & Hlast).
    unfold ProgressiveRender.onItemMeasured.
    assert (lengthZ (indices ++ [index]) = lengthZ indices + 1)%Z as ->.
    { unfold lengthZ. rewrite length_app. simpl. lia. }
    assert (∀ a, a ∈ reported → (a ≤ ProgressiveRender.renderCount st1)%Z) as Hmax.
    { intros a Ha. rewrite Hlast. by apply sorted_le_last. }
    assert (Z.min initialCount totalItems ≤ ProgressiveRender.renderCount st1)%Z as Hfloor.
    { rewrite Hlast. destruct reported as [|a l] using rev_ind; [simpl; lia|].
      rewrite last_last. apply Z.lt_le_incl, Hrange. apply elem_of_app. right. by left. }
    destruct (decide (ProgressiveRender.renderCount st1 ≤ ProgressiveRender.measuredCount st1 + 1)%Z)
      as [Hdue|Hdue];
      [rewrite (bool_decide_eq_true_2 _ Hdue)|rewrite (bool_decide_eq_false_2 _ Hdue)];
      simpl andb.
    + destruct (decide (ProgressiveRender.renderCount st1 < totalItems)%Z) as [Hroom|Hroom];
        [rewrite (bool_decide_eq_true_2 _ Hroom)|rewrite (bool_decide_eq_false_2 _ Hroom)];
        simpl.
      * split; [lia|]. split; [lia|]. split; [lia|]. split; [lia|].
        split; [apply StronglySorted_snoc_lt; [done|]; intros a Ha%Hmax; lia|].
        split; [|by rewrite last_last].
        intros c [Hc| ->%list_elem_of_singleton]%elem_of_app; [by apply Hrange|]. lia.
      * rewrite app_nil_r. split; [lia|]. split; [lia|]. split; [lia|]. split; [lia|].
        done.
    + simpl. rewrite app_nil_r. split; [lia|]. split; [lia|]. split; [lia|]. split; [lia|].
      done.
Qed.

Lemma useProgressiveRender_grows_to_total_witness :
  (0 ≤ 2)%Z ∧ (1 ≤ 3)%Z ∧
  ProgressiveRender.renderCount
    (measureAll 7 3 (ProgressiveRender.create 7 2) [0; 1; 2; 3; 4; 5; 6]%Z).1 = 7%Z.
Proof.
  assert (0 ≤ 2)%Z as H0 by lia. assert (1 ≤ 3)%Z as H1 by lia.
  split; [exact H0|]. split; [exact H1|].
  pose proof (useProgressiveRender_grows_to_total 7 2 3 [0; 1; 2; 3; 4; 5; 6]%Z H0 H1) as H.
  destruct (measureAll 7 3 (ProgressiveRender.create 7 2) [0; 1; 2; 3; 4; 5; 6]%Z)
    as [st reported].
  destruct H as (_ & _ & _ & Hall & _). apply Hall. unfold lengthZ. simpl. lia.
Defined.

Section scroll_handler.
Import ScrollHandler.
Variable options : Options.

Lemma calculateVelocity_endReachedCalled st now o :
  endReachedCalled (calculateVelocity st now o).2 = endReachedCalled st.
Proof. unfold calculateVelocity. by case_bool_decide. Qed.

(** What [updateScrollState] does with the flag and the callback depends
    on the event and the flag only. *)
Lemma updateScrollState_endReached st now e b :
  updateScrollState options st now e b =
    ((if onEndReached options && nearEnd options e && negb (endReachedCalled st)
      then Some (distanceFromEndOf options e) else None),
     (updateScrollState options st now e b).2) ∧
  endReachedCalled (updateScrollState options st now e b).2 =
    if onEndReached options then nearEnd options e else endReachedCalled st.
Proof.
  unfold updateScrollState.
  pose proof (calculateVelocity_endReachedCalled st now
    (if default false (horizontal options) then contentOffset_x e else contentOffset_y e)) as Hc.
  destruct (calculateVelocity st now _) as [v st1]. simpl in Hc.
  unfold checkEndReached, nearEnd, distanceFromEndOf. simpl.
  destruct (onEndReached options); simpl; [|done].
  rewrite Hc.
  destruct (default false (horizontal options)); simpl.
  - destruct (decide (contentSize_width e - contentOffset_x e - layoutMeasurement_width e ≤
        layoutMeasurement_width e * default (Q2Qc (1 # 2)) (onEndReachedThreshold options))%Qc)
      as [Hle|Hgt].
    + rewrite !(bool_decide_eq_true_2 _ Hle). simpl.
      destruct (endReachedCalled st) eqn:Hflag; simpl; [|done].
      rewrite bool_decide_eq_false_2 by by apply Qcle_not_lt. done.
    + rewrite !(bool_decide_eq_false_2 _ Hgt). simpl.
      rewrite bool_decide_eq_true_2 by by apply Qcnot_le_lt. done.
  - destruct (decide (contentSize_height e - contentOffset_y e - layoutMeasurement_height e ≤
        layoutMeasurement_height e * default (Q2Qc (1 # 2)) (onEndReachedThreshold options))%Qc)
      as [Hle|Hgt].
    + rewrite !(bool_decide_eq_true_2 _ Hle). simpl.
      destruct (endReachedCalled st) eqn:Hflag; simpl; [|done].
      rewrite bool_decide_eq_false_2 by by apply Qcle_not_lt. done.
    + rewrite !(bool_decide_eq_false_2 _ Hgt). simpl.
      rewrite bool_decide_eq_true_2 by by apply Qcnot_le_lt. done.
Qed.

Lemma handle_endReached st c :
  (handle options st c).1 =
    match nativeEvent c with
    | Some e =>
        if onEndReached options && nearEnd options e && negb (endReachedCalled st)
        then Some (distanceFromEndOf options e) else None
    | None => None
    end ∧
  endReachedCalled (handle options st c).2 =
    match nativeEvent c with
    | Some e => if onEndReached options then nearEnd options e else endReachedCalled st
    | None => endReachedCalled st
    end.
Proof.
  destruct c as [now e|now e|now e|now e|now e|w h]; simpl;
    unfold onScroll, onScrollBeginDrag, onScrollEndDrag, onMomentumScrollBegin,
      onMomentumScrollEnd;
    try (match goal with
         | |- context [updateScrollState options ?s ?n ?ev ?b] =>
             destruct (updateScrollState_endReached s n ev b) as [H1 H2];
             rewrite H2; rewrite H1 at 1; done
         end).
  done.
Qed.

Lemma lastNativeEvent_snoc calls c :
  lastNativeEvent (calls ++ [c]) =
    match nativeEvent c with Some e => Some e | None => lastNativeEvent calls end.
Proof.
  unfold lastNativeEvent. rewrite fmap_app, filter_app. simpl.
  destruct (nativeEvent c) as [e|] eqn:He.
  - rewrite filter_cons_True by done. rewrite filter_nil. by rewrite last_last.
  - rewrite filter_cons_False by (by intros [? ?]). rewrite filter_nil. by rewrite app_nil_r.
Qed.

(** The flag records whether the latest scroll event was near the end. *)
Lemma handleAll_endReachedCalled now0 calls :
  onEndReached options = true →
  endReachedCalled (handleAll options (create now0) calls) =
    from_option (nearEnd options) false (lastNativeEvent calls).
Proof.
  intros Hon. induction calls as [|c calls IH] using rev_ind; [done|].
  unfold handleAll. rewrite foldl_app. simpl. fold (handleAll options (create now0) calls).
  destruct (handle_endReached (handleAll options (create now0) calls) c) as [_ ->].
  rewrite lastNativeEvent_snoc, Hon. by destruct (nativeEvent c).
Qed.

End scroll_handler.

(** X24. [onEndReached] is edge-triggered.  After any sequence of handler
    calls, a handler call invokes [onEndReached] exactly when it carries
    a scroll event that is within the threshold of the end while the
    scroll event before it (if there was one) was not; it passes the
    distance from the end that the event reports.  Calls of
    [onContentSizeChange] neither invoke it nor re-arm it. *)
Theorem onEndReached_edge_triggered (options : ScrollHandler.Options) (now0 : Z)
    (calls : list HandlerCall) (c : HandlerCall) :
  ScrollHandler.onEndReached options = true →
  (handle options (handleAll options (ScrollHandler.create now0) calls) c).1 =
    match nativeEvent c with
    | None => None
    | Some e =>
        if nearEnd options e &&
           negb (from_option (nearEnd options) false (lastNativeEvent calls))
        then Some (distanceFromEndOf options e) else None
    end.
Proof.
  intros Hon.
  destruct (handle_endReached options (handleAll options (ScrollHandler.create now0) calls) c)
    as [-> _].
  rewrite handleAll_endReachedCalled by done. rewrite Hon. done.
Qed.

Lemma onEndReached_edge_triggered_witness :
  ScrollHandler.onEndReached scrollOptions = true ∧
  (handle scrollOptions
     (handleAll scrollOptions (ScrollHandler.create 0) [Scroll 16 (scrollEventAt 0)])
     (Scroll 32 (scrollEventAt 500))).1 = Some (Qc_of_Z 100) ∧
  (handle scrollOptions
     (handleAll scrollOptions (ScrollHandler.create 0)
        [Scroll 16 (scrollEventAt 0); Scroll 32 (scrollEventAt 500)])
     (Scroll 48 (scrollEventAt 600))).1 = None.
Proof.
  split; [reflexivity|]. split.
  - etrans; [exact (onEndReached_edge_triggered scrollOptions 0
                      [Scroll 16 (scrollEventAt 0)] (Scroll 32 (scrollEventAt 500)) eq_refl)|].
    simpl. f_equal. by apply Qc_is_canon.
  - exact (onEndReached_edge_triggered scrollOptions 0
             [Scroll 16 (scrollEventAt 0); Scroll 32 (scrollEventAt 500)]
             (Scroll 48 (scrollEventAt 600)) eq_refl).
Defined.

Ltac red_boundary :=
  cbn [Manager.headerFlatIndex Manager.footerFlatIndex Manager.firstItemFlatIndex
       Manager.lastItemFlatIndex Manager.sectionIndex Manager.itemCount negb andb].

Section section_layout_facts.
Context {T : Type}.
Implicit Types (m : Manager.t T) (sec : Section T) (p : Positioner.t T).

Lemma ensureLayoutsComputed_idem p :
  consistent p →
  Positioner.ensureLayoutsComputed (Positioner.ensureLayoutsComputed p) =
    Positioner.ensureLayoutsComputed p.
Proof.
  intros Hp. destruct (ensureLayoutsComputed_computed p Hp) as [Hv _].
  unfold Positioner.ensureLayoutsComputed at 1. by rewrite Hv.
Qed.

Lemma positionerCall_fields p p' :
  Manager.positionerCall p p' →
  Positioner.flattenedData p' = Positioner.flattenedData p ∧
  Positioner.horizontal p' = Positioner.horizontal p.
Proof.
  destruct 1 as [w h|i l|i| |i| |s v o|o].
  - unfold Positioner.setContainerSize. by destruct (_ || _).
  - unfold Positioner.updateItemLayout. by destruct (lookupZ _ _).
  - done.
  - done.
  - simpl. by destruct (ensureLayoutsComputed_fields p) as (-> & -> & _).
  - simpl. by destruct (ensureLayoutsComputed_fields p) as (-> & -> & _).
  - rewrite getVisibleRange_state. by destruct (ensureLayoutsComputed_fields p) as (-> & -> & _).
  - rewrite getIndexForOffset_state. by destruct (ensureLayoutsComputed_fields p) as (-> & -> & _).
Qed.

Lemma positionerCall_reachable p p' :
  Manager.positionerCall p p' → Positioner.reachable p → Positioner.reachable p'.
Proof. destruct 1; intros Hp; by constructor. Qed.

Lemma withPositioner_same m : Manager.withPositioner m (Manager.layoutPositioner m) = m.
Proof. by destruct m. Qed.

(** The keys that a rebuild records are the keys of the sections. *)
Lemma buildLoop_boundaries_dom c f si (rest : list (Section T)) b (k : string) :
  is_Some (Manager.b_sectionBoundaries (Manager.buildLoop c f si rest b) !! k) ↔
  k ∈ key <$> rest ∨ is_Some (Manager.b_sectionBoundaries b !! k).
Proof.
  revert si b. induction rest as [|sec rest IH]; intros si b; simpl.
  - split; [by right|]. intros [?%elem_of_nil|?]; done.
  - rewrite IH, pushSection_boundaries, elem_of_cons.
    destruct (decide (k = key sec)) as [->|Hne].
    + rewrite lookup_insert_eq. split; [by left; left|]. intros _. by right.
    + rewrite lookup_insert_ne by done. split; [intros [?|?]; auto|].
      intros [[?|?]|?]; [done|by left|by right].
Qed.

Lemma sizeOfGroups_app c f (l1 l2 : list (Section T)) :
  sizeOfGroups c f (l1 ++ l2) = (sizeOfGroups c f l1 + sizeOfGroups c f l2)%Z.
Proof. induction l1 as [|sec l1 IH]; simpl; [done|]. rewrite IH. lia. Qed.

Lemma headerPosition_succ c f (sections : list (Section T)) (si : Z) sec :
  lookupZ sections si = Some sec →
  headerPosition c f sections (si + 1) =
    (headerPosition c f sections si + groupSize c f sec)%Z.
Proof.
  intros Hsec. pose proof (lookupZ_Some _ _ _ Hsec) as Hsi.
  unfold lookupZ in Hsec. rewrite bool_decide_eq_true_2 in Hsec by lia.
  unfold headerPosition. replace (Z.to_nat (si + 1)) with (S (Z.to_nat si)) by lia.
  rewrite (take_S_r _ _ _ Hsec), sizeOfGroups_app. simpl. lia.
Qed.

Lemma groupSize_shown m sec :
  groupSize (Manager.collapsedSections m) (Manager.hasSectionFooters m) sec =
    (1 + shownItems m sec +
     if bool_decide (key sec ∈ Manager.collapsedSections m) then 0
     else if Manager.hasSectionFooters m then 1 else 0)%Z.
Proof. unfold groupSize, shownItems. case_bool_decide; lia. Qed.

(** The entries of a section lie within the flat data. *)
Lemma inSync_group m (si : Z) sec :
  inSync m → NoDup (key <$> Manager.sections m) → lookupZ (Manager.sections m) si = Some sec →
  let c := Manager.collapsedSections m in
  let f := Manager.hasSectionFooters m in
  Manager.sectionBoundaries m !! key sec = Some (boundaryAt c f si sec (headerIndex m si)) ∧
  (0 ≤ headerIndex m si)%Z ∧
  (headerIndex m si + groupSize c f sec ≤
     lengthZ (Positioner.flattenedData (Manager.layoutPositioner m)))%Z.
Proof.
  intros (Hb & Hd & Hpd & _ & _) Hnd Hsec c f.
  destruct (buildLoop_group c f (Manager.sections m) si sec Hnd Hsec) as (Hbound & Hh & Hent).
  fold c f in Hb, Hd. rewrite Hb. split; [done|]. split; [done|].
  pose proof (groupSize_pos c f sec) as Hpos.
  specialize (Hent (groupSize c f sec - 1)%Z ltac:(lia)).
  destruct (lookupZ_is_Some (groupEntries c f si sec) (groupSize c f sec - 1)) as [it Hit].
  { rewrite lengthZ_groupEntries. lia. }
  rewrite Hit in Hent. rewrite <- Hd, <- Hpd in Hent. apply lookupZ_Some in Hent.
  unfold headerIndex. fold c f. lia.
Qed.

(** [getSectionLayout] in closed form. *)
Lemma getSectionLayout_inSync m (si : Z) sec :
  inSync m → NoDup (key <$> Manager.sections m) → lookupZ (Manager.sections m) si = Some sec →
  Manager.getSectionLayout m (key sec) =
    (Some (sectionLayoutOf m si sec),
     Manager.withPositioner m (Positioner.ensureLayoutsComputed (Manager.layoutPositioner m))).
Proof.
  intros Hm Hnd Hsec.
  destruct (inSync_group m si sec Hm Hnd Hsec) as (Hb & Hh & Hlen).
  destruct Hm as (_ & _ & _ & Hhor & Hreach).
  pose proof (reachable_consistent _ Hreach) as Hp.
  set (p := Manager.layoutPositioner m) in *.
  set (h := headerIndex m si) in *.
  set (n := lengthZ (Positioner.flattenedData p)) in *.
  pose proof (groupSize_pos (Manager.collapsedSections m) (Manager.hasSectionFooters m) sec).
  assert (∀ i, (0 ≤ i < n)%Z →
            Positioner.getLayoutForIndex (Positioner.ensureLayoutsComputed p) i =
              (rectAt p i, Positioner.ensureLayoutsComputed p)) as Hlater.
  { intros i Hi. unfold Positioner.getLayoutForIndex.
    rewrite ensureLayoutsComputed_idem by done. f_equal.
    destruct (ensureLayoutsComputed_computed p Hp) as [_ [Hc _]].
    destruct (ensureLayoutsComputed_fields p) as (_ & Hd & _ & _ & _ & Hr).
    rewrite Hc, Hd. fold n. rewrite bool_decide_eq_true_2 by done. simpl. apply Hr. }
  assert (∀ i, (0 ≤ i < n)%Z →
            Positioner.getLayoutForIndex p i = (rectAt p i, Positioner.ensureLayoutsComputed p))
    as Hfirst.
  { intros i Hi. rewrite <- (Hlater i Hi). unfold Positioner.getLayoutForIndex.
    by rewrite ensureLayoutsComputed_idem. }
  assert (∀ i, (0 ≤ i)%Z →
            (if Manager.horizontal m then (x (rectAt p i) + width (rectAt p i))%Qc
             else (y (rectAt p i) + height (rectAt p i))%Qc) = offsetAt p (i + 1)) as Hend.
  { intros i Hi. rewrite <- itemEndOf_rectAt by done. unfold Positioner.itemEndOf.
    fold p in Hhor. by rewrite Hhor. }
  unfold Manager.getSectionLayout, sectionLayoutOf. rewrite Hb. fold p h.
  rewrite groupSize_shown in Hlen. unfold shownItems in *. unfold boundaryAt.
  assert (0 ≤ lengthZ (data sec))%Z by (unfold lengthZ; lia).
  destruct (decide (key sec ∈ Manager.collapsedSections m)) as [Hc|Hc].
  - rewrite !(bool_decide_eq_true_2 _ Hc) in *. red_boundary.
    rewrite Hfirst by lia. red_boundary. rewrite Hend by done.
    by rewrite Z.add_0_r.
  - rewrite !(bool_decide_eq_false_2 _ Hc) in *. red_boundary.
    destruct (Manager.hasSectionFooters m) eqn:Hf; red_boundary; rewrite Hfirst by lia.
    + rewrite Hlater by lia. red_boundary.
      destruct (decide (h + 1 ≤ h + lengthZ (data sec))%Z) as [Hitems|Hitems].
      * rewrite (bool_decide_eq_true_2 _ Hitems). rewrite Hlater by lia.
        rewrite !Hend by lia. do 4 f_equal. lia.
      * rewrite (bool_decide_eq_false_2 _ Hitems). rewrite !Hend by lia.
        do 4 f_equal. lia.
    + destruct (decide (h + 1 ≤ h + lengthZ (data sec))%Z) as [Hitems|Hitems].
      * rewrite (bool_decide_eq_true_2 _ Hitems). rewrite Hlater by lia.
        rewrite !Hend by lia. do 4 f_equal. lia.
      * rewrite (bool_decide_eq_false_2 _ Hitems). rewrite !Hend by lia.
        do 4 f_equal. lia.
Qed.

Lemma inSync_positionerCall m p :
  inSync m → Manager.positionerCall (Manager.layoutPositioner m) p →
  inSync (Manager.withPositioner m p).
Proof.
  intros (Hb & Hd & Hpd & Hh & Hr) Hcall.
  destruct (positionerCall_fields _ _ Hcall) as [Hd' Hh'].
  split; [done|]. split; [done|]. simpl. rewrite Hd', Hh'.
  split; [done|]. split; [done|]. by apply (positionerCall_reachable _ _ Hcall).
Qed.

Lemma inSync_settled m m' : inSync m → settled m m' → inSync m'.
Proof.
  intros Hm [->| ->]; [done|]. apply inSync_positionerCall; [done|].
  apply (Manager.call_getLayoutForIndex _ 0).
Qed.

Lemma settled_trans m m1 m2 : inSync m → settled m m1 → settled m1 m2 → settled m m2.
Proof.
  intros Hm [->| ->]; [done|]. intros [->| ->]; [by right|]. right. simpl.
  unfold Manager.withPositioner. simpl. rewrite ensureLayoutsComputed_idem; [done|].
  apply reachable_consistent, Hm.
Qed.

Lemma sectionLayoutOf_settled m m' (si : Z) sec :
  settled m m' → sectionLayoutOf m' si sec = sectionLayoutOf m si sec.
Proof.
  intros [->| ->]; [done|]. unfold sectionLayoutOf, headerIndex, shownItems. simpl.
  destruct (ensureLayoutsComputed_fields (Manager.layoutPositioner m))
    as (_ & _ & _ & _ & Ho & Hr).
  by rewrite !Ho, !Hr.
Qed.

Lemma settled_fields m m' :
  settled m m' →
  Manager.sections m' = Manager.sections m ∧ Manager.horizontal m' = Manager.horizontal m ∧
  Manager.collapsedSections m' = Manager.collapsedSections m ∧
  Manager.hasSectionFooters m' = Manager.hasSectionFooters m.
Proof. by intros [->| ->]. Qed.

Lemma getSectionLayout_settled m (k : string) :
  inSync m → settled m (Manager.getSectionLayout m k).2.
Proof.
  intros Hm. pose proof (reachable_consistent _ (proj2 (proj2 (proj2 (proj2 Hm))))) as Hp.
  unfold Manager.getSectionLayout.
  destruct (Manager.sectionBoundaries m !! k) as [b|]; [|by left]. right.
  set (p := Manager.layoutPositioner m) in *.
  assert (∀ i, (Positioner.getLayoutForIndex (Positioner.ensureLayoutsComputed p) i).2 =
               Positioner.ensureLayoutsComputed p) as Hlater.
  { intros i. simpl. by apply ensureLayoutsComputed_idem. }
  destruct (Positioner.getLayoutForIndex p (Manager.headerFlatIndex b)) as [hl p1] eqn:H1.
  assert (p1 = Positioner.ensureLayoutsComputed p) as -> by by inversion H1.
  destruct (Manager.footerFlatIndex b) as [fi|].
  - destruct (Positioner.getLayoutForIndex _ fi) as [fl p2] eqn:H2.
    assert (p2 = Positioner.ensureLayoutsComputed p) as ->.
    { rewrite <- (Hlater fi). by rewrite H2. }
    destruct (_ && _); [|done].
    destruct (Positioner.getLayoutForIndex _ (Manager.lastItemFlatIndex b)) as [ll p3] eqn:H3.
    simpl. f_equal. rewrite <- (Hlater (Manager.lastItemFlatIndex b)). by rewrite H3.
  - destruct (_ && _); [|done].
    destruct (Positioner.getLayoutForIndex _ (Manager.lastItemFlatIndex b)) as [ll p3] eqn:H3.
    simpl. f_equal. rewrite <- (Hlater (Manager.lastItemFlatIndex b)). by rewrite H3.
Qed.

Lemma getSectionLayout_None m (k : string) :
  inSync m → (Manager.getSectionLayout m k).1 = None ↔ k ∉ key <$> Manager.sections m.
Proof.
  intros (Hb & _). unfold Manager.getSectionLayout.
  pose proof (buildLoop_boundaries_dom (Manager.collapsedSections m)
                (Manager.hasSectionFooters m) 0 (Manager.sections m)
                (Manager.mkBuild [] ∅ ∅ 0) k) as Hdom.
  rewrite <- Hb in Hdom. simpl in Hdom. rewrite lookup_empty in Hdom.
  destruct (Manager.sectionBoundaries m !! k) as [b|].
  - split.
    + destruct (Positioner.getLayoutForIndex _ _) as [? ?].
      destruct (Manager.footerFlatIndex b); [destruct (Positioner.getLayoutForIndex _ _)|];
        destruct (_ && _); try destruct (Positioner.getLayoutForIndex _ _); done.
    + intros Hk. destruct Hdom as [[Hdom|[? ?]] _]; done.
  - split; [|done]. intros _ Hk. destruct Hdom as [_ Hdom].
    by destruct Hdom as [? ?]; [left|].
Qed.

Lemma getSectionAtOffsetLoop_settled m (offset : Qc) (keys : list string) :
  inSync m → settled m (Manager.getSectionAtOffsetLoop m offset keys).2.
Proof.
  revert m. induction keys as [|k keys IH]; intros m Hm; simpl; [by left|].
  pose proof (getSectionLayout_settled m k Hm) as Hs.
  destruct (Manager.getSectionLayout m k) as [[l|] m1]; simpl in Hs.
  - destruct (_ && _); [done|].
    apply (settled_trans m m1); [done|done|]. apply IH. by apply (inSync_settled m).
  - apply (settled_trans m m1); [done|done|]. apply IH. by apply (inSync_settled m).
Qed.

Lemma getAllSectionLayoutsLoop_settled m layouts (keys : list string) :
  inSync m → settled m (Manager.getAllSectionLayoutsLoop m layouts keys).2.
Proof.
  revert m layouts. induction keys as [|k keys IH]; intros m layouts Hm; simpl; [by left|].
  pose proof (getSectionLayout_settled m k Hm) as Hs.
  destruct (Manager.getSectionLayout m k) as [[l|] m1]; simpl in Hs;
    (apply (settled_trans m m1); [done|done|]; apply IH; by apply (inSync_settled m)).
Qed.

Lemma inSync_updateData m (sections : list (Section T)) (c : gset string) :
  inSync m → inSync (Manager.updateData m sections c).2.
Proof.
  intros (_ & _ & _ & Hh & Hr). unfold inSync, Manager.updateData. simpl.
  do 3 (split; [done|]). split; [done|]. by apply Positioner.reach_ownerData.
Qed.

(** Every state of a manager is in sync with its positioner. *)
Lemma manager_reachable_inSync m : Manager.reachable m → inSync m.
Proof.
  induction 1 as [cache options|m sections c _ IH|m k b _ IH|m k _ IH|m o _ IH|m _ IH
                 |m p _ IH Hcall].
  - unfold inSync. simpl. do 4 (split; [done|]). apply Positioner.reach_create.
  - by apply inSync_updateData.
  - unfold Manager.setSectionCollapsed. by apply inSync_updateData.
  - apply (inSync_settled m); [done|]. by apply getSectionLayout_settled.
  - apply (inSync_settled m); [done|]. by apply getSectionAtOffsetLoop_settled.
  - apply (inSync_settled m); [done|]. by apply getAllSectionLayoutsLoop_settled.
  - by apply inSync_positionerCall.
Qed.

Lemma firstOccurrences_NoDup (seen : gset string) (keys : list string) :
  NoDup keys → (∀ k, k ∈ keys → k ∉ seen) → Manager.firstOccurrences seen keys = keys.
Proof.
  intros Hnd. revert seen. induction Hnd as [|k keys Hk Hnd IH]; intros seen Hseen; [done|].
  simpl. rewrite bool_decide_eq_false_2 by (apply Hseen; by left). f_equal.
  apply IH. intros k' Hk' [->%elem_of_singleton|Hin]%elem_of_union; [done|].
  apply (Hseen k'); [by right|done].
Qed.

Lemma boundaryKeys_NoDup m :
  NoDup (key <$> Manager.sections m) → Manager.boundaryKeys m = key <$> Manager.sections m.
Proof. intros Hnd. apply firstOccurrences_NoDup; [done|]. intros k _. apply not_elem_of_empty. Qed.

Lemma lookupZ_middle {A} (pre rest : list A) (a : A) :
  lookupZ (pre ++ a :: rest) (lengthZ pre) = Some a.
Proof.
  unfold lookupZ, lengthZ. rewrite bool_decide_eq_true_2 by lia.
  rewrite Nat2Z.id. by apply list_lookup_middle.
Qed.

(** The layouts that the loops of [getAllSectionLayouts] and
    [getSectionAtOffset] go through. *)
Lemma getAllSectionLayoutsLoop_spec m0 m layouts (pre rest : list (Section T)) :
  inSync m0 → NoDup (key <$> Manager.sections m0) →
  Manager.sections m0 = pre ++ rest → settled m0 m →
  (Manager.getAllSectionLayoutsLoop m layouts (key <$> rest)).1 =
    layouts ++ imap (λ i sec, sectionLayoutOf m0 (lengthZ pre + Z.of_nat i) sec) rest.
Proof.
  intros Hm0 Hnd. revert pre m layouts.
  induction rest as [|sec rest IH]; intros pre m layouts Hsplit Hs; simpl.
  { by rewrite app_nil_r. }
  pose proof (inSync_settled _ _ Hm0 Hs) as Hm.
  destruct (settled_fields _ _ Hs) as (Hsecs & _).
  rewrite (getSectionLayout_inSync m (lengthZ pre) sec Hm).
  2:{ by rewrite Hsecs. }
  2:{ rewrite Hsecs, Hsplit. apply lookupZ_middle. }
  rewrite (sectionLayoutOf_settled m0 m) by done.
  rewrite (IH (pre ++ [sec])).
  - rewrite <- app_assoc. simpl. rewrite Z.add_0_r. do 2 f_equal.
    apply imap_ext. intros i sec' _. simpl. f_equal. rewrite lengthZ_app.
    unfold lengthZ. simpl. lia.
  - by rewrite <- app_assoc.
  - apply (settled_trans m0 m); [done|done|]. by right.
Qed.

Lemma getSectionAtOffsetLoop_spec m0 m (offset : Qc) (pre rest : list (Section T)) :
  inSync m0 → NoDup (key <$> Manager.sections m0) →
  Manager.sections m0 = pre ++ rest → settled m0 m →
  (Manager.getSectionAtOffsetLoop m offset (key <$> rest)).1 =
    snd <$> list_find (λ l, holdsOffset (Manager.horizontal m0) offset l = true)
              (imap (λ i sec, sectionLayoutOf m0 (lengthZ pre + Z.of_nat i) sec) rest).
Proof.
  intros Hm0 Hnd. revert pre m.
  induction rest as [|sec rest IH]; intros pre m Hsplit Hs; simpl; [done|].
  pose proof (inSync_settled _ _ Hm0 Hs) as Hm.
  destruct (settled_fields _ _ Hs) as (Hsecs & Hhor & _).
  rewrite (getSectionLayout_inSync m (lengthZ pre) sec Hm).
  2:{ by rewrite Hsecs. }
  2:{ rewrite Hsecs, Hsplit. apply lookupZ_middle. }
  rewrite (sectionLayoutOf_settled m0 m) by done. rewrite Z.add_0_r.
  cbn [Manager.horizontal Manager.withPositioner]. rewrite Hhor.
  fold (headerStartOf (Manager.horizontal m0) (sectionLayoutOf m0 (lengthZ pre) sec)).
  fold (holdsOffset (Manager.horizontal m0) offset (sectionLayoutOf m0 (lengthZ pre) sec)).
  destruct (holdsOffset _ _ _) eqn:Hhold.
  - by destruct (decide (true = true)).
  - destruct (decide (false = true)) as [?|_]; [done|]. rewrite (IH (pre ++ [sec])).
    + rewrite <- option_fmap_compose. simpl.
      erewrite imap_ext; [reflexivity|]. intros i sec' _. simpl. f_equal.
      rewrite lengthZ_app. unfold lengthZ. simpl. lia.
    + by rewrite <- app_assoc.
    + apply (settled_trans m0 m); [done|done|]. by right.
Qed.

Lemma getAllSectionLayouts_inSync m :
  inSync m → NoDup (key <$> Manager.sections m) →
  (Manager.getAllSectionLayouts m).1 =
    imap (λ i sec, sectionLayoutOf m (Z.of_nat i) sec) (Manager.sections m).
Proof.
  intros Hm Hnd. unfold Manager.getAllSectionLayouts. rewrite boundaryKeys_NoDup by done.
  rewrite (getAllSectionLayoutsLoop_spec m m [] [] (Manager.sections m)); [done..|by left].
Qed.

Lemma getSectionAtOffset_inSync m (offset : Qc) :
  inSync m → NoDup (key <$> Manager.sections m) →
  (Manager.getSectionAtOffset m offset).1 =
    snd <$> list_find (λ l, holdsOffset (Manager.horizontal m) offset l = true)
              (imap (λ i sec, sectionLayoutOf m (Z.of_nat i) sec) (Manager.sections m)).
Proof.
  intros Hm Hnd. unfold Manager.getSectionAtOffset. rewrite boundaryKeys_NoDup by done.
  rewrite (getSectionAtOffsetLoop_spec m m offset [] (Manager.sections m)); [done..|by left].
Qed.

Lemma sumQc_app (l1 l2 : list Qc) : sumQc (l1 ++ l2) = (sumQc l1 + sumQc l2)%Qc.
Proof.
  induction l1 as [|a l1 IH]; simpl; [by rewrite Qcplus_0_l|].
  by rewrite IH, Qcplus_assoc.
Qed.

Lemma offsetAt_add p (i n : Z) :
  (0 ≤ i)%Z → (0 ≤ n)%Z →
  offsetAt p (i + n) = (offsetAt p i + sumQc (Positioner.getItemSize p <$> seqZ i n))%Qc.
Proof.
  intros Hi Hn. unfold offsetAt. rewrite seqZ_app by lia. rewrite fmap_app, sumQc_app.
  by rewrite Z.add_0_l.
Qed.

Lemma sizes_nonneg p :
  (∀ i it, Positioner.flattenedData p !! i = Some it → (0 ≤ resolvedSize p i it)%Qc) →
  ∀ k, (0 ≤ k < lengthZ (Positioner.flattenedData p))%Z → (0 ≤ Positioner.getItemSize p k)%Qc.
Proof.
  intros Hsizes k Hk.
  destruct (lookup_lt_is_Some_2 (Positioner.flattenedData p) (Z.to_nat k)) as [it Hit].
  { unfold lengthZ in Hk. lia. }
  replace k with (Z.of_nat (Z.to_nat k)) by lia.
  rewrite (getItemSize_resolved p _ it Hit). by apply (Hsizes _ it).
Qed.

Lemma headerPosition_mono c f (sections : list (Section T)) (i j : Z) :
  (0 ≤ i ≤ j)%Z → (headerPosition c f sections i ≤ headerPosition c f sections j)%Z.
Proof.
  intros Hij. unfold headerPosition.
  rewrite <- (take_drop (Z.to_nat i) (take (Z.to_nat j) sections)).
  rewrite take_take, sizeOfGroups_app. replace (Z.to_nat i `min` Z.to_nat j)%nat with (Z.to_nat i) by lia.
  pose proof (sizeOfGroups_nonneg c f (drop (Z.to_nat i) (take (Z.to_nat j) sections))). lia.
Qed.

Lemma headerIndex_last m :
  inSync m →
  headerIndex m (lengthZ (Manager.sections m)) =
    lengthZ (Positioner.flattenedData (Manager.layoutPositioner m)).
Proof.
  intros (_ & Hd & Hpd & _). rewrite Hpd, Hd, buildLoop_data, flattenLoop_flatOfGroups.
  simpl. rewrite lengthZ_flatOfGroups. unfold headerIndex, headerPosition, lengthZ.
  by rewrite Nat2Z.id, firstn_all.
Qed.

Lemma headerStartOf_layout m (si : Z) sec :
  inSync m →
  headerStartOf (Manager.horizontal m) (sectionLayoutOf m si sec) =
    offsetAt (Manager.layoutPositioner m) (headerIndex m si).
Proof.
  intros (_ & _ & _ & Hh & _). unfold headerStartOf, sectionLayoutOf. simpl.
  rewrite <- Hh. apply itemStartOf_rectAt.
Qed.

(** The extent of a section, from the start of its header to the end of
    its last entry, lies before the header of every later section. *)
Lemma section_order m (si sj : Z) sec sec' :
  inSync m → NoDup (key <$> Manager.sections m) →
  lookupZ (Manager.sections m) si = Some sec → lookupZ (Manager.sections m) sj = Some sec' →
  (si < sj)%Z →
  (0 ≤ headerIndex m si)%Z ∧
  (headerIndex m si + 1 + shownItems m sec ≤ headerIndex m sj)%Z ∧
  (headerIndex m sj < lengthZ (Positioner.flattenedData (Manager.layoutPositioner m)))%Z.
Proof.
  intros Hm Hnd Hsec Hsec' Hlt.
  destruct (inSync_group m si sec Hm Hnd Hsec) as (_ & Hh & _).
  destruct (inSync_group m sj sec' Hm Hnd Hsec') as (_ & _ & Hlen).
  pose proof (groupSize_pos (Manager.collapsedSections m) (Manager.hasSectionFooters m) sec').
  split; [done|]. split; [|lia].
  pose proof (lookupZ_Some _ _ _ Hsec) as Hsi.
  pose proof (headerPosition_succ (Manager.collapsedSections m) (Manager.hasSectionFooters m)
                _ _ _ Hsec) as Hsucc.
  pose proof (headerPosition_mono (Manager.collapsedSections m) (Manager.hasSectionFooters m)
                (Manager.sections m) (si + 1) sj ltac:(lia)) as Hmono.
  rewrite groupSize_shown in Hsucc. unfold headerIndex.
  destruct (bool_decide _); [|destruct (Manager.hasSectionFooters m)]; lia.
Qed.

Lemma Sorted_Qcle_pairwise (l : list Qc) :
  (∀ i a b, l !! i = Some a → l !! S i = Some b → (a ≤ b)%Qc) → Sorted Qcle l.
Proof.
  induction l as [|a l IH]; intros Hl; [constructor|].
  constructor.
  - apply IH. intros i b c Hb Hc. by apply (Hl (S i)).
  - destruct l as [|b l]; constructor. by apply (Hl 0%nat).
Qed.

Lemma getFlatIndex_header m (si : Z) sec :
  inSync m → NoDup (key <$> Manager.sections m) → lookupZ (Manager.sections m) si = Some sec →
  Manager.getFlatIndex m si (-1) = headerIndex m si.
Proof.
  intros Hm Hnd Hsec. destruct (inSync_group m si sec Hm Hnd Hsec) as (Hb & _).
  unfold Manager.getFlatIndex. rewrite Hsec, Hb. rewrite bool_decide_eq_true_2 by done.
  unfold boundaryAt. by destruct (bool_decide _).
Qed.

Lemma holdsOffset_true (h : bool) (offset : Qc) (l : SectionLayoutInfo.t) :
  holdsOffset h offset l = true ↔
  (headerStartOf h l ≤ offset)%Qc ∧ (offset < SectionLayoutInfo.itemsEndOffset l)%Qc.
Proof.
  unfold holdsOffset. rewrite andb_true_iff, !bool_decide_eq_true. done.
Qed.

Lemma lookup_sectionLayouts m (i : nat) (l : SectionLayoutInfo.t) :
  imap (λ i sec, sectionLayoutOf m (Z.of_nat i) sec) (Manager.sections m) !! i = Some l →
  ∃ sec, lookupZ (Manager.sections m) (Z.of_nat i) = Some sec ∧
         l = sectionLayoutOf m (Z.of_nat i) sec.
Proof.
  rewrite list_lookup_imap. unfold lookupZ. rewrite bool_decide_eq_true_2 by lia.
  rewrite Nat2Z.id. destruct (Manager.sections m !! i) as [sec|]; [|done].
  intros [= <-]. by exists sec.
Qed.

(** With no negative size, a section ends before the next ones start. *)
Lemma section_layouts_ordered m (i j : nat) (l l' : SectionLayoutInfo.t) :
  inSync m → NoDup (key <$> Manager.sections m) →
  (∀ i it, Positioner.flattenedData (Manager.layoutPositioner m) !! i = Some it →
           (0 ≤ resolvedSize (Manager.layoutPositioner m) i it)%Qc) →
  imap (λ i sec, sectionLayoutOf m (Z.of_nat i) sec) (Manager.sections m) !! i = Some l →
  imap (λ i sec, sectionLayoutOf m (Z.of_nat i) sec) (Manager.sections m) !! j = Some l' →
  (i < j)%nat →
  (headerStartOf (Manager.horizontal m) l ≤ headerStartOf (Manager.horizontal m) l')%Qc ∧
  (SectionLayoutInfo.itemsEndOffset l ≤ headerStartOf (Manager.horizontal m) l')%Qc.
Proof.
  intros Hm Hnd Hsizes (sec & Hsec & ->)%lookup_sectionLayouts
    (sec' & Hsec' & ->)%lookup_sectionLayouts Hlt.
  destruct (section_order m (Z.of_nat i) (Z.of_nat j) sec sec' Hm Hnd Hsec Hsec')
    as (Hh & Hle & Hn); [lia|].
  assert (0 ≤ shownItems m sec)%Z as Hshown.
  { unfold shownItems, lengthZ. case_bool_decide; lia. }
  rewrite !headerStartOf_layout by done.
  pose proof (sizes_nonneg _ Hsizes) as Hnonneg.
  split.
  - apply (offsetAt_mono _ _ _ _ Hnonneg); lia.
  - apply (offsetAt_mono _ _ _ _ Hnonneg); lia.
Qed.

Lemma sectionLayouts_index m :
  SectionLayoutInfo.sectionIndex <$>
    imap (λ i sec, sectionLayoutOf m (Z.of_nat i) sec) (Manager.sections m) =
  seqZ 0 (lengthZ (Manager.sections m)).
Proof.
  apply list_eq. intros i. rewrite list_lookup_fmap, list_lookup_imap.
  destruct (Manager.sections m !! i) as [sec|] eqn:Hsec; simpl.
  - symmetry. apply lookup_seqZ. apply lookup_lt_Some in Hsec. unfold lengthZ. lia.
  - symmetry. apply lookup_seqZ_ge. apply lookup_ge_None in Hsec. unfold lengthZ. lia.
Qed.

Lemma sectionLayouts_sorted m :
  inSync m → NoDup (key <$> Manager.sections m) →
  (∀ i it, Positioner.flattenedData (Manager.layoutPositioner m) !! i = Some it →
           (0 ≤ resolvedSize (Manager.layoutPositioner m) i it)%Qc) →
  Sorted Qcle (headerStartOf (Manager.horizontal m) <$>
                 imap (λ i sec, sectionLayoutOf m (Z.of_nat i) sec) (Manager.sections m)).
Proof.
  intros Hm Hnd Hsizes. apply Sorted_Qcle_pairwise. intros i a b.
  rewrite !list_lookup_fmap.
  destruct (imap _ _ !! i) as [l|] eqn:Hl; [|done].
  destruct (imap _ _ !! S i) as [l'|] eqn:Hl'; [|done].
  intros [= <-] [= <-].
  apply (section_layouts_ordered m i (S i) l l' Hm Hnd Hsizes Hl Hl'). lia.
Qed.

End section_layout_facts.

Lemma scenarioManager_reachable : Manager.reachable scenarioManager.
Proof. apply Manager.after_updateData, Manager.after_create. Qed.

Lemma scenarioManager_NoDup : NoDup (key <$> Manager.sections scenarioManager).
Proof. apply (bool_decide_unpack _). by vm_compute. Qed.

Lemma scenarioManager_sizes i it :
  Positioner.flattenedData (Manager.layoutPositioner scenarioManager) !! i = Some it →
  (0 ≤ resolvedSize (Manager.layoutPositioner scenarioManager) i it)%Qc.
Proof.
  intros _. rewrite resolvedSize_unmeasured by done.
  unfold defaultEstimate. by destruct (type it).
Qed.

(** X25. In every state of the manager [getSectionLayout] returns null exactly
    for a key that no section has.  When the section keys are pairwise
    distinct, the layout info of a section names its key and its index,
    says whether it is collapsed, counts its items (none when it is
    collapsed), holds the positioner's layout of the section's header,
    and has a footer layout exactly when footers are enabled and the
    section is not collapsed. *)
Theorem getSectionLayout_describes_section {T} (m : Manager.t T) :
  Manager.reachable m →
  (∀ k, (Manager.getSectionLayout m k).1 = None ↔ k ∉ key <$> Manager.sections m) ∧
  (NoDup (key <$> Manager.sections m) →
   ∀ si sec, lookupZ (Manager.sections m) si = Some sec →
     ∃ l, (Manager.getSectionLayout m (key sec)).1 = Some l ∧
       SectionLayoutInfo.sectionKey l = key sec ∧
       SectionLayoutInfo.sectionIndex l = si ∧
       SectionLayoutInfo.isCollapsed l = Manager.isSectionCollapsed m (key sec) ∧
       SectionLayoutInfo.itemCount l =
         (if SectionLayoutInfo.isCollapsed l then 0%Z else lengthZ (data sec)) ∧
       SectionLayoutInfo.headerLayout l =
         (Positioner.getLayoutForIndex (Manager.layoutPositioner m)
            (Manager.getFlatIndex m si (-1))).1 ∧
       (is_Some (SectionLayoutInfo.footerLayout l) ↔
        Manager.hasSectionFooters m = true ∧ SectionLayoutInfo.isCollapsed l = false)).
Proof.
  intros Hm%manager_reachable_inSync. split; [intros k; by apply getSectionLayout_None|].
  intros Hnd si sec Hsec. exists (sectionLayoutOf m si sec).
  rewrite (getSectionLayout_inSync m si sec Hm Hnd Hsec).
  destruct (inSync_group m si sec Hm Hnd Hsec) as (Hb & Hh & Hlen).
  pose proof (groupSize_pos (Manager.collapsedSections m) (Manager.hasSectionFooters m) sec).
  do 4 (split; [done|]). split; [|split].
  - unfold sectionLayoutOf, shownItems. simpl. by destruct (bool_decide _).
  - rewrite (getFlatIndex_header m si sec) by done.
    rewrite getLayoutForIndex_rect by (apply reachable_consistent, Hm).
    by rewrite bool_decide_eq_true_2 by lia.
  - unfold sectionLayoutOf. simpl.
    destruct (bool_decide _), (Manager.hasSectionFooters m); split;
      (by intros [? ?]) || (by intros [? ?]; eauto) || eauto.
Qed.

Lemma getSectionLayout_describes_section_witness :
  (Manager.getSectionLayout scenarioManager "d").1 = None ∧
  ∃ l, (Manager.getSectionLayout scenarioManager "c").1 = Some l ∧
       SectionLayoutInfo.sectionIndex l = 2%Z ∧ SectionLayoutInfo.itemCount l = 3%Z.
Proof.
  destruct (getSectionLayout_describes_section scenarioManager scenarioManager_reachable)
    as [Hnone Hsome].
  split.
  - apply Hnone. apply (bool_decide_unpack _). by vm_compute.
  - destruct (Hsome scenarioManager_NoDup 2%Z (mkSection "c" [30; 31; 32]) eq_refl)
      as (l & Hl & _ & Hsi & _ & Hcount & _).
    exists l. split; [exact Hl|]. split; [exact Hsi|].
    rewrite Hcount. 
    destruct (Hsome scenarioManager_NoDup 2%Z (mkSection "c" [30; 31; 32]) eq_refl)
      as (l' & Hl' & _ & _ & Hcol & _).
    rewrite Hl in Hl'. injection Hl' as <-. rewrite Hcol. reflexivity.
Defined.

(** X26. The section layouts tile the main axis.  For sections with pairwise
    distinct keys: the header of the first section starts at 0; the items
    of a section start where its header ends and end after the summed
    sizes of its items (they are empty for a collapsed section); the
    header of the next section starts where the items end, or where the
    footer ends when the section has one; and the last section, with its
    footer, ends at the content size. *)
Theorem section_layouts_tile_the_main_axis {T} (m : Manager.t T) (si : Z) (sec : Section T)
    (l : SectionLayoutInfo.t) :
  Manager.reachable m → NoDup (key <$> Manager.sections m) →
  lookupZ (Manager.sections m) si = Some sec →
  (Manager.getSectionLayout m (key sec)).1 = Some l →
  let p := Manager.layoutPositioner m in
  let startOf l := headerStartOf (Manager.horizontal m) l in
  let footerSize := from_option (mainSize p) 0%Qc (SectionLayoutInfo.footerLayout l) in
  (si = 0%Z → startOf l = 0%Qc) ∧
  SectionLayoutInfo.itemsStartOffset l =
    (startOf l + mainSize p (SectionLayoutInfo.headerLayout l))%Qc ∧
  SectionLayoutInfo.itemsEndOffset l =
    (SectionLayoutInfo.itemsStartOffset l +
     sumQc (Positioner.getItemSize p <$>
            seqZ (Manager.getFlatIndex m si (-1) + 1) (SectionLayoutInfo.itemCount l)))%Qc ∧
  match lookupZ (Manager.sections m) (si + 1) with
  | Some next =>
      ∃ l', (Manager.getSectionLayout m (key next)).1 = Some l' ∧
            startOf l' = (SectionLayoutInfo.itemsEndOffset l + footerSize)%Qc
  | None =>
      mainExtent p (Positioner.getContentSize p).1 =
        (SectionLayoutInfo.itemsEndOffset l + footerSize)%Qc
  end.
Proof.
  intros Hm%manager_reachable_inSync Hnd Hsec Hl p startOf footerSize.
  rewrite (getSectionLayout_inSync m si sec Hm Hnd Hsec) in Hl. injection Hl as <-.
  destruct (inSync_group m si sec Hm Hnd Hsec) as (Hb & Hh & Hlen).
  pose proof Hm as (_ & _ & _ & Hhor & Hreach). fold p in Hhor, Hreach, Hlen.
  pose proof (reachable_consistent _ Hreach) as Hp.
  assert (0 ≤ shownItems m sec)%Z as Hshown.
  { unfold shownItems, lengthZ. case_bool_decide; lia. }
  rewrite (getFlatIndex_header m si sec) by done.
  assert (∀ i, mainSize p (rectAt p i) = Positioner.getItemSize p i) as Hsize.
  { intros i. unfold mainSize, rectAt. by destruct (Positioner.horizontal p). }
  unfold startOf. rewrite headerStartOf_layout by done. fold p.
  assert (footerSize =
          if bool_decide (key sec ∈ Manager.collapsedSections m) then 0%Qc
          else if Manager.hasSectionFooters m
               then Positioner.getItemSize p (headerIndex m si + 1 + shownItems m sec)
               else 0%Qc) as ->.
  { unfold footerSize, sectionLayoutOf, shownItems. simpl. fold p.
    destruct (bool_decide _); [done|]. destruct (Manager.hasSectionFooters m); [|done].
    simpl. apply Hsize. }
  assert (offsetAt p (headerIndex m si + groupSize (Manager.collapsedSections m)
                        (Manager.hasSectionFooters m) sec) =
          (offsetAt p (headerIndex m si + 1 + shownItems m sec) +
           (if bool_decide (key sec ∈ Manager.collapsedSections m) then 0%Qc
            else if Manager.hasSectionFooters m
                 then Positioner.getItemSize p (headerIndex m si + 1 + shownItems m sec)
                 else 0%Qc))%Qc) as Hnext.
  { rewrite groupSize_shown.
    destruct (bool_decide _); [|destruct (Manager.hasSectionFooters m)].
    - rewrite Qcplus_0_r. f_equal. lia.
    - rewrite <- offsetAt_succ by lia. f_equal. lia.
    - rewrite Qcplus_0_r. f_equal. lia. }
  cbn [SectionLayoutInfo.itemsStartOffset SectionLayoutInfo.itemsEndOffset
       SectionLayoutInfo.itemCount SectionLayoutInfo.headerLayout sectionLayoutOf].
  fold p. split; [|split; [|split]].
  - intros ->. unfold headerIndex, headerPosition. simpl. apply offsetAt_0.
  - rewrite Hsize. by apply offsetAt_succ.
  - rewrite <- offsetAt_add by lia. f_equal. 
  - destruct (lookupZ (Manager.sections m) (si + 1)) as [next|] eqn:Hnextsec.
    + exists (sectionLayoutOf m (si + 1) next).
      rewrite (getSectionLayout_inSync m (si + 1) next Hm Hnd Hnextsec).
      split; [done|]. rewrite headerStartOf_layout by done. fold p.
      rewrite <- Hnext. f_equal. unfold headerIndex. by apply headerPosition_succ.
    + rewrite getContentSize_main by done. rewrite <- Hnext.
      unfold p. rewrite <- (headerIndex_last m Hm). f_equal.
      assert (si + 1 = lengthZ (Manager.sections m))%Z as <-.
      { pose proof (lookupZ_Some _ _ _ Hsec).
        destruct (decide (si + 1 < lengthZ (Manager.sections m))%Z) as [Hlt|]; [|lia].
        destruct (lookupZ_is_Some (Manager.sections m) (si + 1)) as [? ?]; [lia|congruence]. }
      unfold headerIndex. by apply headerPosition_succ.
Qed.

Lemma section_layouts_tile_the_main_axis_witness :
  ∃ l l', (Manager.getSectionLayout scenarioManager "a").1 = Some l ∧
          (Manager.getSectionLayout scenarioManager "b").1 = Some l' ∧
          headerStartOf false l' =
            (SectionLayoutInfo.itemsEndOffset l +
             from_option (mainSize (Manager.layoutPositioner scenarioManager)) 0%Qc
               (SectionLayoutInfo.footerLayout l))%Qc.
Proof.
  pose (l := sectionLayoutOf scenarioManager 0 (mkSection "a" [10; 11])).
  assert ((Manager.getSectionLayout scenarioManager "a").1 = Some l) as Hl.
  { pose proof (manager_reachable_inSync _ scenarioManager_reachable) as Hm.
    exact (f_equal fst (getSectionLayout_inSync scenarioManager 0 (mkSection "a" [10; 11]) Hm
                          scenarioManager_NoDup eq_refl)). }
  destruct (section_layouts_tile_the_main_axis scenarioManager 0 (mkSection "a" [10; 11]) l
              scenarioManager_reachable scenarioManager_NoDup eq_refl Hl)
    as (_ & _ & _ & l' & Hl' & Hstart).
  exists l, l'. split; [exact Hl|]. split; [exact Hl'|]. exact Hstart.
Defined.

(** X27. For sections with pairwise distinct keys [getAllSectionLayouts]
    returns one layout info per section, in the order of the sections:
    the one that [getSectionLayout] returns for the section's key.  When
    no size is negative the header starts of the returned layouts are in
    ascending order. *)
Theorem getAllSectionLayouts_in_section_order {T} (m : Manager.t T) :
  Manager.reachable m → NoDup (key <$> Manager.sections m) →
  let layouts := (Manager.getAllSectionLayouts m).1 in
  Some <$> layouts =
    (λ sec, (Manager.getSectionLayout m (key sec)).1) <$> Manager.sections m ∧
  SectionLayoutInfo.sectionIndex <$> layouts = seqZ 0 (lengthZ (Manager.sections m)) ∧
  ((∀ i it, Positioner.flattenedData (Manager.layoutPositioner m) !! i = Some it →
            (0 ≤ resolvedSize (Manager.layoutPositioner m) i it)%Qc) →
   Sorted Qcle (headerStartOf (Manager.horizontal m) <$> layouts)).
Proof.
  intros Hm%manager_reachable_inSync Hnd layouts. unfold layouts.
  rewrite getAllSectionLayouts_inSync by done. split; [|split].
  - apply list_eq. intros i. rewrite !list_lookup_fmap, list_lookup_imap.
    destruct (Manager.sections m !! i) as [sec|] eqn:Hsec; [|done]. simpl.
    rewrite (getSectionLayout_inSync m (Z.of_nat i) sec Hm Hnd); [done|].
    unfold lookupZ. rewrite bool_decide_eq_true_2 by lia. by rewrite Nat2Z.id.
  - apply sectionLayouts_index.
  - intros Hsizes. by apply sectionLayouts_sorted.
Qed.

Lemma getAllSectionLayouts_in_section_order_witness :
  SectionLayoutInfo.sectionKey <$> (Manager.getAllSectionLayouts scenarioManager).1 =
    ["a"; "b"; "c"] ∧
  SectionLayoutInfo.sectionIndex <$> (Manager.getAllSectionLayouts scenarioManager).1 =
    [0; 1; 2]%Z.
Proof.
  destruct (getAllSectionLayouts_in_section_order scenarioManager scenarioManager_reachable
              scenarioManager_NoDup) as (_ & Hidx & _).
  split; [|exact Hidx].
  pose proof (manager_reachable_inSync _ scenarioManager_reachable) as Hm.
  by rewrite (getAllSectionLayouts_inSync _ Hm scenarioManager_NoDup).
Defined.

(** X28. For sections with pairwise distinct keys [getSectionAtOffset] returns
    the first of the section layouts, in the order of the sections, whose
    range from the start of the header to the end of the items holds the
    offset, and null when no section's range holds it; the footer of a
    section is not part of its range.  When no size is negative at most
    one section's range holds an offset. *)
Theorem getSectionAtOffset_first_section_holding {T} (m : Manager.t T) (offset : Qc) :
  Manager.reachable m → NoDup (key <$> Manager.sections m) →
  let layouts := (Manager.getAllSectionLayouts m).1 in
  let holds l :=
    (headerStartOf (Manager.horizontal m) l ≤ offset)%Qc ∧
    (offset < SectionLayoutInfo.itemsEndOffset l)%Qc in
  match (Manager.getSectionAtOffset m offset).1 with
  | Some l =>
      ∃ i : nat, layouts !! i = Some l ∧ holds l ∧
                 ∀ (j : nat) l', (j < i)%nat → layouts !! j = Some l' → ¬ holds l'
  | None => ∀ l, l ∈ layouts → ¬ holds l
  end ∧
  ((∀ i it, Positioner.flattenedData (Manager.layoutPositioner m) !! i = Some it →
            (0 ≤ resolvedSize (Manager.layoutPositioner m) i it)%Qc) →
   ∀ l l', l ∈ layouts → l' ∈ layouts → holds l → holds l' → l = l').
Proof.
  intros Hm%manager_reachable_inSync Hnd layouts holds. unfold layouts.
  rewrite getAllSectionLayouts_inSync, getSectionAtOffset_inSync by done.
  set (L := imap _ _). split.
  - destruct (list_find _ L) as [[i l]|] eqn:Hfind; simpl.
    + apply list_find_Some in Hfind as (Hi & Hl%holdsOffset_true & Hfirst).
      exists i. split; [done|]. split; [done|].
      intros j l' Hj Hl' Hholds%holdsOffset_true. by apply (Hfirst j l').
    + apply list_find_None in Hfind. intros l Hl Hholds%holdsOffset_true.
      by apply (proj1 (Forall_forall _ _) Hfind l).
  - intros Hsizes l l' [i Hi]%list_elem_of_lookup [j Hj]%list_elem_of_lookup [Hs He] [Hs' He'].
    destruct (lt_eq_lt_dec i j) as [[Hlt|Heq]|Hgt].
    + destruct (section_layouts_ordered m i j l l' Hm Hnd Hsizes Hi Hj Hlt) as [_ Hle].
      destruct (Qclt_not_le _ _ He). by etrans.
    + subst j. congruence.
    + destruct (section_layouts_ordered m j i l' l Hm Hnd Hsizes Hj Hi Hgt) as [_ Hle].
      destruct (Qclt_not_le _ _ He'). by etrans.
Qed.

Lemma getSectionAtOffset_first_section_holding_witness :
  ∃ l, (Manager.getSectionAtOffset scenarioManager (Qc_of_Z 60)).1 = Some l ∧
       SectionLayoutInfo.sectionKey l = "a" ∧
       (headerStartOf (Manager.horizontal scenarioManager) l ≤ Qc_of_Z 60)%Qc ∧
       (Qc_of_Z 60 < SectionLayoutInfo.itemsEndOffset l)%Qc.
Proof.
  assert (SectionLayoutInfo.sectionKey <$>
            (Manager.getSectionAtOffset scenarioManager (Qc_of_Z 60)).1 = Some "a") as Hkey
    by (by vm_compute).
  destruct (getSectionAtOffset_first_section_holding scenarioManager (Qc_of_Z 60)
              scenarioManager_reachable scenarioManager_NoDup) as [H _].
  destruct (Manager.getSectionAtOffset scenarioManager (Qc_of_Z 60)).1 as [l|]; [|done].
  destruct H as (i & _ & Hholds & _). exists l. split; [done|].
  split; [by injection Hkey|]. exact Hholds.
Defined.

(** X29. The sticky header of the list: with the section layouts of
    [getAllSectionLayouts] (pairwise distinct section keys, no negative
    size) and the manager's direction, an enabled [useStickyHeader] makes
    a header sticky exactly when some section's header starts at or
    before the scroll offset, and the sticky header is then the header of
    the last such section. *)
Theorem sticky_header_is_last_started_section {T} (m : Manager.t T)
    (scrollOffset viewportHeight : Qc) :
  Manager.reachable m → NoDup (key <$> Manager.sections m) →
  (∀ i it, Positioner.flattenedData (Manager.layoutPositioner m) !! i = Some it →
           (0 ≤ resolvedSize (Manager.layoutPositioner m) i it)%Qc) →
  let layouts := (Manager.getAllSectionLayouts m).1 in
  let started l := (headerStartOf (Manager.horizontal m) l ≤ scrollOffset)%Qc in
  let st :=
    StickyHeader.useStickyHeader
      (StickyHeader.mkOptions layouts scrollOffset viewportHeight
         (Some (Manager.horizontal m)) (Some true)) in
  (StickyHeader.isSticky st = true ↔ ∃ l, l ∈ layouts ∧ started l) ∧
  (StickyHeader.isSticky st = true →
   ∃ l, l ∈ layouts ∧ started l ∧
        StickyHeader.sectionKey st = Some (SectionLayoutInfo.sectionKey l) ∧
        StickyHeader.sectionIndex st = SectionLayoutInfo.sectionIndex l ∧
        StickyHeader.headerLayout st = Some (SectionLayoutInfo.headerLayout l) ∧
        ∀ l', l' ∈ layouts → started l' →
              (SectionLayoutInfo.sectionIndex l' ≤ SectionLayoutInfo.sectionIndex l)%Z).
Proof.
  intros Hm%manager_reachable_inSync Hnd Hsizes layouts started st.
  pose proof (sectionLayouts_index m) as Hidx.
  pose proof (sectionLayouts_sorted m Hm Hnd Hsizes) as Hsorted.
  rewrite <- (getAllSectionLayouts_inSync m Hm Hnd) in Hidx, Hsorted.
  fold layouts in Hidx, Hsorted.
  destruct (useStickyHeader_spec
              (StickyHeader.mkOptions layouts scrollOffset viewportHeight
                 (Some (Manager.horizontal m)) (Some true)) eq_refl)
    as (k & Hk & Hrun & Hstop & Hst).
  simpl in Hk, Hrun, Hstop, Hst. fold st in Hst.
  (* every started section lies before the stopping index *)
  assert (∀ (j : nat) l', layouts !! j = Some l' → started l' → (Z.of_nat j < k)%Z) as Hbefore.
  { intros j l' Hj Hstarted. destruct (decide (Z.of_nat j < k)%Z) as [|Hge]; [done|].
    exfalso. destruct (lookupZ_is_Some layouts k) as [lk Hlk].
    { apply lookup_lt_Some in Hj. unfold lengthZ. lia. }
    apply (Qclt_not_le _ _ (Hstop lk Hlk)). etrans; [|exact Hstarted].
    unfold lookupZ in Hlk. rewrite bool_decide_eq_true_2 in Hlk by lia.
    apply (Sorted_Qcle_lookup _ (Z.to_nat k) j _ _ Hsorted); [lia| |];
      rewrite list_lookup_fmap; [by rewrite Hlk|by rewrite Hj]. }
  assert (∀ (j : nat) l', layouts !! j = Some l' →
            SectionLayoutInfo.sectionIndex l' = Z.of_nat j) as Hindex.
  { intros j l' Hj. apply (f_equal (fmap SectionLayoutInfo.sectionIndex)) in Hj.
    rewrite <- list_lookup_fmap, Hidx in Hj. simpl in Hj.
    apply lookup_seqZ in Hj. lia. }
  destruct (lookupZ layouts (k - 1)) as [cur|] eqn:Hcur.
  - pose proof (lookupZ_Some _ _ _ Hcur) as Hk1.
    assert (started cur) as Hstarted by (apply (Hrun (k - 1)%Z); [lia|done]).
    assert (layouts !! Z.to_nat (k - 1) = Some cur) as Hcur'.
    { unfold lookupZ in Hcur. by rewrite bool_decide_eq_true_2 in Hcur by lia. }
    assert (cur ∈ layouts) as Hin by by apply list_elem_of_lookup_2 in Hcur'.
    rewrite Hst. simpl. split; [split; [intros _; by exists cur|done]|].
    intros _. exists cur. do 5 (split; [done|]).
    intros l' [j Hj]%list_elem_of_lookup Hl'.
    rewrite (Hindex j l' Hj), (Hindex _ cur Hcur').
    pose proof (Hbefore j l' Hj Hl'). lia.
  - rewrite Hst. simpl. split; [|done]. split; [done|].
    intros (l & [j Hj]%list_elem_of_lookup & Hl). exfalso.
    pose proof (Hbefore j l Hj Hl) as Hlt.
    destruct (lookupZ_is_Some layouts (k - 1)) as [? ?]; [|congruence].
    unfold lengthZ in *. lia.
Qed.

Lemma sticky_header_is_last_started_section_witness :
  let layouts := (Manager.getAllSectionLayouts scenarioManager).1 in
  let st :=
    StickyHeader.useStickyHeader
      (StickyHeader.mkOptions layouts (Qc_of_Z 150) (Qc_of_Z 600)
         (Some (Manager.horizontal scenarioManager)) (Some true)) in
  StickyHeader.sectionKey st = Some "b" ∧
  ∃ l, l ∈ layouts ∧ StickyHeader.sectionIndex st = SectionLayoutInfo.sectionIndex l ∧
       ∀ l', l' ∈ layouts →
             (headerStartOf (Manager.horizontal scenarioManager) l' ≤ Qc_of_Z 150)%Qc →
             (SectionLayoutInfo.sectionIndex l' ≤ SectionLayoutInfo.sectionIndex l)%Z.
Proof.
  intros layouts st.
  assert (StickyHeader.isSticky st = true) as Hsticky by by vm_compute.
  split; [by vm_compute|].
  destruct (sticky_header_is_last_started_section scenarioManager (Qc_of_Z 150) (Qc_of_Z 600)
              scenarioManager_reachable scenarioManager_NoDup scenarioManager_sizes)
    as [_ Hlast].
  destruct (Hlast Hsticky) as (l & Hin & _ & _ & Hidx & _ & Hmax).
  exists l. split; [exact Hin|]. split; [exact Hidx|]. exact Hmax.
Defined.

Section collapse_facts.
Context {T : Type}.
Implicit Types (m : Manager.t T) (sec : Section T).

Lemma groupEntries_sectionKey c f si sec it :
  it ∈ groupEntries c f si sec → sectionKey it = key sec.
Proof. intros Hin. by destruct (groupEntries_elem c f si sec it Hin). Qed.

(** Collapsing [k] leaves the entries of the other sections as they are. *)
Lemma flatOfGroups_collapse_others c f si (sections : list (Section T)) (k : string) :
  filter (λ it, sectionKey it ≠ k) (flatOfGroups ({[k]} ∪ c) f si sections) =
  filter (λ it, sectionKey it ≠ k) (flatOfGroups c f si sections).
Proof.
  revert si. induction sections as [|sec rest IH]; intros si; [done|].
  cbn [flatOfGroups]. rewrite !filter_app, IH. f_equal.
  destruct (decide (key sec = k)) as [Hk|Hk].
  - assert (∀ c', filter (λ it : FlattenedItem T, sectionKey it ≠ k)
                    (groupEntries c' f si sec) = []) as Hnone.
    { intros c'. apply filter_none, Forall_forall.
      intros it Hin Hne. apply Hne. by rewrite (groupEntries_sectionKey _ _ _ _ _ Hin). }
    by rewrite !Hnone.
  - unfold groupEntries.
    rewrite (bool_decide_ext (key sec ∈ {[k]} ∪ c) (key sec ∈ c)); [done|].
    set_solver.
Qed.

(** Of a collapsed section only the header is in the flat sequence. *)
Lemma flatOfGroups_collapsed c f si (sections : list (Section T)) it :
  it ∈ flatOfGroups c f si sections → sectionKey it ∈ c → type it = SectionHeader.
Proof.
  revert si. induction sections as [|sec rest IH]; intros si; cbn [flatOfGroups].
  - by intros ?%elem_of_nil.
  - intros [Hin|Hin]%elem_of_app Hc; [|by apply (IH (si + 1)%Z)].
    rewrite (groupEntries_sectionKey _ _ _ _ _ Hin) in Hc.
    unfold groupEntries in Hin. rewrite bool_decide_eq_true_2 in Hin by done.
    by apply list_elem_of_singleton in Hin as ->.
Qed.

Lemma inSync_flattenedData m :
  inSync m →
  Manager.flattenedData m =
    flatOfGroups (Manager.collapsedSections m) (Manager.hasSectionFooters m) 0
      (Manager.sections m).
Proof. intros (_ & -> & _). by rewrite buildLoop_data, flattenLoop_flatOfGroups. Qed.

End collapse_facts.

(** X30. Collapsing a section hides exactly its items and its footer, and
    expanding it brings them back.  In every state of the manager, after
    [setSectionCollapsed(k, true)] the section [k] is collapsed and no
    other section changes its state; of the entries of section [k] only
    the header is left in the flattened data, and the entries of the
    other sections are the same, in the same order.  If [k] was not
    collapsed before, [setSectionCollapsed(k, false)] then restores the
    flattened data. *)
Theorem setSectionCollapsed_hides_and_restores {T} (m : Manager.t T) (k : string) :
  Manager.reachable m →
  let m1 := Manager.setSectionCollapsed m k true in
  Manager.isSectionCollapsed m1 k = true ∧
  (∀ k', k' ≠ k → Manager.isSectionCollapsed m1 k' = Manager.isSectionCollapsed m k') ∧
  (∀ it, it ∈ Manager.flattenedData m1 → sectionKey it = k → type it = SectionHeader) ∧
  filter (λ it, sectionKey it ≠ k) (Manager.flattenedData m1) =
    filter (λ it, sectionKey it ≠ k) (Manager.flattenedData m) ∧
  (Manager.isSectionCollapsed m k = false →
   Manager.flattenedData (Manager.setSectionCollapsed m1 k false) = Manager.flattenedData m).
Proof.
  intros Hm%manager_reachable_inSync m1.
  assert (Manager.flattenedData m1 =
          flatOfGroups ({[k]} ∪ Manager.collapsedSections m) (Manager.hasSectionFooters m) 0
            (Manager.sections m)) as Hm1.
  { unfold m1, Manager.setSectionCollapsed. by rewrite updateData_flatOfGroups. }
  split; [|split; [|split; [|split]]].
  - unfold m1, Manager.isSectionCollapsed, Manager.setSectionCollapsed. simpl.
    apply bool_decide_eq_true_2. set_solver.
  - intros k' Hne. unfold m1, Manager.isSectionCollapsed, Manager.setSectionCollapsed. simpl.
    apply bool_decide_ext. set_solver.
  - rewrite Hm1. intros it Hin Hk. apply (flatOfGroups_collapsed _ _ _ _ _ Hin). set_solver.
  - rewrite Hm1, (inSync_flattenedData m Hm). apply flatOfGroups_collapse_others.
  - intros Hk%bool_decide_eq_false. unfold Manager.setSectionCollapsed at 1.
    rewrite updateData_flatOfGroups, (inSync_flattenedData m Hm).
    unfold m1, Manager.setSectionCollapsed. simpl. f_equal. set_solver.
Qed.

Lemma setSectionCollapsed_hides_and_restores_witness :
  Manager.isSectionCollapsed (Manager.setSectionCollapsed scenarioManager "c" true) "c" = true ∧
  Manager.flattenedData
    (Manager.setSectionCollapsed (Manager.setSectionCollapsed scenarioManager "c" true)
       "c" false) = Manager.flattenedData scenarioManager.
Proof.
  destruct (setSectionCollapsed_hides_and_restores scenarioManager "c"
              scenarioManager_reachable) as (Hc & _ & _ & _ & Hback).
  split; [exact Hc|]. apply Hback. by vm_compute.
Defined.
